(** * shedoc: the comment parser, embedded and verified

    A shallow embedding of the Go package [shedoc] (value.go, tag.go,
    model.go, parser.go), of [formatValue] and the helpers of
    internal/generate (helptext.go, manpage.go, completions_bash.go,
    completions_fish.go) that read the document model, and of
    [getMetaField] of the command line, followed by the properties of the
    specification that concern them and by further properties of the
    code.

    Conventions of the embedding:
    - a Go [string] is its sequence of bytes, [list ascii];
    - a Go [int] line number is a [Z]; the only arithmetic on it is the
      increment of the parse loop, whose 64-bit wrap-around is written out;
    - the regular expressions of parser.go are values of a small syntax
      [regex], run by a backtracking matcher (Go's leftmost-first
      semantics for patterns anchored with ^);
    - the parser object is a record threaded through the handlers; a nil
      pointer dereference is the outcome [Panic];
    - the input reader is the list of lines [bufio.Scanner] yields. *)

From Stdlib Require Import Ascii String List ZArith Lia Bool Arith.
Import ListNotations.
Open Scope list_scope.
Set Warnings "-notation-for-abbreviation".

(* ================================================================= *)
(** ** Go strings *)

Definition gostring := list ascii.

(** A string literal of the source. *)
Definition lit (s : string) : gostring := list_ascii_of_string s.

Definition code (c : ascii) : nat := nat_of_ascii c.

Fixpoint eqs (a b : gostring) : bool :=
  match a, b with
  | [], [] => true
  | x :: a', y :: b' => Ascii.eqb x y && eqs a' b'
  | _, _ => false
  end.

Infix "==" := eqs (at level 70, no associativity).

(** [s == ""] for a string and [len(s) == 0] for a slice. *)
Definition isEmpty {A : Type} (s : list A) : bool :=
  match s with [] => true | _ => false end.

(** The string that holds one newline. *)
Definition nl : gostring := ["010"%char].

(** [strings.HasPrefix]. *)
Fixpoint HasPrefix (s prefix : gostring) : bool :=
  match prefix, s with
  | [], _ => true
  | p :: prefix', c :: s' => Ascii.eqb p c && HasPrefix s' prefix'
  | _ :: _, [] => false
  end.

(** [strings.HasSuffix] and [strings.TrimSuffix]. *)
Definition HasSuffix (s suffix : gostring) : bool :=
  HasPrefix (rev s) (rev suffix).

Definition TrimSuffix (s suffix : gostring) : gostring :=
  if HasSuffix s suffix then firstn (length s - length suffix) s else s.

(** [strings.Join]. *)
Fixpoint Join (elems : list gostring) (sep : gostring) : gostring :=
  match elems with
  | [] => []
  | [e] => e
  | e :: rest => e ++ sep ++ Join rest sep
  end.

(** [strings.Index(s, "=")] and [strings.IndexAny(s, " \t")] are only used
    to cut a string at the first occurrence of a byte of a given class;
    [cut p s] returns the part before it ([s[:idx]]) and the part after it
    ([s[idx+1:]]), or [None] when [idx < 0]. *)
Fixpoint cut (p : ascii -> bool) (s : gostring) : option (gostring * gostring) :=
  match s with
  | [] => None
  | c :: s' =>
      if p c then Some ([], s')
      else match cut p s' with
           | Some (a, b) => Some (c :: a, b)
           | None => None
           end
  end.

Definition isEq (c : ascii) : bool := code c =? 61.
Definition isBlankTab (c : ascii) : bool := (code c =? 32) || (code c =? 9).

(** *** strings.TrimSpace

    [TrimSpace] removes the leading and the trailing white-space runes, as
    defined by Unicode ([unicode.IsSpace]): the six ASCII ones, U+0085,
    U+00A0 and the White_Space code points above Latin-1, in their UTF-8
    encodings. *)

Definition asciiSpace (c : ascii) : bool :=
  let n := code c in
  (n =? 9) || (n =? 10) || (n =? 11) || (n =? 12) || (n =? 13) || (n =? 32).

(** U+0085 and U+00A0. *)
Definition space2 (c1 c2 : ascii) : bool :=
  (code c1 =? 194) && ((code c2 =? 133) || (code c2 =? 160)).

(** U+1680, U+2000..U+200A, U+2028, U+2029, U+202F, U+205F, U+3000. *)
Definition space3 (c1 c2 c3 : ascii) : bool :=
  let a := code c1 in let b := code c2 in let c := code c3 in
  ((a =? 225) && (b =? 154) && (c =? 128))
  || ((a =? 226) && (b =? 128)
        && (((128 <=? c) && (c <=? 138)) || (c =? 168) || (c =? 169) || (c =? 175)))
  || ((a =? 226) && (b =? 129) && (c =? 159))
  || ((a =? 227) && (b =? 128) && (c =? 128)).

(** [strings.TrimLeftFunc(s, unicode.IsSpace)]. *)
Fixpoint TrimLeft (s : gostring) : gostring :=
  match s with
  | [] => []
  | c1 :: s1 =>
      if asciiSpace c1 then TrimLeft s1
      else match s1 with
           | [] => s
           | c2 :: s2 =>
               if space2 c1 c2 then TrimLeft s2
               else match s2 with
                    | [] => s
                    | c3 :: s3 => if space3 c1 c2 c3 then TrimLeft s3 else s
                    end
           end
  end.

(** [strings.TrimRightFunc(s, unicode.IsSpace)], on the reversed string:
    [r] lists the bytes of the string from the last one backwards. *)
Fixpoint TrimRightRev (r : gostring) : gostring :=
  match r with
  | [] => []
  | c1 :: r1 =>
      if asciiSpace c1 then TrimRightRev r1
      else match r1 with
           | [] => r
           | c2 :: r2 =>
               if space2 c2 c1 then TrimRightRev r2
               else match r2 with
                    | [] => r
                    | c3 :: r3 => if space3 c3 c2 c1 then TrimRightRev r3 else r
                    end
           end
  end.

Definition TrimRight (s : gostring) : gostring := rev (TrimRightRev (rev s)).

Definition TrimSpace (s : gostring) : gostring := TrimRight (TrimLeft s).

(* ================================================================= *)
(** ** Regular expressions (package regexp)

    The eight patterns of parser.go use literals, character classes,
    greedy repetitions of a character class, an optional character,
    capturing groups and the end anchor; every one of them starts with ^.  (In the comments below a
    blank separates a star from a closing parenthesis of the pattern.) *)

Inductive regex : Type :=
| Lit (s : gostring)                      (* literal text *)
| Chr (cls : ascii -> bool)               (* one character of a class *)
| Rep (cls : ascii -> bool) (min : nat)   (* x* is [Rep x 0], x+ is [Rep x 1] *)
| Opt (c : ascii)                         (* c? *)
| Cap (r : regex)                         (* ( r ) *)
| Cat (r1 r2 : regex)                     (* r1 r2 *)
| Eot.                                    (* $ *)

(** \s, \w, [\w-] and the dot of RE2. *)
Definition cls_s (c : ascii) : bool :=
  let n := code c in
  (n =? 9) || (n =? 10) || (n =? 12) || (n =? 13) || (n =? 32).

Definition cls_w (c : ascii) : bool :=
  let n := code c in
  ((48 <=? n) && (n <=? 57)) || ((65 <=? n) && (n <=? 90))
  || ((97 <=? n) && (n <=? 122)) || (n =? 95).

Definition cls_w_dash (c : ascii) : bool := cls_w c || (code c =? 45).

Definition cls_dot (c : ascii) : bool := negb (code c =? 10).

Section Matcher.
Variable A : Type.

(** Greedy repetition: the longest run first, then shorter ones. *)
Fixpoint rep (cls : ascii -> bool) (min : nat) (s : gostring)
         (k : gostring -> option A) : option A :=
  let stop := match min with O => k s | S _ => None end in
  match s with
  | [] => stop
  | c :: s' =>
      if cls c then
        match rep cls (pred min) s' k with
        | Some a => Some a
        | None => stop
        end
      else stop
  end.

Fixpoint dropPrefix (p s : gostring) : option gostring :=
  match p, s with
  | [], _ => Some s
  | x :: p', c :: s' => if Ascii.eqb x c then dropPrefix p' s' else None
  | _ :: _, [] => None
  end.
End Matcher.

Arguments rep {A}.

(** [run r s caps k] matches [r] at the start of [s]; [k] receives the
    rest of the text and the groups captured so far. *)
Fixpoint run (r : regex) (s : gostring) (caps : list gostring)
         (k : gostring -> list gostring -> option (list gostring))
  : option (list gostring) :=
  match r with
  | Lit l => match dropPrefix l s with
             | Some s' => k s' caps
             | None => None
             end
  | Chr cls =>
      match s with
      | c :: s' => if cls c then k s' caps else None
      | [] => None
      end
  | Rep cls min => rep cls min s (fun s' => k s' caps)
  | Opt c =>
      match s with
      | c' :: s' =>
          if Ascii.eqb c c' then
            match k s' caps with
            | Some a => Some a
            | None => k s caps
            end
          else k s caps
      | [] => k s caps
      end
  | Cap r1 =>
      run r1 s caps
          (fun s' caps' => k s' (caps' ++ [firstn (length s - length s') s]))
  | Cat r1 r2 => run r1 s caps (fun s' caps' => run r2 s' caps' k)
  | Eot => match s with [] => k [] caps | _ => None end
  end.

(** [Regexp.FindStringSubmatch] for a pattern that starts with ^: the
    captured groups m[1], m[2], ... of the match at position 0, or [None]
    (nil) when there is none. *)
Definition FindStringSubmatch (r : regex) (s : gostring) : option (list gostring) :=
  run r s [] (fun _ caps => Some caps).

Definition MatchString (r : regex) (s : gostring) : bool :=
  match FindStringSubmatch r s with Some _ => true | None => false end.

Infix ";;" := Cat (at level 61, right associativity).

Definition reShebang : regex :=                 (* ^#!(.+)$ *)
  Lit (lit "#!") ;; Cap (Rep cls_dot 1) ;; Eot.
Definition reShedocInline : regex :=            (* ^#\?/(\w+)\s+(.+)$ *)
  Lit (lit "#?/") ;; Cap (Rep cls_w 1) ;; Rep cls_s 1 ;; Cap (Rep cls_dot 1) ;; Eot.
Definition reShedocOpen : regex :=              (* ^#\?/(\w+)\s*$ *)
  Lit (lit "#?/") ;; Cap (Rep cls_w 1) ;; Rep cls_s 0 ;; Eot.
Definition reSheblockOpen : regex :=            (* ^#@/(\w* )\s*(.* )$ *)
  Lit (lit "#@/") ;; Cap (Rep cls_w 0) ;; Rep cls_s 0 ;; Cap (Rep cls_dot 0) ;; Eot.
Definition reContinuation : regex :=            (* ^ # ?(.* )$ *)
  Lit (lit " #") ;; Opt " "%char ;; Cap (Rep cls_dot 0) ;; Eot.
Definition reBlockClose : regex :=              (* ^ ##\s*$ *)
  Lit (lit " ##") ;; Rep cls_s 0 ;; Eot.
Definition reFuncParen : regex :=               (* ^\s*(\w[\w-]* )\s*\(\)\s*\{? *)
  Rep cls_s 0 ;; Cap (Chr cls_w ;; Rep cls_w_dash 0) ;; Rep cls_s 0
  ;; Lit (lit "()") ;; Rep cls_s 0 ;; Opt "{"%char.
Definition reFuncKeyword : regex :=             (* ^\s*function\s+(\w[\w-]* ) *)
  Rep cls_s 0 ;; Lit (lit "function") ;; Rep cls_s 1
  ;; Cap (Chr cls_w ;; Rep cls_w_dash 0).


(* ================================================================= *)
(** ** Errors and outcomes *)

(** The text of an error or of a warning, kept as the format of the
    [fmt.Errorf] call and its string operands (the rendering of %q is
    [strconv.Quote], which is not part of the package).  [Wrapf] is a
    format with %w. *)
Inductive message : Type :=
| Msgf (format : string) (args : list gostring)
| Wrapf (format : string) (inner : message).

(** A Go result [(T, error)]. *)
Inductive result (A : Type) : Type :=
| Ok (a : A)
| Err (e : message).
Arguments Ok {A} a.
Arguments Err {A} e.

(** A computation that may dereference a nil pointer. *)
Inductive outcome (A : Type) : Type :=
| Done (a : A)
| Panic.
Arguments Done {A} a.
Arguments Panic {A}.

Definition bind {A B : Type} (m : outcome A) (f : A -> outcome B) : outcome B :=
  match m with
  | Done a => f a
  | Panic => Panic
  end.

Notation "'do' x <- m 'in' f" := (bind m (fun x => f))
  (at level 10, x name, m at level 100, f at level 200, only parsing).

(** Go's [int] on 64-bit targets, and [p.line++]. *)
Definition max_int : Z := 9223372036854775807.
Definition min_int : Z := -9223372036854775808.
Definition int_succ (n : Z) : Z := if (n =? max_int)%Z then min_int else (n + 1)%Z.

(* ================================================================= *)
(** ** model.go

    One module per struct, with the field names of the source.  Two fields
    carry a trailing underscore: [Block.Visibility_] (the type has that
    name) and [Meta.Section_] (a keyword). *)

Module Value.
Record t : Type := mk
  { Name : gostring; Required : bool; Default : gostring; Variadic : bool }.
Definition zero : t := mk [] false [] false.
End Value.
Notation Value := Value.t.

Module Flag.
Record t : Type := mk
  { Short : gostring; Long : gostring; Description : gostring; Line : Z }.
Definition set_Description (d : gostring) (v : t) : t :=
  mk (Short v) (Long v) d (Line v).
End Flag.
Notation Flag := Flag.t.

Module Option.
Record t : Type := mk
  { Short : gostring; Long : gostring; Value : Value.t;
    Description : gostring; Line : Z }.
Definition set_Description (d : gostring) (v : t) : t :=
  mk (Short v) (Long v) (Value v) d (Line v).
End Option.
Notation Option := Option.t.

Module Operand.
Record t : Type := mk
  { Value : Value.t; Description : gostring; Line : Z }.
Definition set_Description (d : gostring) (v : t) : t :=
  mk (Value v) d (Line v).
End Operand.
Notation Operand := Operand.t.

Module Env.
Record t : Type := mk { Name : gostring; Description : gostring; Line : Z }.
Definition set_Description (d : gostring) (v : t) : t := mk (Name v) d (Line v).
End Env.
Notation Env := Env.t.

Module Reads.
Record t : Type := mk { Path : gostring; Description : gostring; Line : Z }.
Definition set_Description (d : gostring) (v : t) : t := mk (Path v) d (Line v).
End Reads.
Notation Reads := Reads.t.

Module Stdin.
Record t : Type := mk { Description : gostring; Line : Z }.
Definition set_Description (d : gostring) (v : t) : t := mk d (Line v).
End Stdin.
Notation Stdin := Stdin.t.

Module Exit.
Record t : Type := mk { Code : gostring; Description : gostring; Line : Z }.
Definition set_Description (d : gostring) (v : t) : t := mk (Code v) d (Line v).
End Exit.
Notation Exit := Exit.t.

Module Stdout.
Record t : Type := mk { Description : gostring; Line : Z }.
Definition set_Description (d : gostring) (v : t) : t := mk d (Line v).
End Stdout.
Notation Stdout := Stdout.t.

Module Stderr.
Record t : Type := mk { Description : gostring; Line : Z }.
Definition set_Description (d : gostring) (v : t) : t := mk d (Line v).
End Stderr.
Notation Stderr := Stderr.t.

Module Sets.
Record t : Type := mk { Name : gostring; Description : gostring; Line : Z }.
Definition set_Description (d : gostring) (v : t) : t := mk (Name v) d (Line v).
End Sets.
Notation Sets := Sets.t.

Module Writes.
Record t : Type := mk { Path : gostring; Description : gostring; Line : Z }.
Definition set_Description (d : gostring) (v : t) : t := mk (Path v) d (Line v).
End Writes.
Notation Writes := Writes.t.

Module Deprecated.
Record t : Type := mk { Message : gostring; Line : Z }.
Definition set_Message (m : gostring) (v : t) : t := mk m (Line v).
End Deprecated.
Notation Deprecated := Deprecated.t.

Module Warning.
Record t : Type := mk { Line : Z; Message : message }.
End Warning.
Notation Warning := Warning.t.

Module Meta.
Record t : Type := mk
  { Name : gostring; Version : gostring; Synopsis : gostring;
    Description : gostring; Examples : gostring; Section_ : gostring;
    Author : gostring; License : gostring }.
Definition zero : t := mk [] [] [] [] [] [] [] [].
End Meta.
Notation Meta := Meta.t.

Inductive Visibility : Type :=
| VisibilityCommand
| VisibilitySubcommand
| VisibilityPublic
| VisibilityPrivate.

Module Block.
Record t : Type := mk
  { Visibility_ : Visibility; Name : gostring; Description : gostring;
    FunctionName : gostring; Line : Z;
    Flags : list Flag.t; Options : list Option.t; Operands : list Operand.t;
    Env : list Env.t; Reads : list Reads.t; Stdin : option Stdin.t;
    Exit : list Exit.t; Stdout : option Stdout.t; Stderr : option Stderr.t;
    Sets : list Sets.t; Writes : list Writes.t;
    Deprecated : option Deprecated.t }.

(** [&Block{Visibility: v, Name: n, Line: l}]. *)
Definition new (v : Visibility) (n : gostring) (l : Z) : t :=
  mk v n [] [] l [] [] [] [] [] None [] None None [] [] None.

Definition set_Description (x : gostring) (b : t) : t :=
  mk (Visibility_ b) (Name b) x (FunctionName b) (Line b) (Flags b)
     (Options b) (Operands b) (Env b) (Reads b) (Stdin b) (Exit b)
     (Stdout b) (Stderr b) (Sets b) (Writes b) (Deprecated b).
Definition set_FunctionName (x : gostring) (b : t) : t :=
  mk (Visibility_ b) (Name b) (Description b) x (Line b) (Flags b)
     (Options b) (Operands b) (Env b) (Reads b) (Stdin b) (Exit b)
     (Stdout b) (Stderr b) (Sets b) (Writes b) (Deprecated b).
Definition set_Flags (x : list Flag.t) (b : t) : t :=
  mk (Visibility_ b) (Name b) (Description b) (FunctionName b) (Line b) x
     (Options b) (Operands b) (Env b) (Reads b) (Stdin b) (Exit b)
     (Stdout b) (Stderr b) (Sets b) (Writes b) (Deprecated b).
Definition set_Options (x : list Option.t) (b : t) : t :=
  mk (Visibility_ b) (Name b) (Description b) (FunctionName b) (Line b)
     (Flags b) x (Operands b) (Env b) (Reads b) (Stdin b) (Exit b)
     (Stdout b) (Stderr b) (Sets b) (Writes b) (Deprecated b).
Definition set_Operands (x : list Operand.t) (b : t) : t :=
  mk (Visibility_ b) (Name b) (Description b) (FunctionName b) (Line b)
     (Flags b) (Options b) x (Env b) (Reads b) (Stdin b) (Exit b)
     (Stdout b) (Stderr b) (Sets b) (Writes b) (Deprecated b).
Definition set_Env (x : list Env.t) (b : t) : t :=
  mk (Visibility_ b) (Name b) (Description b) (FunctionName b) (Line b)
     (Flags b) (Options b) (Operands b) x (Reads b) (Stdin b) (Exit b)
     (Stdout b) (Stderr b) (Sets b) (Writes b) (Deprecated b).
Definition set_Reads (x : list Reads.t) (b : t) : t :=
  mk (Visibility_ b) (Name b) (Description b) (FunctionName b) (Line b)
     (Flags b) (Options b) (Operands b) (Env b) x (Stdin b) (Exit b)
     (Stdout b) (Stderr b) (Sets b) (Writes b) (Deprecated b).
Definition set_Stdin (x : option Stdin.t) (b : t) : t :=
  mk (Visibility_ b) (Name b) (Description b) (FunctionName b) (Line b)
     (Flags b) (Options b) (Operands b) (Env b) (Reads b) x (Exit b)
     (Stdout b) (Stderr b) (Sets b) (Writes b) (Deprecated b).
Definition set_Exit (x : list Exit.t) (b : t) : t :=
  mk (Visibility_ b) (Name b) (Description b) (FunctionName b) (Line b)
     (Flags b) (Options b) (Operands b) (Env b) (Reads b) (Stdin b) x
     (Stdout b) (Stderr b) (Sets b) (Writes b) (Deprecated b).
Definition set_Stdout (x : option Stdout.t) (b : t) : t :=
  mk (Visibility_ b) (Name b) (Description b) (FunctionName b) (Line b)
     (Flags b) (Options b) (Operands b) (Env b) (Reads b) (Stdin b)
     (Exit b) x (Stderr b) (Sets b) (Writes b) (Deprecated b).
Definition set_Stderr (x : option Stderr.t) (b : t) : t :=
  mk (Visibility_ b) (Name b) (Description b) (FunctionName b) (Line b)
     (Flags b) (Options b) (Operands b) (Env b) (Reads b) (Stdin b)
     (Exit b) (Stdout b) x (Sets b) (Writes b) (Deprecated b).
Definition set_Sets (x : list Sets.t) (b : t) : t :=
  mk (Visibility_ b) (Name b) (Description b) (FunctionName b) (Line b)
     (Flags b) (Options b) (Operands b) (Env b) (Reads b) (Stdin b)
     (Exit b) (Stdout b) (Stderr b) x (Writes b) (Deprecated b).
Definition set_Writes (x : list Writes.t) (b : t) : t :=
  mk (Visibility_ b) (Name b) (Description b) (FunctionName b) (Line b)
     (Flags b) (Options b) (Operands b) (Env b) (Reads b) (Stdin b)
     (Exit b) (Stdout b) (Stderr b) (Sets b) x (Deprecated b).
Definition set_Deprecated (x : option Deprecated.t) (b : t) : t :=
  mk (Visibility_ b) (Name b) (Description b) (FunctionName b) (Line b)
     (Flags b) (Options b) (Operands b) (Env b) (Reads b) (Stdin b)
     (Exit b) (Stdout b) (Stderr b) (Sets b) (Writes b) x.
End Block.
Notation Block := Block.t.

Module Document.
Record t : Type := mk
  { Path : gostring; Shebang : gostring; Meta : Meta.t;
    Blocks : list Block.t; Warnings : list Warning.t }.
Definition zero : t := mk [] [] Meta.zero [] [].
Definition set_Path (x : gostring) (d : t) : t :=
  mk x (Shebang d) (Meta d) (Blocks d) (Warnings d).
Definition set_Shebang (x : gostring) (d : t) : t :=
  mk (Path d) x (Meta d) (Blocks d) (Warnings d).
Definition set_Meta (x : Meta.t) (d : t) : t :=
  mk (Path d) (Shebang d) x (Blocks d) (Warnings d).
Definition set_Blocks (x : list Block) (d : t) : t :=
  mk (Path d) (Shebang d) (Meta d) x (Warnings d).
Definition set_Warnings (x : list Warning) (d : t) : t :=
  mk (Path d) (Shebang d) (Meta d) (Blocks d) x.
End Document.
Notation Document := Document.t.

(** The dynamic type and value of a parsed tag (what the [any] returned by
    [parseTag] holds). *)
Inductive TagResult : Type :=
| RFlag (v : Flag)
| ROption (v : Option)
| ROperand (v : Operand)
| REnv (v : Env)
| RReads (v : Reads)
| RStdin (v : Stdin)
| RExit (v : Exit)
| RStdout (v : Stdout)
| RStderr (v : Stderr)
| RSets (v : Sets)
| RWrites (v : Writes)
| RDeprecated (v : Deprecated).

(* ================================================================= *)
(** ** value.go *)

Definition dots : gostring := lit "...".

Definition ParseValue (s : gostring) : result Value :=
  let s := TrimSpace s in
  if length s <? 3 then Err (Msgf "invalid value notation: %q" [s])
  else
    let open := hd " "%char s in
    let close := last s " "%char in
    let bracket :=
      if Ascii.eqb open "<" && Ascii.eqb close ">" then Some true
      else if Ascii.eqb open "[" && Ascii.eqb close "]" then Some false
      else None in
    match bracket with
    | None => Err (Msgf "invalid value notation: %q (must be <...> or [...])" [s])
    | Some required =>
        let inner := firstn (length s - 2) (skipn 1 s) in
        if isEmpty inner
        then Err (Msgf "invalid value notation: %q (empty name)" [s])
        else
          let variadic := HasSuffix inner dots in
          let inner := if variadic then TrimSuffix inner dots else inner in
          if variadic && isEmpty inner
          then Err (Msgf "invalid value notation: %q (empty name before ...)" [s])
          else
            match cut isEq inner with
            | Some (name, def) =>
                if required
                then Err (Msgf "invalid value notation: %q (defaults not allowed in required values)" [s])
                else if isEmpty name
                then Err (Msgf "invalid value notation: %q (empty name before =)" [s])
                else Ok (Value.mk name required def variadic)
            | None => Ok (Value.mk inner required [] variadic)
            end
    end.

(** [formatValue] of internal/generate/helptext.go, the printer of the
    value notation. *)
Definition formatValue (v : Value) : gostring :=
  let name := if Value.Variadic v then Value.Name v ++ dots else Value.Name v in
  if Value.Required v then lit "<" ++ name ++ lit ">"
  else if negb (isEmpty (Value.Default v))
       then lit "[" ++ name ++ lit "=" ++ Value.Default v ++ lit "]"
       else lit "[" ++ name ++ lit "]".

(* ================================================================= *)
(** ** tag.go *)

Definition splitFirstToken (s : gostring) : gostring * gostring :=
  let s := TrimSpace s in
  match cut isBlankTab s with
  | None => (s, [])
  | Some (token, rest) => (token, rest)
  end.

(** The loop of [consumeFlags].  Every turn that goes round again has
    consumed a spelling, so the text gets shorter; [fuel] bounds the number
    of turns and [None] means it ran out. *)
Fixpoint consumeFlagsLoop (fuel : nat) (text short long : gostring)
  : option (gostring * gostring * gostring) :=
  match fuel with
  | O => None
  | S fuel' =>
      if isEmpty text then Some (text, short, long)
      else
        let consumed :=
          if HasPrefix text (lit "--") then
            let (name, rest) := splitFirstToken text in
            Some (TrimSpace rest, short, name)
          else if HasPrefix text (lit "-") then
            let (name, rest) := splitFirstToken text in
            Some (TrimSpace rest, name, long)
          else None in
        match consumed with
        | None => Some (text, short, long)
        | Some (text', short', long') =>
            if HasPrefix text' (lit "|")
            then consumeFlagsLoop fuel' (TrimSpace (skipn 1 text')) short' long'
            else Some (text', short', long')
        end
  end.

(** [consumeFlags text &short &long]: the remaining text and the final
    contents of the two string variables.  [flagLoop] is the loop, run with
    fuel that always suffices ([flagLoop_eq]). *)
Definition flagLoop (text short long : gostring) : gostring * gostring * gostring :=
  match consumeFlagsLoop (S (length text)) text short long with
  | Some r => r
  | None => (text, short, long)
  end.

Definition consumeFlags (text short long : gostring)
  : gostring * gostring * gostring :=
  flagLoop (TrimSpace text) short long.

Definition parseFlag (text : gostring) (line : Z) : result Flag :=
  let text := TrimSpace text in
  if isEmpty text then Err (Msgf "@flag requires at least one flag name" [])
  else
    let '(rest, short, long) := consumeFlags text [] [] in
    Ok (Flag.mk short long (TrimSpace rest) line).

Definition parseOption (text : gostring) (line : Z) : result Option :=
  let text := TrimSpace text in
  if isEmpty text
  then Err (Msgf "@option requires at least one flag name and a value" [])
  else
    let '(rest, short, long) := consumeFlags text [] [] in
    let rest := TrimSpace rest in
    let (valStr, desc) := splitFirstToken rest in
    if isEmpty valStr
    then Err (Msgf "@option requires a value notation (e.g., <value> or [value])" [])
    else
      match ParseValue valStr with
      | Err e => Err (Wrapf "@option value: %w" e)
      | Ok v => Ok (Option.mk short long v (TrimSpace desc) line)
      end.

Definition parseOperand (text : gostring) (line : Z) : result Operand :=
  let text := TrimSpace text in
  if isEmpty text then Err (Msgf "@operand requires a value notation" [])
  else
    let (valStr, desc) := splitFirstToken text in
    match ParseValue valStr with
    | Err e => Err (Wrapf "@operand value: %w" e)
    | Ok v => Ok (Operand.mk v (TrimSpace desc) line)
    end.

Definition parseEnv (text : gostring) (line : Z) : result Env :=
  let text := TrimSpace text in
  if isEmpty text then Err (Msgf "@env requires a variable name" [])
  else
    let (name, desc) := splitFirstToken text in
    Ok (Env.mk name (TrimSpace desc) line).

Definition parseReads (text : gostring) (line : Z) : result Reads :=
  let text := TrimSpace text in
  if isEmpty text then Err (Msgf "@reads requires a path" [])
  else
    let (path, desc) := splitFirstToken text in
    Ok (Reads.mk path (TrimSpace desc) line).

Definition parseExit (text : gostring) (line : Z) : result Exit :=
  let text := TrimSpace text in
  if isEmpty text then Err (Msgf "@exit requires an exit code" [])
  else
    let (code, desc) := splitFirstToken text in
    Ok (Exit.mk code (TrimSpace desc) line).

Definition parseSets (text : gostring) (line : Z) : result Sets :=
  let text := TrimSpace text in
  if isEmpty text then Err (Msgf "@sets requires a variable name" [])
  else
    let (name, desc) := splitFirstToken text in
    Ok (Sets.mk name (TrimSpace desc) line).

Definition parseWrites (text : gostring) (line : Z) : result Writes :=
  let text := TrimSpace text in
  if isEmpty text then Err (Msgf "@writes requires a path" [])
  else
    let (path, desc) := splitFirstToken text in
    Ok (Writes.mk path (TrimSpace desc) line).

Definition rmap {A B : Type} (f : A -> B) (r : result A) : result B :=
  match r with
  | Ok a => Ok (f a)
  | Err e => Err e
  end.

(** [parseTag]: the tag name it returns is always its argument [name], so
    the model returns the other two results. *)
Definition parseTag (name text : gostring) (line : Z) : result TagResult :=
  if name == lit "flag" then rmap RFlag (parseFlag text line)
  else if name == lit "option" then rmap ROption (parseOption text line)
  else if name == lit "operand" then rmap ROperand (parseOperand text line)
  else if name == lit "env" then rmap REnv (parseEnv text line)
  else if name == lit "reads" then rmap RReads (parseReads text line)
  else if name == lit "stdin" then Ok (RStdin (Stdin.mk text line))
  else if name == lit "exit" then rmap RExit (parseExit text line)
  else if name == lit "stdout" then Ok (RStdout (Stdout.mk text line))
  else if name == lit "stderr" then Ok (RStderr (Stderr.mk text line))
  else if name == lit "sets" then rmap RSets (parseSets text line)
  else if name == lit "writes" then rmap RWrites (parseWrites text line)
  else if name == lit "deprecated" then Ok (RDeprecated (Deprecated.mk text line))
  else Err (Msgf "unknown tag @%s" [name]).


(* ================================================================= *)
(** ** parser.go *)

Inductive parseState : Type :=
| stateTop        (* outside any block *)
| stateShedoc     (* inside a #?/ multi-line block *)
| stateSheblock.  (* inside a #@/ block *)

(** The parser object.  [block] and [currentResult] are [None] when the
    Go fields are nil. *)
Record parser : Type := mkParser
  { doc : Document;
    line : Z;
    state : parseState;
    shedocTag : gostring;
    shedocLines : list gostring;
    block : option Block;
    blockDesc : list gostring;
    inTags : bool;
    currentTag : gostring;
    currentResult : option TagResult;
    tagContLines : list gostring }.

Definition set_doc (x : Document) (p : parser) : parser :=
  mkParser x (line p) (state p) (shedocTag p) (shedocLines p) (block p)
           (blockDesc p) (inTags p) (currentTag p) (currentResult p) (tagContLines p).
Definition set_line (x : Z) (p : parser) : parser :=
  mkParser (doc p) x (state p) (shedocTag p) (shedocLines p) (block p)
           (blockDesc p) (inTags p) (currentTag p) (currentResult p) (tagContLines p).
Definition set_state (x : parseState) (p : parser) : parser :=
  mkParser (doc p) (line p) x (shedocTag p) (shedocLines p) (block p)
           (blockDesc p) (inTags p) (currentTag p) (currentResult p) (tagContLines p).
Definition set_shedocTag (x : gostring) (p : parser) : parser :=
  mkParser (doc p) (line p) (state p) x (shedocLines p) (block p)
           (blockDesc p) (inTags p) (currentTag p) (currentResult p) (tagContLines p).
Definition set_shedocLines (x : list gostring) (p : parser) : parser :=
  mkParser (doc p) (line p) (state p) (shedocTag p) x (block p)
           (blockDesc p) (inTags p) (currentTag p) (currentResult p) (tagContLines p).
Definition set_block (x : option Block) (p : parser) : parser :=
  mkParser (doc p) (line p) (state p) (shedocTag p) (shedocLines p) x
           (blockDesc p) (inTags p) (currentTag p) (currentResult p) (tagContLines p).
Definition set_blockDesc (x : list gostring) (p : parser) : parser :=
  mkParser (doc p) (line p) (state p) (shedocTag p) (shedocLines p) (block p)
           x (inTags p) (currentTag p) (currentResult p) (tagContLines p).
Definition set_inTags (x : bool) (p : parser) : parser :=
  mkParser (doc p) (line p) (state p) (shedocTag p) (shedocLines p) (block p)
           (blockDesc p) x (currentTag p) (currentResult p) (tagContLines p).
Definition set_currentTag (x : gostring) (p : parser) : parser :=
  mkParser (doc p) (line p) (state p) (shedocTag p) (shedocLines p) (block p)
           (blockDesc p) (inTags p) x (currentResult p) (tagContLines p).
Definition set_currentResult (x : option TagResult) (p : parser) : parser :=
  mkParser (doc p) (line p) (state p) (shedocTag p) (shedocLines p) (block p)
           (blockDesc p) (inTags p) (currentTag p) x (tagContLines p).
Definition set_tagContLines (x : list gostring) (p : parser) : parser :=
  mkParser (doc p) (line p) (state p) (shedocTag p) (shedocLines p) (block p)
           (blockDesc p) (inTags p) (currentTag p) (currentResult p) x.

(** [m[i]] for a match [m] of a pattern with at least [i] groups. *)
Definition sub (m : list gostring) (i : nat) : gostring := nth (i - 1) m [].

Definition addWarning (w : Warning) (p : parser) : parser :=
  set_doc (Document.set_Warnings (Document.Warnings (doc p) ++ [w]) (doc p)) p.

Definition setShedocMeta (tag value : gostring) (p : parser) : parser :=
  let m := Document.Meta (doc p) in
  let put (m' : Meta) := set_doc (Document.set_Meta m' (doc p)) p in
  if tag == lit "name" then
    put (Meta.mk value (Meta.Version m) (Meta.Synopsis m) (Meta.Description m)
                 (Meta.Examples m) (Meta.Section_ m) (Meta.Author m) (Meta.License m))
  else if tag == lit "version" then
    put (Meta.mk (Meta.Name m) value (Meta.Synopsis m) (Meta.Description m)
                 (Meta.Examples m) (Meta.Section_ m) (Meta.Author m) (Meta.License m))
  else if tag == lit "synopsis" then
    put (Meta.mk (Meta.Name m) (Meta.Version m) value (Meta.Description m)
                 (Meta.Examples m) (Meta.Section_ m) (Meta.Author m) (Meta.License m))
  else if tag == lit "description" then
    put (Meta.mk (Meta.Name m) (Meta.Version m) (Meta.Synopsis m) value
                 (Meta.Examples m) (Meta.Section_ m) (Meta.Author m) (Meta.License m))
  else if tag == lit "examples" then
    put (Meta.mk (Meta.Name m) (Meta.Version m) (Meta.Synopsis m) (Meta.Description m)
                 value (Meta.Section_ m) (Meta.Author m) (Meta.License m))
  else if tag == lit "section" then
    put (Meta.mk (Meta.Name m) (Meta.Version m) (Meta.Synopsis m) (Meta.Description m)
                 (Meta.Examples m) value (Meta.Author m) (Meta.License m))
  else if tag == lit "author" then
    put (Meta.mk (Meta.Name m) (Meta.Version m) (Meta.Synopsis m) (Meta.Description m)
                 (Meta.Examples m) (Meta.Section_ m) value (Meta.License m))
  else if tag == lit "license" then
    put (Meta.mk (Meta.Name m) (Meta.Version m) (Meta.Synopsis m) (Meta.Description m)
                 (Meta.Examples m) (Meta.Section_ m) (Meta.Author m) value)
  else
    addWarning (Warning.mk (line p) (Msgf "unknown shedoc tag: #?/%s" [tag])) p.

Definition parseSheblockHeader (vis extra : gostring) : Visibility * gostring :=
  if vis == lit "command" then (VisibilityCommand, [])
  else if vis == lit "subcommand" then (VisibilitySubcommand, extra)
  else if vis == lit "public" then (VisibilityPublic, [])
  else if vis == lit "private" then (VisibilityPrivate, [])
  else if vis == [] then (VisibilityPublic, [])
  else (VisibilityPublic, []).

Definition matchFuncDecl (line : gostring) : gostring :=
  match FindStringSubmatch reFuncKeyword line with
  | Some m => sub m 1
  | None =>
      match FindStringSubmatch reFuncParen line with
      | Some m => sub m 1
      | None => []
      end
  end.

Definition splitTag (content : gostring) : option (gostring * gostring) :=
  let trimmed := TrimSpace content in
  if negb (HasPrefix trimmed (lit "@")) then None
  else
    let rest := skipn 1 trimmed in
    match cut isBlankTab rest with
    | None => Some (rest, [])
    | Some (name, text) => Some (name, TrimSpace text)
    end.

Definition joinDesc (existing addition : gostring) : gostring :=
  if isEmpty existing then addition else existing ++ lit " " ++ addition.

Definition appendTagDescription (result : TagResult) (text : gostring) : TagResult :=
  match result with
  | RFlag v => RFlag (Flag.set_Description (joinDesc (Flag.Description v) text) v)
  | ROption v => ROption (Option.set_Description (joinDesc (Option.Description v) text) v)
  | ROperand v => ROperand (Operand.set_Description (joinDesc (Operand.Description v) text) v)
  | REnv v => REnv (Env.set_Description (joinDesc (Env.Description v) text) v)
  | RReads v => RReads (Reads.set_Description (joinDesc (Reads.Description v) text) v)
  | RStdin v => RStdin (Stdin.set_Description (joinDesc (Stdin.Description v) text) v)
  | RExit v => RExit (Exit.set_Description (joinDesc (Exit.Description v) text) v)
  | RStdout v => RStdout (Stdout.set_Description (joinDesc (Stdout.Description v) text) v)
  | RStderr v => RStderr (Stderr.set_Description (joinDesc (Stderr.Description v) text) v)
  | RSets v => RSets (Sets.set_Description (joinDesc (Sets.Description v) text) v)
  | RWrites v => RWrites (Writes.set_Description (joinDesc (Writes.Description v) text) v)
  | RDeprecated v => RDeprecated (Deprecated.set_Message (joinDesc (Deprecated.Message v) text) v)
  end.

(** [b := p.block] followed by a write through [b]: a nil [b] panics. *)
Definition onBlock (f : Block -> Block) (p : parser) : outcome parser :=
  match block p with
  | Some b => Done (set_block (Some (f b)) p)
  | None => Panic
  end.

Definition applyTagToBlock (name : gostring) (result : TagResult) (p : parser)
  : outcome parser :=
  if name == lit "flag" then
    match result with
    | RFlag v => onBlock (fun b => Block.set_Flags (Block.Flags b ++ [v]) b) p
    | _ => Done p
    end
  else if name == lit "option" then
    match result with
    | ROption v => onBlock (fun b => Block.set_Options (Block.Options b ++ [v]) b) p
    | _ => Done p
    end
  else if name == lit "operand" then
    match result with
    | ROperand v => onBlock (fun b => Block.set_Operands (Block.Operands b ++ [v]) b) p
    | _ => Done p
    end
  else if name == lit "env" then
    match result with
    | REnv v => onBlock (fun b => Block.set_Env (Block.Env b ++ [v]) b) p
    | _ => Done p
    end
  else if name == lit "reads" then
    match result with
    | RReads v => onBlock (fun b => Block.set_Reads (Block.Reads b ++ [v]) b) p
    | _ => Done p
    end
  else if name == lit "stdin" then
    match result with
    | RStdin v => onBlock (Block.set_Stdin (Some v)) p
    | _ => Done p
    end
  else if name == lit "exit" then
    match result with
    | RExit v => onBlock (fun b => Block.set_Exit (Block.Exit b ++ [v]) b) p
    | _ => Done p
    end
  else if name == lit "stdout" then
    match result with
    | RStdout v => onBlock (Block.set_Stdout (Some v)) p
    | _ => Done p
    end
  else if name == lit "stderr" then
    match result with
    | RStderr v => onBlock (Block.set_Stderr (Some v)) p
    | _ => Done p
    end
  else if name == lit "sets" then
    match result with
    | RSets v => onBlock (fun b => Block.set_Sets (Block.Sets b ++ [v]) b) p
    | _ => Done p
    end
  else if name == lit "writes" then
    match result with
    | RWrites v => onBlock (fun b => Block.set_Writes (Block.Writes b ++ [v]) b) p
    | _ => Done p
    end
  else if name == lit "deprecated" then
    match result with
    | RDeprecated v => onBlock (Block.set_Deprecated (Some v)) p
    | _ => Done p
    end
  else Done p.

Definition clearCurrentTag (p : parser) : parser :=
  set_tagContLines [] (set_currentResult None (set_currentTag [] p)).

Definition finalizeCurrentTag (p : parser) : outcome parser :=
  match currentResult p with
  | None => Done (clearCurrentTag p)
  | Some result =>
      if isEmpty (currentTag p) then Done (clearCurrentTag p)
      else
        let result :=
          if negb (isEmpty (tagContLines p))
          then appendTagDescription result (Join (tagContLines p) (lit " "))
          else result in
        do p' <- applyTagToBlock (currentTag p) result p in
        Done (clearCurrentTag p')
  end.

Definition finalizeBlock (p : parser) : parser :=
  match block p with
  | None => p
  | Some b =>
      let b := if negb (isEmpty (blockDesc p))
               then Block.set_Description (Join (blockDesc p) nl) b
               else b in
      set_block None
        (set_doc (Document.set_Blocks (Document.Blocks (doc p) ++ [b]) (doc p)) p)
  end.

Definition finalizeShedoc (p : parser) : parser :=
  let p := if negb (isEmpty (shedocTag p))
           then setShedocMeta (shedocTag p) (Join (shedocLines p) nl) p
           else p in
  set_shedocLines [] (set_shedocTag [] p).

(** [last := &p.doc.Blocks[len(p.doc.Blocks)-1]] and the update through it. *)
Fixpoint updLast (f : Block -> Block) (l : list Block) : list Block :=
  match l with
  | [] => []
  | [b] => [f b]
  | b :: rest => b :: updLast f rest
  end.

Definition handleTop (p : parser) (line_ : gostring) : parser :=
  match FindStringSubmatch reShebang line_ with
  | Some m =>
      set_doc (Document.set_Shebang (TrimSpace (sub m 1)) (doc p)) p
  | None =>
  match FindStringSubmatch reShedocInline line_ with
  | Some m => setShedocMeta (sub m 1) (TrimSpace (sub m 2)) p
  | None =>
  match FindStringSubmatch reShedocOpen line_ with
  | Some m =>
      set_shedocLines [] (set_shedocTag (sub m 1) (set_state stateShedoc p))
  | None =>
  match FindStringSubmatch reSheblockOpen line_ with
  | Some m =>
      let (visibility, name) := parseSheblockHeader (sub m 1) (TrimSpace (sub m 2)) in
      set_tagContLines []
        (set_currentResult None
          (set_currentTag []
            (set_inTags false
              (set_blockDesc []
                (set_block (Some (Block.new visibility name (line p)))
                  (set_state stateSheblock p))))))
  | None =>
      let funcName := matchFuncDecl line_ in
      if negb (isEmpty funcName) then
        set_doc
          (Document.set_Blocks
             (updLast (fun last =>
                         if isEmpty (Block.FunctionName last)
                         then Block.set_FunctionName funcName last
                         else last)
                      (Document.Blocks (doc p)))
             (doc p)) p
      else p
  end end end end.

Definition handleShedoc (p : parser) (line_ : gostring) : parser :=
  if MatchString reBlockClose line_ then set_state stateTop (finalizeShedoc p)
  else
    match FindStringSubmatch reContinuation line_ with
    | Some m => set_shedocLines (shedocLines p ++ [sub m 1]) p
    | None => handleTop (set_state stateTop (finalizeShedoc p)) line_
    end.

Definition handleSheblock (p : parser) (line_ : gostring) : outcome parser :=
  if MatchString reBlockClose line_ then
    do p <- finalizeCurrentTag p in
    Done (set_state stateTop (finalizeBlock p))
  else
    match FindStringSubmatch reContinuation line_ with
    | None =>
        do p <- finalizeCurrentTag p in
        Done (handleTop (set_state stateTop (finalizeBlock p)) line_)
    | Some m =>
        let content := sub m 1 in
        match splitTag content with
        | Some (tagName, tagText) =>
            do p <- finalizeCurrentTag p in
            let p := set_inTags true p in
            match parseTag tagName tagText (line p) with
            | Err err => Done (addWarning (Warning.mk (line p) err) p)
            | Ok result =>
                Done (set_tagContLines []
                        (set_currentResult (Some result)
                           (set_currentTag tagName p)))
            end
        | None =>
            if isEmpty content then
              if negb (isEmpty (currentTag p)) then finalizeCurrentTag p
              else Done p
            else if negb (isEmpty (currentTag p)) then
              Done (set_tagContLines (tagContLines p ++ [TrimSpace content]) p)
            else if negb (inTags p) then
              Done (set_blockDesc (blockDesc p ++ [content]) p)
            else Done p
        end
    end.

(** One turn of the loop of [parse]. *)
Definition step (p : parser) (line_ : gostring) : outcome parser :=
  let p := set_line (int_succ (line p)) p in
  match state p with
  | stateTop => Done (handleTop p line_)
  | stateShedoc => Done (handleShedoc p line_)
  | stateSheblock => handleSheblock p line_
  end.

Fixpoint scan (p : parser) (lines : list gostring) : outcome parser :=
  match lines with
  | [] => Done p
  | l :: rest => do p' <- step p l in scan p' rest
  end.

(** What [parse] does once the scanner is exhausted. *)
Definition atEOF (p : parser) : outcome parser :=
  match state p with
  | stateTop => Done p
  | stateShedoc => Done (finalizeShedoc p)
  | stateSheblock =>
      do p <- finalizeCurrentTag p in
      Done (finalizeBlock p)
  end.

Definition parse (p : parser) (lines : list gostring) : outcome parser :=
  do p' <- scan p lines in atEOF p'.

(** [&parser{scanner: ..., doc: &Document{}}]. *)
Definition newParser : parser :=
  mkParser Document.zero 0 stateTop [] [] None [] false [] None [].

(** [ParseReader], on the lines the scanner yields; the second component
    is the [error] result, which is always nil. *)
Definition ParseReader (lines : list gostring) : outcome (Document * option message) :=
  do p <- parse newParser lines in
  Done (doc p, None).


(** [Parse]: [open] stands for [os.Open] and the reading of the file, and
    gives the lines of the file or the I/O error. *)
Definition Parse (open : gostring -> result (list gostring)) (path : gostring)
  : outcome (option Document * option message) :=
  match open path with
  | Err err => Done (None, Some err)
  | Ok lines =>
      do r <- ParseReader lines in
      match snd r with
      | Some err => Done (None, Some err)
      | None => Done (Some (Document.set_Path path (fst r)), None)
      end
  end.

(* ================================================================= *)
(** ** Line classes used in the statements *)

(** The content of a continuation line that is not a block close, as
    [handleSheblock] and [handleShedoc] see it. *)
Definition continuationContent (line_ : gostring) : option gostring :=
  if MatchString reBlockClose line_ then None
  else match FindStringSubmatch reContinuation line_ with
       | Some m => Some (sub m 1)
       | None => None
       end.

(** A line that interrupts a block: neither a close marker nor a
    continuation line. *)
Definition interrupts (line_ : gostring) : bool :=
  negb (MatchString reBlockClose line_)
  && match FindStringSubmatch reContinuation line_ with
     | Some _ => false
     | None => true
     end.

(** The tag name and text of a tag line of a documentation block. *)
Definition tagOfLine (line_ : gostring) : option (gostring * gostring) :=
  match continuationContent line_ with
  | Some content => splitTag content
  | None => None
  end.

(** The lines of a script, written as literals. *)
Definition script (l : list string) : list gostring := map lit l.

(* ================================================================= *)
(** ** Auxiliary notions of the statements *)

(** What [applyTagToBlock] does to a non-nil block, as a function on
    blocks (used to state what a whole run attaches; related to the code
    by [applyTagToBlock_attach]). *)
Definition attach (name : gostring) (result : TagResult) (b : Block) : Block :=
  match applyTagToBlock name result
          (mkParser Document.zero 0 stateSheblock [] [] (Some b) [] false [] None [])
  with
  | Done q => match block q with Some b' => b' | None => b end
  | Panic => b
  end.

(** The block as it is once the pending tag is attached. *)
Definition pendingBlock (p : parser) : option Block :=
  match finalizeCurrentTag p with
  | Done q => block q
  | Panic => None
  end.

(** What [finalizeBlock] appends for block [b] and description lines [desc]. *)
Definition finished (desc : list gostring) (b : Block) : Block :=
  if negb (isEmpty desc) then Block.set_Description (Join desc nl) b else b.

(** The invariant of the parser object: inside a documentation block the
    block pointer is not nil, and a tag is pending only after a first tag
    line. *)
Definition Inv (p : parser) : Prop :=
  (state p = stateSheblock -> block p <> None)
  /\ (inTags p = false -> currentTag p = []).

(** The records and the warnings that the tag lines [ls] of a block give,
    the line before them having number [ln]. *)
Fixpoint recordsOf (ln : Z) (ls : list gostring) : list (gostring * TagResult) :=
  match ls with
  | [] => []
  | l :: rest =>
      let ln' := int_succ ln in
      match tagOfLine l with
      | Some (n, t) =>
          match parseTag n t ln' with
          | Ok r => (n, r) :: recordsOf ln' rest
          | Err _ => recordsOf ln' rest
          end
      | None => recordsOf ln' rest
      end
  end.

Fixpoint warningsOf (ln : Z) (ls : list gostring) : list Warning :=
  match ls with
  | [] => []
  | l :: rest =>
      let ln' := int_succ ln in
      match tagOfLine l with
      | Some (n, t) =>
          match parseTag n t ln' with
          | Ok _ => warningsOf ln' rest
          | Err e => Warning.mk ln' e :: warningsOf ln' rest
          end
      | None => warningsOf ln' rest
      end
  end.

Definition attachAll (recs : list (gostring * TagResult)) (b : Block) : Block :=
  fold_left (fun b nr => attach (fst nr) (snd nr) b) recs b.

Definition isTagLine (l : gostring) : bool :=
  match tagOfLine l with Some _ => true | None => false end.

(** A malformed tag line: a tag line whose tag parser fails. *)
Definition malformed (ln : Z) (l : gostring) : bool :=
  match tagOfLine l with
  | Some (n, t) => match parseTag n t ln with Ok _ => false | Err _ => true end
  | None => false
  end.

Fixpoint countMalformed (ln : Z) (ls : list gostring) : nat :=
  match ls with
  | [] => 0
  | l :: rest =>
      (if malformed (int_succ ln) l then 1 else 0) + countMalformed (int_succ ln) rest
  end.

(** The records of one kind among those a block receives, in order:
    [sel] recognises the dynamic type and [name] is the tag name. *)
Definition pick {A : Type} (name : gostring) (sel : TagResult -> option A)
           (recs : list (gostring * TagResult)) : list A :=
  flat_map (fun nr => if fst nr == name
                      then match sel (snd nr) with Some v => [v] | None => [] end
                      else []) recs.

(** The last element of [l], or [d] when there is none. *)
Definition lastOr {A : Type} (l : list A) (d : option A) : option A :=
  match rev l with
  | v :: _ => Some v
  | [] => d
  end.

Definition selFlag (r : TagResult) := match r with RFlag v => Some v | _ => None end.
Definition selOption (r : TagResult) := match r with ROption v => Some v | _ => None end.
Definition selOperand (r : TagResult) := match r with ROperand v => Some v | _ => None end.
Definition selEnv (r : TagResult) := match r with REnv v => Some v | _ => None end.
Definition selReads (r : TagResult) := match r with RReads v => Some v | _ => None end.
Definition selStdin (r : TagResult) := match r with RStdin v => Some v | _ => None end.
Definition selExit (r : TagResult) := match r with RExit v => Some v | _ => None end.
Definition selStdout (r : TagResult) := match r with RStdout v => Some v | _ => None end.
Definition selStderr (r : TagResult) := match r with RStderr v => Some v | _ => None end.
Definition selSets (r : TagResult) := match r with RSets v => Some v | _ => None end.
Definition selWrites (r : TagResult) := match r with RWrites v => Some v | _ => None end.
Definition selDeprecated (r : TagResult) :=
  match r with RDeprecated v => Some v | _ => None end.

(** A parser just after the opener of a documentation block on line 1. *)
Definition justOpened : parser :=
  mkParser Document.zero 1 stateSheblock [] []
           (Some (Block.new VisibilityCommand [] 1)) [] false [] None [].

(** The parser object after the loop of [parse] has read [lines] (the
    loop never panics, see [scan_total]). *)
Definition reach (lines : list gostring) : parser :=
  match scan newParser lines with
  | Done p => p
  | Panic => newParser
  end.

(** A printable ASCII character other than the blank. *)
Definition tokenChar (c : ascii) : bool := (33 <=? code c) && (code c <=? 126).

(** A non-empty word of such characters: what [splitFirstToken] yields on
    ordinary text. *)
Definition isToken (a : gostring) : bool := negb (isEmpty a) && forallb tokenChar a.

(** A text that white-space trimming leaves alone: empty, or with a
    printable first and last character. *)
Definition trimmed (s : gostring) : bool :=
  match s with
  | [] => true
  | c :: _ => tokenChar c && tokenChar (last s c)
  end.

Definition noEq (n : gostring) : bool := forallb (fun c => negb (isEq c)) n.

(** The two kinds of flag spellings. *)
Definition longSpelling (a : gostring) : bool := HasPrefix a (lit "--").
Definition shortSpelling (a : gostring) : bool :=
  HasPrefix a (lit "-") && negb (HasPrefix a (lit "--")).

(** What the function-declaration branch of [handleTop] does to the last
    block. *)
Definition bindFunc (funcName : gostring) (last : Block) : Block :=
  if isEmpty (Block.FunctionName last)
  then Block.set_FunctionName funcName last
  else last.

(** A line that matches none of the patterns of [handleTop]. *)
Definition inert (l : gostring) : bool :=
  negb (MatchString reShebang l) && negb (MatchString reShedocInline l)
  && negb (MatchString reShedocOpen l) && negb (MatchString reSheblockOpen l)
  && isEmpty (matchFuncDecl l).

(** Padding made of blanks and tabs; a tag name of a metadata line (the
    class \w, not empty); a text without a newline. *)
Definition blanks (ws : gostring) : bool := forallb isBlankTab ws.
Definition wordChars (tag : gostring) : bool := negb (isEmpty tag) && forallb cls_w tag.
Definition oneLine (v : gostring) : bool := forallb cls_dot v.

(** How a handler can change the list of blocks: it may append one block
    and then, on a function declaration, bind the last one. *)
Definition blocksChange (l : gostring) (bs bs' : list Block) : Prop :=
  exists ext,
    (ext = [] \/ exists x, ext = [x])
    /\ (bs' = bs ++ ext
        \/ (matchFuncDecl l <> []
            /\ bs' = updLast (bindFunc (matchFuncDecl l)) (bs ++ ext))).

(** One turn of the loop, the next turn being [next]. *)
Definition flagTurn (next : gostring -> gostring -> gostring -> gostring * gostring * gostring)
           (text short long : gostring) : gostring * gostring * gostring :=
  if isEmpty text then (text, short, long)
  else if HasPrefix text (lit "-") then
    let (name, rest) := splitFirstToken text in
    let text' := TrimSpace rest in
    let short' := if HasPrefix text (lit "--") then short else name in
    let long' := if HasPrefix text (lit "--") then name else long in
    if HasPrefix text' (lit "|")
    then next (TrimSpace (skipn 1 text')) short' long'
    else (text', short', long')
  else (text, short, long).

(** A parser in the middle of a documentation block, used as a concrete
    input. *)
Definition midBlock : parser :=
  mkParser Document.zero 2 stateSheblock [] []
           (Some (Block.new VisibilityPublic [] 1)) [lit "A function."]
           true (lit "flag") (Some (RFlag (Flag.mk (lit "-v") [] [] 2))) [].

(* ================================================================= *)
(** ** Readers of the document model *)

(** [getMetaField] of the command line (package cli): the value of a
    metadata field by tag name, and whether the tag is known. *)
Definition getMetaField (m : Meta) (tag : gostring) : gostring * bool :=
  if tag == lit "name" then (Meta.Name m, true)
  else if tag == lit "version" then (Meta.Version m, true)
  else if tag == lit "synopsis" then (Meta.Synopsis m, true)
  else if tag == lit "description" then (Meta.Description m, true)
  else if tag == lit "examples" then (Meta.Examples m, true)
  else if tag == lit "section" then (Meta.Section_ m, true)
  else if tag == lit "author" then (Meta.Author m, true)
  else if tag == lit "license" then (Meta.License m, true)
  else ([], false).

(** [collectFlags] of internal/generate/completions_bash.go: the
    spellings of the flags and options of a block, as completion words. *)
Definition collectFlags (block : Block) : list gostring :=
  let flags :=
    fold_left
      (fun flags f =>
         let flags := if negb (isEmpty (Flag.Short f))
                      then flags ++ [Flag.Short f] else flags in
         if negb (isEmpty (Flag.Long f)) then flags ++ [Flag.Long f] else flags)
      (Block.Flags block) [] in
  fold_left
    (fun flags o =>
       let flags := if negb (isEmpty (Option.Short o))
                    then flags ++ [Option.Short o] else flags in
       if negb (isEmpty (Option.Long o)) then flags ++ [Option.Long o] else flags)
    (Block.Options block) flags.

(** [strings.ReplaceAll(s, old, new)] for an [old] of one byte, the only
    use the generators make of it. *)
Definition replaceByte (old : ascii) (new : gostring) (s : gostring) : gostring :=
  flat_map (fun c => if Ascii.eqb c old then new else [c]) s.

(** [troffEscape] of internal/generate/manpage.go. *)
Definition troffEscape (s : gostring) : gostring :=
  let s := replaceByte "\"%char (lit "\\") s in
  replaceByte "-"%char (lit "\-") s.

(** [fishEscape] of internal/generate/completions_fish.go. *)
Definition fishEscape (s : gostring) : gostring :=
  fold_left
    (fun result c =>
       if Ascii.eqb c "'" then result ++ ["\"%char; "'"%char] else result ++ [c])
    s [].

(** [firstLine] of internal/generate/helptext.go. *)
Definition isNewline (c : ascii) : bool := code c =? 10.
Definition firstLine (s : gostring) : gostring :=
  match cut isNewline s with
  | Some (line_, _) => line_
  | None => s
  end.

(** [len(s)] of a string, a Go [int]; and the three width helpers of
    internal/generate/helptext.go, which give the column at which the
    descriptions of a list are aligned. *)
Definition len (s : gostring) : Z := Z.of_nat (length s).

Definition maxSubcommandNameWidth (subs : list Block) : Z :=
  fold_left (fun max s => if (max <? len (Block.Name s))%Z then len (Block.Name s) else max)
            subs 0%Z.

Definition maxEnvNameWidth (envs : list Env) : Z :=
  fold_left (fun max e => if (max <? len (Env.Name e))%Z then len (Env.Name e) else max)
            envs 0%Z.

Definition maxExitCodeWidth (exits : list Exit) : Z :=
  fold_left (fun max e => if (max <? len (Exit.Code e))%Z then len (Exit.Code e) else max)
            exits 0%Z.

(* ================================================================= *)
(** ** Further notions of the statements *)

(** A text on which [strings.TrimLeftFunc] stops at once: no white-space
    rune begins it.  [stopR] is the same for the end of a text, given in
    reverse. *)
Definition stopL (s : gostring) : bool :=
  match s with
  | [] => true
  | c1 :: s1 =>
      negb (asciiSpace c1)
      && match s1 with
         | [] => true
         | c2 :: s2 =>
             negb (space2 c1 c2)
             && match s2 with
                | [] => true
                | c3 :: _ => negb (space3 c1 c2 c3)
                end
         end
  end.

Definition stopR (r : gostring) : bool :=
  match r with
  | [] => true
  | c1 :: r1 =>
      negb (asciiSpace c1)
      && match r1 with
         | [] => true
         | c2 :: r2 =>
             negb (space2 c2 c1)
             && match r2 with
                | [] => true
                | c3 :: _ => negb (space3 c3 c2 c1)
                end
         end
  end.

Definition noBlank (s : gostring) : bool := forallb (fun c => negb (isBlankTab c)) s.

(** The spellings a flag record can hold: none, or a word without blank
    that begins with one dash (short) or with two (long). *)
Definition shortOK (s : gostring) : Prop :=
  s = [] \/ (shortSpelling s = true /\ noBlank s = true).
Definition longOK (s : gostring) : Prop :=
  s = [] \/ (longSpelling s = true /\ noBlank s = true).

(** What [ParseValue] guarantees of the values it returns. *)
Definition wellFormedValue (v : Value) : Prop :=
  Value.Name v <> []
  /\ noEq (Value.Name v) = true
  /\ (Value.Required v = true -> Value.Default v = [])
  /\ (Value.Variadic v = false -> HasSuffix (Value.Default v) dots = false).

(** The tag name that goes with the dynamic type of a record, and the
    records a block holds. *)
Definition kindOf (r : TagResult) : gostring :=
  match r with
  | RFlag _ => lit "flag"
  | ROption _ => lit "option"
  | ROperand _ => lit "operand"
  | REnv _ => lit "env"
  | RReads _ => lit "reads"
  | RStdin _ => lit "stdin"
  | RExit _ => lit "exit"
  | RStdout _ => lit "stdout"
  | RStderr _ => lit "stderr"
  | RSets _ => lit "sets"
  | RWrites _ => lit "writes"
  | RDeprecated _ => lit "deprecated"
  end.

Definition optList {A : Type} (o : option A) : list A :=
  match o with Some v => [v] | None => [] end.

Definition held (b : Block) : list TagResult :=
  map RFlag (Block.Flags b) ++ map ROption (Block.Options b)
  ++ map ROperand (Block.Operands b) ++ map REnv (Block.Env b)
  ++ map RReads (Block.Reads b) ++ map RStdin (optList (Block.Stdin b))
  ++ map RExit (Block.Exit b) ++ map RStdout (optList (Block.Stdout b))
  ++ map RStderr (optList (Block.Stderr b)) ++ map RSets (Block.Sets b)
  ++ map RWrites (Block.Writes b) ++ map RDeprecated (optList (Block.Deprecated b)).

(** A text line of a block: a continuation line that is not blank and is
    not a tag line; the content of a continuation line; the line counter
    after [k] more lines; the description a record carries. *)
Definition isTextLine (l : gostring) : bool :=
  match continuationContent l with
  | Some content =>
      negb (isEmpty content)
      && match splitTag content with Some _ => false | None => true end
  | None => false
  end.

Definition isContinuationLine (l : gostring) : bool :=
  match continuationContent l with Some _ => true | None => false end.

Definition textOf (l : gostring) : gostring :=
  match continuationContent l with Some content => content | None => [] end.

Definition lineAfter (k : nat) (ln : Z) : Z := Nat.iter k int_succ ln.

Definition descOf (r : TagResult) : gostring :=
  match r with
  | RFlag v => Flag.Description v
  | ROption v => Option.Description v
  | ROperand v => Operand.Description v
  | REnv v => Env.Description v
  | RReads v => Reads.Description v
  | RStdin v => Stdin.Description v
  | RExit v => Exit.Description v
  | RStdout v => Stdout.Description v
  | RStderr v => Stderr.Description v
  | RSets v => Sets.Description v
  | RWrites v => Writes.Description v
  | RDeprecated v => Deprecated.Message v
  end.

(** A property of blocks and a property of records that the parser
    object keeps: [P] holds of the blocks of the document and of the block
    being built, [R] of the pending record. *)
Definition keeps (P : Block -> Prop) (R : TagResult -> Prop) (p : parser) : Prop :=
  Forall P (Document.Blocks (doc p))
  /\ (forall b, block p = Some b -> P b)
  /\ (forall r, currentResult p = Some r -> R r).

(** The line a record carries. *)
Definition lineOf (r : TagResult) : Z :=
  match r with
  | RFlag v => Flag.Line v
  | ROption v => Option.Line v
  | ROperand v => Operand.Line v
  | REnv v => Env.Line v
  | RReads v => Reads.Line v
  | RStdin v => Stdin.Line v
  | RExit v => Exit.Line v
  | RStdout v => Stdout.Line v
  | RStderr v => Stderr.Line v
  | RSets v => Sets.Line v
  | RWrites v => Writes.Line v
  | RDeprecated v => Deprecated.Line v
  end.

(** Only a subcommand has a name. *)
Definition namedOnlyIfSubcommand (b : Block) : Prop :=
  Block.Name b <> [] -> Block.Visibility_ b = VisibilitySubcommand.

(** What the tag parsers guarantee of a record, whatever its description. *)
Definition goodRecord (r : TagResult) : Prop :=
  match r with
  | RFlag v => shortOK (Flag.Short v) /\ longOK (Flag.Long v)
  | ROption v =>
      shortOK (Option.Short v) /\ longOK (Option.Long v)
      /\ wellFormedValue (Option.Value v)
  | ROperand v => wellFormedValue (Operand.Value v)
  | REnv v => Env.Name v <> [] /\ noBlank (Env.Name v) = true
  | RReads v => Reads.Path v <> [] /\ noBlank (Reads.Path v) = true
  | RExit v => Exit.Code v <> [] /\ noBlank (Exit.Code v) = true
  | RSets v => Sets.Name v <> [] /\ noBlank (Sets.Name v) = true
  | RWrites v => Writes.Path v <> [] /\ noBlank (Writes.Path v) = true
  | RStdin _ | RStdout _ | RStderr _ | RDeprecated _ => True
  end.

(** A block whose line is the number of an opener line of [lines]; a
    record whose line is the number of a tag line of [lines] with the tag
    name of its kind. *)
Definition atOpener (lines : list gostring) (b : Block) : Prop :=
  exists i l,
    nth_error lines i = Some l
    /\ Block.Line b = Z.of_nat (S i)
    /\ MatchString reSheblockOpen l = true.

Definition atTagLine (lines : list gostring) (r : TagResult) : Prop :=
  exists i l t,
    nth_error lines i = Some l
    /\ lineOf r = Z.of_nat (S i)
    /\ tagOfLine l = Some (kindOf r, t).

(** A block that is placed in [lines]: its line and those of the records
    it holds are lines of the input of the right kind. *)
Definition placed (lines : list gostring) (b : Block) : Prop :=
  atOpener lines b /\ Forall (atTagLine lines) (held b).

(** A function name as the two declaration patterns capture it: a word
    character followed by word characters and dashes. *)
Definition identifier (name : gostring) : bool :=
  match name with
  | c :: w => cls_w c && forallb cls_w_dash w
  | [] => false
  end.

(** A troff text read from the left, a backslash taking the next byte
    with it: no dash stands alone and no backslash is last. *)
Fixpoint escaped (s : gostring) : bool :=
  match s with
  | [] => true
  | c :: r =>
      if Ascii.eqb c "\" then
        match r with
        | [] => false
        | _ :: r' => escaped r'
        end
      else if Ascii.eqb c "-" then false
      else escaped r
  end.

(** A text in which every single quote follows a backslash ([prev] tells
    whether the byte before the text is one). *)
Fixpoint quotesEscaped (prev : bool) (s : gostring) : bool :=
  match s with
  | [] => true
  | c :: r =>
      if Ascii.eqb c "'" then prev && quotesEscaped false r
      else quotesEscaped (Ascii.eqb c "\") r
  end.

(** The readers that undo the two escapings. *)
Fixpoint troffDecode (s : gostring) : gostring :=
  match s with
  | [] => []
  | c :: r =>
      if Ascii.eqb c "\" then
        match r with
        | [] => [c]
        | d :: r' => d :: troffDecode r'
        end
      else c :: troffDecode r
  end.

Fixpoint fishDecode (s : gostring) : gostring :=
  match s with
  | [] => []
  | c :: r =>
      if Ascii.eqb c "\" then
        match r with
        | d :: r' => if Ascii.eqb d "'" then d :: fishDecode r' else c :: fishDecode r
        | [] => [c]
        end
      else c :: fishDecode r
  end.

(** The warnings of the parser object after one more line: those it had,
    followed by warnings with the number of the line.  Warnings whose
    lines are lines of an input of [n] lines. *)
Definition warnsAt (ln : Z) (old new : list Warning) : Prop :=
  exists ext, new = old ++ ext /\ Forall (fun w => Warning.Line w = ln) ext.

Definition warnedWithin (n : nat) (ws : list Warning) : Prop :=
  Forall (fun w => (1 <= Warning.Line w <= Z.of_nat n)%Z) ws.

(** The lines of the blocks of the parser object, the block being built
    last; a list of lines that increases strictly from above [lo]. *)
Definition blockLines (p : parser) : list Z :=
  map Block.Line (Document.Blocks (doc p)) ++ map Block.Line (optList (block p)).

Fixpoint ascending (lo : Z) (l : list Z) : Prop :=
  match l with
  | [] => True
  | x :: r => (lo < x)%Z /\ ascending x r
  end.

(** Outside a documentation block no block is being built. *)
Definition noPending (p : parser) : Prop :=
  state p <> stateSheblock -> block p = None.

(** Block [x'] is block [x], as [finalizeBlock] appended it, or [x] bound
    since to a function by a declaration line. *)
Definition boundOf (x x' : Block) : Prop :=
  x' = x
  \/ (Block.FunctionName x = []
      /\ exists f, f <> [] /\ x' = Block.set_FunctionName f x).

(** The lines that [handleTop] takes as the opener of a documentation
    block, with the visibility and the name of the block, and those it
    takes as the opener of a metadata block, with the tag. *)
Definition blockOpener (l : gostring) : option (Visibility * gostring) :=
  if MatchString reShebang l || MatchString reShedocInline l
     || MatchString reShedocOpen l
  then None
  else match FindStringSubmatch reSheblockOpen l with
       | Some m => Some (parseSheblockHeader (sub m 1) (TrimSpace (sub m 2)))
       | None => None
       end.

Definition metaOpener (l : gostring) : option gostring :=
  if MatchString reShebang l || MatchString reShedocInline l then None
  else match FindStringSubmatch reShedocOpen l with
       | Some m => Some (sub m 1)
       | None => None
       end.

(** The tag names whose field of the block holds one record. *)
Definition singularTag (n : gostring) : bool :=
  (n == lit "stdin") || (n == lit "stdout") || (n == lit "stderr")
  || (n == lit "deprecated").

(* ================================================================= *)
(** ** The test suite of the repository, replayed on the model *)

Example test_flag_short_and_long :
  parseFlag (lit "-v | --verbose Enable verbose output") 1
  = Ok (Flag.mk (lit "-v") (lit "--verbose") (lit "Enable verbose output") 1).
Proof. reflexivity. Qed.

Example test_flag_empty : parseFlag (lit "") 1
  = Err (Msgf "@flag requires at least one flag name" []).
Proof. reflexivity. Qed.

Example test_option_default :
  parseOption (lit "--format [type=json] Output format") 1
  = Ok (Option.mk [] (lit "--format")
          (Value.mk (lit "type") false (lit "json") false)
          (lit "Output format") 1).
Proof. reflexivity. Qed.

Example test_operand_variadic :
  parseOperand (lit "[services...] Services to deploy") 1
  = Ok (Operand.mk (Value.mk (lit "services") false [] true)
          (lit "Services to deploy") 1).
Proof. reflexivity. Qed.

Example test_bad_values :
  (exists e, ParseValue (lit "<name]") = Err e)
  /\ (exists e, ParseValue (lit "<name=foo>") = Err e)
  /\ (exists e, ParseValue (lit "<...>") = Err e).
Proof. repeat split; eexists; reflexivity. Qed.

Example test_minimal_file :
  ParseReader (script ["#!/bin/bash"%string])
  = Done (Document.mk [] (lit "/bin/bash") Meta.zero [] [], None).
Proof. reflexivity. Qed.

Example test_inline_metadata :
  ParseReader (script ["#?/name greet"; "#?/version 1.0.0"]%string)
  = Done (Document.mk [] []
            (Meta.mk (lit "greet") (lit "1.0.0") [] [] [] [] [] []) [] [],
          None).
Proof. reflexivity. Qed.

Example test_shedoc_block_EOF :
  ParseReader (script ["#!/bin/bash"; "#?/description";
                       " # This description has no closing marker"]%string)
  = Done (Document.mk [] (lit "/bin/bash")
            (Meta.mk [] [] [] (lit "This description has no closing marker")
                     [] [] [] []) [] [],
          None).
Proof. reflexivity. Qed.

Example test_sheblock_interrupted :
  ParseReader (script ["#!/bin/bash"; "#@/public"; " # A function.";
                       " # @flag -v Verbose"; "some_func() { :; }"]%string)
  = Done (Document.mk [] (lit "/bin/bash") Meta.zero
            [Block.set_Flags [Flag.mk (lit "-v") [] (lit "Verbose") 4]
               (Block.set_FunctionName (lit "some_func")
                  (Block.set_Description (lit "A function.")
                     (Block.new VisibilityPublic [] 2)))]
            [],
          None).
Proof. reflexivity. Qed.

Example test_tag_continuation :
  ParseReader (script ["#@/command"; " # @flag -v";
                       " #       Verbose output mode"; " ##"]%string)
  = Done (Document.mk [] [] Meta.zero
            [Block.set_Flags [Flag.mk (lit "-v") [] (lit "Verbose output mode") 2]
               (Block.new VisibilityCommand [] 1)]
            [],
          None).
Proof. reflexivity. Qed.

Example test_warning_on_bad_tag :
  ParseReader (script ["#!/bin/bash"; "#@/command"; " # A command.";
                       " # @bogustag some value"; " ##"]%string)
  = Done (Document.mk [] (lit "/bin/bash") Meta.zero
            [Block.set_Description (lit "A command.")
               (Block.new VisibilityCommand [] 2)]
            [Warning.mk 4 (Msgf "unknown tag @%s" [lit "bogustag"])],
          None).
Proof. reflexivity. Qed.

(* ================================================================= *)
(** ** Interrupting lines (C2) *)

(** C2.  A line that is neither a continuation line nor a close marker,
    handled in the metadata-block or documentation-block state, leaves
    exactly the parser (state, accumulators and Document) that handling a
    close marker and then handling the same line in the Top state leaves.
    The equality is between the handlers at one value of the line
    counter, which only the loop of [parse] advances. *)
Theorem C2_interrupt_is_close_then_top :
  forall (p : parser) (line_ closer : gostring),
    MatchString reBlockClose closer = true ->
    interrupts line_ = true ->
    handleShedoc p line_ = handleTop (handleShedoc p closer) line_
    /\ handleSheblock p line_
       = (do q <- handleSheblock p closer in Done (handleTop q line_))
    /\ (forall q, handleSheblock p closer = Done q -> state q = stateTop)
    /\ state (handleShedoc p closer) = stateTop.
Proof.
  intros p line_ closer Hclose Hint.
  unfold interrupts in Hint.
  apply andb_true_iff in Hint as [Hnc Hcont].
  apply negb_true_iff in Hnc.
  destruct (FindStringSubmatch reContinuation line_) eqn:Hm; [discriminate|].
  unfold handleShedoc, handleSheblock.
  rewrite Hclose, Hnc, Hm.
  repeat split.
  - destruct (finalizeCurrentTag p); reflexivity.
  - intros q Hq. destruct (finalizeCurrentTag p); simpl in Hq; [|discriminate].
    injection Hq as <-. reflexivity.
Qed.

Lemma C2_witness :
  MatchString reBlockClose (lit " ##") = true
  /\ interrupts (lit "some_func() {") = true
  /\ handleShedoc midBlock (lit "some_func() {")
     = handleTop (handleShedoc midBlock (lit " ##")) (lit "some_func() {")
  /\ handleSheblock midBlock (lit "some_func() {")
     = (do q <- handleSheblock midBlock (lit " ##")
        in Done (handleTop q (lit "some_func() {"))).
Proof.
  split; [reflexivity|]. split; [reflexivity|].
  pose proof (C2_interrupt_is_close_then_top midBlock (lit "some_func() {") (lit " ##")
                eq_refl eq_refl) as [H1 [H2 _]].
  split; assumption.
Defined.

(* ================================================================= *)
(** ** The parser never stops on content (invariant and totality) *)

Lemma eqs_refl : forall a, (a == a) = true.
Proof.
  induction a as [|x a IH]; simpl; [reflexivity|].
  now rewrite Ascii.eqb_refl, IH.
Qed.

Lemma eqs_eq : forall a b, (a == b) = true <-> a = b.
Proof.
  induction a as [|x a IH]; destruct b as [|y b]; simpl; split; intro H;
    try reflexivity; try discriminate.
  - apply andb_true_iff in H as [H1 H2].
    apply Ascii.eqb_eq in H1. apply IH in H2. now subst.
  - injection H as -> ->. now rewrite Ascii.eqb_refl, eqs_refl.
Qed.

Lemma isEmpty_true : forall (A : Type) (l : list A), isEmpty l = true <-> l = [].
Proof. intros A [|x l]; simpl; split; intro H; try reflexivity; discriminate. Qed.

Lemma isEmpty_false : forall (A : Type) (l : list A), isEmpty l = false <-> l <> [].
Proof.
  intros A [|x l]; simpl; split; intro H; try reflexivity; try discriminate;
    try congruence.
Qed.

Lemma applyTagToBlock_attach :
  forall name result p b,
    block p = Some b ->
    applyTagToBlock name result p = Done (set_block (Some (attach name result b)) p).
Proof.
  intros name result [d ln st stag sl blk desc it ct cr tc] b Hb.
  simpl in Hb. subst blk.
  unfold attach, applyTagToBlock.
  repeat match goal with
         | |- context [if ?c then _ else _] => destruct c
         end;
    destruct result; reflexivity.
Qed.

Lemma finalizeCurrentTag_block :
  forall p b,
    block p = Some b ->
    exists b', finalizeCurrentTag p = Done (clearCurrentTag (set_block (Some b') p)).
Proof.
  intros p b Hb. unfold finalizeCurrentTag.
  assert (Hsame : set_block (Some b) p = p) by (destruct p; simpl in *; now subst).
  destruct (currentResult p) as [r|].
  - destruct (isEmpty (currentTag p)).
    + exists b. now rewrite Hsame.
    + erewrite applyTagToBlock_attach by eassumption. simpl. eauto.
  - exists b. now rewrite Hsame.
Qed.

Lemma Inv_setShedocMeta : forall tag value p, Inv p -> Inv (setShedocMeta tag value p).
Proof.
  intros tag value p H. unfold setShedocMeta.
  repeat match goal with
         | |- context [if ?c then _ else _] => destruct c
         end; exact H.
Qed.

Lemma Inv_handleTop : forall p l, Inv p -> Inv (handleTop p l).
Proof.
  intros p l H. unfold handleTop.
  destruct (FindStringSubmatch reShebang l); [exact H|].
  destruct (FindStringSubmatch reShedocInline l); [now apply Inv_setShedocMeta|].
  destruct (FindStringSubmatch reShedocOpen l).
  { split; simpl; [discriminate | apply H]. }
  destruct (FindStringSubmatch reSheblockOpen l).
  { destruct (parseSheblockHeader _ _). split; simpl; [discriminate | reflexivity]. }
  destruct (negb (isEmpty (matchFuncDecl l))); exact H.
Qed.

Lemma Inv_finalizeShedoc_top : forall p, Inv p -> Inv (set_state stateTop (finalizeShedoc p)).
Proof.
  intros p [_ H2]. unfold finalizeShedoc.
  split; simpl; [discriminate|].
  destruct (negb (isEmpty (shedocTag p))); [|exact H2].
  unfold setShedocMeta.
  repeat match goal with
         | |- context [if ?c then _ else _] => destruct c
         end; exact H2.
Qed.

Lemma Inv_handleShedoc : forall p l, Inv p -> state p = stateShedoc -> Inv (handleShedoc p l).
Proof.
  intros p l H Hst. unfold handleShedoc.
  destruct (MatchString reBlockClose l); [now apply Inv_finalizeShedoc_top|].
  destruct (FindStringSubmatch reContinuation l).
  - destruct H as [_ H2]. split; simpl; [rewrite Hst; discriminate | exact H2].
  - apply Inv_handleTop. now apply Inv_finalizeShedoc_top.
Qed.

Lemma Inv_closed : forall q, Inv (set_state stateTop (finalizeBlock (clearCurrentTag q))).
Proof.
  intro q. unfold finalizeBlock. simpl.
  destruct (block q); split; simpl; try discriminate; reflexivity.
Qed.

Lemma handleSheblock_total :
  forall p l, Inv p -> state p = stateSheblock ->
              exists p', handleSheblock p l = Done p' /\ Inv p'.
Proof.
  intros p l H Hst.
  destruct (block p) as [b|] eqn:Hb; [|destruct H as [H _]; now elim (H Hst)].
  destruct (finalizeCurrentTag_block p b Hb) as [b' Hfin].
  unfold handleSheblock.
  destruct (MatchString reBlockClose l).
  { rewrite Hfin. simpl. eexists. split; [reflexivity|]. apply Inv_closed. }
  destruct (FindStringSubmatch reContinuation l) as [m|].
  2:{ rewrite Hfin. simpl. eexists. split; [reflexivity|].
      apply Inv_handleTop, Inv_closed. }
  destruct (splitTag (sub m 1)) as [[tagName tagText]|].
  { rewrite Hfin. simpl.
    destruct (parseTag tagName tagText (line p)); eexists; (split; [reflexivity|]);
      split; simpl; try discriminate; rewrite Hst; intros _; discriminate. }
  destruct (isEmpty (sub m 1)).
  { destruct (negb (isEmpty (currentTag p))).
    - rewrite Hfin. eexists. split; [reflexivity|].
      split; simpl; [intros _; discriminate | reflexivity].
    - eexists. split; [reflexivity | exact H]. }
  destruct (negb (isEmpty (currentTag p)));
    [|destruct (negb (inTags p))]; eexists; (split; [reflexivity|]);
    destruct H as [H1 H2]; split; simpl; try exact H2; rewrite Hb; discriminate.
Qed.

Lemma step_total : forall p l, Inv p -> exists p', step p l = Done p' /\ Inv p'.
Proof.
  intros p l H. unfold step.
  assert (H' : Inv (set_line (int_succ (line p)) p)) by exact H.
  change (state (set_line (int_succ (line p)) p)) with (state p).
  destruct (state p) eqn:Hst.
  - eexists. split; [reflexivity|]. now apply Inv_handleTop.
  - eexists. split; [reflexivity|]. now apply Inv_handleShedoc.
  - now apply handleSheblock_total.
Qed.

Lemma scan_total : forall ls p, Inv p -> exists p', scan p ls = Done p' /\ Inv p'.
Proof.
  induction ls as [|l ls IH]; intros p H; simpl.
  - eauto.
  - destruct (step_total p l H) as [p1 [-> H1]]. simpl. now apply IH.
Qed.

Lemma atEOF_total : forall p, Inv p -> exists p', atEOF p = Done p'.
Proof.
  intros p H. unfold atEOF. destruct (state p) eqn:Hst; eauto.
  destruct (block p) as [b|] eqn:Hb; [|destruct H as [H _]; now elim (H Hst)].
  destruct (finalizeCurrentTag_block p b Hb) as [b' ->]. simpl. eauto.
Qed.

Lemma Inv_newParser : Inv newParser.
Proof. split; simpl; [discriminate | reflexivity]. Qed.

Lemma ParseReader_total : forall lines, exists d, ParseReader lines = Done (d, None).
Proof.
  intro lines. unfold ParseReader, parse.
  destruct (scan_total lines newParser Inv_newParser) as [p [-> H]]. simpl.
  destruct (atEOF_total p H) as [p' ->]. simpl. eauto.
Qed.

(* ================================================================= *)
(** ** Tag lines of a documentation block *)

Ltac split_ifs :=
  repeat match goal with
         | |- context [if ?c then _ else _] => destruct c
         end.

Lemma applyTagToBlock_shape :
  forall name result p q,
    applyTagToBlock name result p = Done q -> q = set_block (block q) p.
Proof.
  intros name result [d ln st stag sl blk desc it ct cr tc] q.
  unfold applyTagToBlock, onBlock. simpl.
  split_ifs; destruct result; destruct blk; intro H;
    try discriminate; injection H as <-; reflexivity.
Qed.

Lemma finalizeCurrentTag_shape :
  forall p q,
    finalizeCurrentTag p = Done q -> q = clearCurrentTag (set_block (block q) p).
Proof.
  intros p q. unfold finalizeCurrentTag.
  destruct (currentResult p) as [r|].
  - destruct (isEmpty (currentTag p)).
    + intro H. injection H as <-. now destruct p.
    + destruct (applyTagToBlock _ _ p) as [p'|] eqn:Ha; simpl; [|discriminate].
      intro H. injection H as <-.
      apply applyTagToBlock_shape in Ha. rewrite Ha at 1. reflexivity.
  - intro H. injection H as <-. now destruct p.
Qed.

Lemma applyTagToBlock_set_line :
  forall name result x p,
    applyTagToBlock name result (set_line x p)
    = (do q <- applyTagToBlock name result p in Done (set_line x q)).
Proof.
  intros name result x [d ln st stag sl blk desc it ct cr tc].
  unfold applyTagToBlock, onBlock. simpl.
  split_ifs; destruct result; destruct blk; reflexivity.
Qed.

Lemma finalizeCurrentTag_set_line :
  forall x p,
    finalizeCurrentTag (set_line x p)
    = (do q <- finalizeCurrentTag p in Done (set_line x q)).
Proof.
  intros x p. unfold finalizeCurrentTag. simpl.
  destruct (currentResult p) as [r|]; [|reflexivity].
  destruct (isEmpty (currentTag p)); [reflexivity|].
  rewrite applyTagToBlock_set_line.
  destruct (applyTagToBlock _ _ p); reflexivity.
Qed.

Lemma pendingBlock_finalize :
  forall p b,
    pendingBlock p = Some b ->
    finalizeCurrentTag p = Done (clearCurrentTag (set_block (Some b) p)).
Proof.
  intros p b H. unfold pendingBlock in H.
  destruct (finalizeCurrentTag p) as [q|] eqn:Hf; [|discriminate].
  rewrite (finalizeCurrentTag_shape _ _ Hf). now rewrite H.
Qed.

Lemma parseTag_ok_name :
  forall n t ln r, parseTag n t ln = Ok r -> isEmpty n = false.
Proof. intros [|c n] t ln r H; [discriminate | reflexivity]. Qed.

Lemma tagOfLine_inv :
  forall l n t,
    tagOfLine l = Some (n, t) ->
    MatchString reBlockClose l = false
    /\ exists m, FindStringSubmatch reContinuation l = Some m
                 /\ splitTag (sub m 1) = Some (n, t).
Proof.
  intros l n t. unfold tagOfLine, continuationContent.
  destruct (MatchString reBlockClose l); [discriminate|].
  destruct (FindStringSubmatch reContinuation l) as [m|]; [|discriminate].
  intro H. split; [reflexivity|]. now exists m.
Qed.

(** One tag line, handled with the pending tag of the previous one. *)
Lemma step_tag_line :
  forall p b l n t,
    state p = stateSheblock ->
    pendingBlock p = Some b ->
    tagOfLine l = Some (n, t) ->
    step p l
    = Done (let ln := int_succ (line p) in
            let q := set_inTags true
                       (clearCurrentTag (set_block (Some b) (set_line ln p))) in
            match parseTag n t ln with
            | Ok r => set_tagContLines [] (set_currentResult (Some r) (set_currentTag n q))
            | Err e => addWarning (Warning.mk ln e) q
            end).
Proof.
  intros p b l n t Hst Hp Hl.
  apply tagOfLine_inv in Hl as [Hc [m [Hm Hs]]].
  unfold step. change (state (set_line _ p)) with (state p). rewrite Hst.
  unfold handleSheblock. rewrite Hc, Hm, Hs.
  rewrite finalizeCurrentTag_set_line, (pendingBlock_finalize _ _ Hp). simpl.
  destruct (parseTag n t (int_succ (line p))); reflexivity.
Qed.

Lemma pendingBlock_after_ok :
  forall q b n r,
    block q = Some b -> isEmpty n = false ->
    pendingBlock (set_tagContLines [] (set_currentResult (Some r) (set_currentTag n q)))
    = Some (attach n r b).
Proof.
  intros q b n r Hb Hn. unfold pendingBlock, finalizeCurrentTag. simpl.
  rewrite Hn. simpl.
  erewrite applyTagToBlock_attach by (simpl; eassumption). reflexivity.
Qed.

(** The tag lines of a block, one after the other. *)
Lemma scan_tag_lines :
  forall ls p b,
    state p = stateSheblock ->
    pendingBlock p = Some b ->
    forallb isTagLine ls = true ->
    exists p',
      scan p ls = Done p'
      /\ state p' = stateSheblock
      /\ pendingBlock p' = Some (attachAll (recordsOf (line p) ls) b)
      /\ doc p' = Document.set_Warnings
                    (Document.Warnings (doc p) ++ warningsOf (line p) ls) (doc p)
      /\ blockDesc p' = blockDesc p.
Proof.
  induction ls as [|l ls IH]; intros p b Hst Hp Hall.
  - exists p. simpl. rewrite app_nil_r. repeat split; try assumption.
    now destruct (doc p).
  - simpl in Hall. apply andb_true_iff in Hall as [Hl Hall].
    unfold isTagLine in Hl.
    destruct (tagOfLine l) as [[n t]|] eqn:Ht; [|discriminate].
    simpl scan. rewrite (step_tag_line p b l n t Hst Hp Ht). simpl bind.
    simpl recordsOf. simpl warningsOf. rewrite Ht.
    destruct (parseTag n t (int_succ (line p))) as [r|e] eqn:Hr.
    + set (p1 := set_tagContLines [] (set_currentResult (Some r) (set_currentTag n
                   (set_inTags true (clearCurrentTag
                      (set_block (Some b) (set_line (int_succ (line p)) p))))))).
      assert (Hp1 : pendingBlock p1 = Some (attach n r b)).
      { apply pendingBlock_after_ok; [reflexivity|].
        eapply parseTag_ok_name; eassumption. }
      destruct (IH p1 (attach n r b) Hst Hp1 Hall) as [p' [Hs [Hst' [Hp' [Hd' Hb']]]]].
      exists p'. repeat split; assumption.
    + set (p1 := addWarning (Warning.mk (int_succ (line p)) e)
                   (set_inTags true (clearCurrentTag
                      (set_block (Some b) (set_line (int_succ (line p)) p))))).
      assert (Hp1 : pendingBlock p1 = Some b) by reflexivity.
      destruct (IH p1 b Hst Hp1 Hall) as [p' [Hs [Hst' [Hp' [Hd' Hb']]]]].
      exists p'. repeat split; try assumption.
      rewrite Hd'. simpl. rewrite <- app_assoc. reflexivity.
Qed.

Lemma scan_app :
  forall l1 l2 p, scan p (l1 ++ l2) = (do q <- scan p l1 in scan q l2).
Proof.
  induction l1 as [|l l1 IH]; intros l2 p; simpl; [reflexivity|].
  destruct (step p l); simpl; [apply IH | reflexivity].
Qed.

Lemma step_close :
  forall p b c,
    state p = stateSheblock ->
    pendingBlock p = Some b ->
    MatchString reBlockClose c = true ->
    step p c
    = Done (set_state stateTop
              (finalizeBlock
                 (clearCurrentTag (set_block (Some b) (set_line (int_succ (line p)) p))))).
Proof.
  intros p b c Hst Hp Hc. unfold step.
  change (state (set_line _ p)) with (state p). rewrite Hst.
  unfold handleSheblock. rewrite Hc.
  rewrite finalizeCurrentTag_set_line, (pendingBlock_finalize _ _ Hp). reflexivity.
Qed.

(** A block made of tag lines and closed: what the document receives. *)
Lemma scan_block :
  forall ls p b c,
    state p = stateSheblock ->
    pendingBlock p = Some b ->
    forallb isTagLine ls = true ->
    MatchString reBlockClose c = true ->
    exists p',
      scan p (ls ++ [c]) = Done p'
      /\ state p' = stateTop
      /\ Document.Blocks (doc p')
         = Document.Blocks (doc p)
             ++ [finished (blockDesc p) (attachAll (recordsOf (line p) ls) b)]
      /\ Document.Warnings (doc p')
         = Document.Warnings (doc p) ++ warningsOf (line p) ls.
Proof.
  intros ls p b c Hst Hp Hall Hc.
  destruct (scan_tag_lines ls p b Hst Hp Hall) as [p1 [Hs [Hst1 [Hp1 [Hd1 Hb1]]]]].
  rewrite scan_app, Hs. simpl bind. simpl scan.
  rewrite (step_close p1 _ c Hst1 Hp1 Hc). simpl bind.
  eexists. split; [reflexivity|].
  unfold finalizeBlock, finished. simpl. rewrite Hd1, Hb1. simpl.
  repeat split.
Qed.

Lemma warningsOf_count :
  forall ls ln, length (warningsOf ln ls) = countMalformed ln ls.
Proof.
  induction ls as [|l ls IH]; intro ln; simpl; [reflexivity|].
  unfold malformed.
  destruct (tagOfLine l) as [[n t]|]; [|apply IH].
  destruct (parseTag n t (int_succ ln)); simpl; now rewrite IH.
Qed.

Lemma recordsOf_count :
  forall ls ln,
    forallb isTagLine ls = true ->
    length (recordsOf ln ls) + countMalformed ln ls = length ls.
Proof.
  induction ls as [|l ls IH]; intros ln Hall; simpl; [reflexivity|].
  simpl in Hall. apply andb_true_iff in Hall as [Hl Hall].
  unfold isTagLine in Hl. unfold malformed.
  destruct (tagOfLine l) as [[n t]|]; [|discriminate].
  specialize (IH (int_succ ln) Hall).
  destruct (parseTag n t (int_succ ln)); simpl; lia.
Qed.

(* ================================================================= *)
(** ** The parser object that a list of lines leads to *)

Lemma reach_scan : forall lines, scan newParser lines = Done (reach lines).
Proof.
  intro lines. unfold reach.
  destruct (scan_total lines newParser Inv_newParser) as [p [-> _]]. reflexivity.
Qed.

Lemma reach_Inv : forall lines, Inv (reach lines).
Proof.
  intro lines. unfold reach.
  destruct (scan_total lines newParser Inv_newParser) as [p [-> H]]. exact H.
Qed.

Lemma Inv_pendingBlock :
  forall p, Inv p -> state p = stateSheblock -> exists b, pendingBlock p = Some b.
Proof.
  intros p [H _] Hst.
  destruct (block p) as [b|] eqn:Hb; [|now elim (H Hst)].
  destruct (finalizeCurrentTag_block p b Hb) as [b' Hf].
  exists b'. unfold pendingBlock. now rewrite Hf.
Qed.

Lemma setShedocMeta_set_line :
  forall tag value x p,
    let q1 := setShedocMeta tag value p in
    let q2 := setShedocMeta tag value (set_line x p) in
    Document.Path (doc q2) = Document.Path (doc q1)
    /\ Document.Shebang (doc q2) = Document.Shebang (doc q1)
    /\ Document.Meta (doc q2) = Document.Meta (doc q1)
    /\ Document.Blocks (doc q2) = Document.Blocks (doc q1)
    /\ map Warning.Message (Document.Warnings (doc q2))
       = map Warning.Message (Document.Warnings (doc q1)).
Proof.
  intros tag value x p. unfold setShedocMeta. simpl.
  split_ifs; simpl; repeat split.
  now rewrite !map_app.
Qed.

(* ================================================================= *)
(** ** Singular and collection tags (C6) *)

Ltac case_name n :=
  repeat match goal with
         | |- context [n == ?k] =>
             let E := fresh "E" in
             destruct (n == k) eqn:E;
             [apply eqs_eq in E; subst n; vm_compute | ]
         end.

Lemma pick_cons :
  forall (A : Type) name (sel : TagResult -> option A) x recs,
    pick name sel (x :: recs) = pick name sel [x] ++ pick name sel recs.
Proof. intros. unfold pick. simpl. now rewrite app_nil_r. Qed.

Lemma lastOr_app :
  forall (A : Type) (l1 l2 : list A) d, lastOr (l1 ++ l2) d = lastOr l2 (lastOr l1 d).
Proof.
  intros A l1 l2 d. unfold lastOr. rewrite rev_app_distr.
  destruct (rev l2); reflexivity.
Qed.

Lemma fold_collection :
  forall (A : Type) (F : Block -> list A) name sel,
    (forall n r b, F (attach n r b) = F b ++ pick name sel [(n, r)]) ->
    forall recs b, F (attachAll recs b) = F b ++ pick name sel recs.
Proof.
  intros A F name sel H. induction recs as [|[n r] recs IH]; intro b.
  - simpl. now rewrite app_nil_r.
  - unfold attachAll in *. simpl fold_left. rewrite IH.
    rewrite H, (pick_cons _ _ _ (n, r) recs). now rewrite app_assoc.
Qed.

Lemma fold_singular :
  forall (A : Type) (F : Block -> option A) name sel,
    (forall n r b, F (attach n r b) = lastOr (pick name sel [(n, r)]) (F b)) ->
    forall recs b, F (attachAll recs b) = lastOr (pick name sel recs) (F b).
Proof.
  intros A F name sel H. induction recs as [|[n r] recs IH]; intro b.
  - reflexivity.
  - unfold attachAll in *. simpl fold_left. rewrite IH.
    rewrite H, (pick_cons _ _ _ (n, r) recs). now rewrite lastOr_app.
Qed.

Ltac attach_field :=
  intros n r b; unfold attach, applyTagToBlock, pick; simpl;
  case_name n; destruct r; vm_compute;
  first [ reflexivity
        | symmetry; apply app_nil_r
        | destruct b; reflexivity
        | destruct b; symmetry; apply app_nil_r ].

Lemma attach_Flags : forall n r b,
    Block.Flags (attach n r b) = Block.Flags b ++ pick (lit "flag") selFlag [(n, r)].
Proof. attach_field. Qed.
Lemma attach_Options : forall n r b,
    Block.Options (attach n r b) = Block.Options b ++ pick (lit "option") selOption [(n, r)].
Proof. attach_field. Qed.
Lemma attach_Operands : forall n r b,
    Block.Operands (attach n r b)
    = Block.Operands b ++ pick (lit "operand") selOperand [(n, r)].
Proof. attach_field. Qed.
Lemma attach_Env : forall n r b,
    Block.Env (attach n r b) = Block.Env b ++ pick (lit "env") selEnv [(n, r)].
Proof. attach_field. Qed.
Lemma attach_Reads : forall n r b,
    Block.Reads (attach n r b) = Block.Reads b ++ pick (lit "reads") selReads [(n, r)].
Proof. attach_field. Qed.
Lemma attach_Exit : forall n r b,
    Block.Exit (attach n r b) = Block.Exit b ++ pick (lit "exit") selExit [(n, r)].
Proof. attach_field. Qed.
Lemma attach_Sets : forall n r b,
    Block.Sets (attach n r b) = Block.Sets b ++ pick (lit "sets") selSets [(n, r)].
Proof. attach_field. Qed.
Lemma attach_Writes : forall n r b,
    Block.Writes (attach n r b) = Block.Writes b ++ pick (lit "writes") selWrites [(n, r)].
Proof. attach_field. Qed.
Lemma attach_Stdin : forall n r b,
    Block.Stdin (attach n r b)
    = lastOr (pick (lit "stdin") selStdin [(n, r)]) (Block.Stdin b).
Proof. attach_field. Qed.
Lemma attach_Stdout : forall n r b,
    Block.Stdout (attach n r b)
    = lastOr (pick (lit "stdout") selStdout [(n, r)]) (Block.Stdout b).
Proof. attach_field. Qed.
Lemma attach_Stderr : forall n r b,
    Block.Stderr (attach n r b)
    = lastOr (pick (lit "stderr") selStderr [(n, r)]) (Block.Stderr b).
Proof. attach_field. Qed.
Lemma attach_Deprecated : forall n r b,
    Block.Deprecated (attach n r b)
    = lastOr (pick (lit "deprecated") selDeprecated [(n, r)]) (Block.Deprecated b).
Proof. attach_field. Qed.

Lemma finished_fields :
  forall desc b,
    Block.Flags (finished desc b) = Block.Flags b
    /\ Block.Options (finished desc b) = Block.Options b
    /\ Block.Operands (finished desc b) = Block.Operands b
    /\ Block.Env (finished desc b) = Block.Env b
    /\ Block.Reads (finished desc b) = Block.Reads b
    /\ Block.Exit (finished desc b) = Block.Exit b
    /\ Block.Sets (finished desc b) = Block.Sets b
    /\ Block.Writes (finished desc b) = Block.Writes b
    /\ Block.Stdin (finished desc b) = Block.Stdin b
    /\ Block.Stdout (finished desc b) = Block.Stdout b
    /\ Block.Stderr (finished desc b) = Block.Stderr b
    /\ Block.Deprecated (finished desc b) = Block.Deprecated b.
Proof.
  intros desc b. unfold finished. destruct (negb (isEmpty desc)); repeat split.
Qed.

(** C6.  [applyTagToBlock] replaces the stdin, stdout, stderr and
    deprecated fields of the block, whatever they held, and appends to the
    flags, options, operands, env, reads, exit, sets and writes fields.
    Hence a closed block made of tag lines holds, in each collection
    field, what it held before followed by the records of that kind in the
    order of their lines, and in each singular field the record of the last
    tag line of that kind (two stdout lines leave the second). *)
Theorem C6_singular_overwrite_collection_append :
  (forall p b,
      (forall v, applyTagToBlock (lit "stdin") (RStdin v) (set_block (Some b) p)
                 = Done (set_block (Some (Block.set_Stdin (Some v) b)) p))
      /\ (forall v, applyTagToBlock (lit "stdout") (RStdout v) (set_block (Some b) p)
                    = Done (set_block (Some (Block.set_Stdout (Some v) b)) p))
      /\ (forall v, applyTagToBlock (lit "stderr") (RStderr v) (set_block (Some b) p)
                    = Done (set_block (Some (Block.set_Stderr (Some v) b)) p))
      /\ (forall v, applyTagToBlock (lit "deprecated") (RDeprecated v) (set_block (Some b) p)
                    = Done (set_block (Some (Block.set_Deprecated (Some v) b)) p))
      /\ (forall v, applyTagToBlock (lit "flag") (RFlag v) (set_block (Some b) p)
                    = Done (set_block (Some (Block.set_Flags (Block.Flags b ++ [v]) b)) p))
      /\ (forall v, applyTagToBlock (lit "option") (ROption v) (set_block (Some b) p)
                    = Done (set_block (Some (Block.set_Options (Block.Options b ++ [v]) b)) p))
      /\ (forall v, applyTagToBlock (lit "operand") (ROperand v) (set_block (Some b) p)
                    = Done (set_block (Some (Block.set_Operands (Block.Operands b ++ [v]) b)) p))
      /\ (forall v, applyTagToBlock (lit "env") (REnv v) (set_block (Some b) p)
                    = Done (set_block (Some (Block.set_Env (Block.Env b ++ [v]) b)) p))
      /\ (forall v, applyTagToBlock (lit "reads") (RReads v) (set_block (Some b) p)
                    = Done (set_block (Some (Block.set_Reads (Block.Reads b ++ [v]) b)) p))
      /\ (forall v, applyTagToBlock (lit "exit") (RExit v) (set_block (Some b) p)
                    = Done (set_block (Some (Block.set_Exit (Block.Exit b ++ [v]) b)) p))
      /\ (forall v, applyTagToBlock (lit "sets") (RSets v) (set_block (Some b) p)
                    = Done (set_block (Some (Block.set_Sets (Block.Sets b ++ [v]) b)) p))
      /\ (forall v, applyTagToBlock (lit "writes") (RWrites v) (set_block (Some b) p)
                    = Done (set_block (Some (Block.set_Writes (Block.Writes b ++ [v]) b)) p)))
  /\ (forall ls p b c,
         state p = stateSheblock ->
         pendingBlock p = Some b ->
         forallb isTagLine ls = true ->
         MatchString reBlockClose c = true ->
         exists p' blk,
           scan p (ls ++ [c]) = Done p'
           /\ Document.Blocks (doc p') = Document.Blocks (doc p) ++ [blk]
           /\ Block.Stdin blk
              = lastOr (pick (lit "stdin") selStdin (recordsOf (line p) ls)) (Block.Stdin b)
           /\ Block.Stdout blk
              = lastOr (pick (lit "stdout") selStdout (recordsOf (line p) ls)) (Block.Stdout b)
           /\ Block.Stderr blk
              = lastOr (pick (lit "stderr") selStderr (recordsOf (line p) ls)) (Block.Stderr b)
           /\ Block.Deprecated blk
              = lastOr (pick (lit "deprecated") selDeprecated (recordsOf (line p) ls))
                       (Block.Deprecated b)
           /\ Block.Flags blk
              = Block.Flags b ++ pick (lit "flag") selFlag (recordsOf (line p) ls)
           /\ Block.Options blk
              = Block.Options b ++ pick (lit "option") selOption (recordsOf (line p) ls)
           /\ Block.Operands blk
              = Block.Operands b ++ pick (lit "operand") selOperand (recordsOf (line p) ls)
           /\ Block.Env blk
              = Block.Env b ++ pick (lit "env") selEnv (recordsOf (line p) ls)
           /\ Block.Reads blk
              = Block.Reads b ++ pick (lit "reads") selReads (recordsOf (line p) ls)
           /\ Block.Exit blk
              = Block.Exit b ++ pick (lit "exit") selExit (recordsOf (line p) ls)
           /\ Block.Sets blk
              = Block.Sets b ++ pick (lit "sets") selSets (recordsOf (line p) ls)
           /\ Block.Writes blk
              = Block.Writes b ++ pick (lit "writes") selWrites (recordsOf (line p) ls)).
Proof.
  split.
  - intros p b. destruct p. repeat split.
  - intros ls p b c Hst Hp Hall Hc.
    destruct (scan_block ls p b c Hst Hp Hall Hc) as [p' [H1 [_ [H3 _]]]].
    exists p'. eexists. split; [exact H1|]. split; [exact H3|].
    destruct (finished_fields (blockDesc p) (attachAll (recordsOf (line p) ls) b))
      as [F1 [F2 [F3 [F4 [F5 [F6 [F7 [F8 [F9 [F10 [F11 F12]]]]]]]]]]].
    rewrite F1, F2, F3, F4, F5, F6, F7, F8, F9, F10, F11, F12.
    repeat split.
    + apply (fold_singular _ Block.Stdin _ _ attach_Stdin).
    + apply (fold_singular _ Block.Stdout _ _ attach_Stdout).
    + apply (fold_singular _ Block.Stderr _ _ attach_Stderr).
    + apply (fold_singular _ Block.Deprecated _ _ attach_Deprecated).
    + apply (fold_collection _ Block.Flags _ _ attach_Flags).
    + apply (fold_collection _ Block.Options _ _ attach_Options).
    + apply (fold_collection _ Block.Operands _ _ attach_Operands).
    + apply (fold_collection _ Block.Env _ _ attach_Env).
    + apply (fold_collection _ Block.Reads _ _ attach_Reads).
    + apply (fold_collection _ Block.Exit _ _ attach_Exit).
    + apply (fold_collection _ Block.Sets _ _ attach_Sets).
    + apply (fold_collection _ Block.Writes _ _ attach_Writes).
Qed.

Lemma C6_witness :
  state justOpened = stateSheblock
  /\ pendingBlock justOpened = Some (Block.new VisibilityCommand [] 1)
  /\ forallb isTagLine
       (script [" # @stdout first"; " # @exit 0 ok"; " # @stdout second";
                " # @exit 1 failure"]%string) = true
  /\ MatchString reBlockClose (lit " ##") = true
  /\ exists p' blk,
      scan justOpened
           (script [" # @stdout first"; " # @exit 0 ok"; " # @stdout second";
                    " # @exit 1 failure"]%string ++ [lit " ##"]) = Done p'
      /\ Document.Blocks (doc p') = [blk]
      /\ Block.Stdout blk = Some (Stdout.mk (lit "second") 4)
      /\ Block.Exit blk = [Exit.mk (lit "0") (lit "ok") 3;
                            Exit.mk (lit "1") (lit "failure") 5].
Proof.
  assert (H1 : state justOpened = stateSheblock) by reflexivity.
  assert (H2 : pendingBlock justOpened = Some (Block.new VisibilityCommand [] 1))
    by reflexivity.
  assert (H3 : forallb isTagLine
                 (script [" # @stdout first"; " # @exit 0 ok"; " # @stdout second";
                          " # @exit 1 failure"]%string) = true)
    by (vm_compute; reflexivity).
  assert (H4 : MatchString reBlockClose (lit " ##") = true) by (vm_compute; reflexivity).
  repeat (split; [assumption|]).
  destruct (proj2 C6_singular_overwrite_collection_append _ _ _ _ H1 H2 H3 H4)
    as [p' [blk [Hs [Hb [_ [Hout [_ [_ [_ [_ [_ [_ [_ [Hexit _]]]]]]]]]]]]]].
  exists p', blk. split; [exact Hs|]. split; [exact Hb|]. split.
  - rewrite Hout. vm_compute. reflexivity.
  - rewrite Hexit. vm_compute. reflexivity.
Defined.

(* ================================================================= *)
(** ** Facts about strings *)

Lemma tokenChar_facts :
  forall c, tokenChar c = true ->
            asciiSpace c = false
            /\ isBlankTab c = false
            /\ (forall x, space2 c x = false)
            /\ (forall x, space2 x c = false)
            /\ (forall x y, space3 c x y = false)
            /\ (forall x y, space3 x y c = false).
Proof.
  intros c H. unfold tokenChar in H. apply andb_true_iff in H as [H1 H2].
  apply Nat.leb_le in H1, H2.
  assert (E : forall k, k < 33 \/ 126 < k -> (code c =? k) = false)
    by (intros k Hk; apply Nat.eqb_neq; lia).
  assert (L : (128 <=? code c) = false) by (apply Nat.leb_gt; lia).
  unfold asciiSpace, isBlankTab, space2, space3.
  repeat split; intros;
    rewrite ?L, ?E by lia; simpl;
    rewrite ?andb_false_r, ?orb_false_r; reflexivity.
Qed.

Lemma TrimLeft_token : forall c s, tokenChar c = true -> TrimLeft (c :: s) = c :: s.
Proof.
  intros c s H. destruct (tokenChar_facts c H) as [H1 [_ [H2 [_ [H3 _]]]]].
  simpl. rewrite H1. destruct s as [|c2 s]; [reflexivity|]. rewrite H2.
  destruct s as [|c3 s]; [reflexivity|]. now rewrite H3.
Qed.

Lemma TrimRightRev_token : forall c r, tokenChar c = true -> TrimRightRev (c :: r) = c :: r.
Proof.
  intros c r H. destruct (tokenChar_facts c H) as [H1 [_ [_ [H2 [_ H3]]]]].
  simpl. rewrite H1. destruct r as [|c2 r]; [reflexivity|]. rewrite H2.
  destruct r as [|c3 r]; [reflexivity|]. now rewrite H3.
Qed.

Lemma last_rev_hd : forall (s : gostring) c d, rev (c :: s) = last (c :: s) d :: rev (removelast (c :: s)).
Proof.
  intros s c d.
  assert (Hne : c :: s <> []) by discriminate.
  rewrite (app_removelast_last d Hne) at 1.
  rewrite rev_app_distr. reflexivity.
Qed.

Lemma TrimSpace_trimmed : forall s, trimmed s = true -> TrimSpace s = s.
Proof.
  intros [|c s] H; [reflexivity|].
  unfold trimmed in H. apply andb_true_iff in H as [H1 H2].
  unfold TrimSpace, TrimRight. rewrite (TrimLeft_token _ _ H1).
  rewrite (last_rev_hd s c c), (TrimRightRev_token _ _ H2).
  rewrite <- (last_rev_hd s c c). apply rev_involutive.
Qed.

Lemma TrimLeft_blank : forall s, TrimLeft (" "%char :: s) = TrimLeft s.
Proof. reflexivity. Qed.

Lemma cut_none : forall p s, forallb (fun c => negb (p c)) s = true -> cut p s = None.
Proof.
  intros p. induction s as [|c s IH]; simpl; intro H; [reflexivity|].
  apply andb_true_iff in H as [H1 H2]. apply negb_true_iff in H1.
  now rewrite H1, IH.
Qed.

Lemma cut_app :
  forall p a c r,
    forallb (fun x => negb (p x)) a = true -> p c = true ->
    cut p (a ++ c :: r) = Some (a, r).
Proof.
  intros p. induction a as [|x a IH]; simpl; intros c r H Hc.
  - now rewrite Hc.
  - apply andb_true_iff in H as [H1 H2]. apply negb_true_iff in H1.
    now rewrite H1, IH.
Qed.

Lemma cut_length :
  forall p s a b, cut p s = Some (a, b) -> length s = length a + 1 + length b.
Proof.
  intros p. induction s as [|c s IH]; simpl; intros a b H; [discriminate|].
  destruct (p c).
  - injection H as <- <-. simpl. lia.
  - destruct (cut p s) as [[a' b']|]; [|discriminate].
    injection H as <- <-. simpl. rewrite (IH a' b' eq_refl). lia.
Qed.

Lemma token_no_blank :
  forall a, forallb tokenChar a = true -> forallb (fun c => negb (isBlankTab c)) a = true.
Proof.
  induction a as [|c a IH]; simpl; intro H; [reflexivity|].
  apply andb_true_iff in H as [H1 H2].
  destruct (tokenChar_facts c H1) as [_ [Hb _]]. now rewrite Hb, IH.
Qed.

Lemma HasPrefix_nil : forall s, HasPrefix s [] = true.
Proof. now destruct s. Qed.

Lemma HasPrefix_app : forall p s, HasPrefix (p ++ s) p = true.
Proof.
  induction p as [|c p IH]; intro s; simpl; [now destruct s|].
  now rewrite Ascii.eqb_refl, IH.
Qed.

Lemma TrimLeft_length : forall n s, length s <= n -> length (TrimLeft s) <= length s.
Proof.
  induction n as [|n IH]; intros s H.
  - destruct s; [simpl; lia | simpl in H; lia].
  - destruct s as [|c1 s1]; [simpl; lia|].
    simpl in H. simpl TrimLeft.
    destruct (asciiSpace c1).
    { specialize (IH s1). simpl. lia. }
    destruct s1 as [|c2 s2]; [lia|].
    destruct (space2 c1 c2).
    { specialize (IH s2). simpl in *. lia. }
    destruct s2 as [|c3 s3]; [lia|].
    destruct (space3 c1 c2 c3); [|lia].
    specialize (IH s3). simpl in *. lia.
Qed.

Lemma TrimRightRev_length : forall n s, length s <= n -> length (TrimRightRev s) <= length s.
Proof.
  induction n as [|n IH]; intros s H.
  - destruct s; [simpl; lia | simpl in H; lia].
  - destruct s as [|c1 s1]; [simpl; lia|].
    simpl in H. simpl TrimRightRev.
    destruct (asciiSpace c1).
    { specialize (IH s1). simpl. lia. }
    destruct s1 as [|c2 s2]; [lia|].
    destruct (space2 c2 c1).
    { specialize (IH s2). simpl in *. lia. }
    destruct s2 as [|c3 s3]; [lia|].
    destruct (space3 c3 c2 c1); [|lia].
    specialize (IH s3). simpl in *. lia.
Qed.

Lemma TrimSpace_length : forall s, length (TrimSpace s) <= length s.
Proof.
  intro s. unfold TrimSpace, TrimRight.
  rewrite length_rev.
  pose proof (TrimRightRev_length _ (rev (TrimLeft s)) (le_n _)) as H1.
  rewrite length_rev in H1.
  pose proof (TrimLeft_length _ s (le_n _)). lia.
Qed.

Lemma splitFirstToken_length :
  forall text name rest,
    text <> [] -> splitFirstToken text = (name, rest) -> length rest < length text.
Proof.
  intros text name rest Hne H. unfold splitFirstToken in H.
  pose proof (TrimSpace_length text) as Hl.
  destruct (cut isBlankTab (TrimSpace text)) as [[a b]|] eqn:Hc.
  - injection H as <- <-. apply cut_length in Hc. lia.
  - injection H as <- <-. destruct text; [congruence | simpl; lia].
Qed.

(* ================================================================= *)
(** ** The loop of consumeFlags *)

Lemma HasPrefix_dashdash :
  forall text, HasPrefix text (lit "--") = true -> HasPrefix text (lit "-") = true.
Proof.
  intros [|c text] H; [discriminate|].
  change (Ascii.eqb "-" c && HasPrefix text (lit "-") = true) in H.
  change (Ascii.eqb "-" c && HasPrefix text [] = true).
  apply andb_true_iff in H as [H _]. rewrite H. now destruct text.
Qed.

Lemma consumeFlagsLoop_S :
  forall fuel text short long,
    consumeFlagsLoop (S fuel) text short long
    = if isEmpty text then Some (text, short, long)
      else
        let consumed :=
          if HasPrefix text (lit "--") then
            let (name, rest) := splitFirstToken text in
            Some (TrimSpace rest, short, name)
          else if HasPrefix text (lit "-") then
            let (name, rest) := splitFirstToken text in
            Some (TrimSpace rest, name, long)
          else None in
        match consumed with
        | None => Some (text, short, long)
        | Some (text', short', long') =>
            if HasPrefix text' (lit "|")
            then consumeFlagsLoop fuel (TrimSpace (skipn 1 text')) short' long'
            else Some (text', short', long')
        end.
Proof. reflexivity. Qed.

Lemma consumeFlagsLoop_bounded :
  forall m text fuel short long,
    length text <= m ->
    length text < fuel ->
    consumeFlagsLoop fuel text short long
    = Some (flagTurn flagLoop text short long).
Proof.
  induction m as [|m IH]; intros text fuel short long Hm Hlen.
  - destruct text; [|simpl in Hm; lia].
    destruct fuel; [lia | reflexivity].
  - destruct fuel as [|fuel]; [lia|].
    assert (Hnext : forall t s l, length t < length text ->
                                  consumeFlagsLoop fuel t s l = Some (flagLoop t s l)).
    { intros t s l Ht.
      rewrite (IH t fuel s l) by lia.
      unfold flagLoop at 2.
      now rewrite (IH t (S (length t)) s l) by lia. }
    rewrite consumeFlagsLoop_S. unfold flagTurn.
    destruct (isEmpty text) eqn:He; [reflexivity|].
    apply isEmpty_false in He.
    destruct (splitFirstToken text) as [name rest] eqn:Hs. cbv zeta.
    pose proof (splitFirstToken_length text name rest He Hs) as Hr.
    pose proof (TrimSpace_length rest) as Hr'.
    assert (Hk : forall sh lo,
               (if HasPrefix (TrimSpace rest) (lit "|")
                then consumeFlagsLoop fuel (TrimSpace (skipn 1 (TrimSpace rest))) sh lo
                else Some (TrimSpace rest, sh, lo))
               = Some (if HasPrefix (TrimSpace rest) (lit "|")
                       then flagLoop (TrimSpace (skipn 1 (TrimSpace rest))) sh lo
                       else (TrimSpace rest, sh, lo))).
    { intros sh lo. destruct (HasPrefix (TrimSpace rest) (lit "|")); [|reflexivity].
      pose proof (TrimSpace_length (skipn 1 (TrimSpace rest))) as Hq.
      pose proof (length_skipn 1 (TrimSpace rest)) as Hq'.
      apply Hnext. lia. }
    destruct (HasPrefix text (lit "--")) eqn:Hdd.
    + rewrite (HasPrefix_dashdash _ Hdd). apply Hk.
    + destruct (HasPrefix text (lit "-")); [apply Hk | reflexivity].
Qed.

Lemma consumeFlagsLoop_enough :
  forall fuel text short long,
    length text < fuel ->
    consumeFlagsLoop fuel text short long
    = Some (flagTurn flagLoop text short long).
Proof. intros. now apply (consumeFlagsLoop_bounded (length text)). Qed.

(** The loop always returns: [flagLoop] is one turn followed by [flagLoop]. *)
Lemma flagLoop_eq :
  forall text short long,
    consumeFlagsLoop (S (length text)) text short long
    = Some (flagLoop text short long)
    /\ flagLoop text short long = flagTurn flagLoop text short long.
Proof.
  intros text short long.
  pose proof (consumeFlagsLoop_enough (S (length text)) text short long
                (Nat.lt_succ_diag_r _)) as H.
  assert (E : flagLoop text short long = flagTurn flagLoop text short long).
  { unfold flagLoop at 1. now rewrite H. }
  split; [now rewrite H, E | exact E].
Qed.

(* ================================================================= *)
(** ** Two spellings with a bar between blanks *)

Lemma last_ne :
  forall (y : gostring) d d', y <> [] -> last y d = last y d'.
Proof.
  induction y as [|c y IH]; intros d d' H; [congruence|].
  destruct y as [|c2 y]; [reflexivity|].
  change (last (c2 :: y) d = last (c2 :: y) d'). apply IH. discriminate.
Qed.

Lemma last_app_ne :
  forall (x y : gostring) d d', y <> [] -> last (x ++ y) d = last y d'.
Proof.
  induction x as [|c x IH]; intros y d d' Hy; [now apply last_ne|].
  specialize (IH y d d' Hy).
  change ((c :: x) ++ y) with (c :: (x ++ y)).
  destruct (x ++ y) as [|c2 r] eqn:E.
  - apply app_eq_nil in E as [_ E]. congruence.
  - exact IH.
Qed.

Lemma trimmed_iff :
  forall s, s <> [] ->
            trimmed s = tokenChar (hd " "%char s) && tokenChar (last s " "%char).
Proof.
  intros [|c s] H; [congruence|].
  unfold trimmed. now rewrite (last_ne (c :: s) c " "%char H).
Qed.

Lemma trimmed_app :
  forall x z y,
    x <> [] -> y <> [] -> trimmed x = true -> trimmed y = true ->
    trimmed (x ++ z ++ y) = true.
Proof.
  intros x z y Hx Hy Tx Ty.
  rewrite trimmed_iff in Tx, Ty by assumption.
  apply andb_true_iff in Tx as [Tx _]. apply andb_true_iff in Ty as [_ Ty].
  rewrite trimmed_iff by (destruct x; [congruence | discriminate]).
  rewrite app_assoc, (last_app_ne (x ++ z) y " "%char " "%char Hy), Ty.
  destruct x; [congruence|]. simpl in *. now rewrite Tx.
Qed.

Lemma forallb_last :
  forall (f : ascii -> bool) s c, forallb f (c :: s) = true -> f (last (c :: s) c) = true.
Proof.
  intros f s. induction s as [|c2 s IH]; intros c H.
  - simpl in *. now apply andb_true_iff in H as [H _].
  - change (last (c :: c2 :: s) c) with (last (c2 :: s) c).
    rewrite (last_ne (c2 :: s) c c2) by discriminate.
    apply IH. simpl in H. apply andb_true_iff in H as [_ H]. exact H.
Qed.

Lemma isToken_inv :
  forall a, isToken a = true ->
            a <> [] /\ trimmed a = true
            /\ forallb (fun c => negb (isBlankTab c)) a = true.
Proof.
  intros a H. unfold isToken in H. apply andb_true_iff in H as [H1 H2].
  apply negb_true_iff, isEmpty_false in H1.
  split; [exact H1|]. split; [|now apply token_no_blank].
  destruct a as [|c a]; [congruence|].
  unfold trimmed. rewrite (forallb_last _ _ _ H2).
  simpl in H2. apply andb_true_iff in H2 as [H2 _]. now rewrite H2.
Qed.

Lemma HasPrefix_dash_app :
  forall a x, a <> [] -> HasPrefix (a ++ x) (lit "-") = HasPrefix a (lit "-").
Proof.
  intros [|c a] x H; [congruence|].
  change (Ascii.eqb "-" c && HasPrefix (a ++ x) [] = Ascii.eqb "-" c && HasPrefix a []).
  now destruct (a ++ x), a.
Qed.

Lemma HasPrefix_dashdash_app :
  forall a y, a <> [] ->
              HasPrefix (a ++ " "%char :: y) (lit "--") = HasPrefix a (lit "--").
Proof.
  intros [|c [|c2 a]] y H; [congruence| |].
  - change (Ascii.eqb "-" c && (Ascii.eqb "-" " " && HasPrefix y [])
            = Ascii.eqb "-" c && false).
    now destruct (Ascii.eqb "-" c).
  - change (Ascii.eqb "-" c && (Ascii.eqb "-" c2 && HasPrefix (a ++ " "%char :: y) [])
            = Ascii.eqb "-" c && (Ascii.eqb "-" c2 && HasPrefix a [])).
    now destruct (a ++ " "%char :: y), a.
Qed.

Lemma splitFirstToken_token :
  forall a y,
    isToken a = true -> trimmed (a ++ " "%char :: y) = true ->
    splitFirstToken (a ++ " "%char :: y) = (a, y).
Proof.
  intros a y Ha Ht. destruct (isToken_inv a Ha) as [_ [_ Hb]].
  unfold splitFirstToken. rewrite (TrimSpace_trimmed _ Ht).
  now rewrite (cut_app isBlankTab a " "%char y Hb eq_refl).
Qed.

Lemma splitFirstToken_alone :
  forall a, isToken a = true -> splitFirstToken a = (a, []).
Proof.
  intros a Ha. destruct (isToken_inv a Ha) as [_ [Ht Hb]].
  unfold splitFirstToken. rewrite (TrimSpace_trimmed _ Ht).
  now rewrite (cut_none isBlankTab a Hb).
Qed.

Lemma TrimSpace_after_blank :
  forall y, trimmed y = true -> TrimSpace (" "%char :: y) = y.
Proof.
  intros y Hy. unfold TrimSpace. rewrite TrimLeft_blank.
  exact (TrimSpace_trimmed y Hy).
Qed.

(** A spelling followed by a separator: the loop records it and goes on
    with the text after the separator. *)
Lemma flagLoop_spelling_sep :
  forall a more short long,
    isToken a = true -> HasPrefix a (lit "-") = true ->
    trimmed more = true -> more <> [] ->
    flagLoop (a ++ lit " | " ++ more) short long
    = flagLoop more (if longSpelling a then short else a)
               (if longSpelling a then a else long).
Proof.
  intros a more short long Ha Hd Hm Hne.
  destruct (isToken_inv a Ha) as [Hane [Hat _]].
  assert (Hrest : trimmed ("|"%char :: " "%char :: more) = true)
    by (apply (trimmed_app (lit "|") (lit " ") more);
        [discriminate | assumption | reflexivity | assumption]).
  assert (Hall : trimmed (a ++ " "%char :: "|"%char :: " "%char :: more) = true)
    by (apply (trimmed_app a (lit " | ") more); assumption).
  change (a ++ lit " | " ++ more) with (a ++ " "%char :: "|"%char :: " "%char :: more).
  rewrite (proj2 (flagLoop_eq _ _ _)). unfold flagTurn.
  assert (E : isEmpty (a ++ " "%char :: "|"%char :: " "%char :: more) = false)
    by (destruct a; [congruence | reflexivity]).
  rewrite E, (HasPrefix_dash_app a _ Hane), Hd.
  rewrite (splitFirstToken_token a ("|"%char :: " "%char :: more) Ha Hall).
  rewrite (HasPrefix_dashdash_app a _ Hane).
  rewrite (TrimSpace_trimmed _ Hrest).
  change (HasPrefix ("|"%char :: " "%char :: more) (lit "|"))
    with (HasPrefix (" "%char :: more) []).
  cbv beta iota delta [HasPrefix].
  change (skipn 1 ("|"%char :: " "%char :: more)) with (" "%char :: more).
  rewrite (TrimSpace_after_blank _ Hm).
  unfold longSpelling. reflexivity.
Qed.

(** The last spelling, followed by nothing. *)
Lemma flagLoop_spelling_end :
  forall a short long,
    isToken a = true -> HasPrefix a (lit "-") = true ->
    flagLoop a short long
    = ([], if longSpelling a then short else a, if longSpelling a then a else long).
Proof.
  intros a short long Ha Hd.
  destruct (isToken_inv a Ha) as [Hane _].
  rewrite (proj2 (flagLoop_eq _ _ _)). unfold flagTurn.
  apply isEmpty_false in Hane. rewrite Hane, Hd.
  rewrite (splitFirstToken_alone a Ha). reflexivity.
Qed.

(** The last spelling, followed by a description. *)
Lemma flagLoop_spelling_desc :
  forall a d short long,
    isToken a = true -> HasPrefix a (lit "-") = true ->
    trimmed d = true -> d <> [] -> HasPrefix d (lit "|") = false ->
    flagLoop (a ++ lit " " ++ d) short long
    = (d, if longSpelling a then short else a, if longSpelling a then a else long).
Proof.
  intros a d short long Ha Hd Ht Hne Hbar.
  destruct (isToken_inv a Ha) as [Hane [Hat _]].
  assert (Hall : trimmed (a ++ " "%char :: d) = true)
    by (apply (trimmed_app a (lit " ") d); assumption).
  change (a ++ lit " " ++ d) with (a ++ " "%char :: d).
  rewrite (proj2 (flagLoop_eq _ _ _)). unfold flagTurn.
  assert (E : isEmpty (a ++ " "%char :: d) = false)
    by (destruct a; [congruence | reflexivity]).
  rewrite E, (HasPrefix_dash_app a _ Hane), Hd.
  rewrite (splitFirstToken_token a d Ha Hall).
  rewrite (HasPrefix_dashdash_app a _ Hane).
  rewrite (TrimSpace_trimmed _ Ht), Hbar.
  unfold longSpelling. reflexivity.
Qed.

Lemma consumeFlags_two :
  forall a b short long,
    isToken a = true -> isToken b = true ->
    HasPrefix a (lit "-") = true -> HasPrefix b (lit "-") = true ->
    consumeFlags (a ++ lit " | " ++ b) short long
    = ([],
       if longSpelling b then (if longSpelling a then short else a) else b,
       if longSpelling b then b else (if longSpelling a then a else long)).
Proof.
  intros a b short long Ha Hb Hda Hdb.
  destruct (isToken_inv a Ha) as [Hane [Hat _]].
  destruct (isToken_inv b Hb) as [Hbne [Hbt _]].
  unfold consumeFlags.
  rewrite (TrimSpace_trimmed _ (trimmed_app a (lit " | ") b Hane Hbne Hat Hbt)).
  rewrite (flagLoop_spelling_sep a b short long Ha Hda Hbt Hbne).
  apply (flagLoop_spelling_end b _ _ Hb Hdb).
Qed.

Lemma consumeFlags_two_desc :
  forall a b d short long,
    isToken a = true -> isToken b = true ->
    HasPrefix a (lit "-") = true -> HasPrefix b (lit "-") = true ->
    trimmed d = true -> d <> [] -> HasPrefix d (lit "|") = false ->
    trimmed (a ++ lit " | " ++ b ++ lit " " ++ d) = true
    /\ consumeFlags (a ++ lit " | " ++ b ++ lit " " ++ d) short long
       = (d,
          if longSpelling b then (if longSpelling a then short else a) else b,
          if longSpelling b then b else (if longSpelling a then a else long)).
Proof.
  intros a b d short long Ha Hb Hda Hdb Hd Hdne Hbar.
  destruct (isToken_inv a Ha) as [Hane [Hat _]].
  destruct (isToken_inv b Hb) as [Hbne [Hbt _]].
  assert (Hbd : trimmed (b ++ lit " " ++ d) = true) by (now apply trimmed_app).
  assert (Hbdne : b ++ lit " " ++ d <> []) by (destruct b; [congruence | discriminate]).
  assert (Hall : trimmed (a ++ lit " | " ++ b ++ lit " " ++ d) = true)
    by (now apply (trimmed_app a (lit " | ") (b ++ lit " " ++ d))).
  split; [exact Hall|].
  unfold consumeFlags. rewrite (TrimSpace_trimmed _ Hall).
  rewrite (flagLoop_spelling_sep a _ short long Ha Hda Hbd Hbdne).
  apply (flagLoop_spelling_desc b d _ _ Hb Hdb Hd Hdne Hbar).
Qed.

Lemma shortSpelling_inv :
  forall a, shortSpelling a = true ->
            HasPrefix a (lit "-") = true /\ longSpelling a = false.
Proof.
  intros a H. unfold shortSpelling in H. apply andb_true_iff in H as [H1 H2].
  apply negb_true_iff in H2. now split.
Qed.

(* ================================================================= *)
(** ** Value notation (C3) *)

Lemma firstn_length_app :
  forall (l r : gostring), firstn (length l) (l ++ r) = l.
Proof.
  induction l as [|c l IH]; intro r; simpl; [reflexivity|]. now rewrite IH.
Qed.

Lemma HasSuffix_app : forall n suffix, HasSuffix (n ++ suffix) suffix = true.
Proof.
  intros n suffix. unfold HasSuffix. rewrite rev_app_distr. apply HasPrefix_app.
Qed.

Lemma TrimSuffix_app : forall n suffix, TrimSuffix (n ++ suffix) suffix = n.
Proof.
  intros n suffix. unfold TrimSuffix. rewrite HasSuffix_app, length_app.
  replace (length n + length suffix - length suffix) with (length n) by lia.
  apply firstn_length_app.
Qed.

Lemma HasSuffix_dots_after_eq :
  forall n d, HasSuffix (n ++ "="%char :: d) dots = HasSuffix d dots.
Proof.
  intros n d. unfold HasSuffix.
  change (n ++ "="%char :: d) with (n ++ ["="%char] ++ d).
  rewrite !rev_app_distr. simpl rev at 2.
  destruct (rev d) as [|x [|y [|z r]]]; try reflexivity.
  change (Ascii.eqb "." x && (Ascii.eqb "." y && (Ascii.eqb "." z
            && HasPrefix ((r ++ ["="%char]) ++ rev n) []))
          = Ascii.eqb "." x && (Ascii.eqb "." y && (Ascii.eqb "." z && HasPrefix r []))).
  now rewrite !HasPrefix_nil.
Qed.

(** [ParseValue] on a text between two printable characters. *)
Lemma ParseValue_brackets :
  forall (o c : ascii) (inner : gostring),
    inner <> [] -> tokenChar o = true -> tokenChar c = true ->
    ParseValue (o :: inner ++ [c])
    = let s := o :: inner ++ [c] in
      let bracket :=
        if Ascii.eqb o "<" && Ascii.eqb c ">" then Some true
        else if Ascii.eqb o "[" && Ascii.eqb c "]" then Some false
        else None in
      match bracket with
      | None => Err (Msgf "invalid value notation: %q (must be <...> or [...])" [s])
      | Some required =>
          let variadic := HasSuffix inner dots in
          let inner := if variadic then TrimSuffix inner dots else inner in
          if variadic && isEmpty inner
          then Err (Msgf "invalid value notation: %q (empty name before ...)" [s])
          else
            match cut isEq inner with
            | Some (name, def) =>
                if required
                then Err (Msgf "invalid value notation: %q (defaults not allowed in required values)" [s])
                else if isEmpty name
                then Err (Msgf "invalid value notation: %q (empty name before =)" [s])
                else Ok (Value.mk name required def variadic)
            | None => Ok (Value.mk inner required [] variadic)
            end
      end.
Proof.
  intros o c inner Hne Ho Hc.
  assert (Hlast : last (o :: inner ++ [c]) " "%char = c).
  { change (o :: inner ++ [c]) with ((o :: inner) ++ [c]).
    now rewrite (last_app_ne (o :: inner) [c] " "%char " "%char). }
  assert (Ht : trimmed (o :: inner ++ [c]) = true).
  { rewrite trimmed_iff by discriminate. rewrite Hlast. simpl hd. now rewrite Ho, Hc. }
  unfold ParseValue. rewrite (TrimSpace_trimmed _ Ht).
  assert (Hlen : length (o :: inner ++ [c]) = S (S (length inner)))
    by (simpl; rewrite length_app; simpl; lia).
  rewrite Hlen, Hlast.
  assert (H3 : (S (S (length inner)) <? 3) = false).
  { apply Nat.ltb_ge. destruct inner; [congruence | simpl; lia]. }
  rewrite H3.
  replace (S (S (length inner)) - 2) with (length inner) by lia.
  change (skipn 1 (o :: inner ++ [c])) with (inner ++ [c]).
  rewrite firstn_length_app.
  apply isEmpty_false in Hne. rewrite Hne.
  reflexivity.
Qed.

Lemma noEq_cut : forall n, noEq n = true -> cut isEq n = None.
Proof. intros n H. now apply cut_none. Qed.

Lemma noEq_cut_app :
  forall n d, noEq n = true -> cut isEq (n ++ "="%char :: d) = Some (n, d).
Proof. intros n d H. now apply cut_app. Qed.

Lemma ParseValue_plain :
  forall (o c : ascii) (required : bool) (n : gostring),
    n <> [] -> noEq n = true -> HasSuffix n dots = false ->
    tokenChar o = true -> tokenChar c = true ->
    (if Ascii.eqb o "<" && Ascii.eqb c ">" then Some true
     else if Ascii.eqb o "[" && Ascii.eqb c "]" then Some false else None)
    = Some required ->
    ParseValue (o :: n ++ [c]) = Ok (Value.mk n required [] false).
Proof.
  intros o c required n Hne Hq Hs Ho Hc Hb.
  rewrite (ParseValue_brackets o c n Hne Ho Hc). cbv zeta.
  rewrite Hb, Hs. simpl andb. cbv iota. now rewrite (noEq_cut n Hq).
Qed.

Lemma ParseValue_variadic :
  forall (o c : ascii) (required : bool) (n : gostring),
    n <> [] -> noEq n = true ->
    tokenChar o = true -> tokenChar c = true ->
    (if Ascii.eqb o "<" && Ascii.eqb c ">" then Some true
     else if Ascii.eqb o "[" && Ascii.eqb c "]" then Some false else None)
    = Some required ->
    ParseValue (o :: (n ++ dots) ++ [c]) = Ok (Value.mk n required [] true).
Proof.
  intros o c required n Hne Hq Ho Hc Hb.
  rewrite (ParseValue_brackets o c (n ++ dots));
    [ | destruct n; [congruence | discriminate] | assumption | assumption ].
  cbv zeta. rewrite Hb, HasSuffix_app, TrimSuffix_app.
  apply isEmpty_false in Hne. rewrite Hne. simpl andb. cbv iota.
  now rewrite (noEq_cut n Hq).
Qed.

Lemma ParseValue_default :
  forall (n d : gostring),
    n <> [] -> noEq n = true -> HasSuffix d dots = false ->
    ParseValue ("["%char :: (n ++ "="%char :: d) ++ ["]"%char])
    = Ok (Value.mk n false d false).
Proof.
  intros n d Hne Hq Hs.
  rewrite (ParseValue_brackets "[" "]" (n ++ "="%char :: d));
    [ | destruct n; discriminate | reflexivity | reflexivity ].
  cbv zeta.
  change (Ascii.eqb "[" "<" && Ascii.eqb "]" ">") with false.
  change (Ascii.eqb "[" "[" && Ascii.eqb "]" "]") with true.
  cbv iota. rewrite HasSuffix_dots_after_eq, Hs. simpl andb. cbv iota.
  apply isEmpty_false in Hne. now rewrite (noEq_cut_app n d Hq), Hne.
Qed.

(** C3.  For a name [n] that is not empty and holds no [=] (and, in the
    two shapes that are only a name, does not end in three dots) and a
    default [d] that is not empty and does not end in three dots,
    [ParseValue] succeeds on each of the five canonical shapes; the fields
    of the Value are the parts of the shape, and [formatValue] prints the
    Value back to the input.  Every Value that [ParseValue] returns with
    Required set has an empty Default. *)
Theorem C3_value_notation_roundtrip :
  (forall n : gostring,
      n <> [] -> noEq n = true ->
      (HasSuffix n dots = false ->
       ParseValue (lit "<" ++ n ++ lit ">") = Ok (Value.mk n true [] false)
       /\ formatValue (Value.mk n true [] false) = lit "<" ++ n ++ lit ">")
      /\ (HasSuffix n dots = false ->
          ParseValue (lit "[" ++ n ++ lit "]") = Ok (Value.mk n false [] false)
          /\ formatValue (Value.mk n false [] false) = lit "[" ++ n ++ lit "]")
      /\ (forall d, d <> [] -> HasSuffix d dots = false ->
                    ParseValue (lit "[" ++ n ++ lit "=" ++ d ++ lit "]")
                    = Ok (Value.mk n false d false)
                    /\ formatValue (Value.mk n false d false)
                       = lit "[" ++ n ++ lit "=" ++ d ++ lit "]")
      /\ (ParseValue (lit "<" ++ n ++ lit "..." ++ lit ">") = Ok (Value.mk n true [] true)
          /\ formatValue (Value.mk n true [] true) = lit "<" ++ n ++ lit "..." ++ lit ">")
      /\ (ParseValue (lit "[" ++ n ++ lit "..." ++ lit "]") = Ok (Value.mk n false [] true)
          /\ formatValue (Value.mk n false [] true) = lit "[" ++ n ++ lit "..." ++ lit "]"))
  /\ (forall s v, ParseValue s = Ok v -> Value.Required v = true -> Value.Default v = []).
Proof.
  split.
  - intros n Hne Hq.
    split; [|split; [|split; [|split]]].
    + intro Hs. split; [|reflexivity].
      exact (ParseValue_plain "<" ">" true n Hne Hq Hs eq_refl eq_refl eq_refl).
    + intro Hs. split; [|reflexivity].
      exact (ParseValue_plain "[" "]" false n Hne Hq Hs eq_refl eq_refl eq_refl).
    + intros d Hd Hsd. split.
      * replace (lit "[" ++ n ++ lit "=" ++ d ++ lit "]")
          with ("["%char :: (n ++ "="%char :: d) ++ ["]"%char])
          by (simpl; now rewrite <- app_assoc).
        exact (ParseValue_default n d Hne Hq Hsd).
      * unfold formatValue. simpl.
        apply isEmpty_false in Hd. now rewrite Hd.
    + split.
      * replace (lit "<" ++ n ++ lit "..." ++ lit ">")
          with ("<"%char :: (n ++ dots) ++ [">"%char])
          by (simpl; now rewrite <- app_assoc).
        exact (ParseValue_variadic "<" ">" true n Hne Hq eq_refl eq_refl eq_refl).
      * unfold formatValue. simpl. now rewrite <- app_assoc.
    + split.
      * replace (lit "[" ++ n ++ lit "..." ++ lit "]")
          with ("["%char :: (n ++ dots) ++ ["]"%char])
          by (simpl; now rewrite <- app_assoc).
        exact (ParseValue_variadic "[" "]" false n Hne Hq eq_refl eq_refl eq_refl).
      * unfold formatValue. simpl. now rewrite <- app_assoc.
  - intros s v H Hr. unfold ParseValue in H.
    destruct (length (TrimSpace s) <? 3); [discriminate|].
    destruct (if Ascii.eqb (hd " "%char (TrimSpace s)) "<"
                 && Ascii.eqb (last (TrimSpace s) " "%char) ">"
              then Some true
              else if Ascii.eqb (hd " "%char (TrimSpace s)) "["
                      && Ascii.eqb (last (TrimSpace s) " "%char) "]"
                   then Some false else None) as [required|]; [|discriminate].
    destruct (isEmpty _); [discriminate|].
    destruct (_ && _); [discriminate|].
    destruct (cut isEq _) as [[name def]|].
    + destruct required; [discriminate|].
      destruct (isEmpty name); [discriminate|].
      injection H as <-. discriminate.
    + injection H as <-. reflexivity.
Qed.

(** An empty default is not kept apart from no default: [[n=]] parses to
    the Value of [[n]], which prints as [[n]]. *)
Example empty_default :
  ParseValue (lit "[n=]") = Ok (Value.mk (lit "n") false [] false)
  /\ ParseValue (lit "[n]") = Ok (Value.mk (lit "n") false [] false)
  /\ formatValue (Value.mk (lit "n") false [] false) = lit "[n]".
Proof. repeat split. Qed.

Lemma C3_witness :
  lit "type" <> []
  /\ noEq (lit "type") = true
  /\ HasSuffix (lit "type") dots = false
  /\ lit "json" <> []
  /\ HasSuffix (lit "json") dots = false
  /\ ParseValue (lit "<" ++ lit "type" ++ lit ">") = Ok (Value.mk (lit "type") true [] false)
  /\ ParseValue (lit "[" ++ lit "type" ++ lit "=" ++ lit "json" ++ lit "]")
     = Ok (Value.mk (lit "type") false (lit "json") false)
  /\ formatValue (Value.mk (lit "type") false (lit "json") false)
     = lit "[" ++ lit "type" ++ lit "=" ++ lit "json" ++ lit "]"
  /\ ParseValue (lit "[" ++ lit "type" ++ lit "..." ++ lit "]")
     = Ok (Value.mk (lit "type") false [] true).
Proof.
  assert (H1 : lit "type" <> []) by discriminate.
  assert (H2 : noEq (lit "type") = true) by reflexivity.
  assert (H3 : HasSuffix (lit "type") dots = false) by reflexivity.
  assert (H4 : lit "json" <> []) by discriminate.
  assert (H5 : HasSuffix (lit "json") dots = false) by reflexivity.
  repeat (split; [assumption|]).
  destruct (proj1 C3_value_notation_roundtrip (lit "type") H1 H2)
    as [A [_ [B [_ C]]]].
  split; [exact (proj1 (A H3))|].
  split; [exact (proj1 (B (lit "json") H4 H5))|].
  split; [exact (proj2 (B (lit "json") H4 H5))|].
  exact (proj1 C).
Defined.

(* ================================================================= *)
(** ** The flag parser (C7) *)

(** C7, as stated, fails on the code.  The text [hello] holds no flag
    spelling (not even a dash), yet [parseFlag] returns a Flag and no
    error; and in [-a -b desc] the token [-b] is a flag spelling, yet the
    consumption stops in front of it and it becomes part of the
    description. *)
Lemma C7_counterexample :
  forallb (fun c => negb (Ascii.eqb c "-")) (lit "hello") = true
  /\ parseFlag (lit "hello") 1 = Ok (Flag.mk [] [] (lit "hello") 1)
  /\ parseFlag (lit "-a -b desc") 1 = Ok (Flag.mk (lit "-a") [] (lit "-b desc") 1).
Proof. repeat split. Qed.

Lemma flagLoop_stop :
  forall text short long,
    HasPrefix text (lit "-") = false -> flagLoop text short long = (text, short, long).
Proof.
  intros text short long H.
  rewrite (proj2 (flagLoop_eq _ _ _)). unfold flagTurn. rewrite H.
  now destruct (isEmpty text).
Qed.

(** C7, amended.  [parseFlag] returns an error when the tag text is empty
    or white space, and a Flag when it begins with a dash.  The spellings
    are consumed by a loop ([flagLoop], which
    always returns) that, on the trimmed text, stops at once when the text
    does not begin with a dash, and otherwise takes the first token as the
    long (--) or short (-) spelling and goes on only if what follows begins
    with |; what is left when it stops, trimmed, is the description.  So a
    text that begins with a token that is no spelling is left whole; a
    spelling followed by | is recorded and the loop goes on after the |; a
    spelling followed by a text without | ends the loop, and that text is
    the description even when it begins with another spelling. *)
Theorem C7_flag_parser_amended :
  (forall text ln,
      TrimSpace text = [] ->
      parseFlag text ln = Err (Msgf "@flag requires at least one flag name" []))
  /\ (forall text ln,
         HasPrefix (TrimSpace text) (lit "-") = true ->
         parseFlag text ln
         = let '(rest, short, long) := consumeFlags (TrimSpace text) [] [] in
           Ok (Flag.mk short long (TrimSpace rest) ln))
  /\ (forall text short long,
         consumeFlags text short long = flagLoop (TrimSpace text) short long
         /\ consumeFlagsLoop (S (length (TrimSpace text))) (TrimSpace text) short long
            = Some (flagLoop (TrimSpace text) short long))
  /\ (forall text short long,
         HasPrefix text (lit "-") = false ->
         flagLoop text short long = (text, short, long))
  /\ (forall text short long name rest,
         HasPrefix text (lit "-") = true ->
         splitFirstToken text = (name, rest) ->
         flagLoop text short long
         = let short' := if HasPrefix text (lit "--") then short else name in
           let long' := if HasPrefix text (lit "--") then name else long in
           if HasPrefix (TrimSpace rest) (lit "|")
           then flagLoop (TrimSpace (skipn 1 (TrimSpace rest))) short' long'
           else (TrimSpace rest, short', long'))
  /\ (forall a more short long,
         isToken a = true -> HasPrefix a (lit "-") = true ->
         trimmed more = true -> more <> [] ->
         flagLoop (a ++ lit " | " ++ more) short long
         = flagLoop more (if longSpelling a then short else a)
                    (if longSpelling a then a else long))
  /\ (forall a d short long,
         isToken a = true -> HasPrefix a (lit "-") = true ->
         trimmed d = true -> d <> [] -> HasPrefix d (lit "|") = false ->
         flagLoop (a ++ lit " " ++ d) short long
         = (d, if longSpelling a then short else a, if longSpelling a then a else long)).
Proof.
  split; [|split; [|split; [|split; [|split; [|split]]]]].
  - intros text ln H. unfold parseFlag. now rewrite H.
  - intros text ln H. unfold parseFlag.
    destruct (TrimSpace text); [discriminate | reflexivity].
  - intros text short long. split; [reflexivity|].
    apply (proj1 (flagLoop_eq _ _ _)).
  - exact flagLoop_stop.
  - intros text short long name rest Hd Hs.
    rewrite (proj2 (flagLoop_eq _ _ _)). unfold flagTurn.
    rewrite Hd, Hs.
    destruct (isEmpty text) eqn:He; [|reflexivity].
    apply isEmpty_true in He. subst text. discriminate.
  - exact flagLoop_spelling_sep.
  - exact flagLoop_spelling_desc.
Qed.

Lemma C7_witness :
  TrimSpace (lit "   ") = []
  /\ parseFlag (lit "   ") 7 = Err (Msgf "@flag requires at least one flag name" [])
  /\ isToken (lit "-a") = true
  /\ HasPrefix (lit "-a") (lit "-") = true
  /\ trimmed (lit "-b desc") = true
  /\ lit "-b desc" <> []
  /\ HasPrefix (lit "-b desc") (lit "|") = false
  /\ flagLoop (lit "-a" ++ lit " " ++ lit "-b desc") [] [] = (lit "-b desc", lit "-a", []).
Proof.
  assert (H1 : TrimSpace (lit "   ") = []) by reflexivity.
  assert (H2 : isToken (lit "-a") = true) by reflexivity.
  assert (H3 : HasPrefix (lit "-a") (lit "-") = true) by reflexivity.
  assert (H4 : trimmed (lit "-b desc") = true) by reflexivity.
  assert (H5 : lit "-b desc" <> []) by discriminate.
  assert (H6 : HasPrefix (lit "-b desc") (lit "|") = false) by reflexivity.
  split; [exact H1|].
  split; [exact (proj1 C7_flag_parser_amended _ 7%Z H1)|].
  repeat (split; [assumption|]).
  exact (proj2 (proj2 (proj2 (proj2 (proj2 (proj2 C7_flag_parser_amended)))))
           _ _ [] [] H2 H3 H4 H5 H6).
Defined.

(* ================================================================= *)
(** ** Function association (C5) *)

(** C5, as stated, fails on the code: the line that follows the closure of
    the block below is [echo hi], which is no function declaration, and
    the block is bound all the same, by the declaration two lines later. *)
Lemma C5_counterexample :
  matchFuncDecl (lit "echo hi") = []
  /\ ParseReader (script ["#@/command"; " # Standalone."; " ##"; "echo hi";
                          "helper() {"]%string)
     = Done (Document.mk [] [] Meta.zero
               [Block.set_FunctionName (lit "helper")
                  (Block.set_Description (lit "Standalone.")
                     (Block.new VisibilityCommand [] 1))]
               [],
             None).
Proof. split; vm_compute; reflexivity. Qed.

Lemma matchFuncDecl_hash : forall l, matchFuncDecl ("#"%char :: l) = [].
Proof. reflexivity. Qed.

Lemma hash_patterns :
  forall l,
    hd " "%char l <> "#"%char ->
    FindStringSubmatch reShebang l = None
    /\ FindStringSubmatch reShedocInline l = None
    /\ FindStringSubmatch reShedocOpen l = None
    /\ FindStringSubmatch reSheblockOpen l = None.
Proof.
  intros [|c l] H; [repeat split|].
  simpl in H.
  assert (E : Ascii.eqb "#" c = false).
  { apply Ascii.eqb_neq. congruence. }
  unfold FindStringSubmatch, reShebang, reShedocInline, reShedocOpen, reSheblockOpen.
  cbn [run dropPrefix lit list_ascii_of_string].
  rewrite E. repeat split.
Qed.

Lemma funcDecl_patterns :
  forall l,
    matchFuncDecl l <> [] ->
    FindStringSubmatch reShebang l = None
    /\ FindStringSubmatch reShedocInline l = None
    /\ FindStringSubmatch reShedocOpen l = None
    /\ FindStringSubmatch reSheblockOpen l = None.
Proof.
  intros l H. apply hash_patterns.
  destruct l as [|c l]; [discriminate|]. simpl. intros ->.
  now rewrite matchFuncDecl_hash in H.
Qed.

Lemma handleTop_decl :
  forall p l,
    matchFuncDecl l <> [] ->
    handleTop p l
    = set_doc (Document.set_Blocks
                 (updLast (bindFunc (matchFuncDecl l)) (Document.Blocks (doc p)))
                 (doc p)) p.
Proof.
  intros p l H. unfold handleTop.
  destruct (funcDecl_patterns l H) as [-> [-> [-> ->]]].
  apply isEmpty_false in H. rewrite H. reflexivity.
Qed.

Lemma updLast_snoc :
  forall f bs b, updLast f (bs ++ [b]) = bs ++ [f b].
Proof.
  intros f. induction bs as [|x bs IH]; intro b; [reflexivity|].
  simpl app. specialize (IH b).
  destruct (bs ++ [b]) as [|y r] eqn:E.
  - apply app_eq_nil in E as [_ E]. discriminate.
  - change (updLast f (x :: y :: r)) with (x :: updLast f (y :: r)).
    now rewrite IH.
Qed.

Lemma last_block_cases :
  forall (l : list Block), l = [] \/ exists bs b, l = bs ++ [b].
Proof.
  intros [|x l]; [now left | right].
  destruct (exists_last (l := x :: l)) as [bs [b E]]; [discriminate|]. eauto.
Qed.

Lemma setShedocMeta_Blocks :
  forall tag value p,
    Document.Blocks (doc (setShedocMeta tag value p)) = Document.Blocks (doc p).
Proof. intros. unfold setShedocMeta. split_ifs; reflexivity. Qed.

Lemma finalizeShedoc_Blocks :
  forall p, Document.Blocks (doc (finalizeShedoc p)) = Document.Blocks (doc p).
Proof.
  intro p. unfold finalizeShedoc.
  destruct (negb (isEmpty (shedocTag p))); simpl; [apply setShedocMeta_Blocks | reflexivity].
Qed.

Lemma handleTop_blocks :
  forall p l ext,
    (ext = [] \/ exists x, ext = [x]) ->
    forall bs, Document.Blocks (doc p) = bs ++ ext ->
    blocksChange l bs (Document.Blocks (doc (handleTop p l))).
Proof.
  intros p l ext Hext bs Hbs. exists ext. split; [exact Hext|].
  unfold handleTop.
  destruct (FindStringSubmatch reShebang l); [left; exact Hbs|].
  destruct (FindStringSubmatch reShedocInline l);
    [left; now rewrite setShedocMeta_Blocks|].
  destruct (FindStringSubmatch reShedocOpen l); [left; exact Hbs|].
  destruct (FindStringSubmatch reSheblockOpen l).
  { destruct (parseSheblockHeader _ _). left. exact Hbs. }
  destruct (isEmpty (matchFuncDecl l)) eqn:E; simpl.
  - left. exact Hbs.
  - right. apply isEmpty_false in E. split; [exact E|]. now rewrite Hbs.
Qed.

Lemma finalizeBlock_blocks :
  forall p, exists ext,
    (ext = [] \/ exists x, ext = [x])
    /\ Document.Blocks (doc (finalizeBlock p)) = Document.Blocks (doc p) ++ ext.
Proof.
  intro p. unfold finalizeBlock. destruct (block p) as [b|].
  - eexists. split; [right; eexists; reflexivity | reflexivity].
  - exists []. split; [now left | now rewrite app_nil_r].
Qed.

Lemma finalizeCurrentTag_doc :
  forall p q, finalizeCurrentTag p = Done q -> doc q = doc p.
Proof.
  intros p q H. rewrite (finalizeCurrentTag_shape _ _ H). reflexivity.
Qed.

Lemma step_blocks :
  forall p l p',
    step p l = Done p' ->
    blocksChange l (Document.Blocks (doc p)) (Document.Blocks (doc p')).
Proof.
  intros p l p' H. unfold step in H.
  change (Document.Blocks (doc p))
    with (Document.Blocks (doc (set_line (int_succ (line p)) p))).
  remember (set_line (int_succ (line p)) p) as p0 eqn:Ep0. clear Ep0 p.
  rename p0 into p. cbv zeta in H.
  assert (Hnil : forall q : parser, Document.Blocks (doc q) = Document.Blocks (doc q) ++ [])
    by (intro; now rewrite app_nil_r).
  assert (Hsame : forall bs : list Block, blocksChange l bs bs).
  { intro bs. exists []. split; [now left | left; now rewrite app_nil_r]. }
  destruct (state p).
  - injection H as <-.
    apply (handleTop_blocks _ l []); [now left | apply Hnil].
  - injection H as <-. unfold handleShedoc.
    destruct (MatchString reBlockClose l).
    { change (doc (set_state stateTop (finalizeShedoc p))) with (doc (finalizeShedoc p)).
      rewrite finalizeShedoc_Blocks. apply Hsame. }
    destruct (FindStringSubmatch reContinuation l); [apply Hsame|].
    apply (handleTop_blocks _ l []); [now left|].
    change (doc (set_state stateTop (finalizeShedoc p))) with (doc (finalizeShedoc p)).
    rewrite finalizeShedoc_Blocks. now rewrite app_nil_r.
  - unfold handleSheblock in H.
    destruct (MatchString reBlockClose l).
    { destruct (finalizeCurrentTag _) as [q|] eqn:Hq; [|discriminate].
      injection H as <-. apply finalizeCurrentTag_doc in Hq.
      destruct (finalizeBlock_blocks q) as [ext [Hext Hb]].
      exists ext. split; [exact Hext|]. left. simpl. rewrite Hb, Hq. reflexivity. }
    destruct (FindStringSubmatch reContinuation l) as [m|].
    2:{ destruct (finalizeCurrentTag _) as [q|] eqn:Hq; [|discriminate].
        injection H as <-. apply finalizeCurrentTag_doc in Hq.
        destruct (finalizeBlock_blocks q) as [ext [Hext Hb]].
        apply (handleTop_blocks _ l ext Hext). simpl. rewrite Hb, Hq. reflexivity. }
    destruct (splitTag (sub m 1)) as [[n t]|].
    { destruct (finalizeCurrentTag _) as [q|] eqn:Hq; [|discriminate].
      apply finalizeCurrentTag_doc in Hq. simpl in H.
      destruct (parseTag n t (line q)); injection H as <-; simpl; rewrite Hq;
        apply Hsame. }
    destruct (isEmpty (sub m 1)).
    { destruct (negb (isEmpty (currentTag _))).
      - apply finalizeCurrentTag_doc in H. rewrite H. apply Hsame.
      - injection H as <-. apply Hsame. }
    destruct (negb (isEmpty (currentTag _)));
      [|destruct (negb (inTags _))]; injection H as <-; apply Hsame.
Qed.

Lemma nth_error_updLast :
  forall f (l : list Block) i b,
    nth_error l i = Some b ->
    (S i = length l /\ nth_error (updLast f l) i = Some (f b))
    \/ (S i < length l /\ nth_error (updLast f l) i = Some b).
Proof.
  intros f. induction l as [|x l IH]; intros i b H; [destruct i; discriminate|].
  destruct l as [|y r].
  - destruct i as [|i]; [|destruct i; discriminate].
    injection H as <-. left. split; reflexivity.
  - change (updLast f (x :: y :: r)) with (x :: updLast f (y :: r)).
    destruct i as [|i].
    + injection H as <-. right. split; [simpl; lia | reflexivity].
    + simpl in H. destruct (IH i b H) as [[H1 H2]|[H1 H2]].
      * left. split; [simpl in *; lia | exact H2].
      * right. split; [simpl in *; lia | exact H2].
Qed.

(** C5, amended.  The function name of a block is bound by a
    function-declaration line handled in the Top state, wherever it comes
    after the block (whether or not it immediately follows its closure):
    such a line binds the last block of the document when that block has no
    function name yet, and changes nothing else.  No line, in any state,
    changes a block that is already in the document otherwise: a block
    with a function name keeps it for ever, and only the last block can be
    bound.  A line that matches no pattern and declares no function leaves
    the parser as it is; so a block immediately followed by
    [cmd_push() {] is bound to [cmd_push], and a block followed by
    unrelated code only keeps an empty function name. *)
Theorem C5_function_association_amended :
  (forall p l bs b,
      matchFuncDecl l <> [] ->
      Document.Blocks (doc p) = bs ++ [b] ->
      handleTop p l
      = set_doc (Document.set_Blocks (bs ++ [bindFunc (matchFuncDecl l) b]) (doc p)) p)
  /\ (forall p l p' i b,
         step p l = Done p' ->
         nth_error (Document.Blocks (doc p)) i = Some b ->
         nth_error (Document.Blocks (doc p')) i = Some b
         \/ (Block.FunctionName b = []
             /\ S i = length (Document.Blocks (doc p))
             /\ matchFuncDecl l <> []
             /\ nth_error (Document.Blocks (doc p')) i
                = Some (Block.set_FunctionName (matchFuncDecl l) b)))
  /\ (forall p l, inert l = true -> handleTop p l = p)
  /\ ParseReader (script ["#@/subcommand push"; " # Push."; " ##"; "cmd_push() {"]%string)
     = Done (Document.mk [] [] Meta.zero
               [Block.set_FunctionName (lit "cmd_push")
                  (Block.set_Description (lit "Push.")
                     (Block.new VisibilitySubcommand (lit "push") 1))] [],
             None)
  /\ ParseReader (script ["#@/command"; " # Standalone."; " ##"; "";
                          "echo hi"]%string)
     = Done (Document.mk [] [] Meta.zero
               [Block.set_Description (lit "Standalone.")
                  (Block.new VisibilityCommand [] 1)] [],
             None).
Proof.
  split; [|split; [|split; [|split]]].
  - intros p l bs b H Hb.
    rewrite (handleTop_decl p l H), Hb, updLast_snoc. reflexivity.
  - intros p l p' i b Hs Hn.
    destruct (step_blocks p l p' Hs) as [ext [Hext [E|[Hf E]]]]; rewrite E.
    + left. rewrite nth_error_app1; [exact Hn|].
      apply nth_error_Some. congruence.
    + assert (Hi : i < length (Document.Blocks (doc p)))
        by (apply nth_error_Some; congruence).
      assert (Hn' : nth_error (Document.Blocks (doc p) ++ ext) i = Some b)
        by (rewrite nth_error_app1; assumption).
      destruct (nth_error_updLast (bindFunc (matchFuncDecl l)) _ i b Hn')
        as [[H1 H2]|[H1 H2]]; [|now left].
      rewrite length_app in H1.
      destruct Hext as [->|[x ->]]; [|simpl in H1; lia].
      simpl in H1. rewrite Nat.add_0_r in H1.
      rewrite H2. unfold bindFunc.
      destruct (isEmpty (Block.FunctionName b)) eqn:Ef; [|now left].
      right. apply isEmpty_true in Ef. repeat split; assumption.
  - intros p l H. unfold inert in H.
    repeat (apply andb_true_iff in H as [H ?]).
    unfold MatchString in *. unfold handleTop.
    destruct (FindStringSubmatch reShebang l); [discriminate|].
    destruct (FindStringSubmatch reShedocInline l); [discriminate|].
    destruct (FindStringSubmatch reShedocOpen l); [discriminate|].
    destruct (FindStringSubmatch reSheblockOpen l); [discriminate|].
    destruct (isEmpty (matchFuncDecl l)); [reflexivity | discriminate].
  - vm_compute. reflexivity.
  - vm_compute. reflexivity.
Qed.

Lemma C5_witness :
  matchFuncDecl (lit "helper() {") <> []
  /\ Document.Blocks (doc (reach (script ["#@/command"; " ##"; "echo hi"]%string)))
     = [] ++ [Block.new VisibilityCommand [] 1]
  /\ handleTop (reach (script ["#@/command"; " ##"; "echo hi"]%string)) (lit "helper() {")
     = set_doc (Document.set_Blocks
                  ([] ++ [bindFunc (matchFuncDecl (lit "helper() {"))
                            (Block.new VisibilityCommand [] 1)])
                  (doc (reach (script ["#@/command"; " ##"; "echo hi"]%string))))
               (reach (script ["#@/command"; " ##"; "echo hi"]%string)).
Proof.
  assert (H1 : matchFuncDecl (lit "helper() {") <> []) by (vm_compute; discriminate).
  assert (H2 : Document.Blocks (doc (reach (script ["#@/command"; " ##"; "echo hi"]%string)))
               = [] ++ [Block.new VisibilityCommand [] 1]) by (vm_compute; reflexivity).
  split; [exact H1|]. split; [exact H2|].
  exact (proj1 C5_function_association_amended _ _ _ _ H1 H2).
Defined.

(* ================================================================= *)
(** ** White space around a line (C8) *)

(** C8, as stated, fails on the code: white space in front of the
    metadata sigil makes the line an ordinary line (the name is not set),
    and white space in front of the continuation prefix of a tag line ends
    the block (the flag is lost). *)
Lemma C8_counterexample :
  ParseReader (script ["#?/name greet"]%string)
  = Done (Document.mk [] [] (Meta.mk (lit "greet") [] [] [] [] [] [] []) [] [], None)
  /\ ParseReader (script [" #?/name greet"]%string)
     = Done (Document.mk [] [] Meta.zero [] [], None)
  /\ ParseReader (script ["#@/command"; " # @flag -v Verbose"]%string)
     = Done (Document.mk [] [] Meta.zero
               [Block.set_Flags [Flag.mk (lit "-v") [] (lit "Verbose") 2]
                  (Block.new VisibilityCommand [] 1)] [], None)
  /\ ParseReader (script ["#@/command"; "  # @flag -v Verbose"]%string)
     = Done (Document.mk [] [] Meta.zero [Block.new VisibilityCommand [] 1] [], None).
Proof. repeat split; vm_compute; reflexivity. Qed.

(** A metadata block opener followed by two blanks is taken by the inline
    pattern, which is tried first: the field is set to the empty string
    and no block is opened. *)
Example open_line_two_blanks :
  FindStringSubmatch reShedocInline (lit "#?/description  ")
  = Some [lit "description"; lit " "]
  /\ state (handleTop newParser (lit "#?/description  ")) = stateTop
  /\ state (handleTop newParser (lit "#?/description ")) = stateShedoc.
Proof. repeat split. Qed.

(** Greedy repetition over a run of the class that ends where the class
    ends: the continuation is tried first on the text after the whole
    run. *)
Lemma rep_run :
  forall (A : Type) (cls : ascii -> bool) (run R : gostring)
         (k : gostring -> option A) (m : nat) (a : A),
    forallb cls run = true ->
    m <= length run ->
    match R with [] => True | c :: _ => cls c = false end ->
    k R = Some a ->
    rep cls m (run ++ R) k = Some a.
Proof.
  intros A cls run. induction run as [|c run IH]; intros R k m a Hall Hm HR Hk.
  - simpl in Hm. assert (m = 0) by lia. subst m.
    destruct R as [|c R]; [exact Hk|]. simpl in *. now rewrite HR.
  - simpl in Hall. apply andb_true_iff in Hall as [Hc Hall].
    simpl app. simpl rep. rewrite Hc.
    rewrite (IH R k (pred m) a Hall); [reflexivity | simpl in Hm; lia | exact HR | exact Hk].
Qed.

Lemma dropPrefix_app : forall p s, dropPrefix p (p ++ s) = Some s.
Proof.
  induction p as [|c p IH]; intro s; simpl; [reflexivity|].
  now rewrite Ascii.eqb_refl.
Qed.

Lemma firstn_minus_app :
  forall (a b : gostring), firstn (length (a ++ b) - length b) (a ++ b) = a.
Proof.
  intros a b. rewrite length_app.
  replace (length a + length b - length b) with (length a) by lia.
  apply firstn_length_app.
Qed.

Lemma isBlankTab_classes :
  forall c, isBlankTab c = true ->
            asciiSpace c = true /\ cls_s c = true /\ cls_dot c = true /\ cls_w c = false.
Proof.
  intros c H. unfold isBlankTab in H. unfold asciiSpace, cls_s, cls_dot, cls_w.
  apply orb_true_iff in H as [H|H]; apply Nat.eqb_eq in H; rewrite H;
    repeat split; reflexivity.
Qed.

Lemma tokenChar_classes :
  forall c, tokenChar c = true -> cls_s c = false /\ cls_dot c = true.
Proof.
  intros c H. unfold tokenChar in H. apply andb_true_iff in H as [H1 H2].
  apply Nat.leb_le in H1, H2.
  assert (E : forall k, k < 33 -> (code c =? k) = false)
    by (intros k Hk; apply Nat.eqb_neq; lia).
  unfold cls_s, cls_dot. rewrite !E by lia. split; reflexivity.
Qed.

Lemma blanks_dot : forall ws, blanks ws = true -> oneLine ws = true.
Proof.
  induction ws as [|c ws IH]; simpl; intro H; [reflexivity|].
  apply andb_true_iff in H as [H1 H2].
  destruct (isBlankTab_classes c H1) as [_ [_ [Hd _]]].
  unfold oneLine in *. simpl. now rewrite Hd, IH.
Qed.

Lemma blanks_s : forall ws, blanks ws = true -> forallb cls_s ws = true.
Proof.
  induction ws as [|c ws IH]; simpl; intro H; [reflexivity|].
  apply andb_true_iff in H as [H1 H2].
  destruct (isBlankTab_classes c H1) as [_ [Hs _]]. now rewrite Hs, IH.
Qed.

Lemma token_dot : forall a, forallb tokenChar a = true -> oneLine a = true.
Proof.
  induction a as [|c a IH]; simpl; intro H; [reflexivity|].
  apply andb_true_iff in H as [H1 H2].
  destruct (tokenChar_classes c H1) as [_ Hd].
  unfold oneLine in *. simpl. now rewrite Hd, IH.
Qed.

Lemma oneLine_app : forall a b, oneLine (a ++ b) = oneLine a && oneLine b.
Proof. intros. unfold oneLine. apply forallb_app. Qed.

Lemma TrimLeft_blanks : forall w x, blanks w = true -> TrimLeft (w ++ x) = TrimLeft x.
Proof.
  induction w as [|c w IH]; intros x H; [reflexivity|].
  simpl in H. apply andb_true_iff in H as [H1 H2].
  destruct (isBlankTab_classes c H1) as [Ha _].
  simpl app. simpl TrimLeft. rewrite Ha. now apply IH.
Qed.

Lemma TrimRightRev_blanks :
  forall w x, blanks w = true -> TrimRightRev (w ++ x) = TrimRightRev x.
Proof.
  induction w as [|c w IH]; intros x H; [reflexivity|].
  simpl in H. apply andb_true_iff in H as [H1 H2].
  destruct (isBlankTab_classes c H1) as [Ha _].
  simpl app. simpl TrimRightRev. rewrite Ha. now apply IH.
Qed.

Lemma blanks_rev : forall w, blanks w = true -> blanks (rev w) = true.
Proof.
  intros w H. unfold blanks in *. rewrite forallb_forall in *.
  intros c Hc. apply H. now apply in_rev.
Qed.

Lemma TrimRight_blanks : forall x w, blanks w = true -> TrimRight (x ++ w) = TrimRight x.
Proof.
  intros x w H. unfold TrimRight. rewrite rev_app_distr.
  now rewrite (TrimRightRev_blanks _ _ (blanks_rev w H)).
Qed.

Lemma TrimSpace_pad :
  forall w1 x w2,
    blanks w1 = true -> blanks w2 = true -> trimmed x = true ->
    TrimSpace (w1 ++ x ++ w2) = x.
Proof.
  intros w1 x w2 H1 H2 Hx. unfold TrimSpace.
  rewrite (TrimLeft_blanks w1 _ H1).
  destruct x as [|c x].
  - simpl app. rewrite <- (app_nil_r w2), (TrimLeft_blanks w2 [] H2). reflexivity.
  - pose proof (TrimSpace_trimmed _ Hx) as Hid. unfold TrimSpace in Hid.
    unfold trimmed in Hx. apply andb_true_iff in Hx as [Hc _].
    change ((c :: x) ++ w2) with (c :: (x ++ w2)).
    rewrite (TrimLeft_token c _ Hc).
    change (c :: (x ++ w2)) with ((c :: x) ++ w2).
    rewrite (TrimRight_blanks _ _ H2).
    now rewrite (TrimLeft_token c x Hc) in Hid.
Qed.

(** The inline metadata pattern on a padded line. *)
Lemma inline_match :
  forall tag ws1 v ws2,
    wordChars tag = true -> ws1 <> [] -> blanks ws1 = true -> blanks ws2 = true ->
    v <> [] -> trimmed v = true -> oneLine v = true ->
    FindStringSubmatch reShedocInline (lit "#?/" ++ tag ++ ws1 ++ v ++ ws2)
    = Some [tag; v ++ ws2].
Proof.
  intros tag ws1 v ws2 Ht Hw1 Hb1 Hb2 Hv Htv Hov.
  unfold wordChars in Ht. apply andb_true_iff in Ht as [Htne Htw].
  apply negb_true_iff, isEmpty_false in Htne.
  unfold FindStringSubmatch, reShedocInline. cbn [run].
  rewrite dropPrefix_app.
  apply rep_run; [exact Htw | destruct tag; [congruence | simpl; lia] | |].
  { destruct ws1 as [|c ws1]; [congruence|]. simpl in Hb1.
    apply andb_true_iff in Hb1 as [Hc _].
    simpl. now destruct (isBlankTab_classes c Hc) as [_ [_ [_ Hw]]]. }
  rewrite firstn_minus_app.
  apply rep_run; [now apply blanks_s | destruct ws1; [congruence | simpl; lia] | |].
  { destruct v as [|c v]; [congruence|].
    unfold trimmed in Htv. apply andb_true_iff in Htv as [Hc _].
    simpl. now destruct (tokenChar_classes c Hc). }
  rewrite <- (app_nil_r (v ++ ws2)) at 1.
  apply rep_run.
  - fold (oneLine (v ++ ws2)). rewrite oneLine_app, Hov. now apply blanks_dot.
  - destruct v; [congruence | simpl; lia].
  - exact I.
  - cbn [run length app]. rewrite Nat.sub_0_r, firstn_all. reflexivity.
Qed.

Lemma handleTop_inline :
  forall p tag ws1 v ws2,
    wordChars tag = true -> ws1 <> [] -> blanks ws1 = true -> blanks ws2 = true ->
    v <> [] -> trimmed v = true -> oneLine v = true ->
    handleTop p (lit "#?/" ++ tag ++ ws1 ++ v ++ ws2) = setShedocMeta tag v p.
Proof.
  intros p tag ws1 v ws2 Ht Hw1 Hb1 Hb2 Hv Htv Hov.
  unfold handleTop.
  change (FindStringSubmatch reShebang (lit "#?/" ++ tag ++ ws1 ++ v ++ ws2)) with (@None (list gostring)).
  rewrite (inline_match tag ws1 v ws2 Ht Hw1 Hb1 Hb2 Hv Htv Hov).
  change (sub [tag; v ++ ws2] 1) with tag.
  change (sub [tag; v ++ ws2] 2) with (v ++ ws2).
  pose proof (TrimSpace_pad [] v ws2 eq_refl Hb2 Htv) as E.
  change ([] ++ v ++ ws2) with (v ++ ws2) in E. now rewrite E.
Qed.

(** The continuation pattern: the optional blank and the rest of the line. *)
Lemma continuation_match :
  forall x,
    oneLine x = true ->
    FindStringSubmatch reContinuation (lit " #" ++ x)
    = Some [match x with
            | c :: x' => if Ascii.eqb " " c then x' else x
            | [] => []
            end].
Proof.
  intros x Hx.
  assert (Hk : forall y caps,
             oneLine y = true ->
             run (Cap (Rep cls_dot 0) ;; Eot) y caps (fun _ caps0 => Some caps0)
             = Some (caps ++ [y])).
  { intros y caps Hy. cbn [run].
    rewrite <- (app_nil_r y) at 1.
    apply rep_run; [exact Hy | lia | exact I |].
    cbn [length]. now rewrite Nat.sub_0_r, firstn_all. }
  unfold FindStringSubmatch, reContinuation.
  cbn [run]. rewrite dropPrefix_app.
  destruct x as [|c x']; [exact (Hk [] [] eq_refl)|].
  destruct (Ascii.eqb " " c) eqn:E.
  - assert (Hx' : oneLine x' = true).
    { unfold oneLine in *. simpl in Hx. now apply andb_true_iff in Hx as [_ Hx]. }
    fold (run (Cap (Rep cls_dot 0) ;; Eot) x' [] (fun _ caps0 => Some caps0)).
    now rewrite (Hk x' [] Hx').
  - exact (Hk (c :: x') [] Hx).
Qed.

Lemma close_none :
  forall x, hd " "%char x <> "#"%char -> MatchString reBlockClose (lit " #" ++ x) = false.
Proof.
  intros [|c x] H; [reflexivity|]. simpl in H.
  assert (E : Ascii.eqb "#" c = false) by (apply Ascii.eqb_neq; congruence).
  unfold MatchString, FindStringSubmatch, reBlockClose.
  cbn [run dropPrefix lit list_ascii_of_string app].
  change (Ascii.eqb " " " ") with true. change (Ascii.eqb "#" "#") with true.
  cbv iota. now rewrite E.
Qed.

(** A padded tag line is a tag line with the same name and text. *)
Lemma tagOfLine_padded :
  forall name ws0 ws1 text ws2,
    isToken name = true ->
    blanks ws0 = true -> ws1 <> [] -> blanks ws1 = true -> blanks ws2 = true ->
    text <> [] -> trimmed text = true -> oneLine text = true ->
    tagOfLine (lit " #" ++ ws0 ++ lit "@" ++ name ++ ws1 ++ text ++ ws2)
    = Some (name, text).
Proof.
  intros name ws0 ws1 text ws2 Hn Hb0 Hw1 Hb1 Hb2 Ht Htt Hot.
  destruct (isToken_inv name Hn) as [Hnne [Hnt Hnb]].
  assert (Hntok : forallb tokenChar name = true)
    by (unfold isToken in Hn; now apply andb_true_iff in Hn as [_ Hn]).
  set (X := lit "@" ++ name ++ ws1 ++ text).
  assert (HX : trimmed X = true).
  { unfold X. rewrite app_assoc.
    apply (trimmed_app (lit "@" ++ name) ws1 text); try assumption.
    - discriminate.
    - apply (trimmed_app (lit "@") [] name); try assumption; [discriminate | reflexivity]. }
  assert (Hline : oneLine (ws0 ++ lit "@" ++ name ++ ws1 ++ text ++ ws2) = true).
  { rewrite !oneLine_app, (blanks_dot _ Hb0), (token_dot _ Hntok), (blanks_dot _ Hb1),
      Hot, (blanks_dot _ Hb2). reflexivity. }
  assert (Hcontent : forall w, blanks w = true ->
             splitTag (w ++ lit "@" ++ name ++ ws1 ++ text ++ ws2) = Some (name, text)).
  { intros w Hw. unfold splitTag.
    replace (w ++ lit "@" ++ name ++ ws1 ++ text ++ ws2) with (w ++ X ++ ws2)
      by (unfold X; now rewrite <- !app_assoc).
    rewrite (TrimSpace_pad w X ws2 Hw Hb2 HX).
    change (HasPrefix X (lit "@")) with (HasPrefix (name ++ ws1 ++ text) []).
    rewrite HasPrefix_nil. cbv iota. simpl negb. cbv iota.
    change (skipn 1 X) with (name ++ ws1 ++ text).
    destruct ws1 as [|b ws1]; [congruence|].
    simpl in Hb1. apply andb_true_iff in Hb1 as [Hb Hb1].
    change (name ++ (b :: ws1) ++ text) with (name ++ b :: (ws1 ++ text)).
    rewrite (cut_app isBlankTab name b (ws1 ++ text) Hnb Hb).
    pose proof (TrimSpace_pad ws1 text [] Hb1 eq_refl Htt) as E.
    rewrite app_nil_r in E. now rewrite E. }
  unfold tagOfLine, continuationContent.
  rewrite close_none.
  2:{ destruct ws0 as [|c ws0]; [discriminate|].
      simpl in Hb0. apply andb_true_iff in Hb0 as [Hc _]. simpl. intros ->. discriminate. }
  rewrite (continuation_match _ Hline).
  change (sub [?c] 1) with c.
  destruct ws0 as [|c ws0].
  - exact (Hcontent [] eq_refl).
  - simpl in Hb0. apply andb_true_iff in Hb0 as [Hc Hb0].
    change ((c :: ws0) ++ lit "@" ++ name ++ ws1 ++ text ++ ws2)
      with (c :: (ws0 ++ lit "@" ++ name ++ ws1 ++ text ++ ws2)).
    unfold sub. simpl nth.
    destruct (Ascii.eqb " " c).
    + exact (Hcontent ws0 Hb0).
    + apply (Hcontent (c :: ws0)). simpl. now rewrite Hc.
Qed.

(** On a tag line [handleSheblock] uses the line only through its tag name
    and text. *)
Lemma handleSheblock_tag_line :
  forall p l n t,
    tagOfLine l = Some (n, t) ->
    handleSheblock p l
    = (do q <- finalizeCurrentTag p in
       match parseTag n t (line q) with
       | Err err => Done (addWarning (Warning.mk (line q) err) (set_inTags true q))
       | Ok result =>
           Done (set_tagContLines []
                   (set_currentResult (Some result)
                      (set_currentTag n (set_inTags true q))))
       end).
Proof.
  intros p l n t H. apply tagOfLine_inv in H as [Hc [m [Hm Hs]]].
  unfold handleSheblock. rewrite Hc, Hm, Hs. reflexivity.
Qed.

(* ================================================================= *)
(** ** What a blank continuation line is *)

Lemma dropPrefix_inv : forall p l r, dropPrefix p l = Some r -> l = p ++ r.
Proof.
  induction p as [|x p IH]; intros l r H.
  - destruct l; injection H as <-; reflexivity.
  - destruct l as [|c l]; [discriminate|]. simpl in H.
    destruct (Ascii.eqb_spec x c) as [->|]; [|discriminate].
    simpl. f_equal. now apply IH.
Qed.

(** A greedy repetition followed by the end anchor consumes the whole
    text. *)
Lemma rep_eot :
  forall (A : Type) (cls : ascii -> bool) (g : gostring -> A)
         (k : gostring -> option A),
    (forall s', k s' = match s' with [] => Some (g s') | _ :: _ => None end) ->
    forall y m a, rep cls m y k = Some a -> a = g [].
Proof.
  intros A cls g k Hk. induction y as [|c y IH]; intros m a H.
  - simpl in H. destruct m; [|discriminate]. rewrite Hk in H. now injection H as <-.
  - simpl in H. rewrite Hk in H.
    destruct (cls c).
    + destruct (rep cls (pred m) y k) as [a'|] eqn:E.
      * injection H as <-. now apply (IH (pred m)).
      * destruct m; discriminate.
    + destruct m; discriminate.
Qed.

Lemma capture_rest :
  forall y caps res,
    run (Cap (Rep cls_dot 0) ;; Eot) y caps (fun _ caps0 => Some caps0) = Some res ->
    res = caps ++ [y].
Proof.
  intros y caps res H. cbn [run] in H.
  apply (rep_eot _ cls_dot (fun s' => caps ++ [firstn (length y - length s') y])) in H.
  - rewrite H. cbn [length]. now rewrite Nat.sub_0_r, firstn_all.
  - intros [|c s']; reflexivity.
Qed.

Lemma run_continuation :
  forall l k,
    run reContinuation l [] k
    = match dropPrefix (lit " #") l with
      | Some s =>
          let rest := fun s' => run (Cap (Rep cls_dot 0) ;; Eot) s' [] k in
          match s with
          | c :: s' =>
              if Ascii.eqb " " c
              then match rest s' with Some a => Some a | None => rest s end
              else rest s
          | [] => rest s
          end
      | None => None
      end.
Proof. reflexivity. Qed.

Lemma continuation_inv :
  forall l m,
    FindStringSubmatch reContinuation l = Some m ->
    exists x, l = lit " #" ++ x
              /\ (m = [x] \/ exists x', x = " "%char :: x' /\ m = [x']).
Proof.
  intros l m H. unfold FindStringSubmatch in H. rewrite run_continuation in H.
  destruct (dropPrefix (lit " #") l) as [x|] eqn:Ed; [|discriminate].
  apply dropPrefix_inv in Ed. exists x. split; [exact Ed|].
  cbv zeta in H.
  destruct x as [|c x'].
  - left. now apply (capture_rest [] [] m).
  - destruct (Ascii.eqb_spec " " c) as [<-|].
    + destruct (run (Cap (Rep cls_dot 0) ;; Eot) x' [] (fun _ caps0 => Some caps0))
        as [res|] eqn:E.
      * injection H as <-. right. exists x'. split; [reflexivity|].
        now apply (capture_rest x' [] res).
      * left. now apply (capture_rest _ [] m).
    + left. now apply (capture_rest _ [] m).
Qed.

(** The blank continuation lines are the continuation prefix alone, with
    or without its optional blank. *)
Lemma blank_continuation_lines :
  forall l, continuationContent l = Some [] <-> l = lit " #" \/ l = lit " # ".
Proof.
  intro l. split.
  - unfold continuationContent.
    destruct (MatchString reBlockClose l); [discriminate|].
    destruct (FindStringSubmatch reContinuation l) as [m|] eqn:E; [|discriminate].
    intro H. injection H as H.
    destruct (continuation_inv l m E) as [x [-> [->|[x' [-> ->]]]]];
      unfold sub in H; simpl in H; subst; auto.
  - intros [->| ->]; reflexivity.
Qed.

(* ================================================================= *)
(** ** Blank and stray continuation lines (C10) *)

(** C10.  In a documentation block reached by [parse], a blank
    continuation line (the prefix alone, with or without its optional
    blank) read before any tag line changes nothing but the line counter,
    so it adds no line to the description; and so does a non-blank
    continuation line that is not a tag line when a tag line has been read
    and no tag is pending. *)
Theorem C10_dropped_continuation_lines :
  forall (lines : list gostring) (l : gostring),
    state (reach lines) = stateSheblock ->
    (continuationContent l = Some [] ->
     inTags (reach lines) = false ->
     step (reach lines) l
     = Done (set_line (int_succ (line (reach lines))) (reach lines)))
    /\ (forall content,
           continuationContent l = Some content ->
           content <> [] ->
           splitTag content = None ->
           inTags (reach lines) = true ->
           currentTag (reach lines) = [] ->
           step (reach lines) l
           = Done (set_line (int_succ (line (reach lines))) (reach lines)))
    /\ (continuationContent l = Some [] <-> l = lit " #" \/ l = lit " # ").
Proof.
  intros lines l Hst.
  pose proof (reach_Inv lines) as [_ HI].
  remember (reach lines) as p eqn:Ep. clear Ep.
  unfold step. change (state (set_line _ p)) with (state p). rewrite Hst.
  split; [|split; [|apply blank_continuation_lines]];
    unfold handleSheblock, continuationContent.
  - intros Hc Hin. specialize (HI Hin).
    destruct (MatchString reBlockClose l); [discriminate|].
    destruct (FindStringSubmatch reContinuation l) as [m|]; [|discriminate].
    injection Hc as ->. simpl. now rewrite HI.
  - intros content Hc Hne Hsp Hin Hct.
    destruct (MatchString reBlockClose l); [discriminate|].
    destruct (FindStringSubmatch reContinuation l) as [m|]; [|discriminate].
    injection Hc as ->. rewrite Hsp.
    apply isEmpty_false in Hne. rewrite Hne. simpl. now rewrite Hct, Hin.
Qed.

(** A blank line inside the description is dropped, and a line after the
    end of a tag is lost. *)
Example interior_blank_line :
  ParseReader (script ["#@/command"; " # First."; " #"; " # Second.";
                       " # @stdout Greeting"; " #"; " # stray text"; " ##"]%string)
  = Done (Document.mk [] [] Meta.zero
            [Block.set_Stdout (Some (Stdout.mk (lit "Greeting") 5))
               (Block.set_Description (lit "First." ++ nl ++ lit "Second.")
                  (Block.new VisibilityCommand [] 1))] [], None).
Proof. vm_compute. reflexivity. Qed.

Lemma C10_witness :
  state (reach (script ["#@/command"; " # A."]%string)) = stateSheblock
  /\ continuationContent (lit " #") = Some []
  /\ inTags (reach (script ["#@/command"; " # A."]%string)) = false
  /\ step (reach (script ["#@/command"; " # A."]%string)) (lit " #")
     = Done (set_line 3 (reach (script ["#@/command"; " # A."]%string))).
Proof.
  assert (Hs : state (reach (script ["#@/command"; " # A."]%string)) = stateSheblock)
    by (vm_compute; reflexivity).
  assert (Hc : continuationContent (lit " #") = Some []) by (vm_compute; reflexivity).
  assert (Hi : inTags (reach (script ["#@/command"; " # A."]%string)) = false)
    by (vm_compute; reflexivity).
  split; [exact Hs|]. split; [exact Hc|]. split; [exact Hi|].
  rewrite (proj1 (C10_dropped_continuation_lines _ _ Hs) Hc Hi).
  vm_compute. reflexivity.
Defined.


(* ================================================================= *)
(** ** More about strings.TrimSpace *)

Lemma stopL_TrimLeft : forall s, stopL s = true -> TrimLeft s = s.
Proof.
  intros [|c1 [|c2 [|c3 s]]] H; try reflexivity; simpl in H.
  - apply andb_true_iff in H as [H _]. apply negb_true_iff in H.
    simpl. now rewrite H.
  - apply andb_true_iff in H as [H1 H2]. apply andb_true_iff in H2 as [H2 _].
    apply negb_true_iff in H1, H2. simpl. now rewrite H1, H2.
  - apply andb_true_iff in H as [H1 H2]. apply andb_true_iff in H2 as [H2 H3].
    apply negb_true_iff in H1, H2, H3. simpl. now rewrite H1, H2, H3.
Qed.

Lemma stopR_TrimRightRev : forall r, stopR r = true -> TrimRightRev r = r.
Proof.
  intros [|c1 [|c2 [|c3 s]]] H; try reflexivity; simpl in H.
  - apply andb_true_iff in H as [H _]. apply negb_true_iff in H.
    simpl. now rewrite H.
  - apply andb_true_iff in H as [H1 H2]. apply andb_true_iff in H2 as [H2 _].
    apply negb_true_iff in H1, H2. simpl. now rewrite H1, H2.
  - apply andb_true_iff in H as [H1 H2]. apply andb_true_iff in H2 as [H2 H3].
    apply negb_true_iff in H1, H2, H3. simpl. now rewrite H1, H2, H3.
Qed.

(** [TrimLeft] leaves a suffix of its argument on which it stops; what
    it removes is white space. *)
Lemma TrimLeft_spec :
  forall n s, length s <= n ->
              stopL (TrimLeft s) = true
              /\ exists pre, s = pre ++ TrimLeft s /\ TrimLeft pre = [].
Proof.
  induction n as [|n IH]; intros s H.
  - destruct s; [|simpl in H; lia]. split; [reflexivity | now exists []].
  - destruct s as [|c1 s1]; [split; [reflexivity | now exists []]|].
    simpl in H. simpl TrimLeft.
    destruct (asciiSpace c1) eqn:E1.
    { destruct (IH s1) as [Hs [pre [Hp Hq]]]; [lia|]. split; [exact Hs|].
      exists (c1 :: pre). split; [simpl; now rewrite <- Hp|].
      simpl. now rewrite E1. }
    destruct s1 as [|c2 s2].
    { split; [simpl; now rewrite E1 | now exists []]. }
    destruct (space2 c1 c2) eqn:E2.
    { destruct (IH s2) as [Hs [pre [Hp Hq]]]; [simpl in H; lia|]. split; [exact Hs|].
      exists (c1 :: c2 :: pre). split; [simpl; now rewrite <- Hp|].
      simpl. now rewrite E1, E2. }
    destruct s2 as [|c3 s3].
    { split; [simpl; now rewrite E1, E2 | now exists []]. }
    destruct (space3 c1 c2 c3) eqn:E3.
    { destruct (IH s3) as [Hs [pre [Hp Hq]]]; [simpl in H; lia|]. split; [exact Hs|].
      exists (c1 :: c2 :: c3 :: pre). split; [simpl; now rewrite <- Hp|].
      simpl. now rewrite E1, E2, E3. }
    split; [simpl; now rewrite E1, E2, E3 | now exists []].
Qed.

Lemma TrimRightRev_spec :
  forall n r, length r <= n ->
              stopR (TrimRightRev r) = true /\ exists pre, r = pre ++ TrimRightRev r.
Proof.
  induction n as [|n IH]; intros s H.
  - destruct s; [|simpl in H; lia]. split; [reflexivity | now exists []].
  - destruct s as [|c1 s1]; [split; [reflexivity | now exists []]|].
    simpl in H. simpl TrimRightRev.
    destruct (asciiSpace c1) eqn:E1.
    { destruct (IH s1) as [Hs [pre Hp]]; [lia|]. split; [exact Hs|].
      exists (c1 :: pre). simpl. now rewrite <- Hp. }
    destruct s1 as [|c2 s2].
    { split; [simpl; now rewrite E1 | now exists []]. }
    destruct (space2 c2 c1) eqn:E2.
    { destruct (IH s2) as [Hs [pre Hp]]; [simpl in H; lia|]. split; [exact Hs|].
      exists (c1 :: c2 :: pre). simpl. now rewrite <- Hp. }
    destruct s2 as [|c3 s3].
    { split; [simpl; now rewrite E1, E2 | now exists []]. }
    destruct (space3 c3 c2 c1) eqn:E3.
    { destruct (IH s3) as [Hs [pre Hp]]; [simpl in H; lia|]. split; [exact Hs|].
      exists (c1 :: c2 :: c3 :: pre). simpl. now rewrite <- Hp. }
    split; [simpl; now rewrite E1, E2, E3 | now exists []].
Qed.

Lemma stopL_prefix : forall u w, stopL (u ++ w) = true -> stopL u = true.
Proof.
  intros [|c1 [|c2 [|c3 u]]] w H; try reflexivity.
  - simpl in *. apply andb_true_iff in H as [H _]. now rewrite H.
  - simpl in *. apply andb_true_iff in H as [H1 H2].
    apply andb_true_iff in H2 as [H2 _]. now rewrite H1, H2.
  - exact H.
Qed.

(** The result of [TrimSpace]: a part of the argument that no white-space
    rune begins or ends. *)
Lemma TrimSpace_spec :
  forall s,
    stopL (TrimSpace s) = true
    /\ stopR (rev (TrimSpace s)) = true
    /\ exists pre post, s = pre ++ TrimSpace s ++ post.
Proof.
  intro s.
  destruct (TrimLeft_spec _ s (le_n _)) as [HL [pre [Hpre _]]].
  destruct (TrimRightRev_spec _ (rev (TrimLeft s)) (le_n _)) as [HR [post Hpost]].
  unfold TrimSpace, TrimRight.
  assert (Hsplit : TrimLeft s = rev (TrimRightRev (rev (TrimLeft s))) ++ rev post).
  { rewrite <- rev_app_distr, <- Hpost. now rewrite rev_involutive. }
  split; [|split].
  - apply (stopL_prefix _ (rev post)). now rewrite <- Hsplit.
  - now rewrite rev_involutive.
  - exists pre, (rev post). now rewrite <- Hsplit.
Qed.

Lemma TrimSpace_fixed :
  forall t, stopL t = true -> stopR (rev t) = true -> TrimSpace t = t.
Proof.
  intros t HL HR. unfold TrimSpace, TrimRight.
  rewrite (stopL_TrimLeft t HL), (stopR_TrimRightRev _ HR). apply rev_involutive.
Qed.

Lemma TrimSpace_idempotent : forall s, TrimSpace (TrimSpace s) = TrimSpace s.
Proof.
  intro s. destruct (TrimSpace_spec s) as [HL [HR _]]. now apply TrimSpace_fixed.
Qed.

Lemma stopL_hd :
  forall c s, stopL (c :: s) = true -> isBlankTab c = false.
Proof.
  intros c s H. simpl in H. apply andb_true_iff in H as [H _].
  apply negb_true_iff in H.
  destruct (isBlankTab c) eqn:E; [|reflexivity].
  destruct (isBlankTab_classes c E) as [Ha _]. congruence.
Qed.

Lemma stopR_prefix : forall u w, stopR (u ++ w) = true -> stopR u = true.
Proof.
  intros [|c1 [|c2 [|c3 u]]] w H; try reflexivity.
  - simpl in *. apply andb_true_iff in H as [H _]. now rewrite H.
  - simpl in *. apply andb_true_iff in H as [H1 H2].
    apply andb_true_iff in H2 as [H2 _]. now rewrite H1, H2.
  - exact H.
Qed.

(** On a text that no white space ends, [TrimSpace] removes white space
    from the front only. *)
Lemma TrimSpace_front :
  forall s, stopR (rev s) = true ->
            exists pre, s = pre ++ TrimSpace s /\ TrimSpace pre = [].
Proof.
  intros s HR. destruct (TrimLeft_spec _ s (le_n _)) as [HL [pre [Hpre Hws]]].
  exists pre. unfold TrimSpace, TrimRight.
  assert (H : stopR (rev (TrimLeft s)) = true).
  { apply (stopR_prefix _ (rev pre)). rewrite <- rev_app_distr. now rewrite <- Hpre. }
  rewrite (stopR_TrimRightRev _ H), rev_involutive, Hws. now split.
Qed.

(* ================================================================= *)
(** ** More of tag.go: the first token *)

Lemma cut_inv :
  forall p s a b,
    cut p s = Some (a, b) ->
    exists c, p c = true /\ s = a ++ c :: b
              /\ forallb (fun x => negb (p x)) a = true.
Proof.
  intros p. induction s as [|x s IH]; simpl; intros a b H; [discriminate|].
  destruct (p x) eqn:Hx.
  - injection H as <- <-. exists x. now repeat split.
  - destruct (cut p s) as [[a' b']|]; [|discriminate].
    injection H as <- <-. destruct (IH a' b' eq_refl) as [c [Hc [-> Ha]]].
    exists c. repeat split; [exact Hc|]. simpl. now rewrite Hx, Ha.
Qed.

Lemma cut_None_inv :
  forall p s, cut p s = None -> forallb (fun x => negb (p x)) s = true.
Proof.
  intros p. induction s as [|x s IH]; simpl; intro H; [reflexivity|].
  destruct (p x); [discriminate|].
  destruct (cut p s) as [[a b]|]; [discriminate|]. now rewrite IH.
Qed.

Lemma TrimSpace_blank_front :
  forall c s, isBlankTab c = true -> TrimSpace (c :: s) = TrimSpace s.
Proof.
  intros c s H. destruct (isBlankTab_classes c H) as [Ha _].
  unfold TrimSpace. simpl TrimLeft. now rewrite Ha.
Qed.

(** The two results of [splitFirstToken] on a text without white space
    around it: the text is the token, a gap of white space and the rest
    without the white space before it. *)
Lemma splitFirstToken_parts :
  forall t,
    TrimSpace t = t -> t <> [] ->
    exists gap,
      t = fst (splitFirstToken t) ++ gap ++ TrimSpace (snd (splitFirstToken t))
      /\ TrimSpace gap = []
      /\ fst (splitFirstToken t) <> []
      /\ noBlank (fst (splitFirstToken t)) = true
      /\ (gap = [] -> snd (splitFirstToken t) = []).
Proof.
  intros t Hfix Hne. unfold splitFirstToken. rewrite Hfix.
  destruct (TrimSpace_spec t) as [HL [HR _]]. rewrite Hfix in HL, HR.
  destruct (cut isBlankTab t) as [[a b]|] eqn:Hc.
  - destruct (cut_inv _ _ _ _ Hc) as [c [Hcb [Ht Ha]]]. simpl fst. simpl snd.
    assert (Hb : stopR (rev b) = true).
    { apply (stopR_prefix _ (c :: rev a)).
      replace (rev b ++ c :: rev a) with (rev t); [exact HR|].
      rewrite Ht, rev_app_distr. simpl. now rewrite <- app_assoc. }
    destruct (TrimSpace_front b Hb) as [pre [Hpre Hws]].
    exists (c :: pre). repeat split.
    + rewrite Ht at 1. simpl. now rewrite <- Hpre.
    + now rewrite (TrimSpace_blank_front c pre Hcb).
    + intros ->. rewrite Ht in HL. simpl app in HL.
      pose proof (stopL_hd _ _ HL). congruence.
    + exact Ha.
    + discriminate.
  - exists []. simpl. rewrite app_nil_r. repeat split; try assumption.
    now apply cut_None_inv.
Qed.

Lemma splitFirstToken_TrimSpace :
  forall s, splitFirstToken (TrimSpace s) = splitFirstToken s.
Proof. intro s. unfold splitFirstToken. now rewrite TrimSpace_idempotent. Qed.

(** X1 (tag.go, splitFirstToken).  The token holds no blank and no tab.
    On a text that is empty once trimmed both results are empty.
    Otherwise the token is not empty, and the trimmed text is the token, a
    gap of white space and the rest without the white space around it; the
    rest is empty when there is no gap. *)
Theorem splitFirstToken_decomposition :
  forall s,
    noBlank (fst (splitFirstToken s)) = true
    /\ (TrimSpace s = [] -> splitFirstToken s = ([], []))
    /\ (TrimSpace s <> [] ->
        fst (splitFirstToken s) <> []
        /\ exists gap,
            TrimSpace s
            = fst (splitFirstToken s) ++ gap ++ TrimSpace (snd (splitFirstToken s))
            /\ TrimSpace gap = []
            /\ (gap = [] -> snd (splitFirstToken s) = [])).
Proof.
  intro s. split; [|split].
  - destruct (TrimSpace s) eqn:E.
    + unfold splitFirstToken. now rewrite E.
    + rewrite <- splitFirstToken_TrimSpace.
      destruct (splitFirstToken_parts (TrimSpace s)) as [gap [_ [_ [_ [H _]]]]];
        [apply TrimSpace_idempotent | rewrite E; discriminate | exact H].
  - intro E. unfold splitFirstToken. now rewrite E.
  - intro Hne. rewrite <- splitFirstToken_TrimSpace.
    destruct (splitFirstToken_parts (TrimSpace s)) as [gap [H1 [H2 [H3 [_ H5]]]]];
      [apply TrimSpace_idempotent | exact Hne |].
    split; [exact H3|]. exists gap. now repeat split.
Qed.

Lemma splitFirstToken_decomposition_witness :
  TrimSpace (lit "  HOME   the home directory ") <> []
  /\ fst (splitFirstToken (lit "  HOME   the home directory ")) <> [].
Proof.
  assert (H : TrimSpace (lit "  HOME   the home directory ") <> [])
    by (vm_compute; discriminate).
  split; [exact H|].
  exact (proj1 (proj2 (proj2 (splitFirstToken_decomposition
                                (lit "  HOME   the home directory "))) H)).
Defined.

Lemma name_parsers_ok :
  forall text ln,
    TrimSpace text <> [] ->
    exists name desc gap,
      parseEnv text ln = Ok (Env.mk name desc ln)
      /\ parseReads text ln = Ok (Reads.mk name desc ln)
      /\ parseExit text ln = Ok (Exit.mk name desc ln)
      /\ parseSets text ln = Ok (Sets.mk name desc ln)
      /\ parseWrites text ln = Ok (Writes.mk name desc ln)
      /\ name <> [] /\ noBlank name = true
      /\ TrimSpace desc = desc
      /\ TrimSpace text = name ++ gap ++ desc
      /\ TrimSpace gap = [].
Proof.
  intros text ln Hne.
  destruct (splitFirstToken_parts (TrimSpace text)) as [gap [H1 [H2 [H3 [H4 _]]]]];
    [apply TrimSpace_idempotent | exact Hne |].
  exists (fst (splitFirstToken (TrimSpace text))),
         (TrimSpace (snd (splitFirstToken (TrimSpace text)))), gap.
  unfold parseEnv, parseReads, parseExit, parseSets, parseWrites.
  apply isEmpty_false in Hne. rewrite Hne.
  destruct (splitFirstToken (TrimSpace text)) as [name desc]. simpl fst in *.
  simpl snd in *. repeat split; try assumption. apply TrimSpace_idempotent.
Qed.

(** X2 (tag.go, parseEnv, parseReads, parseExit, parseSets, parseWrites).
    The five parsers of a name followed by a description fail exactly on a
    text that is empty once trimmed.  On any other text all five succeed
    with the same two strings: a name that is not empty and holds no blank
    and no tab, and a description without white space around it, such that
    the trimmed text is the name, a gap of white space and the
    description; the line is the one given. *)
Theorem name_parsers :
  forall text ln,
    (TrimSpace text = [] ->
     parseEnv text ln = Err (Msgf "@env requires a variable name" [])
     /\ parseReads text ln = Err (Msgf "@reads requires a path" [])
     /\ parseExit text ln = Err (Msgf "@exit requires an exit code" [])
     /\ parseSets text ln = Err (Msgf "@sets requires a variable name" [])
     /\ parseWrites text ln = Err (Msgf "@writes requires a path" []))
    /\ (TrimSpace text <> [] ->
        exists name desc gap,
          parseEnv text ln = Ok (Env.mk name desc ln)
          /\ parseReads text ln = Ok (Reads.mk name desc ln)
          /\ parseExit text ln = Ok (Exit.mk name desc ln)
          /\ parseSets text ln = Ok (Sets.mk name desc ln)
          /\ parseWrites text ln = Ok (Writes.mk name desc ln)
          /\ name <> [] /\ noBlank name = true
          /\ TrimSpace desc = desc
          /\ TrimSpace text = name ++ gap ++ desc
          /\ TrimSpace gap = []).
Proof.
  intros text ln. split.
  - intro E. unfold parseEnv, parseReads, parseExit, parseSets, parseWrites.
    rewrite E. now repeat split.
  - apply name_parsers_ok.
Qed.

Lemma name_parsers_witness :
  TrimSpace (lit " 2   usage error ") <> []
  /\ exists name desc gap,
      parseExit (lit " 2   usage error ") 7 = Ok (Exit.mk name desc 7)
      /\ name <> [] /\ TrimSpace (lit " 2   usage error ") = name ++ gap ++ desc.
Proof.
  assert (H : TrimSpace (lit " 2   usage error ") <> []) by (vm_compute; discriminate).
  split; [exact H|].
  destruct (proj2 (name_parsers (lit " 2   usage error ") 7) H)
    as [name [desc [gap [_ [_ [E [_ [_ [Hn [_ [_ [Ht _]]]]]]]]]]]].
  exists name, desc, gap. now repeat split.
Defined.

(* ================================================================= *)
(** ** More of tag.go: the spellings of a flag *)

Lemma HasPrefix_app_l :
  forall p a w, HasPrefix a p = true -> HasPrefix (a ++ w) p = true.
Proof.
  induction p as [|x p IH]; intros a w H; [apply HasPrefix_nil|].
  destruct a as [|c a]; [discriminate|].
  simpl in H. apply andb_true_iff in H as [H1 H2].
  simpl. now rewrite H1, (IH a w H2).
Qed.

Lemma dash_not_blank : forall c, isBlankTab c = true -> Ascii.eqb "-" c = false.
Proof.
  intros c H. destruct (Ascii.eqb_spec "-"%char c) as [<-|]; [discriminate | reflexivity].
Qed.

Lemma HasPrefix_dashdash_token :
  forall a c y,
    a <> [] -> isBlankTab c = true ->
    HasPrefix (a ++ c :: y) (lit "--") = HasPrefix a (lit "--").
Proof.
  intros [|c1 [|c2 a]] c y H Hc; [congruence| |].
  - change (Ascii.eqb "-" c1 && (Ascii.eqb "-" c && HasPrefix y [])
            = Ascii.eqb "-" c1 && false).
    now rewrite (dash_not_blank c Hc).
  - change (Ascii.eqb "-" c1 && (Ascii.eqb "-" c2 && HasPrefix (a ++ c :: y) [])
            = Ascii.eqb "-" c1 && (Ascii.eqb "-" c2 && HasPrefix a [])).
    now rewrite !HasPrefix_nil.
Qed.

(** The first token of a text without white space around it begins as
    the text does, as far as dashes go. *)
Lemma splitFirstToken_dashes :
  forall t,
    TrimSpace t = t -> t <> [] ->
    HasPrefix (fst (splitFirstToken t)) (lit "-") = HasPrefix t (lit "-")
    /\ HasPrefix (fst (splitFirstToken t)) (lit "--") = HasPrefix t (lit "--")
    /\ fst (splitFirstToken t) <> []
    /\ noBlank (fst (splitFirstToken t)) = true.
Proof.
  intros t Hfix Hne. unfold splitFirstToken. rewrite Hfix.
  destruct (TrimSpace_spec t) as [HL _]. rewrite Hfix in HL.
  destruct (cut isBlankTab t) as [[a b]|] eqn:Hc; simpl fst.
  - destruct (cut_inv _ _ _ _ Hc) as [c [Hcb [Ht Ha]]].
    assert (Hane : a <> []).
    { intros ->. rewrite Ht in HL. pose proof (stopL_hd _ _ HL). congruence. }
    rewrite Ht.
    rewrite (HasPrefix_dash_app a (c :: b) Hane).
    rewrite (HasPrefix_dashdash_token a c b Hane Hcb). now repeat split.
  - repeat split; try assumption. now apply cut_None_inv.
Qed.

Lemma flagLoop_shapes :
  forall n text short long,
    length text <= n -> TrimSpace text = text ->
    shortOK short -> longOK long ->
    shortOK (snd (fst (flagLoop text short long)))
    /\ longOK (snd (flagLoop text short long))
    /\ TrimSpace (fst (fst (flagLoop text short long)))
       = fst (fst (flagLoop text short long)).
Proof.
  induction n as [|n IH]; intros text short long Hlen Hfix Hs Hl;
    rewrite (proj2 (flagLoop_eq text short long)); unfold flagTurn.
  - destruct text; [|simpl in Hlen; lia]. simpl. now repeat split.
  - destruct (isEmpty text) eqn:Ee; [simpl; now repeat split|].
    apply isEmpty_false in Ee.
    destruct (HasPrefix text (lit "-")) eqn:Hd; [|simpl; now repeat split].
    destruct (splitFirstToken_dashes text Hfix Ee) as [H1 [H2 [H3 H4]]].
    pose proof (splitFirstToken_length text) as Hsl.
    destruct (splitFirstToken text) as [name rest0].
    cbn [fst snd] in H1, H2, H3, H4. cbv beta iota zeta.
    specialize (Hsl name rest0 Ee eq_refl).
    assert (Hs' : shortOK (if HasPrefix text (lit "--") then short else name)).
    { destruct (HasPrefix text (lit "--")); [exact Hs|]. right.
      unfold shortSpelling. now rewrite H1, H2, Hd. }
    assert (Hl' : longOK (if HasPrefix text (lit "--") then name else long)).
    { destruct (HasPrefix text (lit "--")); [|exact Hl]. right.
      unfold longSpelling. now rewrite H2. }
    destruct (HasPrefix (TrimSpace rest0) (lit "|")).
    + apply IH; try assumption; [|apply TrimSpace_idempotent].
      pose proof (TrimSpace_length (skipn 1 (TrimSpace rest0))).
      pose proof (TrimSpace_length rest0).
      pose proof (length_skipn 1 (TrimSpace rest0)). lia.
    + simpl. repeat split; try assumption. apply TrimSpace_idempotent.
Qed.

Lemma consumeFlags_shapes :
  forall text,
    shortOK (snd (fst (consumeFlags text [] [])))
    /\ longOK (snd (consumeFlags text [] []))
    /\ TrimSpace (fst (fst (consumeFlags text [] [])))
       = fst (fst (consumeFlags text [] [])).
Proof.
  intro text. unfold consumeFlags.
  apply (flagLoop_shapes (length (TrimSpace text)));
    [lia | apply TrimSpace_idempotent | now left | now left].
Qed.

Lemma parseFlag_spellings :
  forall text ln f,
    parseFlag text ln = Ok f ->
    shortOK (Flag.Short f) /\ longOK (Flag.Long f)
    /\ TrimSpace (Flag.Description f) = Flag.Description f
    /\ Flag.Line f = ln.
Proof.
  intros text ln f. unfold parseFlag.
  destruct (isEmpty (TrimSpace text)); [discriminate|].
  destruct (consumeFlags_shapes (TrimSpace text)) as [H1 [H2 _]].
  destruct (consumeFlags (TrimSpace text) [] []) as [[rest short] long].
  intro H. injection H as <-. simpl in *. repeat split; try assumption.
  apply TrimSpace_idempotent.
Qed.

Lemma parseOption_spellings :
  forall text ln o,
    parseOption text ln = Ok o ->
    shortOK (Option.Short o) /\ longOK (Option.Long o)
    /\ TrimSpace (Option.Description o) = Option.Description o
    /\ Option.Line o = ln.
Proof.
  intros text ln o. unfold parseOption.
  destruct (isEmpty (TrimSpace text)); [discriminate|].
  destruct (consumeFlags_shapes (TrimSpace text)) as [H1 [H2 _]].
  destruct (consumeFlags (TrimSpace text) [] []) as [[rest short] long].
  destruct (splitFirstToken (TrimSpace rest)) as [valStr desc].
  destruct (isEmpty valStr); [discriminate|].
  destruct (ParseValue valStr); [|discriminate].
  intro H. injection H as <-. simpl in *. repeat split; try assumption.
  apply TrimSpace_idempotent.
Qed.

(** X3 (tag.go, parseFlag, parseOption, consumeFlags).  In every record
    that [parseFlag] or [parseOption] returns, the short spelling is empty
    or a word without blank that begins with exactly one dash, the long
    spelling is empty or a word without blank that begins with two dashes,
    the description has no white space around it, and the line is the one
    given. *)
Theorem flag_spellings :
  forall text ln,
    (forall f, parseFlag text ln = Ok f ->
               shortOK (Flag.Short f) /\ longOK (Flag.Long f)
               /\ TrimSpace (Flag.Description f) = Flag.Description f
               /\ Flag.Line f = ln)
    /\ (forall o, parseOption text ln = Ok o ->
                  shortOK (Option.Short o) /\ longOK (Option.Long o)
                  /\ TrimSpace (Option.Description o) = Option.Description o
                  /\ Option.Line o = ln).
Proof.
  intros text ln. split.
  - intro f. apply parseFlag_spellings.
  - intro o. apply parseOption_spellings.
Qed.

Lemma flag_spellings_witness :
  exists f, parseFlag (lit "-v | --verbose  Be loud") 3 = Ok f
            /\ shortOK (Flag.Short f) /\ longOK (Flag.Long f).
Proof.
  assert (H : parseFlag (lit "-v | --verbose  Be loud") 3
              = Ok (Flag.mk (lit "-v") (lit "--verbose") (lit "Be loud") 3))
    by (vm_compute; reflexivity).
  exists (Flag.mk (lit "-v") (lit "--verbose") (lit "Be loud") 3).
  split; [exact H|].
  destruct (proj1 (flag_spellings (lit "-v | --verbose  Be loud") 3) _ H)
    as [H1 [H2 _]].
  now split.
Defined.

(* ================================================================= *)
(** ** More of value.go: what a parsed value is *)

Lemma isEq_eq : forall c, isEq c = true -> c = "="%char.
Proof.
  intros c H. unfold isEq, code in H. apply Nat.eqb_eq in H.
  rewrite <- (ascii_nat_embedding c), H. reflexivity.
Qed.

Lemma HasSuffix_nil_dots : HasSuffix [] dots = false.
Proof. reflexivity. Qed.

Lemma ParseValue_wf : forall s v, ParseValue s = Ok v -> wellFormedValue v.
Proof.
  intros s v. unfold ParseValue.
  set (t := TrimSpace s).
  destruct (length t <? 3); [discriminate|].
  cbv zeta.
  match goal with
  | |- context [match ?b with Some _ => _ | None => _ end] =>
      destruct b as [required|]; [|discriminate]
  end.
  set (inner0 := firstn (length t - 2) (skipn 1 t)).
  destruct (isEmpty inner0) eqn:Hi0; [discriminate|].
  destruct (HasSuffix inner0 dots) eqn:Hv.
  - set (inner := TrimSuffix inner0 dots).
    destruct (isEmpty inner) eqn:Hi; [discriminate|]. simpl andb. cbv iota.
    destruct (cut isEq inner) as [[name def]|] eqn:Hc.
    + destruct required; [discriminate|].
      destruct (isEmpty name) eqn:Hn; [discriminate|].
      intro H. injection H as <-. unfold wellFormedValue. simpl.
      destruct (cut_inv _ _ _ _ Hc) as [c [_ [_ Ha]]].
      split; [now apply isEmpty_false|]. split; [exact Ha|].
      split; discriminate.
    + intro H. injection H as <-. unfold wellFormedValue. simpl.
      split; [now apply isEmpty_false|]. split; [now apply cut_None_inv|].
      split; [reflexivity | discriminate].
  - simpl andb. cbv iota.
    destruct (cut isEq inner0) as [[name def]|] eqn:Hc.
    + destruct required; [discriminate|].
      destruct (isEmpty name) eqn:Hn; [discriminate|].
      intro H. injection H as <-. unfold wellFormedValue. simpl.
      destruct (cut_inv _ _ _ _ Hc) as [c [Hce [Hs Ha]]].
      apply isEq_eq in Hce. subst c.
      split; [now apply isEmpty_false|]. split; [exact Ha|].
      split; [discriminate|].
      intros _. rewrite <- (HasSuffix_dots_after_eq name def). now rewrite <- Hs.
    + intro H. injection H as <-. unfold wellFormedValue. simpl.
      split; [now apply isEmpty_false|]. split; [now apply cut_None_inv|].
      split; reflexivity.
Qed.

Lemma parseOperand_value :
  forall text ln o,
    parseOperand text ln = Ok o ->
    wellFormedValue (Operand.Value o) /\ Operand.Line o = ln.
Proof.
  intros text ln o. unfold parseOperand.
  destruct (isEmpty (TrimSpace text)); [discriminate|].
  destruct (splitFirstToken (TrimSpace text)) as [valStr desc].
  destruct (ParseValue valStr) as [v|] eqn:Hv; [|discriminate].
  intro H. injection H as <-. split; [exact (ParseValue_wf _ _ Hv) | reflexivity].
Qed.

Lemma parseOption_value :
  forall text ln o, parseOption text ln = Ok o -> wellFormedValue (Option.Value o).
Proof.
  intros text ln o. unfold parseOption.
  destruct (isEmpty (TrimSpace text)); [discriminate|].
  destruct (consumeFlags (TrimSpace text) [] []) as [[rest short] long].
  destruct (splitFirstToken (TrimSpace rest)) as [valStr desc].
  destruct (isEmpty valStr); [discriminate|].
  destruct (ParseValue valStr) as [v|] eqn:Hv; [|discriminate].
  intro H. injection H as <-. exact (ParseValue_wf _ _ Hv).
Qed.

(** X4 (value.go, ParseValue; tag.go, parseOperand, parseOption).  Every
    value that [ParseValue] returns has a name that is not empty and holds
    no [=], has no default when it is required, and has a default that
    does not end in three dots when it is not variadic.  The values inside
    the records of [parseOperand] and [parseOption] are such values. *)
Theorem parsed_values_well_formed :
  (forall s v, ParseValue s = Ok v -> wellFormedValue v)
  /\ (forall text ln o, parseOperand text ln = Ok o -> wellFormedValue (Operand.Value o))
  /\ (forall text ln o, parseOption text ln = Ok o -> wellFormedValue (Option.Value o)).
Proof.
  split; [exact ParseValue_wf|]. split.
  - intros text ln o H. exact (proj1 (parseOperand_value _ _ _ H)).
  - exact parseOption_value.
Qed.

Lemma parsed_values_well_formed_witness :
  exists o, parseOption (lit "-o | --output [file=out.txt]  Where to write") 5 = Ok o
            /\ wellFormedValue (Option.Value o).
Proof.
  assert (H : parseOption (lit "-o | --output [file=out.txt]  Where to write") 5
              = Ok (Option.mk (lit "-o") (lit "--output")
                              (Value.mk (lit "file") false (lit "out.txt") false)
                              (lit "Where to write") 5))
    by (vm_compute; reflexivity).
  eexists. split; [exact H|].
  exact (proj2 (proj2 parsed_values_well_formed) _ _ _ H).
Defined.

(* ================================================================= *)
(** ** Printing a parsed value and parsing it again *)

Lemma HasPrefix_inv : forall p s, HasPrefix s p = true -> exists r, s = p ++ r.
Proof.
  induction p as [|x p IH]; intros s H; [now exists s|].
  destruct s as [|c s]; [discriminate|].
  simpl in H. apply andb_true_iff in H as [H1 H2].
  apply Ascii.eqb_eq in H1. subst c.
  destruct (IH s H2) as [r ->]. now exists r.
Qed.

Lemma HasSuffix_inv : forall suffix s, HasSuffix s suffix = true -> exists r, s = r ++ suffix.
Proof.
  intros suffix s H. unfold HasSuffix in H.
  destruct (HasPrefix_inv _ _ H) as [r Hr]. exists (rev r).
  rewrite <- (rev_involutive s), Hr, rev_app_distr. now rewrite rev_involutive.
Qed.

Lemma noEq_app : forall a b, noEq (a ++ b) = noEq a && noEq b.
Proof. intros. unfold noEq. apply forallb_app. Qed.

Lemma brackets_angle :
  (if Ascii.eqb "<" "<" && Ascii.eqb ">" ">" then Some true
   else if Ascii.eqb "<" "[" && Ascii.eqb ">" "]" then Some false else None)
  = Some true.
Proof. reflexivity. Qed.

Lemma brackets_square :
  (if Ascii.eqb "[" "<" && Ascii.eqb "]" ">" then Some true
   else if Ascii.eqb "[" "[" && Ascii.eqb "]" "]" then Some false else None)
  = Some false.
Proof. reflexivity. Qed.

(** A name that ends in three dots, printed alone between brackets, is
    read as a variadic value. *)
Lemma ParseValue_dotted_name :
  forall (o c : ascii) n v,
    n <> [] -> tokenChar o = true -> tokenChar c = true ->
    HasSuffix n dots = true ->
    ParseValue (o :: n ++ [c]) = Ok v -> Value.Variadic v = true.
Proof.
  intros o c n v Hn Ho Hc Hs.
  rewrite (ParseValue_brackets o c n Hn Ho Hc). cbv zeta. rewrite Hs.
  destruct (if Ascii.eqb o "<" && Ascii.eqb c ">" then Some true
            else if Ascii.eqb o "[" && Ascii.eqb c "]" then Some false else None)
    as [required|]; [|discriminate].
  destruct (true && isEmpty (TrimSuffix n dots)); [discriminate|].
  destruct (cut isEq (TrimSuffix n dots)) as [[name def]|].
  - destruct required; [discriminate|].
    destruct (isEmpty name); [discriminate|]. now intros [= <-].
  - now intros [= <-].
Qed.

(** A variadic name followed by a default is not read back. *)
Lemma ParseValue_variadic_default :
  forall n d,
    n <> [] -> noEq n = true -> d <> [] ->
    ParseValue ("["%char :: ((n ++ dots) ++ "="%char :: d) ++ ["]"%char])
    <> Ok (Value.mk n false d true).
Proof.
  intros n d Hn Hq Hd.
  rewrite (ParseValue_brackets "[" "]" ((n ++ dots) ++ "="%char :: d));
    [ | destruct n; discriminate | reflexivity | reflexivity ].
  cbv zeta. rewrite brackets_square, HasSuffix_dots_after_eq.
  assert (Hq' : noEq (n ++ dots) = true) by (rewrite noEq_app, Hq; reflexivity).
  assert (Hne : isEmpty (n ++ dots) = false)
    by (apply isEmpty_false; destruct n; discriminate).
  destruct (HasSuffix d dots) eqn:Hs.
  - destruct (HasSuffix_inv _ _ Hs) as [d' ->].
    replace ((n ++ dots) ++ "="%char :: d' ++ dots)
      with (((n ++ dots) ++ "="%char :: d') ++ dots)
      by (now rewrite <- app_assoc).
    rewrite TrimSuffix_app, (noEq_cut_app _ d' Hq'), Hne.
    destruct (true && isEmpty ((n ++ dots) ++ "="%char :: d')); [discriminate|].
    intros [= E _]. apply (f_equal (@length ascii)) in E.
    rewrite length_app in E. simpl in E. lia.
  - simpl andb. cbv iota. rewrite (noEq_cut_app _ d Hq'), Hne. discriminate.
Qed.

(** X5 (internal/generate/helptext.go, formatValue; value.go, ParseValue).
    A value that [ParseValue] returned is printed by [formatValue] to a
    text that [ParseValue] reads back as the same value, except in two
    cases: a variadic value with a default (it is printed with the dots
    before the [=]), and a value without default that is not variadic but
    whose name ends in three dots. *)
Theorem formatValue_round_trip :
  forall s v,
    ParseValue s = Ok v ->
    (ParseValue (formatValue v) = Ok v
     <-> (Value.Variadic v = true -> Value.Default v = [])
         /\ (Value.Variadic v = false -> Value.Default v = [] ->
             HasSuffix (Value.Name v) dots = false)).
Proof.
  intros s [n r d var] H. apply ParseValue_wf in H.
  destruct H as [Hn [Hq [Hr Hd]]]. simpl in Hn, Hq, Hr, Hd.
  unfold formatValue. cbn [Value.Name Value.Required Value.Default Value.Variadic].
  assert (Plain :
            forall (o c : ascii) req,
              tokenChar o = true -> tokenChar c = true ->
              (if Ascii.eqb o "<" && Ascii.eqb c ">" then Some true
               else if Ascii.eqb o "[" && Ascii.eqb c "]" then Some false else None)
              = Some req ->
              (ParseValue (o :: (if var then n ++ dots else n) ++ [c])
               = Ok (Value.mk n req [] var)
               <-> (var = true -> @nil ascii = [])
                   /\ (var = false -> @nil ascii = [] -> HasSuffix n dots = false))).
  { intros o c req Ho Hc Hb. destruct var.
    - rewrite (ParseValue_variadic o c req n Hn Hq Ho Hc Hb).
      split; [intros _; split; [reflexivity | discriminate] | reflexivity].
    - destruct (HasSuffix n dots) eqn:Hs.
      + split.
        * intro H. apply (ParseValue_dotted_name o c n _ Hn Ho Hc Hs) in H.
          discriminate.
        * intros [_ H]. specialize (H eq_refl eq_refl). discriminate.
      + rewrite (ParseValue_plain o c req n Hn Hq Hs Ho Hc Hb).
        split; [intros _; split; [discriminate | reflexivity] | reflexivity]. }
  destruct r.
  - rewrite (Hr eq_refl).
    change (lit "<" ++ (if var then n ++ dots else n) ++ lit ">")
      with ("<"%char :: (if var then n ++ dots else n) ++ [">"%char]).
    apply Plain; reflexivity.
  - destruct d as [|x d].
    + change (lit "[" ++ (if var then n ++ dots else n) ++ lit "]")
        with ("["%char :: (if var then n ++ dots else n) ++ ["]"%char]).
      apply Plain; reflexivity.
    + cbn [isEmpty negb].
      replace (lit "[" ++ (if var then n ++ dots else n) ++ lit "=" ++ (x :: d) ++ lit "]")
        with ("["%char :: ((if var then n ++ dots else n) ++ "="%char :: x :: d) ++ ["]"%char])
        by (simpl; now rewrite <- app_assoc).
      destruct var.
      * split.
        -- intro H. exfalso.
           revert H. apply ParseValue_variadic_default; [assumption | assumption | discriminate].
        -- intros [H _]. specialize (H eq_refl). discriminate.
      * rewrite (ParseValue_default n (x :: d) Hn Hq (Hd eq_refl)).
        split; [intros _; split; discriminate | reflexivity].
Qed.

Lemma formatValue_round_trip_witness :
  ParseValue (lit " [count=3] ") = Ok (Value.mk (lit "count") false (lit "3") false)
  /\ ParseValue (formatValue (Value.mk (lit "count") false (lit "3") false))
     = Ok (Value.mk (lit "count") false (lit "3") false).
Proof.
  assert (H : ParseValue (lit " [count=3] ")
              = Ok (Value.mk (lit "count") false (lit "3") false))
    by (vm_compute; reflexivity).
  split; [exact H|].
  apply (proj2 (formatValue_round_trip _ _ H)).
  split; [discriminate | intros _ E; discriminate E].
Defined.

(* ================================================================= *)
(** ** The tag name and the dynamic type of a record *)

Lemma rmap_Ok :
  forall (A B : Type) (f : A -> B) (m : result A) r,
    rmap f m = Ok r -> exists a, m = Ok a /\ r = f a.
Proof. intros A B f [a|e] r H; [injection H as <-; now exists a | discriminate]. Qed.

Lemma parseTag_kindOf :
  forall name text ln r, parseTag name text ln = Ok r -> kindOf r = name.
Proof.
  intros name text ln r. unfold parseTag.
  repeat match goal with
         | |- context [name == ?k] =>
             let E := fresh "E" in
             destruct (name == k) eqn:E;
             [ apply eqs_eq in E; rewrite E; intro H;
               first [ apply rmap_Ok in H; destruct H as [a [_ ->]]
                     | injection H as <- ];
               reflexivity
             | ]
         end.
  discriminate.
Qed.

Ltac held_here :=
  apply in_map;
  first [ rewrite attach_Flags | rewrite attach_Options | rewrite attach_Operands
        | rewrite attach_Env | rewrite attach_Reads | rewrite attach_Stdin
        | rewrite attach_Exit | rewrite attach_Stdout | rewrite attach_Stderr
        | rewrite attach_Sets | rewrite attach_Writes | rewrite attach_Deprecated ];
  first [ apply in_or_app; right; left; reflexivity | left; reflexivity ].

Lemma attach_held :
  forall r b, In r (held (attach (kindOf r) r b)).
Proof.
  intros r b. unfold held.
  destruct r; cbn [kindOf];
    repeat (apply in_or_app; first [ left; solve [held_here] | right ]);
    held_here.
Qed.

(** X6 (tag.go, parseTag; parser.go, applyTagToBlock).  The dynamic type
    of a record that [parseTag] returns is the one of its tag name, so the
    type switch of [applyTagToBlock] never falls through: applied to a
    block that is not nil, it yields a block that holds the record. *)
Theorem parsed_tag_is_stored :
  forall name text ln r p b,
    parseTag name text ln = Ok r ->
    block p = Some b ->
    kindOf r = name
    /\ exists b', applyTagToBlock name r p = Done (set_block (Some b') p)
                  /\ In r (held b').
Proof.
  intros name text ln r p b H Hb.
  pose proof (parseTag_kindOf _ _ _ _ H) as Hk. split; [exact Hk|].
  exists (attach name r b). split; [now apply applyTagToBlock_attach|].
  rewrite <- Hk. apply attach_held.
Qed.

Lemma parsed_tag_is_stored_witness :
  exists b', applyTagToBlock (lit "exit") (RExit (Exit.mk (lit "2") (lit "usage") 4))
               justOpened
             = Done (set_block (Some b') justOpened)
             /\ In (RExit (Exit.mk (lit "2") (lit "usage") 4)) (held b').
Proof.
  assert (H : parseTag (lit "exit") (lit "2 usage") 4
              = Ok (RExit (Exit.mk (lit "2") (lit "usage") 4)))
    by (vm_compute; reflexivity).
  exact (proj2 (parsed_tag_is_stored _ _ _ _ justOpened _ H eq_refl)).
Defined.

(* ================================================================= *)
(** ** Metadata: the writer of the parser and the reader of the command line *)

Ltac other_tag t :=
  unfold getMetaField;
  repeat match goal with
         | |- context [t == ?k] =>
             let E := fresh "E" in
             destruct (t == k) eqn:E;
             [ try (apply eqs_eq in E; congruence); try reflexivity | ]
         end;
  try reflexivity.

(** X7 (parser.go, setShedocMeta; cli, getMetaField).  The parser and the
    reader of the command line know the same tags.  For a tag the reader
    knows, [setShedocMeta] adds no warning, the reader then returns the
    value just set, and what it returns for any other tag is unchanged.
    For a tag the reader does not know, [setShedocMeta] leaves the
    metadata as they are and appends one warning with the current line.
    In both cases the path, the shebang and the blocks stay. *)
Theorem metadata_set_then_get :
  forall tag value p,
    (snd (getMetaField (Document.Meta (doc p)) tag) = true ->
     getMetaField (Document.Meta (doc (setShedocMeta tag value p))) tag = (value, true)
     /\ Document.Warnings (doc (setShedocMeta tag value p)) = Document.Warnings (doc p)
     /\ forall tag', tag' <> tag ->
                     getMetaField (Document.Meta (doc (setShedocMeta tag value p))) tag'
                     = getMetaField (Document.Meta (doc p)) tag')
    /\ (snd (getMetaField (Document.Meta (doc p)) tag) = false ->
        Document.Meta (doc (setShedocMeta tag value p)) = Document.Meta (doc p)
        /\ Document.Warnings (doc (setShedocMeta tag value p))
           = Document.Warnings (doc p)
               ++ [Warning.mk (line p) (Msgf "unknown shedoc tag: #?/%s" [tag])])
    /\ setShedocMeta tag value p = set_doc (doc (setShedocMeta tag value p)) p
    /\ Document.Path (doc (setShedocMeta tag value p)) = Document.Path (doc p)
    /\ Document.Shebang (doc (setShedocMeta tag value p)) = Document.Shebang (doc p)
    /\ Document.Blocks (doc (setShedocMeta tag value p)) = Document.Blocks (doc p).
Proof.
  intros tag value [[path sheb [a1 a2 a3 a4 a5 a6 a7 a8] blocks warns]
                      ln st stag sl blk desc it ct cr tc].
  unfold setShedocMeta, getMetaField at 1 3.
  cbn [doc Document.Meta].
  repeat match goal with
         | |- context [tag == ?k] =>
             let E := fresh "E" in
             destruct (tag == k) eqn:E;
             [ apply eqs_eq in E; subst tag;
               (split; [intros _; split; [reflexivity
                                         | split; [reflexivity
                                                  | intros tag' Hne; other_tag tag']]
                       | split; [discriminate | now repeat split]])
             | ]
         end.
  split; [discriminate|]. split; [intros _; now split | now repeat split].
Qed.

Lemma metadata_set_then_get_witness :
  getMetaField (Document.Meta (doc (setShedocMeta (lit "version") (lit "1.2.0") newParser)))
               (lit "version")
  = (lit "1.2.0", true).
Proof.
  assert (H : snd (getMetaField (Document.Meta (doc newParser)) (lit "version")) = true)
    by reflexivity.
  exact (proj1 (proj1 (metadata_set_then_get (lit "version") (lit "1.2.0") newParser) H)).
Defined.

(* ================================================================= *)
(** ** The text lines of a block *)

Lemma isTextLine_inv :
  forall l,
    isTextLine l = true ->
    MatchString reBlockClose l = false
    /\ exists m, FindStringSubmatch reContinuation l = Some m
                 /\ sub m 1 = textOf l
                 /\ isEmpty (textOf l) = false
                 /\ splitTag (textOf l) = None.
Proof.
  intros l. unfold isTextLine, textOf, continuationContent.
  destruct (MatchString reBlockClose l); [discriminate|].
  destruct (FindStringSubmatch reContinuation l) as [m|]; [|discriminate].
  intro H. apply andb_true_iff in H as [H1 H2]. apply negb_true_iff in H1.
  split; [reflexivity|]. exists m. repeat split; [exact H1|].
  now destruct (splitTag (sub m 1)).
Qed.

Lemma lineAfter_S : forall k ln, lineAfter (S k) ln = lineAfter k (int_succ ln).
Proof. intros. unfold lineAfter. apply Nat.iter_succ_r. Qed.

(** Before the first tag line, a text line is one more line of the
    description, kept as it is. *)
Lemma step_description_line :
  forall p l,
    state p = stateSheblock -> inTags p = false -> currentTag p = [] ->
    isTextLine l = true ->
    step p l
    = Done (set_blockDesc (blockDesc p ++ [textOf l]) (set_line (int_succ (line p)) p)).
Proof.
  intros p l Hst Hin Hct Hl.
  destruct (isTextLine_inv l Hl) as [Hc [m [Hm [Hs [He Ht]]]]].
  unfold step. change (state (set_line _ p)) with (state p). rewrite Hst.
  unfold handleSheblock. rewrite Hc, Hm, Hs, Ht, He.
  change (currentTag (set_line _ p)) with (currentTag p).
  change (inTags (set_line _ p)) with (inTags p).
  rewrite Hct, Hin. reflexivity.
Qed.

Lemma scan_description_lines :
  forall ls p,
    state p = stateSheblock -> inTags p = false -> currentTag p = [] ->
    forallb isTextLine ls = true ->
    scan p ls
    = Done (set_blockDesc (blockDesc p ++ map textOf ls)
              (set_line (lineAfter (length ls) (line p)) p)).
Proof.
  induction ls as [|l ls IH]; intros p Hst Hin Hct Hall.
  - simpl. rewrite app_nil_r. now destruct p.
  - simpl in Hall. apply andb_true_iff in Hall as [Hl Hall].
    simpl scan. rewrite (step_description_line p l Hst Hin Hct Hl). simpl bind.
    rewrite IH by assumption. simpl length. rewrite lineAfter_S.
    simpl. now rewrite <- app_assoc.
Qed.

(** After a tag line whose parser succeeded, a text line is one more
    continuation line of the pending tag, trimmed. *)
Lemma step_tag_continuation :
  forall p l,
    state p = stateSheblock -> currentTag p <> [] ->
    isTextLine l = true ->
    step p l
    = Done (set_tagContLines (tagContLines p ++ [TrimSpace (textOf l)])
              (set_line (int_succ (line p)) p)).
Proof.
  intros p l Hst Hct Hl.
  destruct (isTextLine_inv l Hl) as [Hc [m [Hm [Hs [He Ht]]]]].
  unfold step. change (state (set_line _ p)) with (state p). rewrite Hst.
  unfold handleSheblock. rewrite Hc, Hm, Hs, Ht, He.
  change (currentTag (set_line _ p)) with (currentTag p).
  apply isEmpty_false in Hct. rewrite Hct. reflexivity.
Qed.

Lemma scan_tag_continuation :
  forall ls p,
    state p = stateSheblock -> currentTag p <> [] ->
    forallb isTextLine ls = true ->
    scan p ls
    = Done (set_tagContLines
              (tagContLines p ++ map (fun l => TrimSpace (textOf l)) ls)
              (set_line (lineAfter (length ls) (line p)) p)).
Proof.
  induction ls as [|l ls IH]; intros p Hst Hct Hall.
  - simpl. rewrite app_nil_r. now destruct p.
  - simpl in Hall. apply andb_true_iff in Hall as [Hl Hall].
    simpl scan. rewrite (step_tag_continuation p l Hst Hct Hl). simpl bind.
    rewrite IH by assumption. simpl length. rewrite lineAfter_S.
    simpl. now rewrite <- app_assoc.
Qed.

(** X8 (parser.go, handleSheblock, finalizeBlock).  In a documentation
    block in which no tag line has been read, text lines followed by a
    close marker append one block whose description lines are those
    already read followed by the contents of the text lines, unchanged and
    in order ([finished] joins them with newlines); nothing else of the
    document changes, and the parser is back at the top level. *)
Theorem description_lines_are_kept :
  forall p b ls c,
    state p = stateSheblock -> block p = Some b ->
    inTags p = false -> currentTag p = [] ->
    forallb isTextLine ls = true ->
    MatchString reBlockClose c = true ->
    exists p',
      scan p (ls ++ [c]) = Done p'
      /\ state p' = stateTop
      /\ doc p' = Document.set_Blocks
                    (Document.Blocks (doc p)
                       ++ [finished (blockDesc p ++ map textOf ls) b]) (doc p)
      /\ (blockDesc p = [] -> ls <> [] ->
          Block.Description (finished (blockDesc p ++ map textOf ls) b)
          = Join (map textOf ls) nl).
Proof.
  intros p b ls c Hst Hb Hin Hct Hall Hc.
  rewrite scan_app, (scan_description_lines ls p Hst Hin Hct Hall).
  simpl bind. simpl scan.
  set (p1 := set_blockDesc _ _).
  assert (Hp1 : pendingBlock p1 = Some b).
  { unfold pendingBlock, finalizeCurrentTag. subst p1.
    cbn [currentResult currentTag set_blockDesc set_line].
    rewrite Hct. destruct (currentResult p); simpl; exact Hb. }
  rewrite (step_close p1 b c Hst Hp1 Hc). simpl bind.
  eexists. split; [reflexivity|]. split; [reflexivity|]. split.
  - unfold finalizeBlock, finished. reflexivity.
  - intros Hd Hne. rewrite Hd. simpl app. unfold finished.
    destruct ls as [|l ls']; [congruence|]. reflexivity.
Qed.

Lemma description_lines_are_kept_witness :
  exists p',
    scan justOpened (script [" # Greets the user."; " #   Twice."; " ##"]%string)
    = Done p'
    /\ Document.Blocks (doc p')
       = [Block.set_Description (lit "Greets the user." ++ nl ++ lit "  Twice.")
            (Block.new VisibilityCommand [] 1)].
Proof.
  assert (Hall : forallb isTextLine (script [" # Greets the user."; " #   Twice."]%string)
                 = true) by (vm_compute; reflexivity).
  assert (Hc : MatchString reBlockClose (lit " ##") = true) by (vm_compute; reflexivity).
  destruct (description_lines_are_kept justOpened _ _ _ eq_refl eq_refl eq_refl eq_refl
              Hall Hc) as [p' [Hs [_ [Hd _]]]].
  exists p'. split; [exact Hs|]. rewrite Hd. reflexivity.
Defined.

Lemma descOf_append :
  forall r text,
    descOf (appendTagDescription r text) = joinDesc (descOf r) text
    /\ kindOf (appendTagDescription r text) = kindOf r.
Proof. intros r text. destruct r; split; reflexivity. Qed.

(* ================================================================= *)
(** ** The lines of a metadata block *)

Lemma isContinuationLine_inv :
  forall l,
    isContinuationLine l = true ->
    MatchString reBlockClose l = false
    /\ exists m, FindStringSubmatch reContinuation l = Some m /\ sub m 1 = textOf l.
Proof.
  intros l. unfold isContinuationLine, textOf, continuationContent.
  destruct (MatchString reBlockClose l); [discriminate|].
  destruct (FindStringSubmatch reContinuation l) as [m|]; [|discriminate].
  intros _. split; [reflexivity|]. now exists m.
Qed.

Lemma step_shedoc_line :
  forall p l,
    state p = stateShedoc -> isContinuationLine l = true ->
    step p l
    = Done (set_shedocLines (shedocLines p ++ [textOf l])
              (set_line (int_succ (line p)) p)).
Proof.
  intros p l Hst Hl. destruct (isContinuationLine_inv l Hl) as [Hc [m [Hm Hs]]].
  unfold step. change (state (set_line _ p)) with (state p). rewrite Hst.
  unfold handleShedoc. rewrite Hc, Hm, Hs. reflexivity.
Qed.

Lemma scan_shedoc_lines :
  forall ls p,
    state p = stateShedoc -> forallb isContinuationLine ls = true ->
    scan p ls
    = Done (set_shedocLines (shedocLines p ++ map textOf ls)
              (set_line (lineAfter (length ls) (line p)) p)).
Proof.
  induction ls as [|l ls IH]; intros p Hst Hall.
  - simpl. rewrite app_nil_r. now destruct p.
  - simpl in Hall. apply andb_true_iff in Hall as [Hl Hall].
    simpl scan. rewrite (step_shedoc_line p l Hst Hl). simpl bind.
    rewrite IH by assumption. simpl length. rewrite lineAfter_S.
    simpl. now rewrite <- app_assoc.
Qed.

Lemma setShedocMeta_doc :
  forall tag v q q',
    doc q = doc q' -> line q = line q' ->
    doc (setShedocMeta tag v q) = doc (setShedocMeta tag v q').
Proof.
  intros tag v [d ln st stag sl blk desc it ct cr tc]
         [d' ln' st' stag' sl' blk' desc' it' ct' cr' tc'].
  simpl. intros -> ->. unfold setShedocMeta. simpl. split_ifs; reflexivity.
Qed.

(** X10 (parser.go, handleShedoc, finalizeShedoc).  In a metadata block,
    continuation lines followed by a close marker set the field of the
    tag of the block to the contents of the lines, blank ones and lines
    that look like tags included, unchanged and joined by newlines
    ([setShedocMeta] is called once, with the number of the closing
    line); the parser is back at the top level with no tag and no lines
    left. *)
Theorem metadata_block_lines_are_kept :
  forall p ls c,
    state p = stateShedoc -> shedocTag p <> [] ->
    forallb isContinuationLine ls = true ->
    MatchString reBlockClose c = true ->
    exists p',
      scan p (ls ++ [c]) = Done p'
      /\ state p' = stateTop /\ shedocTag p' = [] /\ shedocLines p' = []
      /\ doc p'
         = doc (setShedocMeta (shedocTag p)
                  (Join (shedocLines p ++ map textOf ls) nl)
                  (set_line (lineAfter (S (length ls)) (line p)) p)).
Proof.
  intros p ls c Hst Htag Hall Hc.
  rewrite scan_app, (scan_shedoc_lines ls p Hst Hall). simpl bind. simpl scan.
  unfold step. cbn [state set_shedocLines set_line]. rewrite Hst.
  unfold handleShedoc. rewrite Hc. unfold finalizeShedoc.
  cbn [shedocTag shedocLines set_shedocLines set_line].
  apply isEmpty_false in Htag. rewrite Htag. cbn [negb].
  eexists. split; [reflexivity|].
  split; [reflexivity|]. split; [reflexivity|]. split; [reflexivity|].
  cbn [doc set_state set_shedocLines set_shedocTag].
  apply setShedocMeta_doc; reflexivity.
Qed.

Lemma metadata_block_lines_are_kept_witness :
  exists p',
    scan (reach (script ["#?/description"]%string))
         (script [" # Builds the project."; " #"; " # @see the manual"]%string ++ [lit " ##"])
    = Done p'
    /\ Meta.Description (Document.Meta (doc p'))
       = lit "Builds the project." ++ nl ++ nl ++ lit "@see the manual".
Proof.
  pose (p := reach (script ["#?/description"]%string)).
  assert (Hst : state p = stateShedoc) by (vm_compute; reflexivity).
  assert (Htag : shedocTag p <> []) by (vm_compute; discriminate).
  assert (Hall : forallb isContinuationLine
                   (script [" # Builds the project."; " #"; " # @see the manual"]%string)
                 = true) by (vm_compute; reflexivity).
  assert (Hc : MatchString reBlockClose (lit " ##") = true) by (vm_compute; reflexivity).
  destruct (metadata_block_lines_are_kept p _ _ Hst Htag Hall Hc)
    as [p' [Hs [_ [_ [_ Hd]]]]].
  exists p'. split; [exact Hs|]. rewrite Hd. vm_compute. reflexivity.
Defined.

(* ================================================================= *)
(** ** Properties that every block of every document has *)

Lemma applyTagToBlock_nil :
  forall name r p q,
    block p = None -> applyTagToBlock name r p = Done q -> q = p.
Proof.
  intros name r p q Hb. unfold applyTagToBlock, onBlock. rewrite Hb.
  split_ifs; destruct r; intro H; try discriminate; now injection H as <-.
Qed.

Lemma Forall_updLast :
  forall (P : Block -> Prop) f l,
    (forall b, P b -> P (f b)) -> Forall P l -> Forall P (updLast f l).
Proof.
  intros P f l Hf. induction l as [|x l IH]; intro H; [constructor|].
  inversion H as [|? ? Hx Hl]; subst.
  destruct l as [|y r]; [constructor; auto|].
  change (updLast f (x :: y :: r)) with (x :: updLast f (y :: r)).
  constructor; auto.
Qed.

Lemma setShedocMeta_shape :
  forall tag value p,
    setShedocMeta tag value p = set_doc (doc (setShedocMeta tag value p)) p.
Proof. intros tag value p. unfold setShedocMeta. split_ifs; reflexivity. Qed.

Lemma finalizeShedoc_line : forall p, line (finalizeShedoc p) = line p.
Proof.
  intro p. unfold finalizeShedoc.
  destruct (negb (isEmpty (shedocTag p))); [|reflexivity].
  cbn [line set_shedocLines set_shedocTag]. now rewrite setShedocMeta_shape.
Qed.

Section Kept.
Variable P : Block -> Prop.
Variable R : TagResult -> Prop.
Hypothesis P_desc : forall x b, P b -> P (Block.set_Description x b).
Hypothesis P_func : forall x b, P b -> P (Block.set_FunctionName x b).
Hypothesis P_attach : forall n r b, R r -> P b -> P (attach n r b).
Hypothesis R_append : forall r text, R r -> R (appendTagDescription r text).

Lemma keeps_doc :
  forall p q,
    Document.Blocks (doc q) = Document.Blocks (doc p) ->
    block q = block p -> currentResult q = currentResult p ->
    keeps P R p -> keeps P R q.
Proof.
  intros p q H1 H2 H3 [K1 [K2 K3]]. unfold keeps. rewrite H1, H2, H3. auto.
Qed.

Lemma keeps_setShedocMeta :
  forall tag value p, keeps P R p -> keeps P R (setShedocMeta tag value p).
Proof.
  intros tag value p. apply keeps_doc.
  - apply setShedocMeta_Blocks.
  - now rewrite setShedocMeta_shape.
  - now rewrite setShedocMeta_shape.
Qed.

Lemma keeps_finalizeShedoc :
  forall p, keeps P R p -> keeps P R (finalizeShedoc p).
Proof.
  intros p H. unfold finalizeShedoc.
  destruct (negb (isEmpty (shedocTag p))).
  - apply (keeps_doc (setShedocMeta (shedocTag p) (Join (shedocLines p) nl) p));
      try reflexivity. now apply keeps_setShedocMeta.
  - apply (keeps_doc p); auto.
Qed.

Lemma keeps_finalizeCurrentTag :
  forall p q, finalizeCurrentTag p = Done q -> keeps P R p -> keeps P R q.
Proof.
  intros p q Hf [K1 [K2 K3]]. unfold finalizeCurrentTag in Hf.
  assert (Hclear : keeps P R (clearCurrentTag p)).
  { repeat split; [exact K1 | exact K2 | discriminate]. }
  destruct (currentResult p) as [r|] eqn:Hr; [|now injection Hf as <-].
  destruct (isEmpty (currentTag p)); [now injection Hf as <-|].
  set (r' := if negb (isEmpty (tagContLines p))
             then appendTagDescription r (Join (tagContLines p) (lit " ")) else r) in Hf.
  assert (Hr' : R r').
  { subst r'. destruct (negb (isEmpty (tagContLines p))); auto. }
  destruct (block p) as [b|] eqn:Hb.
  - rewrite (applyTagToBlock_attach _ _ p b Hb) in Hf. simpl in Hf.
    injection Hf as <-. repeat split; simpl.
    + exact K1.
    + intros b' Hb'. injection Hb' as <-. apply P_attach; auto.
    + discriminate.
  - destruct (applyTagToBlock (currentTag p) r' p) as [p'|] eqn:Ha; [|discriminate].
    simpl in Hf. injection Hf as <-.
    rewrite (applyTagToBlock_nil _ _ _ _ Hb Ha). exact Hclear.
Qed.

Lemma keeps_finalizeBlock :
  forall p, keeps P R p -> keeps P R (finalizeBlock p).
Proof.
  intros p [K1 [K2 K3]]. unfold finalizeBlock.
  destruct (block p) as [b|] eqn:Hb;
    [|split; [exact K1 | split; [rewrite Hb; exact K2 | exact K3]]].
  repeat split; simpl.
  - apply Forall_app. split; [exact K1|]. constructor; [|constructor].
    destruct (negb (isEmpty (blockDesc p))); auto.
  - discriminate.
  - exact K3.
Qed.

Lemma keeps_handleTop :
  forall p l,
    (MatchString reSheblockOpen l = true ->
     forall vis extra,
       P (Block.new (fst (parseSheblockHeader vis extra))
                    (snd (parseSheblockHeader vis extra)) (line p))) ->
    keeps P R p -> keeps P R (handleTop p l).
Proof.
  intros p l Hnew K. unfold handleTop.
  destruct (FindStringSubmatch reShebang l); [revert K; now apply keeps_doc|].
  destruct (FindStringSubmatch reShedocInline l); [now apply keeps_setShedocMeta|].
  destruct (FindStringSubmatch reShedocOpen l); [revert K; now apply keeps_doc|].
  unfold MatchString in Hnew.
  destruct (FindStringSubmatch reSheblockOpen l) as [m|].
  - specialize (Hnew eq_refl (sub m 1) (TrimSpace (sub m 2))).
    destruct (parseSheblockHeader (sub m 1) (TrimSpace (sub m 2))) as [v n].
    destruct K as [K1 [K2 K3]]. repeat split; simpl.
    + exact K1.
    + intros b Hb. injection Hb as <-. exact Hnew.
    + discriminate.
  - destruct (negb (isEmpty (matchFuncDecl l))); [|exact K].
    destruct K as [K1 [K2 K3]]. repeat split; simpl; auto.
    apply Forall_updLast; [|exact K1].
    intros b Hb. destruct (isEmpty (Block.FunctionName b)); auto.
Qed.

(** One turn of the loop keeps the two properties, when the block that
    an opener line would start has [P] and the record that a tag line
    would give has [R]. *)
Lemma keeps_step :
  forall p l p',
    (MatchString reSheblockOpen l = true ->
     forall vis extra,
       P (Block.new (fst (parseSheblockHeader vis extra))
                    (snd (parseSheblockHeader vis extra)) (int_succ (line p)))) ->
    (forall n t r,
        tagOfLine l = Some (n, t) -> parseTag n t (int_succ (line p)) = Ok r -> R r) ->
    step p l = Done p' ->
    keeps P R p -> keeps P R p'.
Proof.
  intros p l p' Hnew Hrec Hs K. unfold step in Hs. cbv zeta in Hs.
  assert (K0 : keeps P R (set_line (int_succ (line p)) p)) by exact K.
  assert (Hnew0 : MatchString reSheblockOpen l = true ->
                  forall vis extra,
                    P (Block.new (fst (parseSheblockHeader vis extra))
                                 (snd (parseSheblockHeader vis extra))
                                 (line (set_line (int_succ (line p)) p))))
    by exact Hnew.
  assert (Hrec0 : forall n t r,
             tagOfLine l = Some (n, t) ->
             parseTag n t (line (set_line (int_succ (line p)) p)) = Ok r -> R r)
    by exact Hrec.
  change (state (set_line (int_succ (line p)) p)) with (state p) in Hs.
  remember (set_line (int_succ (line p)) p) as p0 eqn:Ep0.
  assert (Hst0 : state p0 = state p) by (now subst p0).
  clear Ep0 K Hnew Hrec. rewrite <- Hst0 in Hs. clear Hst0 p.
  destruct (state p0).
  - injection Hs as <-. now apply keeps_handleTop.
  - injection Hs as <-. unfold handleShedoc.
    destruct (MatchString reBlockClose l).
    { apply (keeps_doc (finalizeShedoc p0)); try reflexivity.
      now apply keeps_finalizeShedoc. }
    destruct (FindStringSubmatch reContinuation l).
    { revert K0. now apply keeps_doc. }
    apply keeps_handleTop.
    { change (line (set_state stateTop (finalizeShedoc p0)))
        with (line (finalizeShedoc p0)).
      rewrite finalizeShedoc_line. exact Hnew0. }
    apply (keeps_doc (finalizeShedoc p0)); try reflexivity.
    now apply keeps_finalizeShedoc.
  - unfold handleSheblock in Hs. unfold tagOfLine, continuationContent in Hrec0.
    destruct (MatchString reBlockClose l).
    { destruct (finalizeCurrentTag p0) as [q|] eqn:Hq; [|discriminate].
      simpl in Hs. injection Hs as <-.
      apply (keeps_doc (finalizeBlock q)); try reflexivity.
      apply keeps_finalizeBlock. exact (keeps_finalizeCurrentTag _ _ Hq K0). }
    destruct (FindStringSubmatch reContinuation l) as [m|].
    + destruct (splitTag (sub m 1)) as [[n t]|].
      * destruct (finalizeCurrentTag p0) as [q|] eqn:Hq; [|discriminate].
        simpl in Hs.
        pose proof (keeps_finalizeCurrentTag _ _ Hq K0) as [K1 [K2 K3]].
        assert (Hln : line q = line p0).
        { rewrite (finalizeCurrentTag_shape _ _ Hq). reflexivity. }
        rewrite Hln in Hs.
        destruct (parseTag n t (line p0)) as [r|e] eqn:Hr;
          injection Hs as <-; repeat split; simpl; auto.
        intros r' Hr'. injection Hr' as <-. exact (Hrec0 n t r eq_refl Hr).
      * destruct (isEmpty (sub m 1)).
        { destruct (negb (isEmpty (currentTag p0))).
          - exact (keeps_finalizeCurrentTag _ _ Hs K0).
          - now injection Hs as <-. }
        destruct (negb (isEmpty (currentTag p0))).
        { injection Hs as <-. revert K0. now apply keeps_doc. }
        destruct (negb (inTags p0)); injection Hs as <-; [|exact K0].
        revert K0. now apply keeps_doc.
    + destruct (finalizeCurrentTag p0) as [q|] eqn:Hq; [|discriminate].
      simpl in Hs. injection Hs as <-.
      assert (Hln : line q = line p0).
      { rewrite (finalizeCurrentTag_shape _ _ Hq). reflexivity. }
      apply keeps_handleTop.
      * change (line (set_state stateTop (finalizeBlock q))) with (line (finalizeBlock q)).
        replace (line (finalizeBlock q)) with (line p0); [exact Hnew0|].
        rewrite <- Hln. unfold finalizeBlock. now destruct (block q).
      * apply (keeps_doc (finalizeBlock q)); try reflexivity.
        apply keeps_finalizeBlock. exact (keeps_finalizeCurrentTag _ _ Hq K0).
Qed.

Lemma keeps_atEOF :
  forall p p', atEOF p = Done p' -> keeps P R p -> keeps P R p'.
Proof.
  intros p p' H K. unfold atEOF in H. destruct (state p).
  - now injection H as <-.
  - injection H as <-. now apply keeps_finalizeShedoc.
  - destruct (finalizeCurrentTag p) as [q|] eqn:Hq; [|discriminate].
    simpl in H. injection H as <-.
    apply keeps_finalizeBlock. exact (keeps_finalizeCurrentTag _ _ Hq K).
Qed.

(** Properties that do not depend on the line. *)
Lemma keeps_scan :
  (forall vis extra ln,
      P (Block.new (fst (parseSheblockHeader vis extra))
                   (snd (parseSheblockHeader vis extra)) ln)) ->
  (forall n t ln r, parseTag n t ln = Ok r -> R r) ->
  forall ls p p', scan p ls = Done p' -> keeps P R p -> keeps P R p'.
Proof.
  intros Hnew Hrec. induction ls as [|l ls IH]; intros p p' H K.
  - now injection H as <-.
  - simpl in H. destruct (step p l) as [q|] eqn:Hq; [|discriminate].
    simpl in H. apply (IH q p' H).
    apply (keeps_step p l q); auto. intros n t r _. apply Hrec.
Qed.

Lemma keeps_ParseReader :
  (forall vis extra ln,
      P (Block.new (fst (parseSheblockHeader vis extra))
                   (snd (parseSheblockHeader vis extra)) ln)) ->
  (forall n t ln r, parseTag n t ln = Ok r -> R r) ->
  forall lines, exists d, ParseReader lines = Done (d, None)
                          /\ Forall P (Document.Blocks d).
Proof.
  intros Hnew Hrec lines. unfold ParseReader, parse.
  destruct (scan_total lines newParser Inv_newParser) as [p [Hs Hi]]. rewrite Hs.
  simpl. destruct (atEOF_total p Hi) as [p' Hp']. rewrite Hp'. simpl.
  eexists. split; [reflexivity|].
  assert (K0 : keeps P R newParser).
  { repeat split; simpl; [constructor | discriminate | discriminate]. }
  exact (proj1 (keeps_atEOF _ _ Hp' (keeps_scan Hnew Hrec _ _ _ Hs K0))).
Qed.
End Kept.

(* ================================================================= *)
(** ** What [attach] leaves of a block *)

Lemma attach_header :
  forall n r b,
    Block.Visibility_ (attach n r b) = Block.Visibility_ b
    /\ Block.Name (attach n r b) = Block.Name b
    /\ Block.Description (attach n r b) = Block.Description b
    /\ Block.FunctionName (attach n r b) = Block.FunctionName b
    /\ Block.Line (attach n r b) = Block.Line b.
Proof.
  intros n r b. unfold attach, applyTagToBlock, onBlock. cbn [block].
  split_ifs; destruct r; repeat split; reflexivity.
Qed.

Lemma In_pick_single :
  forall (A : Type) (C : A -> TagResult) name sel n r x,
    (forall v, sel r = Some v -> C v = r) ->
    In x (map C (pick name sel [(n, r)])) -> x = r.
Proof.
  intros A C name sel n r x HC. unfold pick. simpl.
  destruct (n == name); [|intros []].
  destruct (sel r) as [v|]; [|intros []].
  simpl. intros [<-|[]]. now apply HC.
Qed.

Lemma In_collection :
  forall (A : Type) (C : A -> TagResult) name sel n r x (old : list A),
    (forall v, sel r = Some v -> C v = r) ->
    In x (map C (old ++ pick name sel [(n, r)])) -> x = r \/ In x (map C old).
Proof.
  intros A C name sel n r x old HC H. rewrite map_app in H.
  apply in_app_or in H as [H|H]; [now right | left].
  exact (In_pick_single A C name sel n r x HC H).
Qed.

Lemma In_singular :
  forall (A : Type) (C : A -> TagResult) name sel n r x (old : option A),
    (forall v, sel r = Some v -> C v = r) ->
    In x (map C (optList (lastOr (pick name sel [(n, r)]) old))) ->
    x = r \/ In x (map C (optList old)).
Proof.
  intros A C name sel n r x old HC. unfold pick, lastOr. simpl.
  destruct (n == name); [|now right].
  destruct (sel r) as [v|] eqn:Hv; [|now right].
  simpl. intros [<-|[]]. left. now apply HC.
Qed.

(** A block that receives a record holds that record and those it held. *)
Lemma held_attach :
  forall n r b x, In x (held (attach n r b)) -> x = r \/ In x (held b).
Proof.
  intros n r b x. unfold held.
  rewrite attach_Flags, attach_Options, attach_Operands, attach_Env, attach_Reads,
    attach_Stdin, attach_Exit, attach_Stdout, attach_Stderr, attach_Sets,
    attach_Writes, attach_Deprecated.
  rewrite !in_app_iff.
  intros [H|[H|[H|[H|[H|[H|[H|[H|[H|[H|[H|H]]]]]]]]]]];
    first [ apply In_collection in H | apply In_singular in H ];
    try (intros v; destruct r; simpl; congruence);
    destruct H as [H|H]; auto 20.
Qed.

Lemma held_new : forall v n ln, held (Block.new v n ln) = [].
Proof. reflexivity. Qed.

Lemma append_lineOf :
  forall r text, lineOf (appendTagDescription r text) = lineOf r.
Proof. intros r text. now destruct r. Qed.

(* ================================================================= *)
(** ** Only subcommands have a name *)

Lemma parseSheblockHeader_named :
  forall vis extra ln,
    namedOnlyIfSubcommand
      (Block.new (fst (parseSheblockHeader vis extra))
                 (snd (parseSheblockHeader vis extra)) ln).
Proof.
  intros vis extra ln. unfold parseSheblockHeader, namedOnlyIfSubcommand.
  split_ifs; simpl; intro H; congruence.
Qed.

(** X11 (parser.go, parseSheblockHeader, handleTop, finalizeBlock).
    [ParseReader] returns, on every list of lines, a document in which
    every block with a name has the visibility of a subcommand: the text
    after any other keyword of an opener line is dropped. *)
Theorem only_subcommands_are_named :
  forall lines,
  exists d,
    ParseReader lines = Done (d, None)
    /\ Forall namedOnlyIfSubcommand (Document.Blocks d).
Proof.
  apply (keeps_ParseReader namedOnlyIfSubcommand (fun _ => True)).
  - intros x b H. exact H.
  - intros x b H. exact H.
  - intros n r b _ H. unfold namedOnlyIfSubcommand.
    destruct (attach_header n r b) as [-> [-> _]]. exact H.
  - trivial.
  - apply parseSheblockHeader_named.
  - trivial.
Qed.

(* ================================================================= *)
(** ** The records of every document *)

Lemma parseTag_goodRecord :
  forall n t ln r, parseTag n t ln = Ok r -> goodRecord r /\ lineOf r = ln.
Proof.
  intros n t ln r. unfold parseTag.
  assert (Names : forall text,
             TrimSpace text <> [] \/ TrimSpace text = []) .
  { intro text. destruct (TrimSpace text); [now right | left; discriminate]. }
  repeat match goal with
         | |- context [n == ?k] => destruct (n == k)
         end;
    intro H; try discriminate;
    try (injection H as <-; split; [exact I | reflexivity]);
    apply rmap_Ok in H; destruct H as [a [Ha ->]]; simpl.
  - destruct (parseFlag_spellings _ _ _ Ha) as [H1 [H2 [_ H4]]]. repeat split; assumption.
  - destruct (parseOption_spellings _ _ _ Ha) as [H1 [H2 [_ H4]]].
    pose proof (parseOption_value _ _ _ Ha).
    split; [split; [|split]|]; assumption.
  - destruct (parseOperand_value _ _ _ Ha) as [H1 H2]. split; assumption.
  - destruct (Names t) as [Hne|He].
    + destruct (name_parsers_ok t ln Hne) as [name [desc [gap [E [_ [_ [_ [_ [H1 [H2 _]]]]]]]]]].
      rewrite E in Ha. injection Ha as <-. repeat split; assumption.
    + unfold parseEnv in Ha. rewrite He in Ha. discriminate.
  - destruct (Names t) as [Hne|He].
    + destruct (name_parsers_ok t ln Hne) as [name [desc [gap [_ [E [_ [_ [_ [H1 [H2 _]]]]]]]]]].
      rewrite E in Ha. injection Ha as <-. repeat split; assumption.
    + unfold parseReads in Ha. rewrite He in Ha. discriminate.
  - destruct (Names t) as [Hne|He].
    + destruct (name_parsers_ok t ln Hne) as [name [desc [gap [_ [_ [E [_ [_ [H1 [H2 _]]]]]]]]]].
      rewrite E in Ha. injection Ha as <-. repeat split; assumption.
    + unfold parseExit in Ha. rewrite He in Ha. discriminate.
  - destruct (Names t) as [Hne|He].
    + destruct (name_parsers_ok t ln Hne) as [name [desc [gap [_ [_ [_ [E [_ [H1 [H2 _]]]]]]]]]].
      rewrite E in Ha. injection Ha as <-. repeat split; assumption.
    + unfold parseSets in Ha. rewrite He in Ha. discriminate.
  - destruct (Names t) as [Hne|He].
    + destruct (name_parsers_ok t ln Hne) as [name [desc [gap [_ [_ [_ [_ [E [H1 [H2 _]]]]]]]]]].
      rewrite E in Ha. injection Ha as <-. repeat split; assumption.
    + unfold parseWrites in Ha. rewrite He in Ha. discriminate.
Qed.

Lemma goodRecord_append :
  forall r text, goodRecord r -> goodRecord (appendTagDescription r text).
Proof. intros r text. destruct r; simpl; auto. Qed.

Lemma Forall_held_attach :
  forall (R : TagResult -> Prop) n r b,
    R r -> Forall R (held b) -> Forall R (held (attach n r b)).
Proof.
  intros R n r b Hr Hb. apply Forall_forall. intros x Hx.
  destruct (held_attach n r b x Hx) as [->|H]; [exact Hr|].
  rewrite Forall_forall in Hb. now apply Hb.
Qed.

Lemma ParseReader_goodRecords :
  forall lines,
  exists d,
    ParseReader lines = Done (d, None)
    /\ Forall (fun b => Forall goodRecord (held b)) (Document.Blocks d).
Proof.
  apply (keeps_ParseReader (fun b => Forall goodRecord (held b)) goodRecord).
  - intros x b H. exact H.
  - intros x b H. exact H.
  - intros n r b. apply Forall_held_attach.
  - apply goodRecord_append.
  - intros vis extra ln. rewrite held_new. constructor.
  - intros n t ln r H. exact (proj1 (parseTag_goodRecord n t ln r H)).
Qed.

(** X12 (parser.go, the whole loop; tag.go, the tag parsers).
    [ParseReader] returns, on every list of lines, a document in which
    every record of every block is as the tag parsers make it: the
    spellings of a flag or an option are empty or words without blank
    that begin with one dash (short) or two (long), the value of an
    option or an operand is well formed, and the name of an environment
    variable, the path of a file and the exit code are not empty and hold
    no blank.  Continuation lines only touch descriptions. *)
Theorem records_are_well_formed :
  forall lines,
  exists d,
    ParseReader lines = Done (d, None)
    /\ Forall (fun b => Forall goodRecord (held b)) (Document.Blocks d).
Proof.
  apply (keeps_ParseReader (fun b => Forall goodRecord (held b)) goodRecord).
  - intros x b H. exact H.
  - intros x b H. exact H.
  - intros n r b. apply Forall_held_attach.
  - apply goodRecord_append.
  - intros vis extra ln. rewrite held_new. constructor.
  - intros n t ln r H. exact (proj1 (parseTag_goodRecord n t ln r H)).
Qed.

(* ================================================================= *)
(** ** The lines that blocks and records carry *)

Lemma handleTop_line : forall p l, line (handleTop p l) = line p.
Proof.
  intros p l. unfold handleTop.
  destruct (FindStringSubmatch reShebang l); [reflexivity|].
  destruct (FindStringSubmatch reShedocInline l);
    [now rewrite setShedocMeta_shape|].
  destruct (FindStringSubmatch reShedocOpen l); [reflexivity|].
  destruct (FindStringSubmatch reSheblockOpen l).
  - now destruct (parseSheblockHeader _ _).
  - now destruct (negb (isEmpty (matchFuncDecl l))).
Qed.

Lemma finalizeBlock_line : forall p, line (finalizeBlock p) = line p.
Proof. intro p. unfold finalizeBlock. now destruct (block p). Qed.

Lemma finalizeCurrentTag_line :
  forall p q, finalizeCurrentTag p = Done q -> line q = line p.
Proof. intros p q H. now rewrite (finalizeCurrentTag_shape _ _ H). Qed.

(** The handlers never write the line counter. *)
Lemma step_line : forall p l q, step p l = Done q -> line q = int_succ (line p).
Proof.
  intros p l q H. unfold step in H. cbv zeta in H.
  change (int_succ (line p)) with (line (set_line (int_succ (line p)) p)).
  change (state (set_line (int_succ (line p)) p)) with (state p) in H.
  remember (set_line (int_succ (line p)) p) as p0 eqn:Ep0.
  assert (Hst0 : state p0 = state p) by (now subst p0).
  rewrite <- Hst0 in H. clear Ep0 Hst0 p.
  destruct (state p0).
  - injection H as <-. apply handleTop_line.
  - injection H as <-. unfold handleShedoc.
    destruct (MatchString reBlockClose l); [apply finalizeShedoc_line|].
    destruct (FindStringSubmatch reContinuation l); [reflexivity|].
    rewrite handleTop_line. apply finalizeShedoc_line.
  - unfold handleSheblock in H.
    destruct (MatchString reBlockClose l).
    { destruct (finalizeCurrentTag p0) as [q0|] eqn:Hq; [|discriminate].
      simpl in H. injection H as <-. simpl.
      rewrite finalizeBlock_line. exact (finalizeCurrentTag_line _ _ Hq). }
    destruct (FindStringSubmatch reContinuation l) as [m|].
    + destruct (splitTag (sub m 1)) as [[n t]|].
      * destruct (finalizeCurrentTag p0) as [q0|] eqn:Hq; [|discriminate].
        simpl in H. apply finalizeCurrentTag_line in Hq.
        destruct (parseTag n t (line q0)); injection H as <-; exact Hq.
      * destruct (isEmpty (sub m 1)).
        { destruct (negb (isEmpty (currentTag p0))).
          - exact (finalizeCurrentTag_line _ _ H).
          - now injection H as <-. }
        destruct (negb (isEmpty (currentTag p0))); [now injection H as <-|].
        destruct (negb (inTags p0)); now injection H as <-.
    + destruct (finalizeCurrentTag p0) as [q0|] eqn:Hq; [|discriminate].
      simpl in H. injection H as <-. rewrite handleTop_line. simpl.
      rewrite finalizeBlock_line. exact (finalizeCurrentTag_line _ _ Hq).
Qed.

Lemma int_succ_of_nat :
  forall k, (Z.of_nat k < max_int)%Z -> int_succ (Z.of_nat k) = Z.of_nat (S k).
Proof.
  intros k H. unfold int_succ.
  destruct (Z.eqb_spec (Z.of_nat k) max_int) as [E|_]; lia.
Qed.

Lemma nth_error_middle :
  forall (A : Type) (pre : list A) x post, nth_error (pre ++ x :: post) (length pre) = Some x.
Proof. intros A pre x post. induction pre; simpl; auto. Qed.

Section Lines.
Variable lines : list gostring.
Hypothesis lines_fit : (Z.of_nat (length lines) <= max_int)%Z.

Lemma atTagLine_append :
  forall r text, atTagLine lines r -> atTagLine lines (appendTagDescription r text).
Proof.
  intros r text [i [l [t [H1 [H2 H3]]]]]. exists i, l, t.
  rewrite append_lineOf, (proj2 (descOf_append r text)). now repeat split.
Qed.

Lemma placed_attach :
  forall n r b, atTagLine lines r -> placed lines b -> placed lines (attach n r b).
Proof.
  intros n r b Hr [[i [l [H1 [H2 H3]]]] Hb]. split.
  - exists i, l. destruct (attach_header n r b) as [_ [_ [_ [_ ->]]]]. now repeat split.
  - now apply Forall_held_attach.
Qed.

Lemma keeps_scan_lines :
  forall post pre p p',
    lines = pre ++ post ->
    line p = Z.of_nat (length pre) ->
    scan p post = Done p' ->
    keeps (placed lines) (atTagLine lines) p -> keeps (placed lines) (atTagLine lines) p'.
Proof.
  induction post as [|l post IH]; intros pre p p' Hl Hln Hs K.
  - now injection Hs as <-.
  - simpl in Hs. destruct (step p l) as [q|] eqn:Hq; [|discriminate].
    simpl in Hs.
    assert (Hfit : (Z.of_nat (length pre) < max_int)%Z).
    { rewrite Hl, length_app in lines_fit. simpl in lines_fit. lia. }
    assert (Hln' : int_succ (line p) = Z.of_nat (S (length pre))).
    { rewrite Hln. now apply int_succ_of_nat. }
    assert (Hnth : nth_error lines (length pre) = Some l).
    { rewrite Hl. apply nth_error_middle. }
    apply (IH (pre ++ [l]) q p').
    + rewrite Hl, <- app_assoc. reflexivity.
    + rewrite (step_line _ _ _ Hq), Hln', length_app. simpl.
      f_equal. lia.
    + exact Hs.
    + apply (keeps_step (placed lines) (atTagLine lines)) with (p := p) (l := l); try assumption.
      * intros x b H. exact H.
      * intros x b H. exact H.
      * exact placed_attach.
      * exact atTagLine_append.
      * intros Hm vis extra. split; [|rewrite held_new; constructor].
        exists (length pre), l. repeat split; [exact Hnth | exact Hln' | exact Hm].
      * intros n t r Ht Hr. exists (length pre), l, t.
        destruct (parseTag_goodRecord n t _ r Hr) as [_ Hline].
        rewrite (parseTag_kindOf _ _ _ _ Hr), Hline.
        repeat split; [exact Hnth | exact Hln' | exact Ht].
Qed.

End Lines.

(** X13 (parser.go, parse, handleTop, handleSheblock; tag.go, parseTag).
    For an input of fewer than 2^63 lines, every block of the document
    carries the number (from 1) of a line of the input that matches the
    opener pattern, and every record of every block carries the number of
    a tag line of the input whose tag name is the one of the kind of the
    record. *)
Theorem blocks_and_records_carry_their_lines :
  forall lines,
    (Z.of_nat (length lines) <= max_int)%Z ->
    exists d,
      ParseReader lines = Done (d, None)
      /\ Forall (placed lines) (Document.Blocks d).
Proof.
  intros lines Hfit. unfold ParseReader, parse.
  destruct (scan_total lines newParser Inv_newParser) as [p [Hs Hi]]. rewrite Hs.
  simpl. destruct (atEOF_total p Hi) as [p' Hp']. rewrite Hp'. simpl.
  eexists. split; [reflexivity|].
  assert (K0 : keeps (placed lines) (atTagLine lines) newParser).
  { split; [constructor | split; discriminate]. }
  pose proof (keeps_scan_lines lines Hfit lines [] newParser p eq_refl eq_refl Hs K0) as K.
  assert (K' : keeps (placed lines) (atTagLine lines) p').
  { apply (keeps_atEOF (placed lines) (atTagLine lines)) with (p := p);
      first [ exact (placed_attach lines) | exact (atTagLine_append lines)
            | exact Hp' | exact K | intros x b H; exact H ]. }
  exact (proj1 K').
Qed.

Lemma blocks_and_records_carry_their_lines_witness :
  exists d,
    ParseReader (script ["#!/bin/sh"; "#@/command"; " # @exit 0 Fine"; " ##"]%string)
    = Done (d, None)
    /\ Forall (placed (script ["#!/bin/sh"; "#@/command"; " # @exit 0 Fine"; " ##"]%string))
              (Document.Blocks d).
Proof.
  apply blocks_and_records_carry_their_lines.
  simpl. unfold max_int. lia.
Defined.

(* ================================================================= *)
(** ** Function declarations *)

Lemma rep_inv :
  forall (A : Type) (cls : ascii -> bool) (k : gostring -> option A) s m a,
    rep cls m s k = Some a ->
    exists r rest,
      s = r ++ rest /\ forallb cls r = true /\ m <= length r /\ k rest = Some a.
Proof.
  intros A cls k. induction s as [|c s IH]; intros m a H; simpl in H.
  - destruct m; [|discriminate]. exists [], []. now repeat split.
  - assert (Stop : match m with 0 => k (c :: s) | S _ => None end = Some a ->
                   exists r rest,
                     c :: s = r ++ rest /\ forallb cls r = true
                     /\ m <= length r /\ k rest = Some a).
    { destruct m; [|discriminate]. intro E. exists [], (c :: s). now repeat split. }
    destruct (cls c) eqn:Hc; [|now apply Stop].
    destruct (rep cls (pred m) s k) as [a'|] eqn:E; [|now apply Stop].
    injection H as <-. destruct (IH _ _ E) as [r [rest [-> [Hr [Hm Hk]]]]].
    exists (c :: r), rest. repeat split; [simpl; now rewrite Hc, Hr | simpl; lia | exact Hk].
Qed.

Lemma keyword_inv :
  forall l m,
    FindStringSubmatch reFuncKeyword l = Some m ->
    exists ws1 ws2 name rest,
      l = ws1 ++ lit "function" ++ ws2 ++ name ++ rest
      /\ forallb cls_s ws1 = true /\ forallb cls_s ws2 = true /\ ws2 <> []
      /\ identifier name = true /\ m = [name].
Proof.
  intros l m H. unfold FindStringSubmatch, reFuncKeyword in H. cbn [run] in H.
  apply rep_inv in H. destruct H as [ws1 [s1 [-> [Hw1 [_ H]]]]].
  destruct (dropPrefix (lit "function") s1) as [s2|] eqn:Ed; [|discriminate].
  apply dropPrefix_inv in Ed. subst s1.
  apply rep_inv in H. destruct H as [ws2 [s3 [-> [Hw2 [Hlen H]]]]].
  destruct s3 as [|c s4]; [discriminate|].
  destruct (cls_w c) eqn:Hc; [|discriminate].
  apply rep_inv in H. destruct H as [w [s5 [-> [Hw [_ H]]]]].
  injection H as <-.
  exists ws1, ws2, (c :: w), s5.
  split; [reflexivity|]. split; [exact Hw1|]. split; [exact Hw2|].
  split; [|split].
  - intros ->. simpl in Hlen. lia.
  - simpl. now rewrite Hc, Hw.
  - cbn [app]. f_equal. exact (firstn_minus_app (c :: w) s5).
Qed.

Lemma paren_inv :
  forall l m,
    FindStringSubmatch reFuncParen l = Some m ->
    exists ws1 ws2 name rest,
      l = ws1 ++ name ++ ws2 ++ lit "()" ++ rest
      /\ forallb cls_s ws1 = true /\ forallb cls_s ws2 = true
      /\ identifier name = true /\ m = [name].
Proof.
  intros l m H. unfold FindStringSubmatch, reFuncParen in H. cbn [run] in H.
  apply rep_inv in H. destruct H as [ws1 [s1 [-> [Hw1 [_ H]]]]].
  destruct s1 as [|c s2]; [discriminate|].
  destruct (cls_w c) eqn:Hc; [|discriminate].
  apply rep_inv in H. destruct H as [w [s3 [-> [Hw [_ H]]]]].
  apply rep_inv in H. destruct H as [ws2 [s4 [-> [Hw2 [_ H]]]]].
  destruct (dropPrefix (lit "()") s4) as [s5|] eqn:Ed; [|discriminate].
  apply dropPrefix_inv in Ed. subst s4.
  apply rep_inv in H. destruct H as [ws3 [s6 [-> [_ [_ H]]]]].
  assert (E : m = [] ++ [firstn (length (c :: w ++ ws2 ++ lit "()" ++ ws3 ++ s6)
                                 - length (ws2 ++ lit "()" ++ ws3 ++ s6))
                                (c :: w ++ ws2 ++ lit "()" ++ ws3 ++ s6)]).
  { destruct s6 as [|c' s']; [now injection H as <-|].
    destruct (Ascii.eqb "{" c'); now injection H as <-. }
  exists ws1, ws2, (c :: w), (ws3 ++ s6).
  split; [reflexivity|]. split; [exact Hw1|]. split; [exact Hw2|]. split.
  - simpl. now rewrite Hc, Hw.
  - rewrite E. cbn [app]. f_equal.
    exact (firstn_minus_app (c :: w) (ws2 ++ lit "()" ++ ws3 ++ s6)).
Qed.

(** X14 (parser.go, matchFuncDecl).  What [matchFuncDecl] returns, when it
    is not empty, is a word character followed by word characters and
    dashes, and it stands in the line either after white space, the word
    [function] and more white space, or after white space and before
    white space and a pair of parentheses. *)
Theorem matchFuncDecl_sound :
  forall l,
    matchFuncDecl l <> [] ->
    identifier (matchFuncDecl l) = true
    /\ exists ws1 ws2 rest,
        forallb cls_s ws1 = true /\ forallb cls_s ws2 = true
        /\ ((ws2 <> [] /\ l = ws1 ++ lit "function" ++ ws2 ++ matchFuncDecl l ++ rest)
            \/ l = ws1 ++ matchFuncDecl l ++ ws2 ++ lit "()" ++ rest).
Proof.
  intros l. unfold matchFuncDecl.
  destruct (FindStringSubmatch reFuncKeyword l) as [m|] eqn:Ek.
  - destruct (keyword_inv l m Ek) as [ws1 [ws2 [name [rest [Hl [H1 [H2 [H3 [H4 ->]]]]]]]]].
    intros _. change (sub [name] 1) with name. split; [exact H4|].
    exists ws1, ws2, rest. repeat split; try assumption. left. now split.
  - destruct (FindStringSubmatch reFuncParen l) as [m|] eqn:Ep; [|congruence].
    destruct (paren_inv l m Ep) as [ws1 [ws2 [name [rest [Hl [H1 [H2 [H4 ->]]]]]]]].
    intros _. change (sub [name] 1) with name. split; [exact H4|].
    exists ws1, ws2, rest. repeat split; try assumption. now right.
Qed.

Lemma matchFuncDecl_sound_witness :
  matchFuncDecl (lit "  function deploy-all {") <> []
  /\ identifier (matchFuncDecl (lit "  function deploy-all {")) = true.
Proof.
  assert (H : matchFuncDecl (lit "  function deploy-all {") <> [])
    by (vm_compute; discriminate).
  split; [exact H|].
  exact (proj1 (matchFuncDecl_sound _ H)).
Defined.

(* ================================================================= *)
(** ** A function declaration right after an open block *)

Lemma matchFuncDecl_continuation_prefix :
  forall l, matchFuncDecl (" "%char :: "#"%char :: l) = [].
Proof. reflexivity. Qed.

Lemma funcDecl_no_prefix :
  forall l, matchFuncDecl l <> [] -> dropPrefix (lit " #") l = None.
Proof.
  intros [|c1 [|c2 l]] H.
  - now elim H.
  - cbn [dropPrefix lit list_ascii_of_string]. now destruct (Ascii.eqb " " c1).
  - cbn [dropPrefix lit list_ascii_of_string].
    destruct (Ascii.eqb_spec " "%char c1) as [<-|]; [|reflexivity].
    destruct (Ascii.eqb_spec "#"%char c2) as [<-|]; [|reflexivity].
    now rewrite matchFuncDecl_continuation_prefix in H.
Qed.

Lemma funcDecl_interrupts :
  forall l,
    matchFuncDecl l <> [] ->
    MatchString reBlockClose l = false
    /\ FindStringSubmatch reContinuation l = None.
Proof.
  intros l H. pose proof (funcDecl_no_prefix l H) as Hd.
  unfold MatchString, FindStringSubmatch, reBlockClose, reContinuation.
  cbn [run].
  change (dropPrefix (lit " ##") l)
    with (match l with
          | c :: s => if Ascii.eqb " " c
                      then match s with
                           | c2 :: s2 => if Ascii.eqb "#" c2
                                         then dropPrefix (lit "#") s2 else None
                           | [] => None
                           end
                      else None
          | [] => None
          end).
  rewrite Hd. split; [|reflexivity].
  destruct l as [|c1 [|c2 l]]; try reflexivity.
  - now destruct (Ascii.eqb " " c1).
  - cbn [dropPrefix lit list_ascii_of_string] in Hd.
    destruct (Ascii.eqb " " c1); [|reflexivity].
    destruct (Ascii.eqb "#" c2); [discriminate | reflexivity].
Qed.

(** X15 (parser.go, handleSheblock, handleTop, finalizeBlock).  A function
    declaration read inside a documentation block, which no close marker
    has ended, ends the block and is bound to that very block: the block
    is appended with its description and pending tag and with the
    function name, and the parser is back at the top level. *)
Theorem declaration_ends_open_block :
  forall p b l,
    state p = stateSheblock ->
    pendingBlock p = Some b ->
    matchFuncDecl l <> [] ->
    exists p',
      step p l = Done p'
      /\ state p' = stateTop /\ block p' = None
      /\ doc p'
         = Document.set_Blocks
             (Document.Blocks (doc p)
                ++ [bindFunc (matchFuncDecl l) (finished (blockDesc p) b)])
             (doc p).
Proof.
  intros p b l Hst Hp Hf.
  destruct (funcDecl_interrupts l Hf) as [Hc Hn].
  unfold step. change (state (set_line _ p)) with (state p). rewrite Hst.
  unfold handleSheblock. rewrite Hc, Hn.
  rewrite finalizeCurrentTag_set_line, (pendingBlock_finalize _ _ Hp). simpl bind.
  rewrite (handleTop_decl _ l Hf).
  eexists. split; [reflexivity|]. split; [reflexivity|]. split; [reflexivity|].
  cbn [doc set_doc set_state]. unfold finalizeBlock.
  cbn [block clearCurrentTag set_block set_line set_tagContLines set_currentResult
       set_currentTag doc blockDesc set_doc Document.Blocks Document.set_Blocks].
  rewrite updLast_snoc. reflexivity.
Qed.

Lemma declaration_ends_open_block_witness :
  exists p',
    step (reach (script ["#@/subcommand push"; " # Pushes."]%string)) (lit "cmd_push() {")
    = Done p'
    /\ Document.Blocks (doc p')
       = [Block.set_FunctionName (lit "cmd_push")
            (Block.set_Description (lit "Pushes.")
               (Block.new VisibilitySubcommand (lit "push") 1))].
Proof.
  pose (p := reach (script ["#@/subcommand push"; " # Pushes."]%string)).
  assert (Hst : state p = stateSheblock) by (vm_compute; reflexivity).
  assert (Hp : pendingBlock p = Some (Block.new VisibilitySubcommand (lit "push") 1))
    by (vm_compute; reflexivity).
  assert (Hf : matchFuncDecl (lit "cmd_push() {") <> []) by (vm_compute; discriminate).
  destruct (declaration_ends_open_block p _ _ Hst Hp Hf) as [p' [Hs [_ [_ Hd]]]].
  exists p'. split; [exact Hs|]. rewrite Hd. vm_compute. reflexivity.
Defined.

(* ================================================================= *)
(** ** Tag lines: the name and the text *)

(** X16 (parser.go, splitTag).  A content is a tag exactly when, once
    trimmed, it begins with [@].  Then the trimmed content is the [@], the
    name, a gap of white space and the text: the name holds no blank and no
    tab (it may be empty), the text has no white space around it, and it
    is empty when there is no gap. *)
Theorem splitTag_decomposition :
  forall content,
    (HasPrefix (TrimSpace content) (lit "@") = false -> splitTag content = None)
    /\ (HasPrefix (TrimSpace content) (lit "@") = true ->
        exists name text gap,
          splitTag content = Some (name, text)
          /\ noBlank name = true
          /\ TrimSpace text = text
          /\ TrimSpace content = "@"%char :: name ++ gap ++ text
          /\ TrimSpace gap = []
          /\ (gap = [] -> text = [])).
Proof.
  intro content. unfold splitTag. split; intro H; rewrite H; [reflexivity|].
  cbn [negb].
  destruct (TrimSpace_spec content) as [_ [HR _]].
  destruct (HasPrefix_inv _ _ H) as [rest Hrest].
  change (lit "@" ++ rest) with ("@"%char :: rest) in Hrest.
  rewrite Hrest in HR |- *. cbn [skipn].
  destruct (cut isBlankTab rest) as [[a b]|] eqn:Hc.
  - destruct (cut_inv _ _ _ _ Hc) as [c [Hcb [Ht Ha]]].
    assert (Hb : stopR (rev b) = true).
    { apply (stopR_prefix _ (c :: rev a ++ ["@"%char])).
      replace (rev b ++ c :: rev a ++ ["@"%char]) with (rev ("@"%char :: rest));
        [exact HR|].
      rewrite Ht. simpl. rewrite rev_app_distr. simpl.
      now rewrite <- !app_assoc. }
    destruct (TrimSpace_front b Hb) as [pre [Hpre Hws]].
    exists a, (TrimSpace b), (c :: pre).
    split; [reflexivity|]. split; [exact Ha|].
    split; [apply TrimSpace_idempotent|]. split; [|split].
    + rewrite Ht. simpl. now rewrite <- Hpre.
    + now rewrite (TrimSpace_blank_front c pre Hcb).
    + discriminate.
  - exists rest, [], []. rewrite app_nil_r.
    split; [reflexivity|]. split; [now apply cut_None_inv|]. now repeat split.
Qed.

Lemma splitTag_decomposition_witness :
  exists name text gap,
    splitTag (lit "  @exit   2 Usage error ") = Some (name, text)
    /\ TrimSpace (lit "  @exit   2 Usage error ") = "@"%char :: name ++ gap ++ text.
Proof.
  assert (H : HasPrefix (TrimSpace (lit "  @exit   2 Usage error ")) (lit "@") = true)
    by (vm_compute; reflexivity).
  destruct (proj2 (splitTag_decomposition _) H)
    as [name [text [gap [H1 [_ [_ [H4 _]]]]]]].
  exists name, text, gap. now split.
Defined.

(* ================================================================= *)
(** ** Completion words *)

Lemma fold_spellings :
  forall (A : Type) (short long : A -> gostring) (l : list A) (acc : list gostring),
    fold_left
      (fun flags f =>
         let flags := if negb (isEmpty (short f)) then flags ++ [short f] else flags in
         if negb (isEmpty (long f)) then flags ++ [long f] else flags)
      l acc
    = acc ++ flat_map (fun f => (if negb (isEmpty (short f)) then [short f] else [])
                                ++ (if negb (isEmpty (long f)) then [long f] else [])) l.
Proof.
  intros A short long. induction l as [|f l IH]; intro acc; simpl.
  - now rewrite app_nil_r.
  - rewrite IH. cbv zeta.
    destruct (negb (isEmpty (short f))), (negb (isEmpty (long f))); simpl;
      now rewrite <- ?app_assoc.
Qed.

Lemma In_spellings :
  forall (A : Type) (short long : A -> gostring) (l : list A) w,
    In w (flat_map (fun f => (if negb (isEmpty (short f)) then [short f] else [])
                             ++ (if negb (isEmpty (long f)) then [long f] else [])) l)
    <-> w <> [] /\ exists f, In f l /\ (w = short f \/ w = long f).
Proof.
  intros A short long l w. rewrite in_flat_map. split.
  - intros [f [Hf Hw]]. apply in_app_or in Hw.
    destruct Hw as [Hw|Hw].
    + destruct (isEmpty (short f)) eqn:E; [destruct Hw|].
      destruct Hw as [<-|[]]. split; [now apply isEmpty_false|]. exists f. auto.
    + destruct (isEmpty (long f)) eqn:E; [destruct Hw|].
      destruct Hw as [<-|[]]. split; [now apply isEmpty_false|]. exists f. auto.
  - intros [Hne [f [Hf [->| ->]]]]; exists f; (split; [exact Hf|]);
      apply isEmpty_false in Hne; rewrite Hne; simpl; auto.
    apply in_or_app. right. now left.
Qed.

Lemma collectFlags_In :
  forall b w,
    In w (collectFlags b)
    <-> w <> []
        /\ ((exists f, In f (Block.Flags b) /\ (w = Flag.Short f \/ w = Flag.Long f))
            \/ (exists o, In o (Block.Options b)
                          /\ (w = Option.Short o \/ w = Option.Long o))).
Proof.
  intros b w. unfold collectFlags. cbv zeta.
  pose proof (fold_spellings _ Flag.Short Flag.Long (Block.Flags b) []) as HF.
  pose proof (fold_spellings _ Option.Short Option.Long (Block.Options b)) as HO.
  cbv zeta in HF, HO. rewrite HF, HO. clear HF HO.
  cbn [app]. rewrite in_app_iff, !In_spellings. tauto.
Qed.

(** X17 (internal/generate/completions_bash.go, collectFlags).  The
    completion words of a block are exactly the spellings of its flags and
    of its options that are not empty: no empty word is ever offered, and
    the words of the flags come before those of the options. *)
Theorem collectFlags_words :
  forall b,
    (forall w,
        In w (collectFlags b)
        <-> w <> []
            /\ ((exists f, In f (Block.Flags b) /\ (w = Flag.Short f \/ w = Flag.Long f))
                \/ (exists o, In o (Block.Options b)
                              /\ (w = Option.Short o \/ w = Option.Long o))))
    /\ exists fs os,
        collectFlags b = fs ++ os
        /\ (forall w, In w fs ->
                      exists f, In f (Block.Flags b) /\ (w = Flag.Short f \/ w = Flag.Long f))
        /\ (forall w, In w os ->
                      exists o, In o (Block.Options b)
                                /\ (w = Option.Short o \/ w = Option.Long o)).
Proof.
  intro b. unfold collectFlags. cbv zeta.
  pose proof (fold_spellings _ Flag.Short Flag.Long (Block.Flags b) []) as HF.
  pose proof (fold_spellings _ Option.Short Option.Long (Block.Options b)) as HO.
  cbv zeta in HF, HO. rewrite HF, HO. clear HF HO.
  cbn [app]. split.
  - intro w. rewrite in_app_iff, !In_spellings. tauto.
  - eexists. eexists. split; [reflexivity|].
    split; intros w Hw; apply In_spellings in Hw; tauto.
Qed.

(* ================================================================= *)
(** ** Escaping for troff and for fish *)

Lemma replaceByte_app :
  forall old new a b,
    replaceByte old new (a ++ b) = replaceByte old new a ++ replaceByte old new b.
Proof. intros. unfold replaceByte. apply flat_map_app. Qed.

Lemma troffEscape_cons :
  forall c s,
    troffEscape (c :: s)
    = (if Ascii.eqb c "\" then ["\"%char; "\"%char]
       else if Ascii.eqb c "-" then ["\"%char; "-"%char] else [c])
        ++ troffEscape s.
Proof.
  intros c s. unfold troffEscape. cbv zeta.
  change (replaceByte "\" (lit "\\") (c :: s))
    with ((if Ascii.eqb c "\" then lit "\\" else [c]) ++ replaceByte "\" (lit "\\") s).
  rewrite replaceByte_app. f_equal.
  destruct (Ascii.eqb c "\"); [reflexivity|].
  unfold replaceByte. cbn [flat_map]. now rewrite app_nil_r.
Qed.

Lemma troffEscape_app :
  forall a b, troffEscape (a ++ b) = troffEscape a ++ troffEscape b.
Proof.
  intros a b. unfold troffEscape. cbv zeta. now rewrite !replaceByte_app.
Qed.

Lemma troffDecode_escape : forall s, troffDecode (troffEscape s) = s.
Proof.
  induction s as [|c s IH]; [reflexivity|].
  rewrite troffEscape_cons.
  destruct (Ascii.eqb_spec c "\"%char) as [->|Hb].
  - cbn [app troffDecode]. change (Ascii.eqb "\" "\") with true. cbv iota.
    now rewrite IH.
  - destruct (Ascii.eqb_spec c "-"%char) as [->|Hd].
    + cbn [app troffDecode]. change (Ascii.eqb "\" "\") with true. cbv iota.
      now rewrite IH.
    + cbn [app troffDecode].
      apply Ascii.eqb_neq in Hb. rewrite Hb. now rewrite IH.
Qed.

Lemma escaped_troffEscape : forall s, escaped (troffEscape s) = true.
Proof.
  induction s as [|c s IH]; [reflexivity|].
  rewrite troffEscape_cons.
  destruct (Ascii.eqb_spec c "\"%char) as [->|Hb].
  - cbn [app escaped]. change (Ascii.eqb "\" "\") with true. exact IH.
  - destruct (Ascii.eqb_spec c "-"%char) as [->|Hd].
    + cbn [app escaped]. change (Ascii.eqb "\" "\") with true. exact IH.
    + cbn [app escaped]. apply Ascii.eqb_neq in Hb, Hd. now rewrite Hb, Hd.
Qed.

(** X18 (internal/generate/manpage.go, troffEscape; escapeManPage of the
    documentation generator is the same function).  [troffEscape] works
    byte by byte (the escaping of a concatenation is the concatenation of
    the escapings), loses nothing (two texts with the same escaping are
    the same text), and in what it returns, read from the left with a
    backslash taking the next byte, no dash stands alone and no backslash
    is last. *)
Theorem troffEscape_faithful :
  (forall a b, troffEscape (a ++ b) = troffEscape a ++ troffEscape b)
  /\ (forall a b, troffEscape a = troffEscape b -> a = b)
  /\ (forall s, escaped (troffEscape s) = true).
Proof.
  split; [exact troffEscape_app|]. split; [|exact escaped_troffEscape].
  intros a b H. rewrite <- (troffDecode_escape a), H. apply troffDecode_escape.
Qed.

Lemma fishEscape_fold :
  forall s acc,
    fold_left
      (fun result c =>
         if Ascii.eqb c "'" then result ++ ["\"%char; "'"%char] else result ++ [c])
      s acc
    = acc ++ flat_map (fun c => if Ascii.eqb c "'" then ["\"%char; "'"%char] else [c]) s.
Proof.
  induction s as [|c s IH]; intro acc; cbn [fold_left flat_map].
  - now rewrite app_nil_r.
  - rewrite IH. destruct (Ascii.eqb c "'"); now rewrite <- app_assoc.
Qed.

Lemma fishEscape_cons :
  forall c s,
    fishEscape (c :: s)
    = (if Ascii.eqb c "'" then ["\"%char; "'"%char] else [c]) ++ fishEscape s.
Proof.
  intros c s. unfold fishEscape. rewrite !fishEscape_fold. reflexivity.
Qed.

Lemma fishEscape_app :
  forall a b, fishEscape (a ++ b) = fishEscape a ++ fishEscape b.
Proof.
  intros a b. unfold fishEscape. rewrite !fishEscape_fold. cbn [app].
  apply flat_map_app.
Qed.

Lemma fishEscape_hd :
  forall s, match fishEscape s with
            | c :: _ => Ascii.eqb c "'" = false
            | [] => True
            end.
Proof.
  intros [|c s]; [exact I|]. rewrite fishEscape_cons.
  destruct (Ascii.eqb c "'") eqn:E; [reflexivity | exact E].
Qed.

Lemma fishDecode_escape : forall s, fishDecode (fishEscape s) = s.
Proof.
  induction s as [|c s IH]; [reflexivity|].
  rewrite fishEscape_cons.
  destruct (Ascii.eqb_spec c "'"%char) as [->|Hq].
  - cbn [app fishDecode]. change (Ascii.eqb "\" "\") with true.
    change (Ascii.eqb "'" "'") with true. cbv iota. now rewrite IH.
  - cbn [app fishDecode].
    destruct (Ascii.eqb c "\"); [|now rewrite IH].
    pose proof (fishEscape_hd s) as Hh. revert IH.
    destruct (fishEscape s) as [|d r]; intro IH.
    + simpl in IH. now subst s.
    + rewrite Hh. now rewrite IH.
Qed.

Lemma quotesEscaped_fishEscape :
  forall s prev, quotesEscaped prev (fishEscape s) = true.
Proof.
  induction s as [|c s IH]; intro prev; [reflexivity|].
  rewrite fishEscape_cons.
  destruct (Ascii.eqb_spec c "'"%char) as [->|Hq].
  - cbn [app quotesEscaped]. change (Ascii.eqb "\" "'") with false.
    change (Ascii.eqb "'" "'") with true. change (Ascii.eqb "\" "\") with true.
    cbv iota. cbn [andb]. apply IH.
  - cbn [app quotesEscaped]. apply Ascii.eqb_neq in Hq. rewrite Hq. apply IH.
Qed.

(** X19 (internal/generate/completions_fish.go, fishEscape).
    [fishEscape] works byte by byte, loses nothing (two texts with the
    same escaping are the same text), and in what it returns every single
    quote follows a backslash. *)
Theorem fishEscape_faithful :
  (forall a b, fishEscape (a ++ b) = fishEscape a ++ fishEscape b)
  /\ (forall a b, fishEscape a = fishEscape b -> a = b)
  /\ (forall s, quotesEscaped false (fishEscape s) = true).
Proof.
  split; [exact fishEscape_app|]. split.
  - intros a b H. rewrite <- (fishDecode_escape a), H. apply fishDecode_escape.
  - intro s. apply quotesEscaped_fishEscape.
Qed.

(* ================================================================= *)
(** ** The first line of a description *)

Lemma isNewline_eq : forall c, isNewline c = true -> c = "010"%char.
Proof.
  intros c H. unfold isNewline, code in H. apply Nat.eqb_eq in H.
  rewrite <- (ascii_nat_embedding c), H. reflexivity.
Qed.

(** X20 (internal/generate/helptext.go, firstLine).  [firstLine] returns
    the text before the first newline: what it returns holds no newline,
    and the text is either that alone or that, a newline and a rest. *)
Theorem firstLine_is_the_first_line :
  forall s,
    forallb (fun c => negb (isNewline c)) (firstLine s) = true
    /\ (s = firstLine s \/ exists rest, s = firstLine s ++ nl ++ rest).
Proof.
  intro s. unfold firstLine.
  destruct (cut isNewline s) as [[a b]|] eqn:Hc.
  - destruct (cut_inv _ _ _ _ Hc) as [c [Hn [-> Ha]]].
    apply isNewline_eq in Hn. subst c.
    split; [exact Ha|]. right. now exists b.
  - split; [now apply cut_None_inv | now left].
Qed.

(* ================================================================= *)
(** ** From the parser to the completion words *)

Lemma shortOK_dash : forall s, shortOK s -> s <> [] -> HasPrefix s (lit "-") = true.
Proof.
  intros s [->|[H _]] Hne; [congruence|].
  unfold shortSpelling in H. now apply andb_true_iff in H as [H _].
Qed.

Lemma longOK_dash : forall s, longOK s -> s <> [] -> HasPrefix s (lit "-") = true.
Proof.
  intros s [->|[H _]] Hne; [congruence|]. now apply HasPrefix_dashdash.
Qed.

Lemma held_Flags : forall b f, In f (Block.Flags b) -> In (RFlag f) (held b).
Proof. intros b f H. unfold held. apply in_or_app. left. now apply in_map. Qed.

Lemma held_Options : forall b o, In o (Block.Options b) -> In (ROption o) (held b).
Proof.
  intros b o H. unfold held. apply in_or_app. right. apply in_or_app. left.
  now apply in_map.
Qed.

(** X21 (parser.go, ParseReader; tag.go, consumeFlags;
    internal/generate/completions_bash.go, collectFlags).  Whatever the
    input, every completion word of every block of the document that
    [ParseReader] returns begins with a dash. *)
Theorem completion_words_begin_with_a_dash :
  forall lines,
  exists d,
    ParseReader lines = Done (d, None)
    /\ forall b w,
        In b (Document.Blocks d) -> In w (collectFlags b) ->
        HasPrefix w (lit "-") = true.
Proof.
  intro lines. destruct (ParseReader_goodRecords lines) as [d [Hd Hall]].
  exists d. split; [exact Hd|]. intros b w Hb Hw.
  rewrite Forall_forall in Hall. specialize (Hall b Hb).
  rewrite Forall_forall in Hall.
  apply collectFlags_In in Hw. destruct Hw as [Hne [[f [Hf Hw]]|[o [Ho Hw]]]].
  - destruct (Hall _ (held_Flags b f Hf)) as [Hs Hl].
    destruct Hw as [->| ->]; [now apply shortOK_dash | now apply longOK_dash].
  - destruct (Hall _ (held_Options b o Ho)) as [Hs [Hl _]].
    destruct Hw as [->| ->]; [now apply shortOK_dash | now apply longOK_dash].
Qed.

(* ================================================================= *)
(** ** The lines that warnings carry *)

Lemma setShedocMeta_Warnings :
  forall tag value p,
    Document.Warnings (doc (setShedocMeta tag value p)) = Document.Warnings (doc p)
    \/ exists e,
        Document.Warnings (doc (setShedocMeta tag value p))
        = Document.Warnings (doc p) ++ [Warning.mk (line p) e].
Proof.
  intros tag value p. unfold setShedocMeta.
  split_ifs; try (left; reflexivity). right. eexists. reflexivity.
Qed.

Lemma finalizeShedoc_Warnings :
  forall p,
    Document.Warnings (doc (finalizeShedoc p)) = Document.Warnings (doc p)
    \/ exists e,
        Document.Warnings (doc (finalizeShedoc p))
        = Document.Warnings (doc p) ++ [Warning.mk (line p) e].
Proof.
  intro p. unfold finalizeShedoc.
  destruct (negb (isEmpty (shedocTag p))); [|now left].
  apply setShedocMeta_Warnings.
Qed.

Lemma finalizeBlock_Warnings :
  forall p, Document.Warnings (doc (finalizeBlock p)) = Document.Warnings (doc p).
Proof. intro p. unfold finalizeBlock. now destruct (block p). Qed.

Lemma handleTop_Warnings :
  forall p l,
    Document.Warnings (doc (handleTop p l)) = Document.Warnings (doc p)
    \/ exists e,
        Document.Warnings (doc (handleTop p l))
        = Document.Warnings (doc p) ++ [Warning.mk (line p) e].
Proof.
  intros p l. unfold handleTop.
  destruct (FindStringSubmatch reShebang l); [now left|].
  destruct (FindStringSubmatch reShedocInline l); [apply setShedocMeta_Warnings|].
  destruct (FindStringSubmatch reShedocOpen l); [now left|].
  destruct (FindStringSubmatch reSheblockOpen l).
  - destruct (parseSheblockHeader _ _). now left.
  - destruct (negb (isEmpty (matchFuncDecl l))); now left.
Qed.

Lemma warnsAt_refl : forall ln old, warnsAt ln old old.
Proof. intros. exists []. split; [now rewrite app_nil_r | constructor]. Qed.

Lemma warnsAt_trans :
  forall ln a b c, warnsAt ln a b -> warnsAt ln b c -> warnsAt ln a c.
Proof.
  intros ln a b c [e1 [-> H1]] [e2 [-> H2]]. exists (e1 ++ e2).
  split; [now rewrite app_assoc | now apply Forall_app].
Qed.

Lemma warnsAt_cases :
  forall ln old new,
    (new = old \/ exists e, new = old ++ [Warning.mk ln e]) -> warnsAt ln old new.
Proof.
  intros ln old new [->|[e ->]]; [apply warnsAt_refl|].
  exists [Warning.mk ln e]. split; [reflexivity|]. now repeat constructor.
Qed.

Lemma step_Warnings :
  forall p l q,
    step p l = Done q ->
    warnsAt (int_succ (line p)) (Document.Warnings (doc p)) (Document.Warnings (doc q)).
Proof.
  intros p l q H. unfold step in H. cbv zeta in H.
  change (int_succ (line p)) with (line (set_line (int_succ (line p)) p)).
  change (Document.Warnings (doc p))
    with (Document.Warnings (doc (set_line (int_succ (line p)) p))).
  change (state (set_line (int_succ (line p)) p)) with (state p) in H.
  remember (set_line (int_succ (line p)) p) as p0 eqn:Ep0.
  assert (Hst0 : state p0 = state p) by (now subst p0).
  rewrite <- Hst0 in H. clear Ep0 Hst0 p.
  assert (Top : forall q0,
             line q0 = line p0 ->
             warnsAt (line p0) (Document.Warnings (doc p0)) (Document.Warnings (doc q0)) ->
             warnsAt (line p0) (Document.Warnings (doc p0))
                     (Document.Warnings (doc (handleTop q0 l)))).
  { intros q0 Hl Hw. apply (warnsAt_trans _ _ _ _ Hw).
    apply warnsAt_cases. rewrite <- Hl. apply handleTop_Warnings. }
  destruct (state p0).
  - injection H as <-. apply Top; [reflexivity | apply warnsAt_refl].
  - injection H as <-. unfold handleShedoc.
    destruct (MatchString reBlockClose l).
    { apply warnsAt_cases. apply finalizeShedoc_Warnings. }
    destruct (FindStringSubmatch reContinuation l); [apply warnsAt_refl|].
    apply Top; [apply finalizeShedoc_line|].
    apply warnsAt_cases. apply finalizeShedoc_Warnings.
  - unfold handleSheblock in H.
    destruct (MatchString reBlockClose l).
    { destruct (finalizeCurrentTag p0) as [q0|] eqn:Hq; [|discriminate].
      simpl in H. injection H as <-. simpl.
      rewrite finalizeBlock_Warnings, (finalizeCurrentTag_doc _ _ Hq).
      apply warnsAt_refl. }
    destruct (FindStringSubmatch reContinuation l) as [m|].
    + destruct (splitTag (sub m 1)) as [[n t]|].
      * destruct (finalizeCurrentTag p0) as [q0|] eqn:Hq; [|discriminate].
        simpl in H. pose proof (finalizeCurrentTag_line _ _ Hq) as Hl.
        pose proof (finalizeCurrentTag_doc _ _ Hq) as Hd.
        destruct (parseTag n t (line q0)); injection H as <-; simpl; rewrite Hd.
        -- apply warnsAt_refl.
        -- apply warnsAt_cases. right. rewrite Hl. eexists. reflexivity.
      * destruct (isEmpty (sub m 1)).
        { destruct (negb (isEmpty (currentTag p0))).
          - rewrite (finalizeCurrentTag_doc _ _ H). apply warnsAt_refl.
          - injection H as <-. apply warnsAt_refl. }
        destruct (negb (isEmpty (currentTag p0)));
          [injection H as <-; apply warnsAt_refl|].
        destruct (negb (inTags p0)); injection H as <-; apply warnsAt_refl.
    + destruct (finalizeCurrentTag p0) as [q0|] eqn:Hq; [|discriminate].
      simpl in H. injection H as <-.
      apply Top.
      * simpl. rewrite finalizeBlock_line. exact (finalizeCurrentTag_line _ _ Hq).
      * simpl. rewrite finalizeBlock_Warnings, (finalizeCurrentTag_doc _ _ Hq).
        apply warnsAt_refl.
Qed.

Lemma atEOF_Warnings :
  forall p q,
    atEOF p = Done q ->
    Document.Warnings (doc q) = Document.Warnings (doc p)
    \/ (state p = stateShedoc
        /\ exists e, Document.Warnings (doc q)
                     = Document.Warnings (doc p) ++ [Warning.mk (line p) e]).
Proof.
  intros p q H. unfold atEOF in H. destruct (state p).
  - injection H as <-. now left.
  - injection H as <-. destruct (finalizeShedoc_Warnings p) as [E|E]; [now left|].
    right. now split.
  - destruct (finalizeCurrentTag p) as [q0|] eqn:Hq; [|discriminate].
    simpl in H. injection H as <-. left.
    now rewrite finalizeBlock_Warnings, (finalizeCurrentTag_doc _ _ Hq).
Qed.

Lemma scan_Warnings :
  forall post pre p q,
    (Z.of_nat (length (pre ++ post)) <= max_int)%Z ->
    line p = Z.of_nat (length pre) ->
    scan p post = Done q ->
    warnedWithin (length (pre ++ post)) (Document.Warnings (doc p)) ->
    warnedWithin (length (pre ++ post)) (Document.Warnings (doc q))
    /\ line q = Z.of_nat (length (pre ++ post)).
Proof.
  induction post as [|l post IH]; intros pre p q Hfit Hln Hs Hw.
  - injection Hs as <-. rewrite app_nil_r in *. now split.
  - simpl in Hs. destruct (step p l) as [p1|] eqn:Hp1; [|discriminate].
    simpl in Hs.
    assert (Hlen : length (pre ++ l :: post) = length ((pre ++ [l]) ++ post))
      by (now rewrite <- app_assoc).
    assert (Hk : (Z.of_nat (length pre) < max_int)%Z).
    { rewrite length_app in Hfit. simpl in Hfit. lia. }
    assert (Hln1 : line p1 = Z.of_nat (length (pre ++ [l]))).
    { rewrite (step_line _ _ _ Hp1), Hln, (int_succ_of_nat _ Hk), length_app.
      simpl. f_equal. lia. }
    rewrite Hlen in *.
    destruct (IH (pre ++ [l]) p1 q Hfit Hln1 Hs) as [H1 H2].
    + destruct (step_Warnings _ _ _ Hp1) as [ext [-> Hext]].
      apply Forall_app. split; [exact Hw|].
      rewrite Hln, (int_succ_of_nat _ Hk) in Hext.
      eapply Forall_impl; [|exact Hext]. intros w ->.
      rewrite !length_app. simpl. lia.
    + now split.
Qed.

(** X22 (parser.go, parse, setShedocMeta, handleSheblock).  For an input
    of fewer than 2^63 lines, every warning of the document carries the
    number (from 1) of a line of the input. *)
Theorem warnings_carry_lines_of_the_input :
  forall lines,
    (Z.of_nat (length lines) <= max_int)%Z ->
    exists d,
      ParseReader lines = Done (d, None)
      /\ warnedWithin (length lines) (Document.Warnings d).
Proof.
  intros lines Hfit. unfold ParseReader, parse.
  destruct (scan_total lines newParser Inv_newParser) as [p [Hs Hi]]. rewrite Hs.
  simpl. destruct (atEOF_total p Hi) as [q Hq]. rewrite Hq. simpl.
  eexists. split; [reflexivity|].
  destruct (scan_Warnings lines [] newParser p Hfit eq_refl Hs) as [Hw Hl];
    [constructor|].
  simpl app in Hw, Hl.
  destruct (atEOF_Warnings _ _ Hq) as [->|[Hst [e ->]]]; [exact Hw|].
  apply Forall_app. split; [exact Hw|]. constructor; [|constructor].
  simpl. rewrite Hl.
  destruct lines as [|l lines]; [|simpl length; lia].
  injection Hs as <-. discriminate.
Qed.

Lemma warnings_carry_lines_of_the_input_witness :
  exists d,
    ParseReader (script ["#@/command"; " # @flag"; " # @colour blue"; " ##";
                         "#?/licence MIT"]%string)
    = Done (d, None)
    /\ warnedWithin 5 (Document.Warnings d).
Proof.
  apply (warnings_carry_lines_of_the_input
           (script ["#@/command"; " # @flag"; " # @colour blue"; " ##";
                    "#?/licence MIT"]%string)).
  simpl. unfold max_int. lia.
Defined.

(* ================================================================= *)
(** ** Opener lines and shebang lines *)

Lemma span :
  forall (cls : ascii -> bool) x,
  exists a b,
    x = a ++ b /\ forallb cls a = true
    /\ match b with [] => True | c :: _ => cls c = false end.
Proof.
  intros cls. induction x as [|c x IH].
  - exists [], []. now repeat split.
  - destruct (cls c) eqn:Hc.
    + destruct IH as [a [b [-> [Ha Hb]]]]. exists (c :: a), b.
      split; [reflexivity|]. split; [simpl; now rewrite Hc, Ha | exact Hb].
    + exists [], (c :: x). now repeat split.
Qed.

Lemma opener_match :
  forall w ws r,
    forallb cls_w w = true -> forallb cls_s ws = true -> oneLine r = true ->
    match ws ++ r with [] => True | c :: _ => cls_w c = false end ->
    match r with [] => True | c :: _ => cls_s c = false end ->
    FindStringSubmatch reSheblockOpen (lit "#@/" ++ w ++ ws ++ r) = Some [w; r].
Proof.
  intros w ws r Hw Hs Hr Hn1 Hn2.
  unfold FindStringSubmatch, reSheblockOpen. cbn [run].
  rewrite dropPrefix_app.
  apply rep_run; [exact Hw | lia | exact Hn1 |].
  rewrite firstn_minus_app.
  apply rep_run; [exact Hs | lia | exact Hn2 |].
  rewrite <- (app_nil_r r) at 1.
  apply rep_run; [exact Hr | lia | exact I |].
  cbn [run length app]. rewrite Nat.sub_0_r, firstn_all. reflexivity.
Qed.

(** X23 (parser.go, reSheblockOpen, handleTop, parseSheblockHeader).
    Every line that begins with the sigil of a documentation block opens a
    block, whatever follows on the line.  The keyword is the longest run
    of word characters after the sigil and the rest is what follows the
    white space after it; the block gets the current line, and the
    visibility and name that [parseSheblockHeader] gives for them: any
    keyword other than [command], [subcommand] and [private] gives a
    public block without a name. *)
Theorem sigil_opens_a_block :
  forall p x,
    oneLine x = true ->
    exists w ws r,
      x = w ++ ws ++ r
      /\ forallb cls_w w = true /\ forallb cls_s ws = true
      /\ match ws ++ r with [] => True | c :: _ => cls_w c = false end
      /\ match r with [] => True | c :: _ => cls_s c = false end
      /\ handleTop p (lit "#@/" ++ x)
         = set_tagContLines []
             (set_currentResult None
                (set_currentTag []
                   (set_inTags false
                      (set_blockDesc []
                         (set_block
                            (Some (Block.new
                                     (fst (parseSheblockHeader w (TrimSpace r)))
                                     (snd (parseSheblockHeader w (TrimSpace r)))
                                     (line p)))
                            (set_state stateSheblock p))))))
      /\ (w <> lit "command" -> w <> lit "subcommand" -> w <> lit "private" ->
          parseSheblockHeader w (TrimSpace r) = (VisibilityPublic, [])).
Proof.
  intros p x Hx.
  destruct (span cls_w x) as [w [x1 [-> [Hw Hn1]]]].
  destruct (span cls_s x1) as [ws [r [-> [Hs Hn2]]]].
  exists w, ws, r.
  assert (Hr : oneLine r = true).
  { rewrite !oneLine_app in Hx. apply andb_true_iff in Hx as [_ Hx].
    now apply andb_true_iff in Hx as [_ Hx]. }
  split; [reflexivity|]. split; [exact Hw|]. split; [exact Hs|].
  split; [exact Hn1|]. split; [exact Hn2|]. split.
  - unfold handleTop.
    change (FindStringSubmatch reShebang (lit "#@/" ++ w ++ ws ++ r))
      with (@None (list gostring)).
    change (FindStringSubmatch reShedocInline (lit "#@/" ++ w ++ ws ++ r))
      with (@None (list gostring)).
    change (FindStringSubmatch reShedocOpen (lit "#@/" ++ w ++ ws ++ r))
      with (@None (list gostring)).
    rewrite (opener_match w ws r Hw Hs Hr Hn1 Hn2).
    change (sub [w; r] 1) with w. change (sub [w; r] 2) with r.
    now destruct (parseSheblockHeader w (TrimSpace r)).
  - intros H1 H2 H3. unfold parseSheblockHeader.
    destruct (w == lit "command") eqn:E1; [apply eqs_eq in E1; congruence|].
    destruct (w == lit "subcommand") eqn:E2; [apply eqs_eq in E2; congruence|].
    destruct (w == lit "public"); [reflexivity|].
    destruct (w == lit "private") eqn:E3; [apply eqs_eq in E3; congruence|].
    now destruct (w == []).
Qed.

Lemma sigil_opens_a_block_witness :
  exists w ws r,
    lit "subcommand  push origin" = w ++ ws ++ r
    /\ handleTop newParser (lit "#@/" ++ lit "subcommand  push origin")
       = set_tagContLines []
           (set_currentResult None
              (set_currentTag []
                 (set_inTags false
                    (set_blockDesc []
                       (set_block
                          (Some (Block.new
                                   (fst (parseSheblockHeader w (TrimSpace r)))
                                   (snd (parseSheblockHeader w (TrimSpace r)))
                                   (line newParser)))
                          (set_state stateSheblock newParser)))))).
Proof.
  assert (H : oneLine (lit "subcommand  push origin") = true) by (vm_compute; reflexivity).
  destruct (sigil_opens_a_block newParser _ H) as [w [ws [r [H1 [_ [_ [_ [_ [H2 _]]]]]]]]].
  exists w, ws, r. now split.
Defined.

Lemma shebang_match :
  forall x,
    x <> [] -> oneLine x = true ->
    FindStringSubmatch reShebang (lit "#!" ++ x) = Some [x].
Proof.
  intros x Hne Hx. unfold FindStringSubmatch, reShebang. cbn [run].
  rewrite dropPrefix_app.
  rewrite <- (app_nil_r x) at 1.
  apply rep_run; [exact Hx | destruct x; [congruence | simpl; lia] | exact I |].
  cbn [run length app]. rewrite Nat.sub_0_r, firstn_all. reflexivity.
Qed.

(** X24 (parser.go, reShebang, handleTop).  At the top level, a line made
    of [#!] and a text that is not empty sets the shebang of the document
    to that text without the white space around it, and changes nothing
    else: on whatever line of the input it stands, and whatever the
    shebang was.  The two characters alone change nothing. *)
Theorem shebang_line :
  forall p x,
    (x <> [] -> oneLine x = true ->
     handleTop p (lit "#!" ++ x)
     = set_doc (Document.set_Shebang (TrimSpace x) (doc p)) p)
    /\ handleTop p (lit "#!") = p.
Proof.
  intros p x. split.
  - intros Hne Hx. unfold handleTop. rewrite (shebang_match x Hne Hx). reflexivity.
  - reflexivity.
Qed.

Lemma shebang_line_witness :
  handleTop (reach (script ["#!/bin/sh"; "echo hi"]%string)) (lit "#!" ++ lit "  /usr/bin/env bash ")
  = set_doc (Document.set_Shebang (TrimSpace (lit "  /usr/bin/env bash "))
               (doc (reach (script ["#!/bin/sh"; "echo hi"]%string))))
            (reach (script ["#!/bin/sh"; "echo hi"]%string)).
Proof.
  assert (H1 : lit "  /usr/bin/env bash " <> []) by discriminate.
  assert (H2 : oneLine (lit "  /usr/bin/env bash ") = true) by (vm_compute; reflexivity).
  exact (proj1 (shebang_line _ _) H1 H2).
Defined.

(* ================================================================= *)
(** ** The widths of the help text *)

Lemma max_fold :
  forall (A : Type) (f : A -> gostring) (l : list A) (m0 : Z),
    let w := fold_left (fun max x => if (max <? len (f x))%Z then len (f x) else max) l m0 in
    (m0 <= w)%Z
    /\ Forall (fun x => (len (f x) <= w)%Z) l
    /\ (w = m0 \/ exists x, In x l /\ w = len (f x)).
Proof.
  intros A f. induction l as [|x l IH]; intro m0; cbn [fold_left].
  - repeat split; [lia | constructor | now left].
  - specialize (IH (if (m0 <? len (f x))%Z then len (f x) else m0)).
    cbv zeta in IH. destruct IH as [H1 [H2 H3]].
    destruct (Z.ltb_spec m0 (len (f x))) as [Hlt|Hge].
    + split; [lia|]. split; [constructor; [lia | exact H2]|].
      right. destruct H3 as [->|[y [Hy ->]]].
      * exists x. split; [now left | reflexivity].
      * exists y. split; [now right | reflexivity].
    + split; [lia|]. split; [constructor; [lia | exact H2]|].
      destruct H3 as [->|[y [Hy ->]]]; [now left|].
      right. exists y. split; [now right | reflexivity].
Qed.

(** X25 (internal/generate/helptext.go, maxSubcommandNameWidth,
    maxEnvNameWidth, maxExitCodeWidth).  Each width is at least the
    length of every name of the list, and it is the length of one of them
    unless it is zero: no entry of a list overflows its column, and the
    column is no wider than the longest entry. *)
Theorem widths_are_maxima :
  (forall subs,
      Forall (fun s => (len (Block.Name s) <= maxSubcommandNameWidth subs)%Z) subs
      /\ (maxSubcommandNameWidth subs = 0%Z
          \/ exists s, In s subs /\ maxSubcommandNameWidth subs = len (Block.Name s)))
  /\ (forall envs,
         Forall (fun e => (len (Env.Name e) <= maxEnvNameWidth envs)%Z) envs
         /\ (maxEnvNameWidth envs = 0%Z
             \/ exists e, In e envs /\ maxEnvNameWidth envs = len (Env.Name e)))
  /\ (forall exits,
         Forall (fun e => (len (Exit.Code e) <= maxExitCodeWidth exits)%Z) exits
         /\ (maxExitCodeWidth exits = 0%Z
             \/ exists e, In e exits /\ maxExitCodeWidth exits = len (Exit.Code e))).
Proof.
  split; [|split].
  - intro subs. exact (proj2 (max_fold _ Block.Name subs 0%Z)).
  - intro envs. exact (proj2 (max_fold _ Env.Name envs 0%Z)).
  - intro exits. exact (proj2 (max_fold _ Exit.Code exits 0%Z)).
Qed.

(* ================================================================= *)
(** ** A script without documentation *)

Lemma handleTop_inert : forall p l, inert l = true -> handleTop p l = p.
Proof.
  intros p l H. unfold inert in H.
  repeat (apply andb_true_iff in H as [H ?]).
  unfold MatchString in *. unfold handleTop.
  destruct (FindStringSubmatch reShebang l); [discriminate|].
  destruct (FindStringSubmatch reShedocInline l); [discriminate|].
  destruct (FindStringSubmatch reShedocOpen l); [discriminate|].
  destruct (FindStringSubmatch reSheblockOpen l); [discriminate|].
  destruct (isEmpty (matchFuncDecl l)); [reflexivity | discriminate].
Qed.

Lemma scan_inert :
  forall ls p,
    state p = stateTop -> forallb inert ls = true ->
    scan p ls = Done (set_line (lineAfter (length ls) (line p)) p).
Proof.
  induction ls as [|l ls IH]; intros p Hst Hall.
  - simpl. now destruct p.
  - simpl in Hall. apply andb_true_iff in Hall as [Hl Hall].
    simpl scan. unfold step. change (state (set_line _ p)) with (state p).
    rewrite Hst, (handleTop_inert _ l Hl). simpl bind.
    rewrite IH by assumption. simpl length. now rewrite lineAfter_S.
Qed.

(** X26 (parser.go, parse, handleTop).  An input in which no line
    matches a pattern of the top level and no line declares a function
    gives the empty document: no shebang, no metadata, no block and no
    warning. *)
Theorem undocumented_script :
  forall lines,
    forallb inert lines = true ->
    ParseReader lines = Done (Document.zero, None).
Proof.
  intros lines H. unfold ParseReader, parse.
  rewrite (scan_inert lines newParser eq_refl H). reflexivity.
Qed.

Lemma undocumented_script_witness :
  ParseReader (script ["# A plain comment"; "set -e"; ""; "echo hi  # not a block";
                       "if [ -n x ]; then exit 1; fi"]%string)
  = Done (Document.zero, None).
Proof.
  apply undocumented_script. vm_compute. reflexivity.
Defined.

(* ================================================================= *)
(** ** A blank line after a tag *)





(* ================================================================= *)
(** ** The order of the blocks *)

Lemma map_Line_updLast :
  forall f l,
    (forall b, Block.Line (f b) = Block.Line b) ->
    map Block.Line (updLast f l) = map Block.Line l.
Proof.
  intros f l Hf. induction l as [|x l IH]; [reflexivity|].
  destruct l as [|y r]; [simpl; now rewrite Hf|].
  change (updLast f (x :: y :: r)) with (x :: updLast f (y :: r)).
  change (map Block.Line (x :: updLast f (y :: r)))
    with (Block.Line x :: map Block.Line (updLast f (y :: r))).
  now rewrite IH.
Qed.

Lemma finalizeCurrentTag_blockLines :
  forall p q, finalizeCurrentTag p = Done q -> blockLines q = blockLines p.
Proof.
  intros p q Hf. unfold finalizeCurrentTag in Hf.
  destruct (currentResult p) as [r|]; [|now injection Hf as <-].
  destruct (isEmpty (currentTag p)); [now injection Hf as <-|].
  set (r' := if negb (isEmpty (tagContLines p))
             then appendTagDescription r (Join (tagContLines p) (lit " ")) else r) in Hf.
  destruct (block p) as [b|] eqn:Hb.
  - rewrite (applyTagToBlock_attach _ _ p b Hb) in Hf. simpl in Hf.
    injection Hf as <-. unfold blockLines. simpl. rewrite Hb. simpl.
    now destruct (attach_header (currentTag p) r' b) as [_ [_ [_ [_ ->]]]].
  - destruct (applyTagToBlock (currentTag p) r' p) as [p'|] eqn:Ha; [|discriminate].
    simpl in Hf. injection Hf as <-.
    now rewrite (applyTagToBlock_nil _ _ _ _ Hb Ha).
Qed.

Lemma finalizeBlock_blockLines :
  forall p, blockLines (finalizeBlock p) = blockLines p /\ block (finalizeBlock p) = None.
Proof.
  intro p. unfold finalizeBlock, blockLines.
  destruct (block p) as [b|] eqn:Hb; [|now rewrite Hb].
  simpl. rewrite map_app, app_nil_r. split; [|reflexivity]. f_equal.
  now destruct (negb (isEmpty (blockDesc p))).
Qed.

Lemma finalizeShedoc_blockLines :
  forall p, blockLines (finalizeShedoc p) = blockLines p
            /\ block (finalizeShedoc p) = block p.
Proof.
  intro p. unfold blockLines. rewrite finalizeShedoc_Blocks.
  assert (E : block (finalizeShedoc p) = block p).
  { unfold finalizeShedoc. destruct (negb (isEmpty (shedocTag p))); [|reflexivity].
    cbn [block set_shedocLines set_shedocTag]. now rewrite setShedocMeta_shape. }
  now rewrite E.
Qed.

(** At the top level a line leaves the lines of the blocks as they are,
    or opens a block with the current line. *)
Lemma handleTop_blockLines :
  forall p l,
    block p = None ->
    noPending (handleTop p l)
    /\ (blockLines (handleTop p l) = blockLines p
        \/ blockLines (handleTop p l) = blockLines p ++ [line p]).
Proof.
  intros p l Hb. unfold handleTop.
  destruct (FindStringSubmatch reShebang l).
  { split; [intros _; exact Hb | now left]. }
  destruct (FindStringSubmatch reShedocInline l).
  { rewrite setShedocMeta_shape. split; [intros _; exact Hb|]. left.
    unfold blockLines. cbn [doc block set_doc]. now rewrite setShedocMeta_Blocks. }
  destruct (FindStringSubmatch reShedocOpen l).
  { split; [intros _; exact Hb | now left]. }
  destruct (FindStringSubmatch reSheblockOpen l).
  { destruct (parseSheblockHeader _ _) as [v n].
    split; [intro H; now elim H|]. right.
    unfold blockLines. cbn. rewrite Hb. cbn. now rewrite app_nil_r. }
  destruct (negb (isEmpty (matchFuncDecl l))); [|split; [intros _; exact Hb | now left]].
  split; [intros _; exact Hb|]. left. unfold blockLines. cbn.
  rewrite map_Line_updLast; [reflexivity|].
  intro b. now destruct (isEmpty (Block.FunctionName b)).
Qed.

Lemma step_blockLines :
  forall p l q,
    step p l = Done q -> noPending p ->
    noPending q
    /\ (blockLines q = blockLines p \/ blockLines q = blockLines p ++ [int_succ (line p)]).
Proof.
  intros p l q H Hn. unfold step in H. cbv zeta in H.
  change (int_succ (line p)) with (line (set_line (int_succ (line p)) p)).
  change (blockLines p) with (blockLines (set_line (int_succ (line p)) p)).
  assert (Hn0 : noPending (set_line (int_succ (line p)) p)) by exact Hn.
  change (state (set_line (int_succ (line p)) p)) with (state p) in H.
  remember (set_line (int_succ (line p)) p) as p0 eqn:Ep0.
  assert (Hst0 : state p0 = state p) by (now subst p0).
  rewrite <- Hst0 in H. clear Ep0 Hst0 Hn p.
  unfold noPending in Hn0.
  destruct (state p0) eqn:Hst.
  - injection H as <-. apply handleTop_blockLines. apply Hn0. discriminate.
  - injection H as <-. unfold handleShedoc.
    destruct (finalizeShedoc_blockLines p0) as [E1 E2].
    assert (Hb : block p0 = None) by (apply Hn0; discriminate).
    destruct (MatchString reBlockClose l).
    { split; [|left; exact E1].
      intros _. change (block (finalizeShedoc p0) = None). now rewrite E2. }
    destruct (FindStringSubmatch reContinuation l).
    { split; [intros _; exact Hb | now left]. }
    destruct (handleTop_blockLines (set_state stateTop (finalizeShedoc p0)) l)
      as [K1 K2].
    { change (block (finalizeShedoc p0) = None). now rewrite E2. }
    split; [exact K1|].
    change (blockLines (set_state stateTop (finalizeShedoc p0)))
      with (blockLines (finalizeShedoc p0)) in K2.
    change (line (set_state stateTop (finalizeShedoc p0)))
      with (line (finalizeShedoc p0)) in K2.
    now rewrite E1, finalizeShedoc_line in K2.
  - unfold handleSheblock in H.
    destruct (MatchString reBlockClose l).
    { destruct (finalizeCurrentTag p0) as [q0|] eqn:Hq; [|discriminate].
      simpl in H. injection H as <-.
      destruct (finalizeBlock_blockLines q0) as [E1 E2].
      split; [intros _; exact E2|]. left.
      change (blockLines (set_state stateTop (finalizeBlock q0)))
        with (blockLines (finalizeBlock q0)).
      now rewrite E1, (finalizeCurrentTag_blockLines _ _ Hq). }
    assert (Keep : forall q0, finalizeCurrentTag p0 = Done q0 ->
                              state q0 = stateSheblock).
    { intros q0 Hq. rewrite (finalizeCurrentTag_shape _ _ Hq). exact Hst. }
    destruct (FindStringSubmatch reContinuation l) as [m|].
    + destruct (splitTag (sub m 1)) as [[n t]|].
      * destruct (finalizeCurrentTag p0) as [q0|] eqn:Hq; [|discriminate].
        simpl in H. pose proof (finalizeCurrentTag_blockLines _ _ Hq) as E.
        pose proof (Keep _ eq_refl) as Hs.
        destruct (parseTag n t (line q0)); injection H as <-;
          (split; [intro K; now elim K | left; exact E]).
      * destruct (isEmpty (sub m 1)).
        { destruct (negb (isEmpty (currentTag p0))).
          - split; [intro K; elim K; now apply Keep
                   | left; exact (finalizeCurrentTag_blockLines _ _ H)].
          - injection H as <-. split; [intro K; now elim K | now left]. }
        destruct (negb (isEmpty (currentTag p0)));
          [injection H as <-; split; [intro K; now elim K | now left]|].
        destruct (negb (inTags p0)); injection H as <-;
          (split; [intro K; now elim K | now left]).
    + destruct (finalizeCurrentTag p0) as [q0|] eqn:Hq; [|discriminate].
      simpl in H. injection H as <-.
      destruct (finalizeBlock_blockLines q0) as [E1 E2].
      destruct (handleTop_blockLines (set_state stateTop (finalizeBlock q0)) l E2)
        as [K1 K2].
      split; [exact K1|].
      change (blockLines (set_state stateTop (finalizeBlock q0)))
        with (blockLines (finalizeBlock q0)) in K2.
      change (line (set_state stateTop (finalizeBlock q0)))
        with (line (finalizeBlock q0)) in K2.
      now rewrite E1, finalizeBlock_line, (finalizeCurrentTag_blockLines _ _ Hq),
        (finalizeCurrentTag_line _ _ Hq) in K2.
Qed.

Lemma ascending_snoc :
  forall l lo hi x,
    ascending lo l -> Forall (fun y => (y <= hi)%Z) l -> (lo <= hi)%Z -> (hi < x)%Z ->
    ascending lo (l ++ [x]).
Proof.
  induction l as [|y l IH]; intros lo hi x Ha Hf Hlo Hx.
  - simpl. split; [lia | exact I].
  - simpl in Ha. destruct Ha as [H1 H2]. inversion Hf as [|? ? Hy Hl]; subst.
    simpl. split; [exact H1|]. apply (IH y hi x); auto.
Qed.

Lemma scan_blockLines :
  forall post pre p q,
    (Z.of_nat (length (pre ++ post)) <= max_int)%Z ->
    line p = Z.of_nat (length pre) ->
    scan p post = Done q ->
    noPending p ->
    ascending 0 (blockLines p) ->
    Forall (fun y => (y <= line p)%Z) (blockLines p) ->
    noPending q /\ ascending 0 (blockLines q).
Proof.
  induction post as [|l post IH]; intros pre p q Hfit Hln Hs Hn Ha Hf.
  - injection Hs as <-. now split.
  - simpl in Hs. destruct (step p l) as [p1|] eqn:Hp1; [|discriminate].
    simpl in Hs.
    assert (Hk : (Z.of_nat (length pre) < max_int)%Z).
    { rewrite length_app in Hfit. simpl in Hfit. lia. }
    assert (Hsucc : int_succ (line p) = (line p + 1)%Z).
    { rewrite Hln, (int_succ_of_nat _ Hk). lia. }
    assert (Hln1 : line p1 = Z.of_nat (length (pre ++ [l]))).
    { rewrite (step_line _ _ _ Hp1), Hsucc, Hln, length_app. simpl. lia. }
    destruct (step_blockLines _ _ _ Hp1 Hn) as [Hn1 Hb].
    apply (IH (pre ++ [l]) p1 q); try assumption.
    + now rewrite <- app_assoc.
    + destruct Hb as [->| ->]; [exact Ha|].
      apply (ascending_snoc _ 0%Z (line p)); try assumption; lia.
    + rewrite (step_line _ _ _ Hp1), Hsucc.
      destruct Hb as [->| ->].
      * eapply Forall_impl; [|exact Hf]. intros y Hy. simpl in Hy. lia.
      * apply Forall_app. split.
        -- eapply Forall_impl; [|exact Hf]. intros y Hy. simpl in Hy. lia.
        -- constructor; [lia | constructor].
Qed.

(** X28 (parser.go, parse, handleTop, finalizeBlock).  For an input of
    fewer than 2^63 lines, the lines of the blocks of the document
    increase strictly from 1, in the order of the blocks: the blocks are
    stored in the order of their opener lines, no two for the same
    line. *)
Theorem blocks_are_in_source_order :
  forall lines,
    (Z.of_nat (length lines) <= max_int)%Z ->
    exists d,
      ParseReader lines = Done (d, None)
      /\ ascending 0 (map Block.Line (Document.Blocks d)).
Proof.
  intros lines Hfit. unfold ParseReader, parse.
  destruct (scan_total lines newParser Inv_newParser) as [p [Hs Hi]]. rewrite Hs.
  simpl. destruct (atEOF_total p Hi) as [q Hq]. rewrite Hq. simpl.
  eexists. split; [reflexivity|].
  destruct (scan_blockLines lines [] newParser p Hfit eq_refl Hs) as [Hn Ha];
    [intros _; reflexivity | exact I | constructor |].
  unfold atEOF in Hq. destruct (state p) eqn:Hst.
  - injection Hq as <-. unfold blockLines in Ha.
    assert (Hb : block p = None) by (apply Hn; rewrite Hst; discriminate).
    rewrite Hb in Ha. simpl in Ha. now rewrite app_nil_r in Ha.
  - injection Hq as <-. rewrite finalizeShedoc_Blocks. unfold blockLines in Ha.
    assert (Hb : block p = None) by (apply Hn; rewrite Hst; discriminate).
    rewrite Hb in Ha. simpl in Ha. now rewrite app_nil_r in Ha.
  - destruct (finalizeCurrentTag p) as [q0|] eqn:Hq0; [|discriminate].
    simpl in Hq. injection Hq as <-.
    destruct (finalizeBlock_blockLines q0) as [E1 E2].
    rewrite <- (finalizeCurrentTag_blockLines _ _ Hq0), <- E1 in Ha.
    unfold blockLines in Ha. rewrite E2 in Ha. simpl in Ha.
    now rewrite app_nil_r in Ha.
Qed.

Lemma blocks_are_in_source_order_witness :
  exists d,
    ParseReader (script ["#@/command"; " ##"; "#@/subcommand a"; "#@/private"]%string)
    = Done (d, None)
    /\ ascending 0 (map Block.Line (Document.Blocks d)).
Proof.
  apply blocks_are_in_source_order. simpl. unfold max_int. lia.
Defined.

(* ================================================================= *)
(** ** A pending record and the name of its tag *)

Lemma kindOf_not_empty : forall r, kindOf r <> [].
Proof. intros r; destruct r; discriminate. Qed.

Lemma held_finished : forall desc b, held (finished desc b) = held b.
Proof.
  intros desc b. unfold finished.
  destruct (negb (isEmpty desc)); [|reflexivity]. now destruct b.
Qed.

Lemma finalizeCurrentTag_none :
  forall p q, finalizeCurrentTag p = Done q -> currentResult q = None.
Proof. intros p q H. now rewrite (finalizeCurrentTag_shape _ _ H). Qed.

Lemma handleTop_pending :
  forall p l r,
    currentResult (handleTop p l) = Some r ->
    currentResult p = Some r /\ currentTag (handleTop p l) = currentTag p.
Proof.
  intros p l r. unfold handleTop.
  destruct (FindStringSubmatch reShebang l); [now intro H|].
  destruct (FindStringSubmatch reShedocInline l);
    [rewrite setShedocMeta_shape; now intro H|].
  destruct (FindStringSubmatch reShedocOpen l); [now intro H|].
  destruct (FindStringSubmatch reSheblockOpen l).
  - destruct (parseSheblockHeader _ _). discriminate.
  - destruct (negb (isEmpty (matchFuncDecl l))); now intro H.
Qed.

Lemma finalizeShedoc_pending :
  forall p,
    currentResult (finalizeShedoc p) = currentResult p
    /\ currentTag (finalizeShedoc p) = currentTag p.
Proof.
  intro p. unfold finalizeShedoc.
  destruct (negb (isEmpty (shedocTag p))); [|now split].
  cbn [currentResult currentTag set_shedocLines set_shedocTag].
  rewrite setShedocMeta_shape. now split.
Qed.

Lemma finalizeBlock_pending :
  forall p,
    currentResult (finalizeBlock p) = currentResult p
    /\ currentTag (finalizeBlock p) = currentTag p.
Proof. intro p. unfold finalizeBlock. now destruct (block p). Qed.

(** A pending record is always the one of the pending tag name. *)
Lemma step_pending_kind :
  forall p l q,
    (forall r, currentResult p = Some r -> kindOf r = currentTag p) ->
    step p l = Done q ->
    forall r, currentResult q = Some r -> kindOf r = currentTag q.
Proof.
  intros p l q K H r Hr. unfold step in H. cbv zeta in H.
  change (state (set_line (int_succ (line p)) p)) with (state p) in H.
  assert (K0 : forall r, currentResult (set_line (int_succ (line p)) p) = Some r ->
                         kindOf r = currentTag (set_line (int_succ (line p)) p))
    by exact K.
  remember (set_line (int_succ (line p)) p) as p0 eqn:Ep0.
  assert (Hst0 : state p0 = state p) by (now subst p0).
  rewrite <- Hst0 in H. clear Ep0 Hst0 K p.
  destruct (state p0).
  - injection H as <-.
    destruct (handleTop_pending _ _ _ Hr) as [H1 ->]. now apply K0.
  - injection H as <-. unfold handleShedoc in *.
    destruct (MatchString reBlockClose l).
    + cbn [currentResult currentTag set_state] in *.
      destruct (finalizeShedoc_pending p0) as [E1 E2].
      rewrite E1 in Hr. rewrite E2. now apply K0.
    + destruct (FindStringSubmatch reContinuation l).
      * now apply K0.
      * destruct (handleTop_pending _ _ _ Hr) as [H1 ->].
        cbn [currentResult currentTag set_state] in *.
        destruct (finalizeShedoc_pending p0) as [E1 E2].
        rewrite E1 in H1. rewrite E2. now apply K0.
  - unfold handleSheblock in H.
    destruct (MatchString reBlockClose l).
    { destruct (finalizeCurrentTag p0) as [q0|] eqn:Hq; [|discriminate].
      simpl in H. injection H as <-.
      cbn [currentResult set_state] in Hr.
      rewrite (proj1 (finalizeBlock_pending q0)), (finalizeCurrentTag_none _ _ Hq) in Hr.
      discriminate. }
    destruct (FindStringSubmatch reContinuation l) as [m|].
    + destruct (splitTag (sub m 1)) as [[n t]|].
      * destruct (finalizeCurrentTag p0) as [q0|] eqn:Hq; [|discriminate].
        simpl in H.
        destruct (parseTag n t (line q0)) as [r0|e] eqn:Hp; injection H as <-.
        -- cbn in Hr. injection Hr as <-. cbn.
           exact (parseTag_kindOf _ _ _ _ Hp).
        -- cbn in Hr. rewrite (finalizeCurrentTag_none _ _ Hq) in Hr. discriminate.
      * destruct (isEmpty (sub m 1)).
        { destruct (negb (isEmpty (currentTag p0))).
          - rewrite (finalizeCurrentTag_none _ _ H) in Hr. discriminate.
          - injection H as <-. now apply K0. }
        destruct (negb (isEmpty (currentTag p0))); [injection H as <-; now apply K0|].
        destruct (negb (inTags p0)); injection H as <-; now apply K0.
    + destruct (finalizeCurrentTag p0) as [q0|] eqn:Hq; [|discriminate].
      simpl in H. injection H as <-.
      destruct (handleTop_pending _ _ _ Hr) as [H1 _].
      cbn [currentResult set_state] in H1.
      rewrite (proj1 (finalizeBlock_pending q0)), (finalizeCurrentTag_none _ _ Hq) in H1.
      discriminate.
Qed.

Lemma scan_pending_kind :
  forall ls p q,
    (forall r, currentResult p = Some r -> kindOf r = currentTag p) ->
    scan p ls = Done q ->
    forall r, currentResult q = Some r -> kindOf r = currentTag q.
Proof.
  induction ls as [|l ls IH]; intros p q K H.
  - now injection H as <-.
  - simpl in H. destruct (step p l) as [p1|] eqn:H1; [|discriminate].
    simpl in H. exact (IH p1 q (step_pending_kind _ _ _ K H1) H).
Qed.

(** X9 (parser.go, handleSheblock, finalizeCurrentTag, applyTagToBlock,
    appendTagDescription, joinDesc).  In every state the parser reaches,
    a pending record is of the kind that the pending tag name selects.
    While such a record is pending, text lines are its continuation
    lines: followed by a close marker, they append one block, which holds
    the pending record with a new description: the one of the tag line
    (when it has one, and a blank) followed by the trimmed contents of the
    continuation lines, joined by single blanks; the kind and the line of
    the record are unchanged. *)
Theorem continuation_lines_are_joined :
  (forall lines r,
      currentResult (reach lines) = Some r ->
      kindOf r = currentTag (reach lines))
  /\ (forall p b r ls c,
         state p = stateSheblock -> block p = Some b ->
         currentResult p = Some r -> kindOf r = currentTag p ->
         tagContLines p = [] ->
         ls <> [] ->
         forallb isTextLine ls = true ->
         MatchString reBlockClose c = true ->
         let r' := appendTagDescription r
                     (Join (map (fun l => TrimSpace (textOf l)) ls) (lit " ")) in
         let b' := finished (blockDesc p) (attach (currentTag p) r' b) in
         exists p',
           scan p (ls ++ [c]) = Done p'
           /\ state p' = stateTop
           /\ doc p' = Document.set_Blocks (Document.Blocks (doc p) ++ [b']) (doc p)
           /\ In r' (held b')
           /\ kindOf r' = kindOf r
           /\ lineOf r' = lineOf r
           /\ descOf r'
              = joinDesc (descOf r)
                         (Join (map (fun l => TrimSpace (textOf l)) ls) (lit " "))).
Proof.
  split.
  { intros lines r. pose proof (reach_scan lines) as Hs.
    apply (scan_pending_kind lines newParser _); [discriminate | exact Hs]. }
  intros p b r ls c Hst Hb Hcr Hk Htc Hne Hall Hc r' b'.
  assert (Hct : currentTag p <> []) by (rewrite <- Hk; apply kindOf_not_empty).
  rewrite scan_app, (scan_tag_continuation ls p Hst Hct Hall).
  simpl bind. simpl scan. rewrite Htc. simpl app.
  fold r'.
  set (p1 := set_tagContLines _ _).
  assert (Hp1 : pendingBlock p1 = Some (attach (currentTag p) r' b)).
  { unfold pendingBlock, finalizeCurrentTag. subst p1.
    cbn [currentResult currentTag tagContLines set_tagContLines set_line].
    rewrite Hcr. apply isEmpty_false in Hct. rewrite Hct.
    destruct ls as [|l ls']; [congruence|].
    cbn [map isEmpty negb].
    erewrite applyTagToBlock_attach by (simpl; exact Hb). reflexivity. }
  rewrite (step_close p1 _ c Hst Hp1 Hc). simpl bind.
  eexists. split; [reflexivity|]. split; [reflexivity|]. split; [reflexivity|].
  destruct (descOf_append r (Join (map (fun l => TrimSpace (textOf l)) ls) (lit " ")))
    as [H1 H2].
  split.
  { subst b'. rewrite held_finished, <- Hk, <- H2. apply attach_held. }
  split; [exact H2|]. split; [apply append_lineOf | exact H1].
Qed.

Lemma continuation_lines_are_joined_witness :
  exists p' r',
    scan (reach (script ["#@/command"; " # @exit 2 Usage error:"]%string))
         (script [" #    bad flag"; " #  or bad value."]%string ++ [lit " ##"])
    = Done p'
    /\ map Block.Exit (Document.Blocks (doc p')) = [[r']]
    /\ Exit.Description r' = lit "Usage error: bad flag or bad value.".
Proof.
  pose (p := reach (script ["#@/command"; " # @exit 2 Usage error:"]%string)).
  pose (r := RExit (Exit.mk (lit "2") (lit "Usage error:") 2)).
  assert (Hst : state p = stateSheblock) by (vm_compute; reflexivity).
  assert (Hb : block p = Some (Block.new VisibilityCommand [] 1))
    by (vm_compute; reflexivity).
  assert (Hcr : currentResult p = Some r) by (vm_compute; reflexivity).
  assert (Hk : kindOf r = currentTag p) by (vm_compute; reflexivity).
  assert (Htc : tagContLines p = []) by (vm_compute; reflexivity).
  assert (Hne : script [" #    bad flag"; " #  or bad value."]%string <> [])
    by discriminate.
  assert (Hall : forallb isTextLine (script [" #    bad flag"; " #  or bad value."]%string)
                 = true) by (vm_compute; reflexivity).
  assert (Hc : MatchString reBlockClose (lit " ##") = true) by (vm_compute; reflexivity).
  destruct (proj2 continuation_lines_are_joined p _ r _ _ Hst Hb Hcr Hk Htc Hne Hall Hc)
    as [p' [Hs [_ [Hd _]]]].
  exists p', (Exit.mk (lit "2") (lit "Usage error: bad flag or bad value.") 2).
  split; [exact Hs|]. rewrite Hd. vm_compute. split; reflexivity.
Defined.

(* ================================================================= *)
(** ** A block from its opener to the end of the input *)

Lemma handleTop_blockOpener :
  forall p l v n,
    blockOpener l = Some (v, n) ->
    handleTop p l
    = set_tagContLines []
        (set_currentResult None
           (set_currentTag []
              (set_inTags false
                 (set_blockDesc []
                    (set_block (Some (Block.new v n (line p)))
                       (set_state stateSheblock p)))))).
Proof.
  intros p l v n H. unfold blockOpener, MatchString in H. unfold handleTop.
  destruct (FindStringSubmatch reShebang l); [discriminate|].
  destruct (FindStringSubmatch reShedocInline l); [discriminate|].
  destruct (FindStringSubmatch reShedocOpen l); [discriminate|].
  destruct (FindStringSubmatch reSheblockOpen l) as [m|]; [|discriminate].
  cbn [orb] in H. injection H as ->. reflexivity.
Qed.

Lemma handleTop_metaOpener :
  forall p l tag,
    metaOpener l = Some tag ->
    handleTop p l = set_shedocLines [] (set_shedocTag tag (set_state stateShedoc p)).
Proof.
  intros p l tag H. unfold metaOpener, MatchString in H. unfold handleTop.
  destruct (FindStringSubmatch reShebang l); [discriminate|].
  destruct (FindStringSubmatch reShedocInline l); [discriminate|].
  destruct (FindStringSubmatch reShedocOpen l) as [m|]; [|discriminate].
  cbn [orb] in H. injection H as ->. reflexivity.
Qed.

Lemma metaOpener_tag : forall l tag, metaOpener l = Some tag -> tag <> [].
Proof.
  intros l tag H. unfold metaOpener in H.
  destruct (MatchString reShebang l || MatchString reShedocInline l); [discriminate|].
  destruct (FindStringSubmatch reShedocOpen l) as [m|] eqn:E; [|discriminate].
  injection H as <-.
  unfold FindStringSubmatch, reShedocOpen in E. cbn [run] in E.
  destruct (dropPrefix (lit "#?/") l) as [s1|] eqn:Ed; [|discriminate].
  apply rep_inv in E. destruct E as [w [s2 [-> [_ [Hlen E]]]]].
  apply rep_inv in E. destruct E as [ws [s3 [-> [_ [_ E]]]]].
  destruct s3; [|discriminate]. injection E as <-.
  cbn [app sub Nat.sub nth]. rewrite firstn_minus_app.
  intros ->. simpl in Hlen. lia.
Qed.

Lemma scan_reach :
  forall pre post, scan newParser (pre ++ post) = scan (reach pre) post.
Proof. intros pre post. now rewrite scan_app, reach_scan. Qed.

Lemma reach_line :
  forall lines,
    (Z.of_nat (length lines) <= max_int)%Z -> line (reach lines) = Z.of_nat (length lines).
Proof.
  intros lines Hfit.
  destruct (scan_Warnings lines [] newParser (reach lines)) as [_ H];
    [exact Hfit | reflexivity | apply reach_scan | constructor | exact H].
Qed.

(** The opener of a documentation block and the description lines after
    it. *)
Lemma scan_opener_description :
  forall p o v n ds,
    state p = stateTop ->
    blockOpener o = Some (v, n) ->
    forallb isTextLine ds = true ->
    exists q,
      scan p (o :: ds) = Done q
      /\ state q = stateSheblock
      /\ pendingBlock q = Some (Block.new v n (int_succ (line p)))
      /\ blockDesc q = map textOf ds
      /\ line q = lineAfter (length ds) (int_succ (line p))
      /\ doc q = doc p.
Proof.
  intros p o v n ds Hst Ho Hds.
  cbn [scan]. unfold step. change (state (set_line _ p)) with (state p).
  rewrite Hst. cbv zeta. rewrite (handleTop_blockOpener _ o v n Ho). cbn [bind].
  rewrite scan_description_lines; [|reflexivity|reflexivity|reflexivity|exact Hds].
  eexists. split; [reflexivity|]. repeat split.
Qed.

(** Tag lines up to the end of the input, and up to a close marker. *)
Lemma parse_tag_lines :
  forall ls p b,
    state p = stateSheblock -> pendingBlock p = Some b ->
    forallb isTagLine ls = true ->
    exists q,
      parse p ls = Done q
      /\ doc q = Document.set_Blocks
                   (Document.Blocks (doc p)
                      ++ [finished (blockDesc p) (attachAll (recordsOf (line p) ls) b)])
                   (Document.set_Warnings
                      (Document.Warnings (doc p) ++ warningsOf (line p) ls) (doc p)).
Proof.
  intros ls p b Hst Hp Hall.
  destruct (scan_tag_lines ls p b Hst Hp Hall) as [p1 [Hs [Hst1 [Hp1 [Hd1 Hb1]]]]].
  unfold parse. rewrite Hs. cbn [bind]. unfold atEOF. rewrite Hst1.
  rewrite (pendingBlock_finalize _ _ Hp1). cbn [bind].
  eexists. split; [reflexivity|].
  unfold finalizeBlock, finished. simpl. rewrite Hd1, Hb1. reflexivity.
Qed.

Lemma scan_tag_lines_close :
  forall ls p b c,
    state p = stateSheblock -> pendingBlock p = Some b ->
    forallb isTagLine ls = true -> MatchString reBlockClose c = true ->
    exists q,
      scan p (ls ++ [c]) = Done q
      /\ state q = stateTop
      /\ doc q = Document.set_Blocks
                   (Document.Blocks (doc p)
                      ++ [finished (blockDesc p) (attachAll (recordsOf (line p) ls) b)])
                   (Document.set_Warnings
                      (Document.Warnings (doc p) ++ warningsOf (line p) ls) (doc p)).
Proof.
  intros ls p b c Hst Hp Hall Hc.
  destruct (scan_tag_lines ls p b Hst Hp Hall) as [p1 [Hs [Hst1 [Hp1 [Hd1 Hb1]]]]].
  rewrite scan_app, Hs. cbn [bind scan].
  rewrite (step_close p1 _ c Hst1 Hp1 Hc). cbn [bind].
  eexists. split; [reflexivity|]. split; [reflexivity|].
  unfold finalizeBlock, finished. simpl. rewrite Hd1, Hb1. reflexivity.
Qed.

(** What the rest of the input can still do to the document: warnings are
    only appended, and a block of the document is only bound to a
    function. *)
Lemma boundOf_refl : forall x, boundOf x x.
Proof. intro x. now left. Qed.

Lemma boundOf_trans : forall x y z, boundOf x y -> boundOf y z -> boundOf x z.
Proof.
  intros x y z [->|[Hx [f [Hf ->]]]] H; [exact H|].
  destruct H as [->|[Hy _]].
  - right. split; [exact Hx|]. now exists f.
  - destruct x. simpl in Hy. congruence.
Qed.

Lemma step_boundOf :
  forall p l q i x,
    step p l = Done q ->
    nth_error (Document.Blocks (doc p)) i = Some x ->
    exists x', nth_error (Document.Blocks (doc q)) i = Some x' /\ boundOf x x'.
Proof.
  intros p l q i x Hs Hn.
  assert (Hi : i < length (Document.Blocks (doc p)))
    by (apply nth_error_Some; congruence).
  destruct (step_blocks p l q Hs) as [ext [Hext [E|[Hf E]]]]; rewrite E.
  - exists x. split; [|apply boundOf_refl]. now rewrite nth_error_app1.
  - assert (Hn' : nth_error (Document.Blocks (doc p) ++ ext) i = Some x)
      by (now rewrite nth_error_app1).
    destruct (nth_error_updLast (bindFunc (matchFuncDecl l)) _ i x Hn')
      as [[_ H2]|[_ H2]]; rewrite H2.
    + eexists. split; [reflexivity|]. unfold bindFunc.
      destruct (isEmpty (Block.FunctionName x)) eqn:Ef; [|apply boundOf_refl].
      right. apply isEmpty_true in Ef. split; [exact Ef|].
      now exists (matchFuncDecl l).
    + exists x. split; [reflexivity | apply boundOf_refl].
Qed.

Lemma scan_rest :
  forall ls p q i x,
    scan p ls = Done q ->
    nth_error (Document.Blocks (doc p)) i = Some x ->
    (exists w, Document.Warnings (doc q) = Document.Warnings (doc p) ++ w)
    /\ exists x', nth_error (Document.Blocks (doc q)) i = Some x' /\ boundOf x x'.
Proof.
  induction ls as [|l ls IH]; intros p q i x Hs Hn.
  - injection Hs as <-. split; [exists []; now rewrite app_nil_r|].
    exists x. split; [exact Hn | apply boundOf_refl].
  - simpl in Hs. destruct (step p l) as [p1|] eqn:H1; [|discriminate].
    simpl in Hs.
    destruct (step_boundOf _ _ _ _ _ H1 Hn) as [x1 [Hn1 Hb1]].
    destruct (IH _ _ _ _ Hs Hn1) as [[w Hw] [x' [Hn' Hb']]].
    destruct (step_Warnings _ _ _ H1) as [w1 [Hw1 _]].
    split.
    + exists (w1 ++ w). now rewrite Hw, Hw1, app_assoc.
    + exists x'. split; [exact Hn'|]. exact (boundOf_trans _ _ _ Hb1 Hb').
Qed.

Lemma atEOF_rest :
  forall p q i x,
    atEOF p = Done q ->
    nth_error (Document.Blocks (doc p)) i = Some x ->
    (exists w, Document.Warnings (doc q) = Document.Warnings (doc p) ++ w)
    /\ nth_error (Document.Blocks (doc q)) i = Some x.
Proof.
  intros p q i x H Hn.
  assert (Hi : i < length (Document.Blocks (doc p)))
    by (apply nth_error_Some; congruence).
  split.
  - destruct (atEOF_Warnings _ _ H) as [->|[_ [e ->]]]; eexists;
      [now rewrite app_nil_r | reflexivity].
  - unfold atEOF in H. destruct (state p).
    + now injection H as <-.
    + injection H as <-. now rewrite finalizeShedoc_Blocks.
    + destruct (finalizeCurrentTag p) as [q0|] eqn:Hq; [|discriminate].
      simpl in H. injection H as <-.
      destruct (finalizeBlock_blocks q0) as [ext [_ ->]].
      rewrite (finalizeCurrentTag_doc _ _ Hq). now rewrite nth_error_app1.
Qed.

(** A closed block of tag lines and the rest of the input. *)
Lemma ParseReader_block :
  forall pre ls c post b,
    state (reach pre) = stateSheblock ->
    pendingBlock (reach pre) = Some b ->
    forallb isTagLine ls = true ->
    MatchString reBlockClose c = true ->
    exists d w x,
      ParseReader (pre ++ ls ++ [c] ++ post) = Done (d, None)
      /\ Document.Warnings d
         = Document.Warnings (doc (reach pre)) ++ warningsOf (line (reach pre)) ls ++ w
      /\ nth_error (Document.Blocks d) (length (Document.Blocks (doc (reach pre))))
         = Some x
      /\ boundOf (finished (blockDesc (reach pre))
                    (attachAll (recordsOf (line (reach pre)) ls) b)) x
      /\ (post = [] ->
          d = Document.set_Blocks
                (Document.Blocks (doc (reach pre))
                   ++ [finished (blockDesc (reach pre))
                         (attachAll (recordsOf (line (reach pre)) ls) b)])
                (Document.set_Warnings
                   (Document.Warnings (doc (reach pre))
                      ++ warningsOf (line (reach pre)) ls) (doc (reach pre)))).
Proof.
  intros pre ls c post b Hst Hp Hall Hc.
  unfold ParseReader, parse.
  rewrite scan_reach, app_assoc, scan_app.
  destruct (scan_tag_lines_close ls _ b c Hst Hp Hall Hc) as [p1 [Hs [Hst1 Hd1]]].
  rewrite Hs. cbn [bind].
  assert (HI : Inv p1).
  { destruct (scan_total (ls ++ [c]) _ (reach_Inv pre)) as [p' [Hs' HI]].
    rewrite Hs in Hs'. now injection Hs' as <-. }
  destruct (scan_total post p1 HI) as [p2 [Hs2 HI2]]. rewrite Hs2. cbn [bind].
  destruct (atEOF_total p2 HI2) as [p3 Hs3]. rewrite Hs3. cbn [bind].
  set (B := finished _ _) in *.
  assert (Hn1 : nth_error (Document.Blocks (doc p1))
                          (length (Document.Blocks (doc (reach pre)))) = Some B).
  { rewrite Hd1. cbn. apply nth_error_middle. }
  destruct (scan_rest _ _ _ _ _ Hs2 Hn1) as [[w2 Hw2] [x [Hn2 Hb2]]].
  destruct (atEOF_rest _ _ _ _ Hs3 Hn2) as [[w3 Hw3] Hn3].
  exists (doc p3), (w2 ++ w3), x.
  split; [reflexivity|]. split; [|split; [exact Hn3 | split; [exact Hb2|]]].
  - rewrite Hw3, Hw2, Hd1. cbn. now rewrite <- !app_assoc.
  - intros ->. injection Hs2 as <-. unfold atEOF in Hs3. rewrite Hst1 in Hs3.
    injection Hs3 as <-. exact Hd1.
Qed.

(** The records and the warnings of tag lines, line by line. *)
Lemma recordsOf_In :
  forall ls ln n r,
    In (n, r) (recordsOf ln ls)
    <-> exists k l t,
          nth_error ls k = Some l /\ tagOfLine l = Some (n, t)
          /\ parseTag n t (lineAfter (S k) ln) = Ok r.
Proof.
  induction ls as [|l ls IH]; intros ln n r.
  - split; [intros [] | intros [k [l [t [H _]]]]; destruct k; discriminate].
  - cbn [recordsOf]. split.
    + intro H.
      assert (Rest : In (n, r) (recordsOf (int_succ ln) ls) ->
                     exists k l0 t,
                       nth_error (l :: ls) k = Some l0 /\ tagOfLine l0 = Some (n, t)
                       /\ parseTag n t (lineAfter (S k) ln) = Ok r).
      { intro H'. apply IH in H'. destruct H' as [k [l0 [t [H1 [H2 H3]]]]].
        exists (S k), l0, t. rewrite lineAfter_S. now repeat split. }
      destruct (tagOfLine l) as [[n0 t0]|] eqn:Et; [|now apply Rest].
      destruct (parseTag n0 t0 (int_succ ln)) as [r0|e] eqn:Ep; [|now apply Rest].
      destruct H as [H|H]; [|now apply Rest].
      injection H as <- <-. exists 0, l, t0. now repeat split.
    + intros [k [l0 [t [H1 [H2 H3]]]]]. destruct k as [|k].
      * injection H1 as <-. rewrite H2. change (lineAfter 1 ln) with (int_succ ln) in H3.
        rewrite H3. now left.
      * assert (H : In (n, r) (recordsOf (int_succ ln) ls)).
        { apply IH. exists k, l0, t. rewrite lineAfter_S in H3. now repeat split. }
        destruct (tagOfLine l) as [[n0 t0]|]; [|exact H].
        destruct (parseTag n0 t0 (int_succ ln)); [now right | exact H].
Qed.

Lemma warningsOf_In :
  forall ls ln w,
    In w (warningsOf ln ls)
    <-> exists k l n t e,
          nth_error ls k = Some l /\ tagOfLine l = Some (n, t)
          /\ parseTag n t (lineAfter (S k) ln) = Err e
          /\ w = Warning.mk (lineAfter (S k) ln) e.
Proof.
  induction ls as [|l ls IH]; intros ln w.
  - split; [intros [] | intros [k [l [n [t [e [H _]]]]]]; destruct k; discriminate].
  - cbn [warningsOf]. split.
    + intro H.
      assert (Rest : In w (warningsOf (int_succ ln) ls) ->
                     exists k l0 n t e,
                       nth_error (l :: ls) k = Some l0 /\ tagOfLine l0 = Some (n, t)
                       /\ parseTag n t (lineAfter (S k) ln) = Err e
                       /\ w = Warning.mk (lineAfter (S k) ln) e).
      { intro H'. apply IH in H'. destruct H' as [k [l0 [n [t [e [H1 [H2 [H3 H4]]]]]]]].
        exists (S k), l0, n, t, e. rewrite lineAfter_S. now repeat split. }
      destruct (tagOfLine l) as [[n0 t0]|] eqn:Et; [|now apply Rest].
      destruct (parseTag n0 t0 (int_succ ln)) as [r0|e] eqn:Ep; [now apply Rest|].
      destruct H as [H|H]; [|now apply Rest].
      exists 0, l, n0, t0, e. now repeat split.
    + intros [k [l0 [n [t [e [H1 [H2 [H3 H4]]]]]]]]. destruct k as [|k].
      * injection H1 as <-. rewrite H2. change (lineAfter 1 ln) with (int_succ ln) in H3, H4.
        rewrite H3. left. now symmetry.
      * assert (H : In w (warningsOf (int_succ ln) ls)).
        { apply IH. exists k, l0, n, t, e. rewrite lineAfter_S in H3, H4.
          now repeat split. }
        destruct (tagOfLine l) as [[n0 t0]|]; [|exact H].
        destruct (parseTag n0 t0 (int_succ ln)); [exact H | now right].
Qed.

(** A record of a collection field stays in the block whatever is
    attached next. *)
Lemma held_kept :
  forall n r b x,
    In x (held b) -> singularTag (kindOf x) = false -> In x (held (attach n r b)).
Proof.
  intros n r b x H Hx. unfold held in *.
  rewrite attach_Flags, attach_Options, attach_Operands, attach_Env, attach_Reads,
    attach_Stdin, attach_Exit, attach_Stdout, attach_Stderr, attach_Sets,
    attach_Writes, attach_Deprecated.
  rewrite !in_app_iff in *. rewrite !map_app, !in_app_iff.
  destruct H as [H|[H|[H|[H|[H|[H|[H|[H|[H|[H|[H|H]]]]]]]]]]];
    try (apply in_map_iff in H; destruct H as [v [<- _]]; discriminate);
    auto 30.
Qed.

Lemma attachAll_kept :
  forall recs b x,
    In x (held b) -> singularTag (kindOf x) = false -> In x (held (attachAll recs b)).
Proof.
  induction recs as [|[n r] recs IH]; intros b x H Hx; [exact H|].
  unfold attachAll in *. cbn [fold_left fst snd]. apply IH; [|exact Hx].
  now apply held_kept.
Qed.

Lemma attachAll_held :
  forall recs b r,
    In (kindOf r, r) recs -> singularTag (kindOf r) = false ->
    In r (held (attachAll recs b)).
Proof.
  induction recs as [|[n0 r0] recs IH]; intros b r H Hr; [destruct H|].
  unfold attachAll in *. cbn [fold_left fst snd].
  destruct H as [H|H].
  - injection H as -> ->. apply (attachAll_kept recs); [apply attach_held | exact Hr].
  - now apply IH.
Qed.

Lemma lineAfter_of_nat :
  forall k m,
    (Z.of_nat (m + k) <= max_int)%Z -> lineAfter k (Z.of_nat m) = Z.of_nat (m + k).
Proof.
  induction k as [|k IH]; intros m H.
  - now rewrite Nat.add_0_r.
  - rewrite lineAfter_S, int_succ_of_nat by lia.
    rewrite IH by (simpl; lia). f_equal. lia.
Qed.

Lemma reach_opener_description :
  forall pre o v n ds,
    state (reach pre) = stateTop ->
    blockOpener o = Some (v, n) ->
    forallb isTextLine ds = true ->
    state (reach (pre ++ o :: ds)) = stateSheblock
    /\ pendingBlock (reach (pre ++ o :: ds))
       = Some (Block.new v n (int_succ (line (reach pre))))
    /\ blockDesc (reach (pre ++ o :: ds)) = map textOf ds
    /\ line (reach (pre ++ o :: ds))
       = lineAfter (length ds) (int_succ (line (reach pre)))
    /\ doc (reach (pre ++ o :: ds)) = doc (reach pre).
Proof.
  intros pre o v n ds Hst Ho Hds.
  destruct (scan_opener_description _ o v n ds Hst Ho Hds) as [q [Hs H]].
  assert (E : reach (pre ++ o :: ds) = q)
    by (unfold reach at 1; now rewrite scan_reach, Hs).
  rewrite E. exact H.
Qed.

(* ================================================================= *)
(** ** Warnings never abort (C1) *)

(** C1.  [ParseReader] returns a Document and a nil error on every list of
    lines, so [Parse] fails only when the file cannot be opened.  Take any
    input in which, at the top level, a line [o] opens a documentation
    block that is made of description lines [ds] and tag lines [ls] and is
    closed by [c], whatever comes before and after.  The Document that
    [ParseReader] returns has, after the warnings of the lines before the
    block, the warnings of the tag lines of the block, and it has, after
    the blocks of the lines before, the block with its description and the
    records of its tag lines (the lines after the block can only bind it
    to a function).  Every tag line whose parser fails gives exactly one
    warning, which carries the number of that line, and no record; every
    other tag line gives its record, and the records of the collection
    fields are all held by the block (those of the singular fields replace
    one another).  As long as the number of lines fits the type int, the
    block carries the number (from 1) of its opener in the input and the
    warning of a tag line the number of that line. *)
Theorem C1_warnings_never_abort :
  (forall lines, exists d, ParseReader lines = Done (d, None))
  /\ (forall pre o v n ds ls c post,
         state (reach pre) = stateTop ->
         blockOpener o = Some (v, n) ->
         forallb isTextLine ds = true ->
         forallb isTagLine ls = true ->
         MatchString reBlockClose c = true ->
         let ln := int_succ (line (reach pre)) in
         let lt := lineAfter (length ds) ln in
         let blk := finished (map textOf ds)
                      (attachAll (recordsOf lt ls) (Block.new v n ln)) in
         exists d w x,
           ParseReader (pre ++ o :: ds ++ ls ++ [c] ++ post) = Done (d, None)
           /\ Document.Warnings d
              = Document.Warnings (doc (reach pre)) ++ warningsOf lt ls ++ w
           /\ nth_error (Document.Blocks d) (length (Document.Blocks (doc (reach pre))))
              = Some x
           /\ boundOf blk x
           /\ (post = [] ->
               d = Document.set_Blocks
                     (Document.Blocks (doc (reach pre)) ++ [blk])
                     (Document.set_Warnings
                        (Document.Warnings (doc (reach pre)) ++ warningsOf lt ls)
                        (doc (reach pre)))))
  /\ (forall pre ls c post b,
         state (reach pre) = stateSheblock ->
         pendingBlock (reach pre) = Some b ->
         forallb isTagLine ls = true ->
         MatchString reBlockClose c = true ->
         exists d w x,
           ParseReader (pre ++ ls ++ [c] ++ post) = Done (d, None)
           /\ Document.Warnings d
              = Document.Warnings (doc (reach pre))
                  ++ warningsOf (line (reach pre)) ls ++ w
           /\ nth_error (Document.Blocks d) (length (Document.Blocks (doc (reach pre))))
              = Some x
           /\ boundOf (finished (blockDesc (reach pre))
                         (attachAll (recordsOf (line (reach pre)) ls) b)) x)
  /\ (forall ln ls,
         (forall w,
             In w (warningsOf ln ls)
             <-> exists k l n t e,
                   nth_error ls k = Some l /\ tagOfLine l = Some (n, t)
                   /\ parseTag n t (lineAfter (S k) ln) = Err e
                   /\ w = Warning.mk (lineAfter (S k) ln) e)
         /\ (forall n r,
                In (n, r) (recordsOf ln ls)
                <-> exists k l t,
                      nth_error ls k = Some l /\ tagOfLine l = Some (n, t)
                      /\ parseTag n t (lineAfter (S k) ln) = Ok r)
         /\ length (warningsOf ln ls) = countMalformed ln ls
         /\ (forallb isTagLine ls = true ->
             length (recordsOf ln ls) + countMalformed ln ls = length ls)
         /\ (forall b n r,
                In (n, r) (recordsOf ln ls) -> singularTag n = false ->
                In r (held (attachAll (recordsOf ln ls) b))))
  /\ (forall pre k,
         (Z.of_nat (length pre + k) <= max_int)%Z ->
         lineAfter k (line (reach pre)) = Z.of_nat (length pre + k))
  /\ (forall pre o ds ls k,
         (Z.of_nat (length (pre ++ o :: ds ++ ls)) <= max_int)%Z ->
         k < length ls ->
         int_succ (line (reach pre)) = Z.of_nat (length pre + 1)
         /\ nth_error (pre ++ o :: ds ++ ls) (length pre) = Some o
         /\ lineAfter (S k) (lineAfter (length ds) (int_succ (line (reach pre))))
            = Z.of_nat (length (pre ++ o :: ds) + k + 1)
         /\ nth_error (pre ++ o :: ds ++ ls) (length (pre ++ o :: ds) + k)
            = nth_error ls k)
  /\ (forall ls p b c,
         state p = stateSheblock ->
         pendingBlock p = Some b ->
         forallb isTagLine ls = true ->
         MatchString reBlockClose c = true ->
         exists p',
           scan p (ls ++ [c]) = Done p'
           /\ state p' = stateTop
           /\ Document.Blocks (doc p')
              = Document.Blocks (doc p)
                  ++ [finished (blockDesc p) (attachAll (recordsOf (line p) ls) b)]
           /\ Document.Warnings (doc p')
              = Document.Warnings (doc p) ++ warningsOf (line p) ls
           /\ length (warningsOf (line p) ls) = countMalformed (line p) ls
           /\ length (recordsOf (line p) ls) + countMalformed (line p) ls = length ls)
  /\ (forall p b l n t e,
         state p = stateSheblock ->
         pendingBlock p = Some b ->
         tagOfLine l = Some (n, t) ->
         parseTag n t (int_succ (line p)) = Err e ->
         exists p',
           step p l = Done p'
           /\ state p' = stateSheblock
           /\ pendingBlock p' = Some b
           /\ doc p' = Document.set_Warnings
                         (Document.Warnings (doc p)
                            ++ [Warning.mk (int_succ (line p)) e]) (doc p))
  /\ (forall open path,
         match open path with
         | Err e => Parse open path = Done (None, Some e)
         | Ok _ => exists d, Parse open path = Done (Some d, None)
         end).
Proof.
  split; [exact ParseReader_total|].
  split; [|split; [|split; [|split; [|split; [|split; [|split]]]]]].
  - intros pre o v n ds ls c post Hst Ho Hds Hall Hc ln lt blk.
    destruct (reach_opener_description pre o v n ds Hst Ho Hds)
      as [Hst1 [Hp1 [Hb1 [Hl1 Hd1]]]].
    destruct (ParseReader_block (pre ++ o :: ds) ls c post _ Hst1 Hp1 Hall Hc)
      as [d [w [x [H1 [H2 [H3 [H4 H5]]]]]]].
    rewrite Hb1, Hl1, Hd1 in *.
    exists d, w, x. split; [|now repeat split].
    rewrite <- H1. f_equal. now rewrite <- app_assoc.
  - intros pre ls c post b Hst Hp Hall Hc.
    destruct (ParseReader_block pre ls c post b Hst Hp Hall Hc)
      as [d [w [x [H1 [H2 [H3 [H4 _]]]]]]].
    exists d, w, x. now repeat split.
  - intros ln ls. split; [intro w; apply warningsOf_In|].
    split; [intros n r; apply recordsOf_In|].
    split; [apply warningsOf_count|]. split; [apply recordsOf_count|].
    intros b n r H Hn.
    assert (Hk : kindOf r = n).
    { apply recordsOf_In in H. destruct H as [k [l [t [_ [_ H]]]]].
      exact (parseTag_kindOf _ _ _ _ H). }
    subst n. now apply attachAll_held.
  - intros pre k Hfit. rewrite reach_line by lia. now apply lineAfter_of_nat.
  - intros pre o ds ls k Hfit Hk.
    rewrite !length_app in *. cbn [length] in *. rewrite length_app in Hfit.
    rewrite reach_line, int_succ_of_nat by lia.
    split; [f_equal; lia|]. split; [apply nth_error_middle|]. split.
    + rewrite !lineAfter_of_nat by lia. f_equal. lia.
    + replace (pre ++ o :: ds ++ ls) with ((pre ++ o :: ds) ++ ls)
        by (now rewrite <- app_assoc).
      rewrite nth_error_app2 by (rewrite length_app; simpl; lia).
      f_equal. rewrite length_app. simpl. lia.
  - intros ls p b c Hst Hp Hall Hc.
    destruct (scan_block ls p b c Hst Hp Hall Hc) as [p' [H1 [H2 [H3 H4]]]].
    exists p'. repeat split; try assumption.
    + apply warningsOf_count.
    + now apply recordsOf_count.
  - intros p b l n t e Hst Hp Hl He.
    rewrite (step_tag_line p b l n t Hst Hp Hl). simpl. rewrite He.
    eexists. split; [reflexivity|]. repeat split. exact Hst.
  - intros open path. unfold Parse.
    destruct (open path) as [lines|e]; [|reflexivity].
    destruct (ParseReader_total lines) as [d ->]. simpl. eauto.
Qed.

Lemma C1_witness :
  exists d,
    ParseReader (script ["#!/bin/sh"; "#@/command"; " # Builds the project.";
                         " # @flag -v Verbose"; " # @operand <name=x>"; " # @env HOME";
                         " ##"; "build() {"; "#?/nosuchtag x"]%string)
    = Done (d, None)
    /\ nth_error (Document.Blocks d) 0
       = Some (Block.set_FunctionName (lit "build")
                 (Block.set_Description (lit "Builds the project.")
                    (Block.set_Env [Env.mk (lit "HOME") [] 6]
                       (Block.set_Flags [Flag.mk (lit "-v") [] (lit "Verbose") 4]
                          (Block.new VisibilityCommand [] 2)))))
    /\ map Warning.Line (Document.Warnings d) = [5; 9]%Z.
Proof.
  pose (pre := script ["#!/bin/sh"]%string).
  pose (ds := script [" # Builds the project."]%string).
  pose (ls := script [" # @flag -v Verbose"; " # @operand <name=x>"; " # @env HOME"]%string).
  pose (post := script ["build() {"; "#?/nosuchtag x"]%string).
  assert (Hst : state (reach pre) = stateTop) by (vm_compute; reflexivity).
  assert (Ho : blockOpener (lit "#@/command") = Some (VisibilityCommand, []))
    by (vm_compute; reflexivity).
  assert (Hds : forallb isTextLine ds = true) by (vm_compute; reflexivity).
  assert (Hall : forallb isTagLine ls = true) by (vm_compute; reflexivity).
  assert (Hc : MatchString reBlockClose (lit " ##") = true) by (vm_compute; reflexivity).
  destruct (proj1 (proj2 C1_warnings_never_abort) pre _ _ _ ds ls _ post Hst Ho Hds Hall Hc)
    as [d [w [x [H1 _]]]].
  exists d. split; [exact H1|].
  vm_compute in H1. injection H1 as <-. vm_compute. split; reflexivity.
Defined.

(* ================================================================= *)
(** ** End of input inside a block (C4) *)

Lemma setShedocMeta_get :
  forall tag value p,
    snd (getMetaField (Document.Meta (doc p)) tag) = true ->
    getMetaField (Document.Meta (doc (setShedocMeta tag value p))) tag = (value, true).
Proof.
  intros tag value [[path sheb [a1 a2 a3 a4 a5 a6 a7 a8] blocks warns]
                      ln st stag sl blk desc it ct cr tc].
  unfold setShedocMeta, getMetaField at 1. cbn [doc Document.Meta].
  repeat match goal with
         | |- context [tag == ?k] =>
             let E := fresh "E" in
             destruct (tag == k) eqn:E;
             [ apply eqs_eq in E; subst tag; intros _; reflexivity | ]
         end.
  discriminate.
Qed.

Lemma setShedocMeta_known_line :
  forall tag value x p,
    snd (getMetaField (Document.Meta (doc p)) tag) = true ->
    doc (setShedocMeta tag value (set_line x p)) = doc (setShedocMeta tag value p).
Proof.
  intros tag value x [dd ln st stag sl blk desc it ct cr tc].
  unfold setShedocMeta, getMetaField.
  cbn [doc line set_line state shedocTag shedocLines block blockDesc inTags
       currentTag currentResult tagContLines].
  repeat match goal with
         | |- context [tag == ?k] => destruct (tag == k); [reflexivity|]
         end.
  discriminate.
Qed.

(** The opener of a metadata block and the continuation lines after
    it. *)
Lemma reach_metaOpener :
  forall pre o tag ls,
    state (reach pre) = stateTop ->
    metaOpener o = Some tag ->
    forallb isContinuationLine ls = true ->
    reach (pre ++ o :: ls)
    = set_shedocLines (map textOf ls)
        (set_shedocTag tag
           (set_state stateShedoc
              (set_line (lineAfter (S (length ls)) (line (reach pre))) (reach pre)))).
Proof.
  intros pre o tag ls Hst Ho Hall.
  unfold reach at 1. rewrite scan_reach.
  cbn [scan]. unfold step. change (state (set_line _ (reach pre))) with (state (reach pre)).
  rewrite Hst. cbv zeta. rewrite (handleTop_metaOpener _ o tag Ho). cbn [bind].
  rewrite scan_shedoc_lines; [|reflexivity | exact Hall].
  rewrite lineAfter_S. reflexivity.
Qed.

Lemma ParseReader_metadata_block :
  forall pre o tag ls c,
    state (reach pre) = stateTop ->
    metaOpener o = Some tag ->
    forallb isContinuationLine ls = true ->
    MatchString reBlockClose c = true ->
    ParseReader (pre ++ o :: ls)
    = Done (doc (setShedocMeta tag (Join (map textOf ls) nl)
                   (set_line (lineAfter (S (length ls)) (line (reach pre))) (reach pre))),
            None)
    /\ ParseReader (pre ++ o :: ls ++ [c])
       = Done (doc (setShedocMeta tag (Join (map textOf ls) nl)
                      (set_line (lineAfter (S (S (length ls))) (line (reach pre)))
                                (reach pre))),
               None).
Proof.
  intros pre o tag ls c Hst Ho Hall Hc.
  pose proof (reach_metaOpener pre o tag ls Hst Ho Hall) as Hr.
  pose proof (metaOpener_tag o tag Ho) as Htag. apply isEmpty_false in Htag.
  split.
  - unfold ParseReader, parse. rewrite reach_scan, Hr. cbn [bind].
    unfold atEOF. cbn [state set_shedocLines set_shedocTag set_state bind].
    unfold finalizeShedoc. cbn [shedocTag shedocLines set_shedocLines set_shedocTag].
    rewrite Htag. cbn [negb doc set_shedocLines set_shedocTag].
    do 2 f_equal. apply setShedocMeta_doc; reflexivity.
  - unfold ParseReader, parse.
    replace (pre ++ o :: ls ++ [c]) with ((pre ++ o :: ls) ++ [c])
      by (now rewrite <- app_assoc).
    rewrite scan_app, reach_scan, Hr. cbn [bind scan].
    unfold step. cbv beta zeta.
    cbn [state set_shedocLines set_shedocTag set_state set_line].
    unfold handleShedoc. rewrite Hc. cbn [bind].
    unfold atEOF. cbn [state set_state bind].
    unfold finalizeShedoc. cbv beta zeta.
    cbn [shedocTag shedocLines set_shedocLines set_shedocTag set_line].
    rewrite Htag. cbn [negb doc set_shedocLines set_shedocTag set_state].
    do 2 f_equal. apply setShedocMeta_doc; [reflexivity|].
    cbn [line set_line set_shedocLines set_shedocTag set_state].
    reflexivity.
Qed.

Lemma ParseReader_open_block :
  forall pre ls b,
    state (reach pre) = stateSheblock ->
    pendingBlock (reach pre) = Some b ->
    forallb isTagLine ls = true ->
    ParseReader (pre ++ ls)
    = Done (Document.set_Blocks
              (Document.Blocks (doc (reach pre))
                 ++ [finished (blockDesc (reach pre))
                       (attachAll (recordsOf (line (reach pre)) ls) b)])
              (Document.set_Warnings
                 (Document.Warnings (doc (reach pre))
                    ++ warningsOf (line (reach pre)) ls) (doc (reach pre))),
            None).
Proof.
  intros pre ls b Hst Hp Hall.
  destruct (parse_tag_lines ls _ b Hst Hp Hall) as [q [Hq Hd]].
  unfold ParseReader. unfold parse in *. rewrite scan_reach.
  destruct (scan (reach pre) ls) as [p1|]; [|discriminate].
  cbn [bind] in *. rewrite Hq. cbn [bind]. now rewrite Hd.
Qed.

(** C4.  When the input ends inside a metadata block or a documentation
    block, [ParseReader] returns (no error, no panic) a Document with the
    same path, shebang, Meta fields and Blocks, and the same warning
    messages, as on the same input followed by a close marker; for a
    documentation block the two Documents are equal.  (For a metadata
    block only the line number of the warning about an unknown tag name can
    differ: it is the number of the last line read.)  Nothing is lost: in
    a documentation block the Document has, after the blocks of the lines
    before, the block being built, with the pending tag attached and with
    its description; when the block is made of description lines [ds] and
    tag lines [ls] after its opener [o], the Document is the one of the
    lines before with that block, which has the description lines joined by
    newlines and the records of the tag lines, and with one warning for
    each tag line whose parser fails; in a metadata block opened by [o]
    and made of the continuation lines [ls], the Document is the one of the
    lines before with the field of the tag set to the contents of the
    lines joined by newlines. *)
Theorem C4_unterminated_block :
  (forall (lines : list gostring) (c : gostring),
      MatchString reBlockClose c = true ->
      state (reach lines) <> stateTop ->
      exists d1 d2,
        ParseReader lines = Done (d1, None)
        /\ ParseReader (lines ++ [c]) = Done (d2, None)
        /\ Document.Path d2 = Document.Path d1
        /\ Document.Shebang d2 = Document.Shebang d1
        /\ Document.Meta d2 = Document.Meta d1
        /\ Document.Blocks d2 = Document.Blocks d1
        /\ map Warning.Message (Document.Warnings d2)
           = map Warning.Message (Document.Warnings d1)
        /\ (state (reach lines) = stateSheblock -> d2 = d1))
  /\ (forall lines b,
         state (reach lines) = stateSheblock ->
         pendingBlock (reach lines) = Some b ->
         ParseReader lines
         = Done (Document.set_Blocks
                   (Document.Blocks (doc (reach lines))
                      ++ [finished (blockDesc (reach lines)) b])
                   (doc (reach lines)),
                 None))
  /\ (forall pre o v n ds ls c,
         state (reach pre) = stateTop ->
         blockOpener o = Some (v, n) ->
         forallb isTextLine ds = true ->
         forallb isTagLine ls = true ->
         MatchString reBlockClose c = true ->
         let ln := int_succ (line (reach pre)) in
         let lt := lineAfter (length ds) ln in
         let d := Document.set_Blocks
                    (Document.Blocks (doc (reach pre))
                       ++ [finished (map textOf ds)
                             (attachAll (recordsOf lt ls) (Block.new v n ln))])
                    (Document.set_Warnings
                       (Document.Warnings (doc (reach pre)) ++ warningsOf lt ls)
                       (doc (reach pre))) in
         ParseReader (pre ++ o :: ds ++ ls) = Done (d, None)
         /\ ParseReader (pre ++ o :: ds ++ ls ++ [c]) = Done (d, None)
         /\ Block.Description (finished (map textOf ds)
                                 (attachAll (recordsOf lt ls) (Block.new v n ln)))
            = Join (map textOf ds) nl)
  /\ (forall pre o tag ls c,
         state (reach pre) = stateTop ->
         metaOpener o = Some tag ->
         forallb isContinuationLine ls = true ->
         MatchString reBlockClose c = true ->
         let value := Join (map textOf ls) nl in
         let d1 := doc (setShedocMeta tag value
                          (set_line (lineAfter (S (length ls)) (line (reach pre)))
                                    (reach pre))) in
         let d2 := doc (setShedocMeta tag value
                          (set_line (lineAfter (S (S (length ls))) (line (reach pre)))
                                    (reach pre))) in
         ParseReader (pre ++ o :: ls) = Done (d1, None)
         /\ ParseReader (pre ++ o :: ls ++ [c]) = Done (d2, None)
         /\ (snd (getMetaField (Document.Meta (doc (reach pre))) tag) = true ->
             getMetaField (Document.Meta d1) tag = (value, true)
             /\ d2 = d1)).
Proof.
  split; [|split; [|split]].
  - intros lines c Hc Hst.
    unfold ParseReader, parse.
    rewrite scan_app, !reach_scan. simpl bind.
    pose proof (reach_Inv lines) as HI.
    remember (reach lines) as p eqn:Ep. clear Ep.
    unfold atEOF at 1.
    destruct (state p) eqn:Hs; [now elim Hst | |].
    + (* metadata block *)
      unfold step. change (state (set_line _ p)) with (state p). rewrite Hs.
      unfold handleShedoc. rewrite Hc. simpl.
      do 2 eexists. split; [reflexivity|]. split; [reflexivity|].
      unfold finalizeShedoc. simpl.
      destruct (negb (isEmpty (shedocTag p))).
      * pose proof (setShedocMeta_set_line (shedocTag p)
                      (Join (shedocLines p) nl) (int_succ (line p)) p) as H.
        simpl in H. destruct H as [H1 [H2 [H3 [H4 H5]]]].
        repeat split; try assumption. intro; discriminate.
      * repeat split.
    + (* documentation block *)
      destruct (Inv_pendingBlock p HI Hs) as [b Hb].
      rewrite (step_close p b c Hs Hb Hc). simpl bind.
      rewrite (pendingBlock_finalize p b Hb). simpl bind.
      unfold atEOF. simpl.
      do 2 eexists. split; [reflexivity|]. split; [reflexivity|].
      unfold finalizeBlock. simpl. repeat split.
  - intros lines b Hst Hp.
    unfold ParseReader, parse. rewrite reach_scan. cbn [bind].
    unfold atEOF. rewrite Hst, (pendingBlock_finalize _ _ Hp). reflexivity.
  - intros pre o v n ds ls c Hst Ho Hds Hall Hc ln lt d.
    destruct (reach_opener_description pre o v n ds Hst Ho Hds)
      as [Hst1 [Hp1 [Hb1 [Hl1 Hd1]]]].
    split; [|split].
    + replace (pre ++ o :: ds ++ ls) with ((pre ++ o :: ds) ++ ls)
        by (now rewrite <- app_assoc).
      rewrite (ParseReader_open_block _ ls _ Hst1 Hp1 Hall).
      now rewrite Hb1, Hl1, Hd1.
    + destruct (ParseReader_block (pre ++ o :: ds) ls c [] _ Hst1 Hp1 Hall Hc)
        as [d' [w [x [H1 [_ [_ [_ H5]]]]]]].
      replace (pre ++ o :: ds ++ ls ++ [c]) with ((pre ++ o :: ds) ++ ls ++ [c] ++ [])
        by (now rewrite <- !app_assoc).
      rewrite H1, (H5 eq_refl). now rewrite Hb1, Hl1, Hd1.
    + unfold finished.
      destruct (map textOf ds) as [|x xs] eqn:E; [|reflexivity].
      cbn [isEmpty negb Join].
      generalize (recordsOf lt ls). intro recs.
      assert (G : forall b, Block.Description (attachAll recs b) = Block.Description b).
      { induction recs as [|[n0 r0] recs IH]; intro b; [reflexivity|].
        unfold attachAll in *. cbn [fold_left fst snd]. rewrite IH.
        now destruct (attach_header n0 r0 b) as [_ [_ [-> _]]]. }
      rewrite G. reflexivity.
  - intros pre o tag ls c Hst Ho Hall Hc value d1 d2.
    destruct (ParseReader_metadata_block pre o tag ls c Hst Ho Hall Hc) as [H1 H2].
    split; [exact H1|]. split; [exact H2|].
    intro Hk. split.
    + subst d1. now apply setShedocMeta_get.
    + subst d1 d2. rewrite !(setShedocMeta_known_line _ _ _ _ Hk). reflexivity.
Qed.

(** The warning about an unknown metadata tag carries the number of the
    line on which the block is finalized: the last line of the input, or
    the close marker. *)
Example unknown_metadata_tag_at_EOF :
  ParseReader (script ["#?/bogus"; " # text"]%string)
  = Done (Document.mk [] [] Meta.zero []
            [Warning.mk 2 (Msgf "unknown shedoc tag: #?/%s" [lit "bogus"])], None)
  /\ ParseReader (script ["#?/bogus"; " # text"; " ##"]%string)
     = Done (Document.mk [] [] Meta.zero []
               [Warning.mk 3 (Msgf "unknown shedoc tag: #?/%s" [lit "bogus"])], None).
Proof. split; vm_compute; reflexivity. Qed.

Lemma C4_witness :
  exists d,
    ParseReader (script ["#@/command"; " # A command with no closing marker";
                         " # @flag -v | --verbose Verbose"]%string)
    = Done (d, None)
    /\ ParseReader (script ["#@/command"; " # A command with no closing marker";
                            " # @flag -v | --verbose Verbose"; " ##"]%string)
       = Done (d, None)
    /\ Document.Blocks d
       = [Block.set_Description (lit "A command with no closing marker")
            (Block.set_Flags [Flag.mk (lit "-v") (lit "--verbose") (lit "Verbose") 3]
               (Block.new VisibilityCommand [] 1))].
Proof.
  assert (Hst : state (reach []) = stateTop) by reflexivity.
  assert (Ho : blockOpener (lit "#@/command") = Some (VisibilityCommand, []))
    by (vm_compute; reflexivity).
  assert (Hds : forallb isTextLine (script [" # A command with no closing marker"]%string)
                = true) by (vm_compute; reflexivity).
  assert (Hall : forallb isTagLine (script [" # @flag -v | --verbose Verbose"]%string)
                 = true) by (vm_compute; reflexivity).
  assert (Hc : MatchString reBlockClose (lit " ##") = true) by (vm_compute; reflexivity).
  destruct (proj1 (proj2 (proj2 C4_unterminated_block)) [] _ _ _ _ _ _ Hst Ho Hds Hall Hc)
    as [H1 [H2 _]].
  eexists. split; [exact H1|]. split; [exact H2|]. vm_compute. reflexivity.
Defined.

(* ================================================================= *)
(** ** White space next to ASCII characters *)

(** No white-space rune of more than one byte holds an ASCII byte. *)
Lemma plain_space :
  forall c, (code c <? 128) = true ->
            (forall x, space2 c x = false)
            /\ (forall x, space2 x c = false)
            /\ (forall x y, space3 c x y = false)
            /\ (forall x y, space3 x c y = false)
            /\ (forall x y, space3 x y c = false).
Proof.
  intros c H. apply Nat.ltb_lt in H.
  assert (E : forall k, 127 < k -> (code c =? k) = false)
    by (intros k Hk; apply Nat.eqb_neq; lia).
  assert (L : (128 <=? code c) = false) by (apply Nat.leb_gt; lia).
  unfold space2, space3.
  repeat split; intros;
    rewrite ?L, ?E by lia; simpl;
    rewrite ?andb_false_r, ?orb_false_r; reflexivity.
Qed.

Lemma blank_plain : forall c, isBlankTab c = true -> (code c <? 128) = true.
Proof.
  intros c H. unfold isBlankTab in H.
  apply orb_true_iff in H as [H|H]; apply Nat.eqb_eq in H; now rewrite H.
Qed.

(** [TrimLeft] on a text followed by an ASCII character. *)
Lemma TrimLeft_app_plain :
  forall n v c S,
    length v <= n -> (code c <? 128) = true ->
    TrimLeft (v ++ c :: S)
    = if isEmpty (TrimLeft v) then TrimLeft (c :: S) else TrimLeft v ++ c :: S.
Proof.
  induction n as [|n IH]; intros v c S Hn Hc.
  - destruct v; [reflexivity | simpl in Hn; lia].
  - destruct (plain_space c Hc) as [_ [P2 [_ [P3 P4]]]].
    destruct v as [|c1 v1]; [reflexivity|].
    simpl in Hn. cbn [app]. cbn [TrimLeft].
    destruct (asciiSpace c1) eqn:E1; [apply IH; [lia | exact Hc]|].
    destruct v1 as [|c2 v2].
    { cbn [app]. rewrite P2. destruct S as [|c3 S]; [reflexivity|].
      now rewrite P3. }
    cbn [app].
    destruct (space2 c1 c2) eqn:E2; [apply IH; [simpl in Hn; lia | exact Hc]|].
    destruct v2 as [|c3 v3].
    { cbn [app]. now rewrite P4. }
    cbn [app].
    destruct (space3 c1 c2 c3) eqn:E3; [apply IH; [simpl in Hn; lia | exact Hc]|].
    reflexivity.
Qed.

(** [TrimRightRev] (the trimming of the end, on the reversed text) when
    an ASCII character precedes the end of the text. *)
Lemma TrimRightRev_app_plain :
  forall n r c S,
    length r <= n -> (code c <? 128) = true ->
    TrimRightRev (r ++ c :: S)
    = if isEmpty (TrimRightRev r) then TrimRightRev (c :: S) else TrimRightRev r ++ c :: S.
Proof.
  induction n as [|n IH]; intros r c S Hn Hc.
  - destruct r; [reflexivity | simpl in Hn; lia].
  - destruct (plain_space c Hc) as [P1 [_ [P2 [P3 _]]]].
    destruct r as [|c1 r1]; [reflexivity|].
    simpl in Hn. cbn [app]. cbn [TrimRightRev].
    destruct (asciiSpace c1) eqn:E1; [apply IH; [lia | exact Hc]|].
    destruct r1 as [|c2 r2].
    { cbn [app]. rewrite P1. destruct S as [|c3 S]; [reflexivity|].
      now rewrite P3. }
    cbn [app].
    destruct (space2 c2 c1) eqn:E2; [apply IH; [simpl in Hn; lia | exact Hc]|].
    destruct r2 as [|c3 r3].
    { cbn [app]. now rewrite P2. }
    cbn [app].
    destruct (space3 c3 c2 c1) eqn:E3; [apply IH; [simpl in Hn; lia | exact Hc]|].
    reflexivity.
Qed.

(** White space in front of any text is removed with the white space of
    the text. *)
Lemma TrimLeft_app_white :
  forall n u S, length u <= n -> TrimLeft u = [] -> TrimLeft (u ++ S) = TrimLeft S.
Proof.
  induction n as [|n IH]; intros u S Hn Hu.
  - destruct u; [reflexivity | simpl in Hn; lia].
  - destruct u as [|c1 u1]; [reflexivity|].
    simpl in Hn. cbn [app]. cbn [TrimLeft] in *.
    destruct (asciiSpace c1) eqn:E1; [apply IH; [lia | exact Hu]|].
    destruct u1 as [|c2 u2]; [discriminate|].
    cbn [app].
    destruct (space2 c1 c2) eqn:E2; [apply IH; [simpl in Hn; lia | exact Hu]|].
    destruct u2 as [|c3 u3]; [discriminate|].
    cbn [app].
    destruct (space3 c1 c2 c3) eqn:E3; [apply IH; [simpl in Hn; lia | exact Hu]|].
    discriminate.
Qed.

Lemma TrimSpace_white_front :
  forall u s, TrimLeft u = [] -> TrimSpace (u ++ s) = TrimSpace s.
Proof.
  intros u s H. unfold TrimSpace. now rewrite (TrimLeft_app_white _ u s (le_n _) H).
Qed.

Lemma blanks_white : forall ws, blanks ws = true -> TrimLeft ws = [].
Proof.
  intros ws H. rewrite <- (app_nil_r ws). now rewrite (TrimLeft_blanks ws [] H).
Qed.

Lemma s_white : forall ws, forallb cls_s ws = true -> TrimLeft ws = [].
Proof.
  induction ws as [|c ws IH]; intro H; [reflexivity|].
  simpl in H. apply andb_true_iff in H as [Hc H].
  assert (Ha : asciiSpace c = true).
  { unfold cls_s in Hc. unfold asciiSpace.
    repeat (apply orb_true_iff in Hc as [Hc|Hc]);
      apply Nat.eqb_eq in Hc; now rewrite Hc. }
  cbn [TrimLeft]. rewrite Ha. now apply IH.
Qed.

(** Blanks and tabs around a text do not change what [TrimSpace]
    returns. *)
Lemma TrimSpace_blanks_back :
  forall v ws, blanks ws = true -> TrimSpace (v ++ ws) = TrimSpace v.
Proof.
  intros v [|c ws] H; [now rewrite app_nil_r|].
  assert (Hc : (code c <? 128) = true).
  { simpl in H. apply andb_true_iff in H as [H _]. now apply blank_plain. }
  unfold TrimSpace. rewrite (TrimLeft_app_plain _ v c ws (le_n _) Hc).
  destruct (TrimLeft v) as [|x y] eqn:E.
  - cbn [isEmpty]. now rewrite (blanks_white _ H).
  - cbn [isEmpty]. now apply TrimRight_blanks.
Qed.

Lemma TrimSpace_padded :
  forall ws1 v ws2,
    blanks ws1 = true -> blanks ws2 = true -> TrimSpace (ws1 ++ v ++ ws2) = TrimSpace v.
Proof.
  intros ws1 v ws2 H1 H2.
  rewrite (TrimSpace_white_front ws1 _ (blanks_white _ H1)).
  now apply TrimSpace_blanks_back.
Qed.

(** A text that begins with an ASCII character other than white space:
    trimming leaves that character, and the text in front of it when that
    text ends with an ASCII character. *)
Lemma stopL_plain :
  forall c s, (code c <? 128) = true -> asciiSpace c = false -> stopL (c :: s) = true.
Proof.
  intros c s Hc Ha. destruct (plain_space c Hc) as [P1 [_ [P2 _]]].
  cbn [stopL]. rewrite Ha. destruct s as [|c2 s]; [reflexivity|]. rewrite P1.
  destruct s as [|c3 s]; [reflexivity|]. now rewrite P2.
Qed.

Lemma TrimRightRev_snoc_plain :
  forall r c,
    (code c <? 128) = true -> asciiSpace c = false ->
    TrimRightRev (r ++ [c]) = TrimRightRev r ++ [c].
Proof.
  intros r c Hc Ha. rewrite (TrimRightRev_app_plain _ r c [] (le_n _) Hc).
  destruct (TrimRightRev r); [|reflexivity].
  cbn [isEmpty app TrimRightRev]. now rewrite Ha.
Qed.

Lemma TrimSpace_plain_hd :
  forall c s,
    (code c <? 128) = true -> asciiSpace c = false ->
    exists y, TrimSpace (c :: s) = c :: y.
Proof.
  intros c s Hc Ha. unfold TrimSpace.
  rewrite (stopL_TrimLeft _ (stopL_plain c s Hc Ha)).
  unfold TrimRight. cbn [rev]. rewrite (TrimRightRev_snoc_plain _ c Hc Ha).
  rewrite rev_app_distr. cbn [rev app]. eexists. reflexivity.
Qed.

Lemma TrimSpace_after_plain :
  forall M c s d,
    M <> [] -> stopL (M ++ c :: s) = true ->
    (code (last M d) <? 128) = true ->
    (code c <? 128) = true -> asciiSpace c = false ->
    TrimSpace (M ++ c :: s) = M ++ TrimSpace (c :: s).
Proof.
  intros M c s d HM HL Hd Hc Ha.
  unfold TrimSpace at 1. rewrite (stopL_TrimLeft _ HL).
  unfold TrimSpace. rewrite (stopL_TrimLeft _ (stopL_plain c s Hc Ha)).
  unfold TrimRight. rewrite rev_app_distr.
  destruct M as [|m M']; [congruence|].
  rewrite (last_rev_hd M' m d).
  rewrite (TrimRightRev_app_plain _ (rev (c :: s)) _ _ (le_n _) Hd).
  cbn [rev]. rewrite (TrimRightRev_snoc_plain _ c Hc Ha).
  destruct (TrimRightRev (rev s)) as [|a g]; cbn [app isEmpty];
    rewrite <- (last_rev_hd M' m d).
  - change (c :: rev (m :: M')) with ([c] ++ rev (m :: M')).
    now rewrite rev_app_distr, rev_involutive.
  - change (a :: (g ++ [c]) ++ rev (m :: M')) with ((a :: g ++ [c]) ++ rev (m :: M')).
    now rewrite rev_app_distr, rev_involutive.
Qed.

(* ================================================================= *)
(** ** Spellings separated by | (C9) *)

Lemma stopR_app_plain :
  forall r c S,
    r <> [] -> stopR r = true -> (code c <? 128) = true -> stopR (r ++ c :: S) = true.
Proof.
  intros r c S Hr H Hc. destruct (plain_space c Hc) as [P1 [_ [P2 [P3 _]]]].
  destruct r as [|c1 [|c2 [|c3 r]]]; [congruence| | |exact H].
  - cbn [stopR app] in *. rewrite P1. destruct S as [|c3 S]; [exact H|].
    rewrite P3. exact H.
  - cbn [stopR app] in *. rewrite P2. exact H.
Qed.

(** A trimmed text stays trimmed after a text that ends with an ASCII
    character. *)
Lemma TrimSpace_join :
  forall M t d,
    M <> [] -> stopL (M ++ t) = true -> (code (last M d) <? 128) = true ->
    t <> [] -> TrimSpace t = t ->
    TrimSpace (M ++ t) = M ++ t.
Proof.
  intros M t d HM HL Hd Ht Hfix.
  apply TrimSpace_fixed; [exact HL|].
  destruct (TrimSpace_spec t) as [_ [HR _]]. rewrite Hfix in HR.
  rewrite rev_app_distr. destruct M as [|m M']; [congruence|].
  rewrite (last_rev_hd M' m d).
  apply stopR_app_plain; [|exact HR | exact Hd].
  intro E. apply (f_equal (@rev ascii)) in E. rewrite rev_involutive in E.
  simpl in E. congruence.
Qed.

Lemma TrimSpace_prefix :
  forall x, stopL x = true -> exists post, x = TrimSpace x ++ post.
Proof.
  intros x HL. unfold TrimSpace. rewrite (stopL_TrimLeft _ HL). unfold TrimRight.
  destruct (TrimRightRev_spec _ (rev x) (le_n _)) as [_ [pre Hp]].
  exists (rev pre). rewrite <- rev_app_distr, <- Hp. now rewrite rev_involutive.
Qed.

Lemma dash_plain :
  (code "-"%char <? 128) = true /\ asciiSpace "-"%char = false.
Proof. split; reflexivity. Qed.

Lemma bar_plain :
  (code "|"%char <? 128) = true /\ asciiSpace "|"%char = false.
Proof. split; reflexivity. Qed.

Lemma blanks_last_plain :
  forall M ws d,
    blanks ws = true -> (ws = [] -> (code (last M d) <? 128) = true) ->
    (code (last (M ++ ws) d) <? 128) = true.
Proof.
  intros M ws d. revert M. induction ws as [|c ws IH]; intros M Hb HM.
  - rewrite app_nil_r. now apply HM.
  - simpl in Hb. apply andb_true_iff in Hb as [Hc Hb].
    replace (M ++ c :: ws) with ((M ++ [c]) ++ ws) by (now rewrite <- app_assoc).
    apply IH; [exact Hb|]. intros _. rewrite last_last. now apply blank_plain.
Qed.

Lemma HasPrefix_dashdash_blank :
  forall a c y,
    a <> [] -> isBlankTab c = true ->
    HasPrefix (a ++ c :: y) (lit "--") = HasPrefix a (lit "--").
Proof.
  intros [|c1 [|c2 a]] c y H Hc; [congruence| |].
  - change (Ascii.eqb "-" c1 && (Ascii.eqb "-" c && HasPrefix y [])
            = Ascii.eqb "-" c1 && false).
    assert (E : Ascii.eqb "-" c = false).
    { apply Ascii.eqb_neq. intros <-. discriminate. }
    rewrite E. now destruct (Ascii.eqb "-" c1).
  - change (Ascii.eqb "-" c1 && (Ascii.eqb "-" c2 && HasPrefix (a ++ c :: y) [])
            = Ascii.eqb "-" c1 && (Ascii.eqb "-" c2 && HasPrefix a [])).
    now destruct (a ++ c :: y), a.
Qed.

(** Trimming keeps the dashes at the front of a text. *)
Lemma TrimSpace_dashes :
  forall x,
    HasPrefix x (lit "-") = true ->
    (exists y, TrimSpace x = "-"%char :: y)
    /\ HasPrefix (TrimSpace x) (lit "--") = HasPrefix x (lit "--").
Proof.
  intros x H. apply HasPrefix_inv in H as [x' ->]. cbn [lit list_ascii_of_string app].
  destruct dash_plain as [Dp Da].
  destruct (TrimSpace_plain_hd "-"%char x' Dp Da) as [y Hy].
  split; [now exists y|].
  destruct x' as [|c2 x''].
  - reflexivity.
  - destruct (Ascii.eqb_spec "-"%char c2) as [<-|Hne].
    + change ("-"%char :: "-"%char :: x'') with (["-"%char] ++ "-"%char :: x'') at 1.
      rewrite (TrimSpace_after_plain ["-"%char] "-"%char x'' "-"%char);
        [|discriminate | now apply stopL_plain | reflexivity | exact Dp | exact Da].
      destruct (TrimSpace_plain_hd "-"%char x'' Dp Da) as [y' ->].
      now destruct y', x''.
    + destruct (TrimSpace_prefix ("-"%char :: c2 :: x'') (stopL_plain _ _ Dp Da))
        as [post Hp].
      rewrite Hy in *. apply Ascii.eqb_neq in Hne.
      cbn [HasPrefix lit list_ascii_of_string]. rewrite Hne.
      destruct y as [|c y]; [reflexivity|].
      cbn [app] in Hp. injection Hp as <- _.
      cbn [HasPrefix]. now rewrite Hne.
Qed.

Lemma consumeFlags_TrimSpace :
  forall t short long, consumeFlags (TrimSpace t) short long = consumeFlags t short long.
Proof. intros. unfold consumeFlags. now rewrite TrimSpace_idempotent. Qed.

(** The variable of the kind of the first spelling of a text does not
    matter: the loop overwrites it. *)
Lemma flagLoop_first_spelling :
  forall x s s' l l',
    HasPrefix x (lit "-") = true ->
    flagLoop x s l
    = flagLoop x (if HasPrefix x (lit "--") then s else s')
               (if HasPrefix x (lit "--") then l' else l).
Proof.
  intros x s s' l l' H.
  rewrite (proj2 (flagLoop_eq x s l)), (proj2 (flagLoop_eq x _ _)).
  unfold flagTurn.
  assert (E : isEmpty x = false) by (destruct x; [discriminate | reflexivity]).
  rewrite E, H. destruct (splitFirstToken x) as [name rest].
  destruct (HasPrefix x (lit "--")); reflexivity.
Qed.

(** A spelling followed by white space and a separator: the loop records
    it and goes on with the text after the separator. *)
Lemma flagLoop_separated :
  forall a ws1 ws2 x short long,
    noBlank a = true -> HasPrefix a (lit "-") = true ->
    ws1 <> [] -> blanks ws1 = true -> blanks ws2 = true ->
    HasPrefix x (lit "-") = true ->
    TrimSpace (a ++ ws1 ++ lit "|" ++ ws2 ++ x) = a ++ ws1 ++ lit "|" ++ ws2 ++ TrimSpace x
    /\ flagLoop (a ++ ws1 ++ lit "|" ++ ws2 ++ TrimSpace x) short long
       = flagLoop (TrimSpace x) (if longSpelling a then short else a)
                  (if longSpelling a then a else long).
Proof.
  intros a ws1 ws2 x short long Hna Hda Hw1 Hb1 Hb2 Hdx.
  destruct dash_plain as [Dp Da]. destruct bar_plain as [Bp Ba].
  destruct (TrimSpace_dashes x Hdx) as [[y Hy] _].
  apply HasPrefix_inv in Hda as [a' ->]. cbn [lit list_ascii_of_string app] in *.
  apply HasPrefix_inv in Hdx as [x' ->]. cbn [lit list_ascii_of_string app] in *.
  destruct ws1 as [|b0 ws1']; [congruence|].
  cbn [blanks forallb] in Hb1. apply andb_true_iff in Hb1 as [Hb0 Hb1].
  fold (blanks ws1') in Hb1.
  (* the text in front of the later spelling, and its last character *)
  set (M := "-"%char :: a' ++ (b0 :: ws1') ++ "|"%char :: ws2).
  assert (HM : forall z, "-"%char :: a' ++ (b0 :: ws1') ++ "|"%char :: ws2 ++ z = M ++ z).
  { intro z. unfold M. cbn [app]. f_equal.
    rewrite <- app_assoc. f_equal. cbn [app]. f_equal.
    now rewrite <- app_assoc. }
  assert (HlastM : (code (last M "-"%char) <? 128) = true).
  { unfold M.
    replace ("-"%char :: a' ++ (b0 :: ws1') ++ "|"%char :: ws2)
      with ((("-"%char :: a' ++ b0 :: ws1') ++ ["|"%char]) ++ ws2)
      by (cbn [app]; now rewrite <- !app_assoc).
    apply blanks_last_plain; [exact Hb2|]. intros _. now rewrite last_last. }
  assert (HlastB : (code (last ("|"%char :: ws2) "-"%char) <? 128) = true).
  { apply (blanks_last_plain ["|"%char] ws2 "-"%char Hb2). reflexivity. }
  assert (HneM : M <> []) by discriminate.
  assert (Hfix : TrimSpace ("-"%char :: y) = "-"%char :: y).
  { rewrite <- Hy. apply TrimSpace_idempotent. }
  split.
  { rewrite !HM.
    rewrite (TrimSpace_after_plain M "-"%char x' "-"%char HneM);
      [reflexivity | | exact HlastM | exact Dp | exact Da].
    unfold M. cbn [app]. now apply stopL_plain. }
  rewrite Hy.
  change ("-"%char :: a' ++ (b0 :: ws1') ++ "|"%char :: ws2 ++ "-"%char :: y)
    with (("-"%char :: a') ++ (b0 :: ws1') ++ lit "|" ++ ws2 ++ "-"%char :: y).
  set (T := ("-"%char :: a') ++ (b0 :: ws1') ++ lit "|" ++ ws2 ++ "-"%char :: y).
  assert (HTM : T = M ++ "-"%char :: y) by (unfold T; apply HM).
  assert (HTc : T = ("-"%char :: a') ++ b0 :: (ws1' ++ "|"%char :: ws2 ++ "-"%char :: y))
    by reflexivity.
  assert (Hsplit : splitFirstToken T
                   = ("-"%char :: a', ws1' ++ "|"%char :: ws2 ++ "-"%char :: y)).
  { unfold splitFirstToken. rewrite HTM.
    rewrite (TrimSpace_join M _ "-"%char HneM); [| |exact HlastM|discriminate|exact Hfix].
    - rewrite <- HTM, HTc. now rewrite (cut_app isBlankTab _ b0 _ Hna Hb0).
    - unfold M. cbn [app]. now apply stopL_plain. }
  assert (Hrest : TrimSpace (ws1' ++ "|"%char :: ws2 ++ "-"%char :: y)
                  = "|"%char :: ws2 ++ "-"%char :: y).
  { rewrite (TrimSpace_white_front ws1' _ (blanks_white _ Hb1)).
    change ("|"%char :: ws2 ++ "-"%char :: y) with (("|"%char :: ws2) ++ "-"%char :: y).
    apply (TrimSpace_join _ _ "-"%char);
      [discriminate | now apply stopL_plain | exact HlastB | discriminate | exact Hfix]. }
  assert (Hdd : HasPrefix T (lit "--") = HasPrefix ("-"%char :: a') (lit "--")).
  { rewrite HTc. apply HasPrefix_dashdash_blank; [discriminate | exact Hb0]. }
  rewrite (proj2 (flagLoop_eq _ _ _)). unfold flagTurn.
  assert (Hd1 : HasPrefix T (lit "-") = true).
  { rewrite HTc. rewrite HasPrefix_dash_app by discriminate.
    apply (HasPrefix_app (lit "-") a'). }
  assert (Hbar : HasPrefix ("|"%char :: ws2 ++ "-"%char :: y) (lit "|") = true).
  { change ("|"%char :: ws2 ++ "-"%char :: y) with (lit "|" ++ ws2 ++ "-"%char :: y).
    apply HasPrefix_app. }
  change (isEmpty T) with false. rewrite Hd1.
  cbv iota. rewrite Hsplit, Hrest, Hdd, Hbar.
  cbv iota. change (skipn 1 ("|"%char :: ws2 ++ "-"%char :: y)) with (ws2 ++ "-"%char :: y).
  rewrite (TrimSpace_white_front ws2 _ (blanks_white _ Hb2)), Hfix.
  unfold longSpelling. reflexivity.
Qed.

(** The text of a flag or option tag with an earlier spelling of the kind
    of its first spelling in front. *)
Lemma consumeFlags_separated :
  forall a ws1 ws2 x short long,
    noBlank a = true -> HasPrefix a (lit "-") = true ->
    ws1 <> [] -> blanks ws1 = true -> blanks ws2 = true ->
    HasPrefix x (lit "-") = true ->
    longSpelling x = longSpelling a ->
    consumeFlags (a ++ ws1 ++ lit "|" ++ ws2 ++ x) short long = consumeFlags x short long.
Proof.
  intros a ws1 ws2 x short long Hna Hda Hw1 Hb1 Hb2 Hdx Hk.
  destruct (flagLoop_separated a ws1 ws2 x short long Hna Hda Hw1 Hb1 Hb2 Hdx)
    as [HT HF].
  destruct (TrimSpace_dashes x Hdx) as [[y Hy] Hdd].
  unfold consumeFlags. rewrite HT, HF.
  assert (Hd1 : HasPrefix (TrimSpace x) (lit "-") = true)
    by (rewrite Hy; apply (HasPrefix_app (lit "-") y)).
  rewrite (flagLoop_first_spelling (TrimSpace x) short a long a Hd1).
  unfold longSpelling in *. rewrite Hdd, Hk.
  destruct (HasPrefix a (lit "--")); reflexivity.
Qed.

(** The last spelling, followed by nothing or by a description. *)
Lemma flagLoop_last_alone :
  forall b short long,
    noBlank b = true -> TrimSpace b = b -> HasPrefix b (lit "-") = true ->
    flagLoop b short long
    = ([], if longSpelling b then short else b, if longSpelling b then b else long).
Proof.
  intros b short long Hnb Hfix Hd.
  rewrite (proj2 (flagLoop_eq _ _ _)). unfold flagTurn.
  assert (E : isEmpty b = false) by (destruct b; [discriminate | reflexivity]).
  rewrite E, Hd. unfold splitFirstToken. rewrite Hfix, (cut_none isBlankTab b Hnb).
  unfold longSpelling. reflexivity.
Qed.

Lemma flagLoop_last_desc :
  forall b ws3 d short long,
    noBlank b = true -> HasPrefix b (lit "-") = true ->
    ws3 <> [] -> blanks ws3 = true ->
    TrimSpace d = d -> d <> [] -> HasPrefix d (lit "|") = false ->
    TrimSpace (b ++ ws3 ++ d) = b ++ ws3 ++ d
    /\ flagLoop (b ++ ws3 ++ d) short long
       = (d, if longSpelling b then short else b, if longSpelling b then b else long).
Proof.
  intros b ws3 d short long Hnb Hd Hw3 Hb3 Hfix Hdne Hbar.
  destruct dash_plain as [Dp Da].
  assert (Hbne : b <> []) by (destruct b; discriminate).
  assert (HT : TrimSpace (b ++ ws3 ++ d) = b ++ ws3 ++ d).
  { rewrite app_assoc. apply (TrimSpace_join _ _ "-"%char).
    - destruct b; [congruence | discriminate].
    - apply HasPrefix_inv in Hd as [b' ->]. cbn [lit list_ascii_of_string app].
      now apply stopL_plain.
    - apply blanks_last_plain; [exact Hb3 | congruence].
    - exact Hdne.
    - exact Hfix. }
  split; [exact HT|].
  rewrite (proj2 (flagLoop_eq _ _ _)). unfold flagTurn.
  assert (E : isEmpty (b ++ ws3 ++ d) = false) by (destruct b; [congruence | reflexivity]).
  rewrite E, (HasPrefix_dash_app b _ Hbne), Hd.
  destruct ws3 as [|c ws3']; [congruence|].
  cbn [blanks forallb] in Hb3. apply andb_true_iff in Hb3 as [Hc Hb3].
  unfold splitFirstToken. rewrite HT.
  change (b ++ (c :: ws3') ++ d) with (b ++ c :: (ws3' ++ d)).
  rewrite (cut_app isBlankTab b c _ Hnb Hc).
  rewrite (TrimSpace_white_front ws3' d (blanks_white _ Hb3)), Hfix, Hbar.
  rewrite (HasPrefix_dashdash_blank b c _ Hbne Hc).
  unfold longSpelling. reflexivity.
Qed.

(** C9, as stated, fails on the code: spellings are split off at blanks
    and tabs only, so a | that follows a spelling directly belongs to that
    spelling.  In [-a|-b] the whole word is the short spelling, and in
    [-a| -b] the first word is the short spelling and the second spelling
    begins the description: in neither does the later spelling overwrite
    the earlier one. *)
Lemma C9_counterexample :
  parseFlag (lit "-a|-b Both") 1 = Ok (Flag.mk (lit "-a|-b") [] (lit "Both") 1)
  /\ parseFlag (lit "-a| -b Both") 1 = Ok (Flag.mk (lit "-a|") [] (lit "-b Both") 1)
  /\ parseFlag (lit "-a | -b Both") 1 = Ok (Flag.mk (lit "-b") [] (lit "Both") 1).
Proof. repeat split; vm_compute; reflexivity. Qed.

(** C9, amended.  When the text of a flag or option tag begins with a
    spelling [a] (a word without blank or tab that begins with a dash),
    followed by blanks or tabs, a | and, after any blanks or tabs, a text
    [x] that begins with a spelling of the same kind, the earlier spelling
    is overwritten: [consumeFlags] (the prefix parser of both tags),
    [parseFlag] and [parseOption] return on such a text what they return
    on [x] alone, whatever the spellings, the rest of the text and the
    values of the two variables are.  So when [x] is a spelling [b]
    followed by a description, the Flag record has [b], nothing of the
    other kind and the description; and when [x] is a lone spelling,
    [consumeFlags] leaves it in the variable of its kind and the other
    variable as it was. *)
Theorem C9_later_spelling_amended :
  forall a ws1 ws2 x : gostring,
    noBlank a = true -> HasPrefix a (lit "-") = true ->
    ws1 <> [] -> blanks ws1 = true -> blanks ws2 = true ->
    HasPrefix x (lit "-") = true ->
    longSpelling x = longSpelling a ->
    (forall short long,
        consumeFlags (a ++ ws1 ++ lit "|" ++ ws2 ++ x) short long
        = consumeFlags x short long)
    /\ (forall ln, parseFlag (a ++ ws1 ++ lit "|" ++ ws2 ++ x) ln = parseFlag x ln)
    /\ (forall ln, parseOption (a ++ ws1 ++ lit "|" ++ ws2 ++ x) ln = parseOption x ln)
    /\ (forall b ws3 d ln,
           x = b ++ ws3 ++ d ->
           noBlank b = true -> ws3 <> [] -> blanks ws3 = true ->
           TrimSpace d = d -> d <> [] -> HasPrefix d (lit "|") = false ->
           parseFlag (a ++ ws1 ++ lit "|" ++ ws2 ++ x) ln
           = Ok (Flag.mk (if longSpelling a then [] else b)
                         (if longSpelling a then b else []) d ln))
    /\ (noBlank x = true -> TrimSpace x = x ->
        forall short long,
          consumeFlags (a ++ ws1 ++ lit "|" ++ ws2 ++ x) short long
          = ([], if longSpelling a then short else x,
             if longSpelling a then x else long)).
Proof.
  intros a ws1 ws2 x Hna Hda Hw1 Hb1 Hb2 Hdx Hk.
  pose proof (fun s l => consumeFlags_separated a ws1 ws2 x s l
                           Hna Hda Hw1 Hb1 Hb2 Hdx Hk) as HC.
  destruct (flagLoop_separated a ws1 ws2 x [] [] Hna Hda Hw1 Hb1 Hb2 Hdx) as [HT _].
  destruct (TrimSpace_dashes x Hdx) as [[y Hy] _].
  assert (HeT : isEmpty (TrimSpace (a ++ ws1 ++ lit "|" ++ ws2 ++ x)) = false).
  { rewrite HT. destruct a; [discriminate | reflexivity]. }
  assert (Hex : isEmpty (TrimSpace x) = false) by (now rewrite Hy).
  assert (HF : forall ln, parseFlag (a ++ ws1 ++ lit "|" ++ ws2 ++ x) ln = parseFlag x ln).
  { intro ln. unfold parseFlag. cbv zeta.
    rewrite HeT, Hex, !consumeFlags_TrimSpace, HC. reflexivity. }
  split; [exact HC|]. split; [exact HF|]. split; [|split].
  - intro ln. unfold parseOption. cbv zeta.
    rewrite HeT, Hex, !consumeFlags_TrimSpace, HC. reflexivity.
  - intros b ws3 d ln Hx Hnb Hw3 Hb3 Hfix Hdne Hbar. rewrite HF.
    assert (Hbne : b <> []).
    { intros ->. subst x. destruct ws3 as [|c ws3']; [congruence|].
      cbn [blanks forallb] in Hb3. apply andb_true_iff in Hb3 as [Hc _].
      cbn [app HasPrefix lit list_ascii_of_string] in Hdx.
      apply andb_true_iff in Hdx as [Hdx _]. apply Ascii.eqb_eq in Hdx. subst c.
      discriminate. }
    assert (Hdb : HasPrefix b (lit "-") = true).
    { rewrite <- (HasPrefix_dash_app b (ws3 ++ d) Hbne), <- Hx. exact Hdx. }
    assert (Hkb : longSpelling b = longSpelling a).
    { rewrite <- Hk, Hx. unfold longSpelling.
      destruct ws3 as [|c ws3']; [congruence|].
      cbn [blanks forallb] in Hb3. apply andb_true_iff in Hb3 as [Hc _].
      symmetry. exact (HasPrefix_dashdash_blank b c (ws3' ++ d) Hbne Hc). }
    destruct (flagLoop_last_desc b ws3 d [] [] Hnb Hdb Hw3 Hb3 Hfix Hdne Hbar)
      as [HTx HL].
    unfold parseFlag. cbv zeta. rewrite Hx, !HTx.
    assert (E : isEmpty (b ++ ws3 ++ d) = false) by (destruct b; [congruence | reflexivity]).
    rewrite E. unfold consumeFlags. rewrite HTx, HL, Hfix, Hkb.
    destruct (longSpelling a); reflexivity.
  - intros Hnx Hfix short long. rewrite HC. unfold consumeFlags. rewrite Hfix.
    rewrite (flagLoop_last_alone x short long Hnx Hfix Hdx). now rewrite Hk.
Qed.

Lemma C9_witness :
  parseFlag (lit "-a" ++ lit "  " ++ lit "|" ++ [] ++ lit "-b Both") 7
  = Ok (Flag.mk (lit "-b") [] (lit "Both") 7).
Proof.
  assert (Hna : noBlank (lit "-a") = true) by reflexivity.
  assert (Hda : HasPrefix (lit "-a") (lit "-") = true) by reflexivity.
  assert (Hw1 : lit "  " <> []) by discriminate.
  assert (Hb1 : blanks (lit "  ") = true) by reflexivity.
  assert (Hb2 : blanks [] = true) by reflexivity.
  assert (Hdx : HasPrefix (lit "-b Both") (lit "-") = true) by reflexivity.
  assert (Hk : longSpelling (lit "-b Both") = longSpelling (lit "-a")) by reflexivity.
  rewrite (proj1 (proj2 (C9_later_spelling_amended _ _ _ _ Hna Hda Hw1 Hb1 Hb2 Hdx Hk)) 7%Z).
  vm_compute. reflexivity.
Defined.

(* ================================================================= *)
(** ** Padding of inline metadata lines and of tag lines (C8) *)

(** A greedy repetition finds a match whenever one of the runs it can take
    leads to one. *)
Lemma rep_complete :
  forall (A : Type) (cls : ascii -> bool) (k : gostring -> option A)
         (r rest : gostring) (m : nat),
    forallb cls r = true -> m <= length r -> k rest <> None ->
    rep cls m (r ++ rest) k <> None.
Proof.
  intros A cls k. induction r as [|c r IH]; intros rest m Hall Hm Hk.
  - simpl in Hm. assert (m = 0) by lia. subst m. cbn [app].
    destruct rest as [|c rest]; [exact Hk|].
    cbn [rep]. destruct (cls c); [|exact Hk].
    destruct (rep cls (pred 0) rest k); [discriminate | exact Hk].
  - simpl in Hall. apply andb_true_iff in Hall as [Hc Hall].
    cbn [app rep]. rewrite Hc.
    specialize (IH rest (pred m) Hall ltac:(simpl in Hm; lia) Hk).
    destruct (rep cls (pred m) (r ++ rest) k); [discriminate | congruence].
Qed.

(** Two ways of cutting a text after a run of a class, each before a
    character that is not of the class, are the same. *)
Lemma run_unique :
  forall (cls : ascii -> bool) (a a' b b' : gostring),
    forallb cls a = true -> forallb cls a' = true ->
    match b with [] => True | c :: _ => cls c = false end ->
    match b' with [] => True | c :: _ => cls c = false end ->
    a ++ b = a' ++ b' -> a = a' /\ b = b'.
Proof.
  intros cls. induction a as [|x a IH]; intros a' b b' Ha Ha' Hb Hb' E.
  - destruct a' as [|y a']; [now split|].
    cbn [app] in E. subst b. simpl in Ha'. apply andb_true_iff in Ha' as [Hy _].
    congruence.
  - destruct a' as [|y a'].
    + cbn [app] in E. subst b'. simpl in Ha. apply andb_true_iff in Ha as [Hx _].
      congruence.
    + cbn [app] in E. injection E as <- E.
      simpl in Ha, Ha'. apply andb_true_iff in Ha as [_ Ha].
      apply andb_true_iff in Ha' as [_ Ha'].
      destruct (IH a' b b' Ha Ha' Hb Hb' E) as [-> ->]. now split.
Qed.

Lemma s_not_w : forall c, cls_s c = true -> cls_w c = false.
Proof.
  intros c H. unfold cls_s in H. unfold cls_w.
  repeat (apply orb_true_iff in H as [H|H]);
    apply Nat.eqb_eq in H; now rewrite H.
Qed.

Lemma forallb_suffix :
  forall (f : ascii -> bool) a b, forallb f (a ++ b) = true -> forallb f b = true.
Proof. intros f a b H. rewrite forallb_app in H. now apply andb_true_iff in H as [_ H]. Qed.

(** What the inline metadata pattern matches. *)
Lemma inline_inv :
  forall l m,
    FindStringSubmatch reShedocInline l = Some m ->
    exists tag sep v,
      l = lit "#?/" ++ tag ++ sep ++ v
      /\ wordChars tag = true
      /\ sep <> [] /\ forallb cls_s sep = true
      /\ v <> [] /\ oneLine v = true
      /\ m = [tag; v].
Proof.
  intros l m H. unfold FindStringSubmatch, reShedocInline in H. cbn [run] in H.
  destruct (dropPrefix (lit "#?/") l) as [s1|] eqn:Ed; [|discriminate].
  apply dropPrefix_inv in Ed. subst l.
  apply rep_inv in H. destruct H as [tag [s2 [-> [Htag [Hl1 H]]]]].
  apply rep_inv in H. destruct H as [sep [s3 [-> [Hsep [Hl2 H]]]]].
  apply rep_inv in H. destruct H as [v [s4 [-> [Hv [Hl3 H]]]]].
  destruct s4; [|discriminate]. injection H as <-.
  exists tag, sep, v. rewrite app_nil_r.
  split; [reflexivity|]. split.
  { unfold wordChars. rewrite Htag. destruct tag; [simpl in Hl1; lia | reflexivity]. }
  split; [intros ->; simpl in Hl2; lia|]. split; [exact Hsep|].
  split; [intros ->; simpl in Hl3; lia|]. split; [exact Hv|].
  cbn [app length]. rewrite Nat.sub_0_r, firstn_all.
  now rewrite (firstn_minus_app tag (sep ++ v)).
Qed.

Lemma inline_matches :
  forall tag sep v,
    wordChars tag = true -> sep <> [] -> forallb cls_s sep = true ->
    v <> [] -> oneLine v = true ->
    FindStringSubmatch reShedocInline (lit "#?/" ++ tag ++ sep ++ v) <> None.
Proof.
  intros tag sep v Ht Hs Hsep Hv Hov.
  unfold wordChars in Ht. apply andb_true_iff in Ht as [Htne Htw].
  apply negb_true_iff, isEmpty_false in Htne.
  unfold FindStringSubmatch, reShedocInline. cbn [run]. rewrite dropPrefix_app.
  apply rep_complete; [exact Htw | destruct tag; [congruence | simpl; lia] |].
  apply rep_complete; [exact Hsep | destruct sep; [congruence | simpl; lia] |].
  rewrite <- (app_nil_r v) at 1.
  apply rep_complete; [exact Hov | destruct v; [congruence | simpl; lia] |].
  discriminate.
Qed.

(** The line of an inline metadata tag: the field is set to the trimmed
    value, whichever way the pattern shares the white space out. *)
Lemma handleTop_inline_line :
  forall p tag sep v,
    wordChars tag = true -> sep <> [] -> forallb cls_s sep = true ->
    v <> [] -> oneLine v = true ->
    handleTop p (lit "#?/" ++ tag ++ sep ++ v) = setShedocMeta tag (TrimSpace v) p.
Proof.
  intros p tag sep v Ht Hs Hsep Hv Hov.
  pose proof (inline_matches tag sep v Ht Hs Hsep Hv Hov) as Hm.
  unfold handleTop.
  change (FindStringSubmatch reShebang (lit "#?/" ++ tag ++ sep ++ v))
    with (@None (list gostring)).
  destruct (FindStringSubmatch reShedocInline (lit "#?/" ++ tag ++ sep ++ v))
    as [m|] eqn:E; [|congruence].
  destruct (inline_inv _ _ E) as [W [S [R [El [HW [HS [HSs [HR [HoR ->]]]]]]]]].
  apply app_inv_head in El.
  unfold wordChars in Ht, HW.
  apply andb_true_iff in Ht as [_ Htw]. apply andb_true_iff in HW as [_ HWw].
  assert (Hhd : forall (s : gostring) z, s <> [] -> forallb cls_s s = true ->
                  match s ++ z with [] => True | c :: _ => cls_w c = false end).
  { intros [|c s] z Hne Hall; [congruence|]. simpl in Hall.
    apply andb_true_iff in Hall as [Hc _]. cbn [app]. now apply s_not_w. }
  destruct (run_unique cls_w tag W (sep ++ v) (S ++ R) Htw HWw
              (Hhd sep v Hs Hsep) (Hhd S R HS HSs) El) as [<- E2].
  change (sub [tag; R] 1) with tag. change (sub [tag; R] 2) with R.
  f_equal.
  apply app_eq_app in E2. destruct E2 as [w [[E1 E2]|[E1 E2]]].
  - rewrite E2. apply TrimSpace_white_front. apply s_white.
    rewrite E1 in Hsep. exact (forallb_suffix _ _ _ Hsep).
  - rewrite E2. symmetry. apply TrimSpace_white_front. apply s_white.
    rewrite E1 in HSs. exact (forallb_suffix _ _ _ HSs).
Qed.

Lemma handleTop_inline_padded :
  forall p tag sep v ws1 ws2,
    wordChars tag = true -> sep <> [] -> forallb cls_s sep = true ->
    v <> [] -> oneLine v = true ->
    blanks ws1 = true -> blanks ws2 = true ->
    handleTop p (lit "#?/" ++ tag ++ sep ++ ws1 ++ v ++ ws2)
    = handleTop p (lit "#?/" ++ tag ++ sep ++ v).
Proof.
  intros p tag sep v ws1 ws2 Ht Hs Hsep Hv Hov H1 H2.
  rewrite (handleTop_inline_line p tag sep v Ht Hs Hsep Hv Hov).
  replace (lit "#?/" ++ tag ++ sep ++ ws1 ++ v ++ ws2)
    with (lit "#?/" ++ tag ++ (sep ++ ws1) ++ (v ++ ws2))
    by (now rewrite <- !app_assoc).
  rewrite handleTop_inline_line.
  - now rewrite TrimSpace_blanks_back.
  - exact Ht.
  - destruct sep; [congruence | discriminate].
  - rewrite forallb_app, Hsep. now apply blanks_s.
  - destruct v; [congruence | discriminate].
  - rewrite oneLine_app, Hov. now apply blanks_dot.
Qed.

(** A line that begins with the metadata sigil is handled by [handleTop]
    in every state. *)
Lemma step_sigil_line :
  forall p x x',
    (forall q, handleTop q (lit "#?/" ++ x') = handleTop q (lit "#?/" ++ x)) ->
    step p (lit "#?/" ++ x') = step p (lit "#?/" ++ x).
Proof.
  intros p x x' H. unfold step. cbv zeta.
  destruct (state (set_line (int_succ (line p)) p)).
  - now rewrite H.
  - unfold handleShedoc.
    change (MatchString reBlockClose (lit "#?/" ++ x')) with false.
    change (MatchString reBlockClose (lit "#?/" ++ x)) with false.
    change (FindStringSubmatch reContinuation (lit "#?/" ++ x'))
      with (@None (list gostring)).
    change (FindStringSubmatch reContinuation (lit "#?/" ++ x))
      with (@None (list gostring)).
    now rewrite H.
  - unfold handleSheblock.
    change (MatchString reBlockClose (lit "#?/" ++ x')) with false.
    change (MatchString reBlockClose (lit "#?/" ++ x)) with false.
    change (FindStringSubmatch reContinuation (lit "#?/" ++ x'))
      with (@None (list gostring)).
    change (FindStringSubmatch reContinuation (lit "#?/" ++ x))
      with (@None (list gostring)).
    cbv iota. destruct (finalizeCurrentTag _); [|reflexivity].
    cbn [bind]. now rewrite H.
Qed.

Lemma ParseReader_same_step :
  forall pre post l l',
    step (reach pre) l' = step (reach pre) l ->
    ParseReader (pre ++ l' :: post) = ParseReader (pre ++ l :: post).
Proof.
  intros pre post l l' H. unfold ParseReader, parse.
  rewrite !scan_reach. cbn [scan]. now rewrite H.
Qed.

(** *** Tag lines *)

Lemma continuation_oneLine :
  forall l m,
    FindStringSubmatch reContinuation l = Some m ->
    exists x, l = lit " #" ++ x /\ oneLine x = true.
Proof.
  intros l m H. unfold FindStringSubmatch in H. rewrite run_continuation in H.
  destruct (dropPrefix (lit " #") l) as [x|] eqn:Ed; [|discriminate].
  apply dropPrefix_inv in Ed. exists x. split; [exact Ed|].
  cbv zeta in H.
  assert (K : forall y res,
             run (Cap (Rep cls_dot 0) ;; Eot) y [] (fun _ caps0 => Some caps0) = Some res ->
             oneLine y = true).
  { intros y res Hy. cbn [run] in Hy.
    apply rep_inv in Hy. destruct Hy as [r [rest [-> [Hr [_ Hy]]]]].
    destruct rest; [|discriminate]. now rewrite app_nil_r. }
  destruct x as [|c x']; [reflexivity|].
  destruct (Ascii.eqb_spec " " c) as [<-|].
  - destruct (run (Cap (Rep cls_dot 0) ;; Eot) x' [] (fun _ caps0 => Some caps0))
      as [res|] eqn:E.
    + unfold oneLine. cbn [forallb]. apply (K _ _ E).
    + exact (K _ _ H).
  - exact (K _ _ H).
Qed.

Lemma splitTag_TrimSpace :
  forall c c', TrimSpace c' = TrimSpace c -> splitTag c' = splitTag c.
Proof. intros c c' H. unfold splitTag. now rewrite H. Qed.

Lemma splitTag_hd :
  forall x r, splitTag x = Some r -> hd " "%char x <> "#"%char.
Proof.
  intros [|c x] r H; [discriminate|]. cbn [hd]. intros ->.
  unfold splitTag in H.
  destruct (TrimSpace_plain_hd "#"%char x eq_refl eq_refl) as [y Hy].
  rewrite Hy in H. discriminate.
Qed.

Lemma white_hd :
  forall u z, TrimLeft u = [] -> hd " "%char (u ++ "@"%char :: z) <> "#"%char.
Proof.
  intros [|c u] z H; [discriminate|]. cbn [app hd]. intros ->.
  rewrite (stopL_TrimLeft _ (stopL_plain "#"%char u eq_refl eq_refl)) in H.
  discriminate.
Qed.

(** The tag of a line that begins with the continuation prefix, in terms
    of the rest of the line. *)
Lemma tagOfLine_rest :
  forall y,
    oneLine y = true -> hd " "%char y <> "#"%char ->
    tagOfLine (lit " #" ++ y) = splitTag y.
Proof.
  intros y Hy Hh. unfold tagOfLine, continuationContent.
  rewrite (close_none y Hh), (continuation_match y Hy).
  change (sub [?c] 1) with c.
  destruct y as [|c y']; [reflexivity|].
  destruct (Ascii.eqb_spec " " c) as [<-|]; [|reflexivity].
  apply splitTag_TrimSpace. symmetry. now apply TrimSpace_blank_front.
Qed.

Lemma tagOfLine_form :
  forall l n t,
    tagOfLine l = Some (n, t) ->
    exists x, l = lit " #" ++ x /\ oneLine x = true /\ splitTag x = Some (n, t).
Proof.
  intros l n t H. unfold tagOfLine, continuationContent in H.
  destruct (MatchString reBlockClose l); [discriminate|].
  destruct (FindStringSubmatch reContinuation l) as [m|] eqn:E; [|discriminate].
  destruct (continuation_oneLine l m E) as [x [-> Hx]].
  exists x. split; [reflexivity|]. split; [exact Hx|].
  destruct (continuation_inv _ _ E) as [x0 [E0 Hm]].
  apply app_inv_head in E0. subst x0.
  destruct Hm as [->|[x' [-> ->]]]; [exact H|].
  change (sub [x'] 1) with x' in H. rewrite <- H.
  apply splitTag_TrimSpace. now apply TrimSpace_blank_front.
Qed.

Lemma tagOfLine_outer_padding :
  forall x n t ws0 ws2,
    oneLine x = true -> splitTag x = Some (n, t) ->
    blanks ws0 = true -> blanks ws2 = true ->
    tagOfLine (lit " #" ++ ws0 ++ x ++ ws2) = Some (n, t).
Proof.
  intros x n t ws0 ws2 Hx Hs H0 H2.
  rewrite tagOfLine_rest.
  - rewrite <- Hs. apply splitTag_TrimSpace. now apply TrimSpace_padded.
  - rewrite !oneLine_app, Hx, (blanks_dot _ H0), (blanks_dot _ H2). reflexivity.
  - destruct ws0 as [|c ws0].
    + cbn [app]. pose proof (splitTag_hd x _ Hs) as Hh.
      destruct x; [discriminate | exact Hh].
    + cbn [app hd]. simpl in H0. apply andb_true_iff in H0 as [Hc _].
      intros ->. discriminate.
Qed.

(** The tag of a content that begins with the tag sign: the white space
    between the name and the text does not matter. *)
Lemma splitTag_gap :
  forall n sep text,
    noBlank n = true -> sep <> [] -> blanks sep = true ->
    splitTag ("@"%char :: n ++ sep ++ text)
    = if isEmpty (TrimRight text) then splitTag ("@"%char :: n)
      else Some (n, TrimSpace (TrimRight text)).
Proof.
  intros n sep text Hn Hs Hb.
  assert (At : (code "@"%char <? 128) = true /\ asciiSpace "@"%char = false)
    by (split; reflexivity).
  destruct At as [Ap Aa].
  assert (HT : TrimSpace ("@"%char :: n ++ sep ++ text)
               = if isEmpty (TrimRight text) then TrimSpace ("@"%char :: n)
                 else "@"%char :: n ++ sep ++ TrimRight text).
  { unfold TrimSpace.
    rewrite !(stopL_TrimLeft _ (stopL_plain "@"%char _ Ap Aa)).
    unfold TrimRight.
    change ("@"%char :: n ++ sep ++ text) with (("@"%char :: n) ++ sep ++ text).
    rewrite !rev_app_distr, <- app_assoc.
    pose proof (blanks_rev _ Hb) as Hrb.
    destruct (rev sep) as [|c S'] eqn:Er.
    { apply (f_equal (@rev ascii)) in Er. rewrite rev_involutive in Er. now elim Hs. }
    assert (Hc : (code c <? 128) = true).
    { simpl in Hrb. apply andb_true_iff in Hrb as [Hc _]. now apply blank_plain. }
    cbn [app].
    rewrite (TrimRightRev_app_plain _ (rev text) c _ (le_n _) Hc).
    destruct (TrimRightRev (rev text)) as [|z zs] eqn:Ez.
    - change (rev []) with (@nil ascii). cbn [isEmpty].
      change (c :: S' ++ rev ("@"%char :: n)) with ((c :: S') ++ rev ("@"%char :: n)).
      now rewrite (TrimRightRev_blanks _ _ Hrb).
    - assert (Ene : isEmpty (rev (z :: zs)) = false).
      { destruct (rev (z :: zs)) eqn:E; [|reflexivity].
        apply (f_equal (@rev ascii)) in E. rewrite rev_involutive in E. discriminate. }
      rewrite Ene. cbn [isEmpty].
      change ((z :: zs) ++ c :: S' ++ rev ("@"%char :: n))
        with ((z :: zs) ++ (c :: S') ++ rev ("@"%char :: n)).
      rewrite <- Er, !rev_app_distr, !rev_involutive.
      now rewrite <- app_assoc. }
  unfold splitTag at 1. rewrite HT.
  destruct (isEmpty (TrimRight text)) eqn:E; [reflexivity|].
  cbn [HasPrefix lit list_ascii_of_string]. rewrite Ascii.eqb_refl, HasPrefix_nil.
  cbn [andb negb skipn].
  destruct sep as [|c sep']; [congruence|].
  simpl in Hb. apply andb_true_iff in Hb as [Hc Hb].
  change (n ++ (c :: sep') ++ TrimRight text) with (n ++ c :: (sep' ++ TrimRight text)).
  rewrite (cut_app isBlankTab n c _ Hn Hc).
  now rewrite (TrimSpace_white_front sep' _ (blanks_white _ Hb)).
Qed.

Lemma tagOfLine_inner_padding :
  forall u n sep sep' text,
    TrimLeft u = [] -> noBlank n = true -> oneLine (u ++ n ++ text) = true ->
    sep <> [] -> blanks sep = true -> sep' <> [] -> blanks sep' = true ->
    tagOfLine (lit " #" ++ u ++ lit "@" ++ n ++ sep' ++ text)
    = tagOfLine (lit " #" ++ u ++ lit "@" ++ n ++ sep ++ text)
    /\ isTagLine (lit " #" ++ u ++ lit "@" ++ n ++ sep ++ text) = true.
Proof.
  intros u n sep sep' text Hu Hn Hline Hs Hb Hs' Hb'.
  rewrite !oneLine_app in Hline.
  apply andb_true_iff in Hline as [Hou Hline]. apply andb_true_iff in Hline as [Hon Hot].
  assert (Hrest : forall s, s <> [] -> blanks s = true ->
             tagOfLine (lit " #" ++ u ++ lit "@" ++ n ++ s ++ text)
             = if isEmpty (TrimRight text) then splitTag ("@"%char :: n)
               else Some (n, TrimSpace (TrimRight text))).
  { intros s Hne Hbs. rewrite tagOfLine_rest.
    - rewrite <- (splitTag_gap n s text Hn Hne Hbs).
      apply splitTag_TrimSpace. now apply TrimSpace_white_front.
    - rewrite !oneLine_app, Hou, Hon, Hot, (blanks_dot _ Hbs). reflexivity.
    - now apply white_hd. }
  rewrite (Hrest sep Hs Hb), (Hrest sep' Hs' Hb'). split; [reflexivity|].
  unfold isTagLine. rewrite (Hrest sep Hs Hb).
  destruct (isEmpty (TrimRight text)); [|reflexivity].
  unfold splitTag.
  destruct (TrimSpace_plain_hd "@"%char n eq_refl eq_refl) as [y ->].
  cbn [HasPrefix lit list_ascii_of_string]. rewrite Ascii.eqb_refl, HasPrefix_nil.
  cbn [andb negb]. now destruct (cut isBlankTab (skipn 1 ("@"%char :: y))) as [[? ?]|].
Qed.

Lemma step_same_tag :
  forall p l l',
    isTagLine l = true -> tagOfLine l' = tagOfLine l ->
    handleSheblock p l' = handleSheblock p l
    /\ (state p = stateSheblock -> step p l' = step p l).
Proof.
  intros p l l' Hl E. unfold isTagLine in Hl.
  destruct (tagOfLine l) as [[n t]|] eqn:Et; [|discriminate].
  assert (H : forall q, handleSheblock q l' = handleSheblock q l).
  { intro q. now rewrite (handleSheblock_tag_line q l' n t E),
               (handleSheblock_tag_line q l n t Et). }
  split; [apply H|]. intro Hst. unfold step. cbv zeta.
  change (state (set_line (int_succ (line p)) p)) with (state p). rewrite Hst.
  apply H.
Qed.

(** The parts of a tag line: white space, the tag sign, the name and the
    rest, which begins with a blank or a tab when the tag has a text. *)
Lemma tagOfLine_parts :
  forall l n t,
    tagOfLine l = Some (n, t) ->
    exists u rest,
      l = lit " #" ++ u ++ lit "@" ++ n ++ rest
      /\ TrimLeft u = [] /\ noBlank n = true
      /\ oneLine (u ++ n ++ rest) = true
      /\ (t <> [] -> exists c r, rest = c :: r /\ isBlankTab c = true).
Proof.
  intros l n t H.
  destruct (tagOfLine_form l n t H) as [x [-> [Hx Hs]]].
  destruct (TrimLeft_spec _ x (le_n _)) as [_ [u [Hu Hw]]].
  destruct (TrimRightRev_spec _ (rev (TrimLeft x)) (le_n _)) as [_ [q Hq]].
  assert (Hx' : x = u ++ TrimSpace x ++ rev q).
  { rewrite Hu at 1. f_equal. unfold TrimSpace, TrimRight.
    rewrite <- rev_app_distr, <- Hq. now rewrite rev_involutive. }
  unfold splitTag in Hs.
  destruct (HasPrefix (TrimSpace x) (lit "@")) eqn:Hp; [|discriminate].
  apply HasPrefix_inv in Hp as [rest0 Hp]. cbn [negb] in Hs.
  rewrite Hp in Hs, Hx'. change (skipn 1 (lit "@" ++ rest0)) with rest0 in Hs.
  assert (Hline : forall a b, x = u ++ (lit "@" ++ a) ++ b -> oneLine (u ++ a ++ b) = true).
  { intros a b E. rewrite E in Hx. rewrite !oneLine_app in *.
    apply andb_true_iff in Hx as [H1 H2]. apply andb_true_iff in H2 as [H2 H3].
    apply andb_true_iff in H2 as [_ H2]. now rewrite H1, H2, H3. }
  destruct (cut isBlankTab rest0) as [[n' r]|] eqn:Hc.
  - injection Hs as <- <-.
    destruct (cut_inv _ _ _ _ Hc) as [c [Hcb [-> Hn]]].
    exists u, (c :: r ++ rev q). split; [|split; [exact Hw | split; [exact Hn|split]]].
    + f_equal. rewrite Hx' at 1. f_equal.
      rewrite <- !app_assoc. reflexivity.
    + apply (Hline (n' ++ c :: r) (rev q)) in Hx'.
      now rewrite <- app_assoc in Hx'.
    + intros _. now exists c, (r ++ rev q).
  - injection Hs as <- <-.
    exists u, (rev q). split; [|split; [exact Hw | split; [|split]]].
    + f_equal. rewrite Hx' at 1. reflexivity.
    + now apply cut_None_inv.
    + now apply Hline.
    + congruence.
Qed.

(** C8, amended.  An inline metadata line is the sigil, a tag of word
    characters, white space, and a value that is not empty; on every such
    line [handleTop] sets the field to the trimmed value, so blanks and
    tabs added after the line or between the tag and the value never
    affect the result: in every state the parser makes the same step on
    the padded line, and the Document of an input is the same with the
    padded line in place of the line.  A tag line is the continuation
    prefix followed by a text whose trimmed form begins with the tag sign:
    white space, the tag sign, the name, and a rest that begins with a
    blank or a tab when the tag has a text.  Blanks and tabs added after a
    tag line, between the continuation prefix and the rest, or between the
    tag name and the text leave the tag name and the tag text as they are
    (whatever white space comes before the tag sign, whatever the name
    and the text), and in a documentation block
    two lines with the same tag name and text lead to the same step and
    to the same Document.  (White space in front of the sigil or of the
    continuation prefix is significant: the line is then not
    recognised.) *)
Theorem C8_padding_amended :
  (forall l,
      MatchString reShedocInline l = true ->
      exists tag sep v,
        l = lit "#?/" ++ tag ++ sep ++ v
        /\ wordChars tag = true /\ sep <> [] /\ forallb cls_s sep = true
        /\ v <> [] /\ oneLine v = true)
  /\ (forall tag sep v,
         wordChars tag = true -> sep <> [] -> forallb cls_s sep = true ->
         v <> [] -> oneLine v = true ->
         MatchString reShedocInline (lit "#?/" ++ tag ++ sep ++ v) = true
         /\ (forall p, handleTop p (lit "#?/" ++ tag ++ sep ++ v)
                       = setShedocMeta tag (TrimSpace v) p)
         /\ forall ws1 ws2,
             blanks ws1 = true -> blanks ws2 = true ->
             (forall p, handleTop p (lit "#?/" ++ tag ++ sep ++ ws1 ++ v ++ ws2)
                        = handleTop p (lit "#?/" ++ tag ++ sep ++ v))
             /\ (forall p, step p (lit "#?/" ++ tag ++ sep ++ ws1 ++ v ++ ws2)
                           = step p (lit "#?/" ++ tag ++ sep ++ v))
             /\ (forall pre post,
                    ParseReader (pre ++ (lit "#?/" ++ tag ++ sep ++ ws1 ++ v ++ ws2) :: post)
                    = ParseReader (pre ++ (lit "#?/" ++ tag ++ sep ++ v) :: post)))
  /\ (forall l n t,
         tagOfLine l = Some (n, t) ->
         exists x, l = lit " #" ++ x /\ oneLine x = true /\ splitTag x = Some (n, t))
  /\ (forall x n t ws0 ws2,
         oneLine x = true -> splitTag x = Some (n, t) ->
         blanks ws0 = true -> blanks ws2 = true ->
         tagOfLine (lit " #" ++ ws0 ++ x ++ ws2) = Some (n, t))
  /\ (forall l n t,
         tagOfLine l = Some (n, t) ->
         exists u rest,
           l = lit " #" ++ u ++ lit "@" ++ n ++ rest
           /\ TrimLeft u = [] /\ noBlank n = true
           /\ oneLine (u ++ n ++ rest) = true
           /\ (t <> [] -> exists c r, rest = c :: r /\ isBlankTab c = true))
  /\ (forall u n sep sep' text,
         TrimLeft u = [] -> noBlank n = true -> oneLine (u ++ n ++ text) = true ->
         sep <> [] -> blanks sep = true -> sep' <> [] -> blanks sep' = true ->
         tagOfLine (lit " #" ++ u ++ lit "@" ++ n ++ sep' ++ text)
         = tagOfLine (lit " #" ++ u ++ lit "@" ++ n ++ sep ++ text)
         /\ isTagLine (lit " #" ++ u ++ lit "@" ++ n ++ sep ++ text) = true)
  /\ (forall l l',
         isTagLine l = true -> tagOfLine l' = tagOfLine l ->
         (forall p, handleSheblock p l' = handleSheblock p l)
         /\ (forall p, state p = stateSheblock -> step p l' = step p l)
         /\ (forall pre post,
                state (reach pre) = stateSheblock ->
                ParseReader (pre ++ l' :: post) = ParseReader (pre ++ l :: post))).
Proof.
  split; [|split; [|split; [|split; [|split; [|split]]]]].
  - intros l H. unfold MatchString in H.
    destruct (FindStringSubmatch reShedocInline l) as [m|] eqn:E; [|discriminate].
    destruct (inline_inv _ _ E) as [tag [sep [v [H1 [H2 [H3 [H4 [H5 [H6 _]]]]]]]]].
    exists tag, sep, v. now repeat split.
  - intros tag sep v Ht Hs Hsep Hv Hov. split; [|split].
    + unfold MatchString.
      pose proof (inline_matches tag sep v Ht Hs Hsep Hv Hov) as Hm.
      now destruct (FindStringSubmatch reShedocInline (lit "#?/" ++ tag ++ sep ++ v)).
    + intro p. now apply handleTop_inline_line.
    + intros ws1 ws2 H1 H2.
      assert (H : forall p, handleTop p (lit "#?/" ++ tag ++ sep ++ ws1 ++ v ++ ws2)
                            = handleTop p (lit "#?/" ++ tag ++ sep ++ v))
        by (intro p; now apply handleTop_inline_padded).
      assert (Hstep : forall p, step p (lit "#?/" ++ tag ++ sep ++ ws1 ++ v ++ ws2)
                                = step p (lit "#?/" ++ tag ++ sep ++ v))
        by (intro p; now apply step_sigil_line).
      split; [exact H|]. split; [exact Hstep|].
      intros pre post. apply ParseReader_same_step. apply Hstep.
  - exact tagOfLine_form.
  - exact tagOfLine_outer_padding.
  - exact tagOfLine_parts.
  - exact tagOfLine_inner_padding.
  - intros l l' Hl E. split; [|split].
    + intro p. exact (proj1 (step_same_tag p l l' Hl E)).
    + intro p. exact (proj2 (step_same_tag p l l' Hl E)).
    + intros pre post Hst. apply ParseReader_same_step.
      exact (proj2 (step_same_tag _ l l' Hl E) Hst).
Qed.

Lemma C8_witness :
  handleTop newParser
    (lit "#?/" ++ lit "author" ++ lit " " ++ lit "  "
       ++ (ascii_of_nat 195 :: ascii_of_nat 137 :: lit "tienne") ++ lit "   ")
  = handleTop newParser
      (lit "#?/" ++ lit "author" ++ lit " "
         ++ (ascii_of_nat 195 :: ascii_of_nat 137 :: lit "tienne"))
  /\ tagOfLine (lit " #" ++ lit "   " ++ lit "@stdout" ++ lit "  ")
     = Some (lit "stdout", []).
Proof.
  pose (v := ascii_of_nat 195 :: ascii_of_nat 137 :: lit "tienne").
  assert (Ht : wordChars (lit "author") = true) by reflexivity.
  assert (Hs : lit " " <> []) by discriminate.
  assert (Hsep : forallb cls_s (lit " ") = true) by reflexivity.
  assert (Hv : v <> []) by discriminate.
  assert (Hov : oneLine v = true) by reflexivity.
  assert (H1 : blanks (lit "  ") = true) by reflexivity.
  assert (H2 : blanks (lit "   ") = true) by reflexivity.
  assert (Hx : oneLine (lit "@stdout") = true) by reflexivity.
  assert (Hsp : splitTag (lit "@stdout") = Some (lit "stdout", []))
    by (vm_compute; reflexivity).
  split.
  - exact (proj1 (proj2 (proj2 (proj1 (proj2 C8_padding_amended)
                                  _ _ v Ht Hs Hsep Hv Hov)) _ _ H1 H2) newParser).
  - exact (proj1 (proj2 (proj2 (proj2 C8_padding_amended))) _ _ _ _ _ Hx Hsp H2 H1).
Defined.
